(** * GraphAssignment: an undirected weighted graph, its algorithms and their
    supporting containers, embedded from the C++ sources.

    The C++ [int] is modelled as [Z]; the operations that can leave the
    32-bit range are checked and report a fault.  Arrays are lists indexed by
    [Z]; an access outside the array is a fault, as is a negative length given
    to [new T[n]].  Every operation returns an [outcome]: a value, a thrown
    [GraphException], a fault, or [Timeout] when a loop budget runs out. *)

From Stdlib Require Import ZArith String Lia Sorted.
From stdpp Require Import list.

Local Open Scope Z_scope.

(** ** Exceptions and outcomes *)

(** GraphException.h: one exception class carrying a message.  Each
    constructor stands for one [throw] site message of the sources. *)
Inductive GraphException : Set :=
| VertexIndexOutOfBounds
| QueueIsFull
| QueueIsEmpty
| PQCapacityMustBePositive
| PQIsFull
| PQIsEmpty.

Definition what (e : GraphException) : string :=
  match e with
  | VertexIndexOutOfBounds => "Vertex index out of bounds"
  | QueueIsFull => "Queue is full"
  | QueueIsEmpty => "Queue is empty"
  | PQCapacityMustBePositive => "Priority Queue capacity must be positive"
  | PQIsFull => "Priority Queue is full"
  | PQIsEmpty => "Priority Queue is empty"
  end.

(** The four conditions under which the library raises its exception. *)
Inductive ErrorKind : Set :=
| InvalidArgument
| OutOfRange
| CapacityExceeded
| EmptyCollection.

Definition kind (e : GraphException) : ErrorKind :=
  match e with
  | VertexIndexOutOfBounds => OutOfRange
  | QueueIsFull | PQIsFull => CapacityExceeded
  | QueueIsEmpty | PQIsEmpty => EmptyCollection
  | PQCapacityMustBePositive => InvalidArgument
  end.

(** What goes wrong without a GraphException: an array access outside its
    bounds and a signed overflow are undefined behaviour in C++;
    [new T[n]] with a negative [n] throws [std::bad_array_new_length]. *)
Inductive fault : Set :=
| OutOfBoundsAccess
| SignedOverflow
| BadArrayNewLength.

Inductive outcome (A : Type) : Type :=
| Ok (a : A)
| Throw (e : GraphException)
| Fault (f : fault)
| Timeout.

Arguments Ok {A} a.
Arguments Throw {A} e.
Arguments Fault {A} f.
Arguments Timeout {A}.

Definition bind {A B : Type} (m : outcome A) (k : A -> outcome B) : outcome B :=
  match m with
  | Ok a => k a
  | Throw e => Throw e
  | Fault f => Fault f
  | Timeout => Timeout
  end.

Notation "'let*' x ':=' m 'in' k" := (bind m (fun x => k))
  (at level 10, x pattern, m at level 200, k at level 200,
   format "'[v' 'let*'  x  :=  m  'in' '/' k ']'").

(** A [for] loop over the elements of a sequence, threading the state. *)
Fixpoint foldM {A S : Type} (f : S -> A -> outcome S) (l : list A) (s : S)
  : outcome S :=
  match l with
  | [] => Ok s
  | x :: t => let* s' := f s x in foldM f t s'
  end.

(** ** Machine integers and arrays *)

Definition INT_MAX : Z := 2147483647.
Definition INT_MIN : Z := -2147483648.

Definition in_int (x : Z) : bool := (INT_MIN <=? x) && (x <=? INT_MAX).

Definition int_add (a b : Z) : outcome Z :=
  if in_int (a + b) then Ok (a + b) else Fault SignedOverflow.

Definition int_sub (a b : Z) : outcome Z :=
  if in_int (a - b) then Ok (a - b) else Fault SignedOverflow.

(** What a 32-bit two's complement [int] holds when the exact result is
    [x]: the compiled program does not stop at a sum outside the range, it
    goes on with this value. *)
Definition wrap (x : Z) : Z := (x + 2 ^ 31) mod 2 ^ 32 - 2 ^ 31.

(** [new T[n]] with every slot holding [d]. *)
Definition new_array {A : Type} (n : Z) (d : A) : outcome (list A) :=
  if n <? 0 then Fault BadArrayNewLength else Ok (replicate (Z.to_nat n) d).

Definition in_bounds {A : Type} (a : list A) (i : Z) : bool :=
  (0 <=? i) && (i <? Z.of_nat (length a)).

(** [a[i]] *)
Definition aget {A : Type} (a : list A) (i : Z) : outcome A :=
  if in_bounds a i then
    match a !! Z.to_nat i with
    | Some x => Ok x
    | None => Fault OutOfBoundsAccess
    end
  else Fault OutOfBoundsAccess.

(** [a[i] = x] *)
Definition aset {A : Type} (a : list A) (i : Z) (x : A) : outcome (list A) :=
  if in_bounds a i then Ok (<[Z.to_nat i := x]> a) else Fault OutOfBoundsAccess.

(** [graph::swap(a[i], a[j])] *)
Definition aswap {A : Type} (a : list A) (i j : Z) : outcome (list A) :=
  let* x := aget a i in
  let* y := aget a j in
  let* a1 := aset a i y in
  aset a1 j x.

(** The indices [0, 1, ..., n-1] of a counting loop. *)
Definition upto (n : Z) : list Z := map Z.of_nat (seq 0 (Z.to_nat n)).

(** ** Graph (Graph.h, Graph.cpp) *)

(** [struct Neighbor]; the private [Node] of an adjacency list carries the
    same two fields, its [next] pointer is the tail of the list. *)
Record Neighbor : Set := mkNeighbor { vertex : Z; weight : Z }.

Record Graph : Set := mkGraph {
  numVertices : Z;
  adjacencyList : list (list Neighbor)
}.

Definition Graph_new (vertices : Z) : outcome Graph :=
  let* adj := new_array vertices [] in
  Ok (mkGraph vertices adj).

Definition valid_vertex (g : Graph) (v : Z) : bool :=
  (0 <=? v) && (v <? numVertices g).

(** Head insertion into the list of vertex [src]. *)
Definition push_front (src : Z) (x : Neighbor) (adj : list (list Neighbor))
  : list (list Neighbor) :=
  alter (cons x) (Z.to_nat src) adj.

Definition addEdge (g : Graph) (src dest w : Z) : outcome Graph :=
  if (src <? 0) || (src >=? numVertices g) || (dest <? 0) || (dest >=? numVertices g)
  then Throw VertexIndexOutOfBounds
  else
    let adj1 := push_front src (mkNeighbor dest w) (adjacencyList g) in
    let adj2 := push_front dest (mkNeighbor src w) adj1 in
    Ok (mkGraph (numVertices g) adj2).

(** The pointer-to-pointer walk of removeEdge: unlink the first node whose
    vertex is [dest], if there is one. *)
Fixpoint unlink_first (dest : Z) (l : list Neighbor) : list Neighbor :=
  match l with
  | [] => []
  | x :: t => if vertex x =? dest then t else x :: unlink_first dest t
  end.

Definition removeEdge (g : Graph) (src dest : Z) : outcome Graph :=
  if (src <? 0) || (src >=? numVertices g) || (dest <? 0) || (dest >=? numVertices g)
  then Throw VertexIndexOutOfBounds
  else
    let adj1 := alter (unlink_first dest) (Z.to_nat src) (adjacencyList g) in
    let adj2 := alter (unlink_first src) (Z.to_nat dest) adj1 in
    Ok (mkGraph (numVertices g) adj2).

Definition getVertexCount (g : Graph) : Z := numVertices g.

(** The snapshot array; its [count] is the length of the list. *)
Definition getNeighbors (g : Graph) (v : Z) : outcome (list Neighbor) :=
  if (v <? 0) || (v >=? numVertices g) then Throw VertexIndexOutOfBounds
  else aget (adjacencyList g) v.

(** ** Queue (Queue.h, Queue.cpp) *)

Module Queue.

Record t : Set := mk {
  data : list Z;
  front : Z;
  rear : Z;
  capacity : Z;
  count : Z
}.

Definition new (size : Z) : outcome t :=
  let* d := new_array size 0 in
  Ok (mk d 0 (-1) size 0).

Definition isEmpty (q : t) : bool := count q =? 0.

Definition enqueue (q : t) (value : Z) : outcome t :=
  if count q =? capacity q then Throw QueueIsFull
  else
    let rear' := Z.rem (rear q + 1) (capacity q) in
    let* d := aset (data q) rear' value in
    Ok (mk d (front q) rear' (capacity q) (count q + 1)).

Definition dequeue (q : t) : outcome (Z * t) :=
  if isEmpty q then Throw QueueIsEmpty
  else
    let* value := aget (data q) (front q) in
    Ok (value, mk (data q) (Z.rem (front q + 1) (capacity q)) (rear q)
                  (capacity q) (count q - 1)).

End Queue.

(** ** PriorityQueue (PriorityQueue.h, second part of Queue.cpp) *)

Module PriorityQueue.

Record Element : Set := mkElement { value : Z; priority : Z }.

Record t : Set := mk {
  heap : list Element;
  capacity : Z;
  size : Z
}.

Definition new (cap : Z) : outcome t :=
  if cap <=? 0 then Throw PQCapacityMustBePositive
  else
    let* h := new_array cap (mkElement 0 0) in
    Ok (mk h cap 0).

Definition isEmpty (q : t) : bool := size q =? 0.

Definition parent (i : Z) : Z := Z.quot (i - 1) 2.

(** The [while] loop of heapifyUp; [n] bounds its iterations. *)
Fixpoint heapifyUp_loop (n : nat) (h : list Element) (i : Z)
  : outcome (list Element) :=
  match n with
  | O => Timeout
  | S n' =>
      if i >? 0 then
        let* a := aget h i in
        let* b := aget h (parent i) in
        if priority a <? priority b then
          let* h1 := aswap h i (parent i) in
          heapifyUp_loop n' h1 (parent i)
        else Ok h
      else Ok h
  end.

(** The index is at least halved on every iteration, so [i + 1]
    iterations are more than the loop can make. *)
Definition heapifyUp (h : list Element) (i : Z) : outcome (list Element) :=
  heapifyUp_loop (S (Z.to_nat i)) h i.

(** heapifyDown recurses on a child index; [n] bounds the depth. *)
Fixpoint heapifyDown_rec (n : nat) (h : list Element) (sz : Z) (i : Z)
  : outcome (list Element) :=
  match n with
  | O => Timeout
  | S n' =>
      let left := 2 * i + 1 in
      let right := 2 * i + 2 in
      let* s1 :=
        (if left <? sz then
           let* l := aget h left in
           let* s := aget h i in
           Ok (if priority l <? priority s then left else i)
         else Ok i) in
      let* smallest :=
        (if right <? sz then
           let* r := aget h right in
           let* s := aget h s1 in
           Ok (if priority r <? priority s then right else s1)
         else Ok s1) in
      if negb (smallest =? i) then
        let* h1 := aswap h i smallest in
        heapifyDown_rec n' h1 sz smallest
      else Ok h
  end.

(** Each call moves to a strictly larger index below [sz]. *)
Definition heapifyDown (h : list Element) (sz : Z) (i : Z)
  : outcome (list Element) :=
  heapifyDown_rec (S (Z.to_nat sz)) h sz i.

Definition insert (q : t) (v p : Z) : outcome t :=
  if size q =? capacity q then Throw PQIsFull
  else
    let* h1 := aset (heap q) (size q) (mkElement v p) in
    let* h2 := heapifyUp h1 (size q) in
    Ok (mk h2 (capacity q) (size q + 1)).

Definition extractMin (q : t) : outcome (Z * t) :=
  if isEmpty q then Throw PQIsEmpty
  else
    let* root := aget (heap q) 0 in
    let minValue := value root in
    let sz := size q - 1 in
    let* last := aget (heap q) sz in
    let* h1 := aset (heap q) 0 last in
    let* h2 := heapifyDown h1 sz 0 in
    Ok (minValue, mk h2 (capacity q) sz).

End PriorityQueue.

(** ** UnionFind (UnionFind.cpp) *)

Module UnionFind.

Record t : Set := mk {
  parent : list Z;
  rank : list Z;
  size : Z
}.

(** Both arrays are allocated, then filled: parent[i] = i, rank[i] = 0. *)
Definition new (s : Z) : outcome t :=
  let* p := new_array s 0 in
  let* r := new_array s 0 in
  Ok (mk (imap (fun i _ => Z.of_nat i) p) r s).

(** find with path compression; [n] bounds the recursion depth. *)
Fixpoint find_rec (n : nat) (u : t) (a : Z) : outcome (Z * t) :=
  match n with
  | O => Timeout
  | S n' =>
      let* pa := aget (parent u) a in
      if negb (pa =? a) then
        let* (r, u1) := find_rec n' u pa in
        let* p1 := aset (parent u1) a r in
        let* res := aget p1 a in
        Ok (res, mk p1 (rank u1) (size u1))
      else Ok (pa, u)
  end.

(** A parent chain that ends in a root visits each element at most once,
    so [size + 1] calls are more than a find can nest. *)
Definition find (u : t) (a : Z) : outcome (Z * t) :=
  find_rec (S (Z.to_nat (size u))) u a.

Definition unite (u : t) (a b : Z) : outcome t :=
  let* (rootA, u1) := find u a in
  let* (rootB, u2) := find u1 b in
  if negb (rootA =? rootB) then
    let* ra := aget (rank u2) rootA in
    let* rb := aget (rank u2) rootB in
    if ra <? rb then
      let* p := aset (parent u2) rootA rootB in
      Ok (mk p (rank u2) (size u2))
    else if ra >? rb then
      let* p := aset (parent u2) rootB rootA in
      Ok (mk p (rank u2) (size u2))
    else
      let* p := aset (parent u2) rootB rootA in
      let* r := aset (rank u2) rootA (ra + 1) in
      Ok (mk p r (size u2))
  else Ok u2.

End UnionFind.

(** ** Algorithms (Algorithms.h, second part of Graph.h) *)

Module Algorithms.

(** *** bfs *)

(** The locals of bfs.  [enqueued] is a ghost log of the values handed to
    [Queue.enqueue] so far; the program never reads it. *)
Record bfs_state : Set := mkBfs {
  bfs_tree : Graph;
  bfs_visited : list bool;
  bfs_q : Queue.t;
  enqueued : list Z
}.

(** Body of the [for] loop over the neighbours of [u]. *)
Definition bfs_visit (u : Z) (s : bfs_state) (nb : Neighbor) : outcome bfs_state :=
  let v := vertex nb in
  let w := weight nb in
  let* seen := aget (bfs_visited s) v in
  if negb seen then
    let* visited := aset (bfs_visited s) v true in
    let* tree := addEdge (bfs_tree s) u v w in
    let* q := Queue.enqueue (bfs_q s) v in
    Ok (mkBfs tree visited q (enqueued s ++ [v]))
  else Ok s.

(** The [while (!q.isEmpty())] loop. *)
Fixpoint bfs_loop (fuel : nat) (g : Graph) (s : bfs_state) : outcome bfs_state :=
  match fuel with
  | O => Timeout
  | S fuel' =>
      if Queue.isEmpty (bfs_q s) then Ok s
      else
        let* (u, q) := Queue.dequeue (bfs_q s) in
        let* neighbors := getNeighbors g u in
        let* s' := foldM (bfs_visit u) neighbors
                         (mkBfs (bfs_tree s) (bfs_visited s) q (enqueued s)) in
        bfs_loop fuel' g s'
  end.

Definition bfs_run (fuel : nat) (g : Graph) (start : Z) : outcome bfs_state :=
  let n := getVertexCount g in
  let* tree := Graph_new n in
  let* visited0 := new_array n false in
  let* q0 := Queue.new n in
  let* visited1 := aset visited0 start true in
  let* q1 := Queue.enqueue q0 start in
  bfs_loop fuel g (mkBfs tree visited1 q1 [start]).

Definition bfs (fuel : nat) (g : Graph) (start : Z) : outcome Graph :=
  let* s := bfs_run fuel g start in
  Ok (bfs_tree s).

(** *** dfs *)

Fixpoint dfs_visit (fuel : nat) (g : Graph) (u : Z) (s : list bool * Graph)
  : outcome (list bool * Graph) :=
  match fuel with
  | O => Timeout
  | S fuel' =>
      let* visited := aset (fst s) u true in
      let* neighbors := getNeighbors g u in
      foldM (fun (s : list bool * Graph) (nb : Neighbor) =>
               let v := vertex nb in
               let w := weight nb in
               let* seen := aget (fst s) v in
               if negb seen then
                 let* tree := addEdge (snd s) u v w in
                 dfs_visit fuel' g v (fst s, tree)
               else Ok s)
            neighbors (visited, snd s)
  end.

Definition dfs (fuel : nat) (g : Graph) (start : Z) : outcome Graph :=
  let n := getVertexCount g in
  let* tree := Graph_new n in
  let* visited := new_array n false in
  let* s := dfs_visit fuel g start (visited, tree) in
  Ok (snd s).

(** *** dijkstra *)

Record dijkstra_state : Set := mkDijkstra {
  dist : list Z;
  prev : list Z;
  dj_pq : PriorityQueue.t
}.

(** Body of the relaxation loop over the neighbours of [u].  C++ leaves a
    sum [dist[u] + w] outside the range of [int] undefined: this run checks
    the sum and stops there with [SignedOverflow]; [relax_wrap] below is the
    run of the compiled program, where the sum wraps around. *)
Definition relax (u : Z) (s : dijkstra_state) (nb : Neighbor)
  : outcome dijkstra_state :=
  let v := vertex nb in
  let w := weight nb in
  let* du := aget (dist s) u in
  let* alt := int_add du w in
  let* dv := aget (dist s) v in
  if alt <? dv then
    let* dist' := aset (dist s) v alt in
    let* prev' := aset (prev s) v u in
    let* dv' := aget dist' v in
    let* pq := PriorityQueue.insert (dj_pq s) v dv' in
    Ok (mkDijkstra dist' prev' pq)
  else Ok s.

(** The [while (!pq.isEmpty())] loop. *)
Fixpoint dijkstra_loop (fuel : nat) (g : Graph) (s : dijkstra_state)
  : outcome dijkstra_state :=
  match fuel with
  | O => Timeout
  | S fuel' =>
      if PriorityQueue.isEmpty (dj_pq s) then Ok s
      else
        let* (u, pq) := PriorityQueue.extractMin (dj_pq s) in
        let* neighbors := getNeighbors g u in
        let* s' := foldM (relax u) neighbors (mkDijkstra (dist s) (prev s) pq) in
        dijkstra_loop fuel' g s'
  end.

(** Everything between the construction of [tree] and the final loop:
    the distance and predecessor arrays once the queue has drained. *)
Definition dijkstra_search (fuel : nat) (g : Graph) (start : Z)
  : outcome dijkstra_state :=
  let n := getVertexCount g in
  let* dist0 := new_array n INT_MAX in
  let* prev0 := new_array n (-1) in
  let* dist1 := aset dist0 start 0 in
  let* pq0 := PriorityQueue.new n in
  let* pq1 := PriorityQueue.insert pq0 start 0 in
  dijkstra_loop fuel g (mkDijkstra dist1 prev0 pq1).

(** Body of the final loop: the tree edge of vertex [v], if it has one. *)
Definition dijkstra_edge (dist prev : list Z) (tree : Graph) (v : Z)
  : outcome Graph :=
  let* pv := aget prev v in
  if negb (pv =? -1) then
    let* dv := aget dist v in
    let* dp := aget dist pv in
    let* w := int_sub dv dp in
    addEdge tree pv v w
  else Ok tree.

Definition dijkstra (fuel : nat) (g : Graph) (start : Z) : outcome Graph :=
  let n := getVertexCount g in
  let* tree := Graph_new n in
  let* s := dijkstra_search fuel g start in
  foldM (dijkstra_edge (dist s) (prev s)) (upto n) tree.

(** *** dijkstra as compiled: sums and differences wrap around *)

Definition relax_wrap (u : Z) (s : dijkstra_state) (nb : Neighbor)
  : outcome dijkstra_state :=
  let v := vertex nb in
  let w := weight nb in
  let* du := aget (dist s) u in
  let alt := wrap (du + w) in
  let* dv := aget (dist s) v in
  if alt <? dv then
    let* dist' := aset (dist s) v alt in
    let* prev' := aset (prev s) v u in
    let* dv' := aget dist' v in
    let* pq := PriorityQueue.insert (dj_pq s) v dv' in
    Ok (mkDijkstra dist' prev' pq)
  else Ok s.

Fixpoint dijkstra_loop_wrap (fuel : nat) (g : Graph) (s : dijkstra_state)
  : outcome dijkstra_state :=
  match fuel with
  | O => Timeout
  | S fuel' =>
      if PriorityQueue.isEmpty (dj_pq s) then Ok s
      else
        let* (u, pq) := PriorityQueue.extractMin (dj_pq s) in
        let* neighbors := getNeighbors g u in
        let* s' := foldM (relax_wrap u) neighbors (mkDijkstra (dist s) (prev s) pq) in
        dijkstra_loop_wrap fuel' g s'
  end.

Definition dijkstra_search_wrap (fuel : nat) (g : Graph) (start : Z)
  : outcome dijkstra_state :=
  let n := getVertexCount g in
  let* dist0 := new_array n INT_MAX in
  let* prev0 := new_array n (-1) in
  let* dist1 := aset dist0 start 0 in
  let* pq0 := PriorityQueue.new n in
  let* pq1 := PriorityQueue.insert pq0 start 0 in
  dijkstra_loop_wrap fuel g (mkDijkstra dist1 prev0 pq1).

Definition dijkstra_edge_wrap (dist prev : list Z) (tree : Graph) (v : Z)
  : outcome Graph :=
  let* pv := aget prev v in
  if negb (pv =? -1) then
    let* dv := aget dist v in
    let* dp := aget dist pv in
    addEdge tree pv v (wrap (dv - dp))
  else Ok tree.

Definition dijkstra_wrap (fuel : nat) (g : Graph) (start : Z) : outcome Graph :=
  let n := getVertexCount g in
  let* tree := Graph_new n in
  let* s := dijkstra_search_wrap fuel g start in
  foldM (dijkstra_edge_wrap (dist s) (prev s)) (upto n) tree.

(** *** prim *)

Record prim_state : Set := mkPrim {
  inMST : list bool;
  key : list Z;
  pr_parent : list Z;
  pr_pq : PriorityQueue.t
}.

Definition prim_relax (u : Z) (s : prim_state) (nb : Neighbor)
  : outcome prim_state :=
  let v := vertex nb in
  let w := weight nb in
  let* inv := aget (inMST s) v in
  if negb inv then
    let* kv := aget (key s) v in
    if w <? kv then
      let* key' := aset (key s) v w in
      let* parent' := aset (pr_parent s) v u in
      let* kv' := aget key' v in
      let* pq := PriorityQueue.insert (pr_pq s) v kv' in
      Ok (mkPrim (inMST s) key' parent' pq)
    else Ok s
  else Ok s.

Fixpoint prim_loop (fuel : nat) (g : Graph) (s : prim_state) : outcome prim_state :=
  match fuel with
  | O => Timeout
  | S fuel' =>
      if PriorityQueue.isEmpty (pr_pq s) then Ok s
      else
        let* (u, pq) := PriorityQueue.extractMin (pr_pq s) in
        let* inMST' := aset (inMST s) u true in
        let* neighbors := getNeighbors g u in
        let* s' := foldM (prim_relax u) neighbors
                         (mkPrim inMST' (key s) (pr_parent s) pq) in
        prim_loop fuel' g s'
  end.

Definition prim_edge (key parent : list Z) (tree : Graph) (v : Z) : outcome Graph :=
  let* pv := aget parent v in
  if negb (pv =? -1) then
    let* kv := aget key v in
    addEdge tree pv v kv
  else Ok tree.

Definition prim (fuel : nat) (g : Graph) : outcome Graph :=
  let n := getVertexCount g in
  let* tree := Graph_new n in
  let* inMST0 := new_array n false in
  let* key0 := new_array n INT_MAX in
  let* parent0 := new_array n (-1) in
  let* key1 := aset key0 0 0 in
  let* pq0 := PriorityQueue.new n in
  let* pq1 := PriorityQueue.insert pq0 0 0 in
  let* s := prim_loop fuel g (mkPrim inMST0 key1 parent0 pq1) in
  foldM (prim_edge (key s) (pr_parent s)) (map (Z.add 1) (upto (n - 1))) tree.

(** *** kruskal *)

Record Edge : Set := mkEdge { ew : Z; eu : Z; ev : Z }.

(** [edges[500]] *)
Definition MAX_EDGES : Z := 500.

(** The local array and its fill count. *)
Record edge_buf : Set := mkBuf { edges : list Edge; edgeCount : Z }.

(** Body of the scan of the neighbours of [u]. *)
Definition collect_neighbor (u : Z) (b : edge_buf) (nb : Neighbor)
  : outcome edge_buf :=
  let v := vertex nb in
  let w := weight nb in
  if u <? v then
    let* es := aset (edges b) (edgeCount b) (mkEdge w u v) in
    Ok (mkBuf es (edgeCount b + 1))
  else Ok b.

Definition collect_vertex (g : Graph) (b : edge_buf) (u : Z) : outcome edge_buf :=
  let* neighbors := getNeighbors g u in
  foldM (collect_neighbor u) neighbors b.

(** The gathering loop of kruskal, before the sort. *)
Definition collect_edges (g : Graph) : outcome edge_buf :=
  let* es := new_array MAX_EDGES (mkEdge 0 0 0) in
  foldM (collect_vertex g) (upto (getVertexCount g)) (mkBuf es 0).

(** Inner step of the exchange sort. *)
Definition sort_step (i : Z) (es : list Edge) (j : Z) : outcome (list Edge) :=
  let* ej := aget es j in
  let* ei := aget es i in
  if ew ej <? ew ei then aswap es i j else Ok es.

Definition sort_pass (cnt : Z) (es : list Edge) (i : Z) : outcome (list Edge) :=
  foldM (sort_step i) (map (Z.add (i + 1)) (upto (cnt - (i + 1)))) es.

Definition sort_edges (b : edge_buf) : outcome (list Edge) :=
  foldM (sort_pass (edgeCount b)) (upto (edgeCount b)) (edges b).

(** Body of the final loop over the sorted edges. *)
Definition kruskal_step (es : list Edge) (s : Graph * UnionFind.t) (i : Z)
  : outcome (Graph * UnionFind.t) :=
  let* e := aget es i in
  let u := eu e in
  let v := ev e in
  let w := ew e in
  let* (ru, uf1) := UnionFind.find (snd s) u in
  let* (rv, uf2) := UnionFind.find uf1 v in
  if negb (ru =? rv) then
    let* tree := addEdge (fst s) u v w in
    let* uf3 := UnionFind.unite uf2 u v in
    Ok (tree, uf3)
  else Ok (fst s, uf2).

Definition kruskal (g : Graph) : outcome Graph :=
  let n := getVertexCount g in
  let* tree := Graph_new n in
  let* uf := UnionFind.new n in
  let* b := collect_edges g in
  let* es := sort_edges b in
  let* s := foldM (kruskal_step es) (upto (edgeCount b)) (tree, uf) in
  Ok (fst s).

End Algorithms.

(** ** Building a graph from a list of edges, as the callers do *)

Definition add_edges (g : Graph) (es : list (Z * Z * Z)) : outcome Graph :=
  foldM (fun g '(u, v, w) => addEdge g u v w) es g.

Definition build (n : Z) (es : list (Z * Z * Z)) : outcome Graph :=
  let* g := Graph_new n in
  add_edges g es.

(** Number of adjacency entries summed over all vertices. *)
Definition total_entries (g : Graph) : Z :=
  Z.of_nat (length (concat (adjacencyList g))).

Import Algorithms.

(** ** Vocabulary of the properties *)

(** The list of vertex [u], empty for an index outside the array. *)
Definition adj (g : Graph) (u : Z) : list Neighbor :=
  if 0 <=? u then default [] (adjacencyList g !! Z.to_nat u) else [].

Definition neighbor_ok (n : Z) (nb : Neighbor) : bool :=
  (0 <=? vertex nb) && (vertex nb <? n) && in_int (weight nb).

(** What every graph made by the constructor, addEdge and removeEdge
    satisfies: one list per vertex, every stored vertex in range, every
    stored number an [int]. *)
Definition well_formed (g : Graph) : bool :=
  (0 <=? numVertices g) && in_int (numVertices g)
  && (Z.of_nat (length (adjacencyList g)) =? numVertices g)
  && forallb (forallb (neighbor_ok (numVertices g))) (adjacencyList g).

Definition nonneg_weights (g : Graph) : bool :=
  forallb (forallb (fun nb => 0 <=? weight nb)) (adjacencyList g).

Definition neighbor_eqb (a b : Neighbor) : bool :=
  (vertex a =? vertex b) && (weight a =? weight b).

Fixpoint count_nb (x : Neighbor) (l : list Neighbor) : nat :=
  match l with
  | [] => 0
  | y :: t => ((if neighbor_eqb x y then 1 else 0) + count_nb x t)%nat
  end.

(** One addEdge pushes one node on each endpoint's list; for a loop both
    nodes land on the same list. *)
Definition nodes_per_edge (u v : Z) : nat := if u =? v then 2 else 1.

(** The graph holds exactly one copy of the edge (u, v, w). *)
Definition single_copy (g : Graph) (u v w : Z) : bool :=
  (count_nb (mkNeighbor v w) (adj g u) =? nodes_per_edge u v)%nat
  && (count_nb (mkNeighbor u w) (adj g v) =? nodes_per_edge u v)%nat.

(** Both directions of every edge are stored, the same number of times. *)
Definition symmetric (g : Graph) : bool :=
  forallb (fun u =>
    forallb (fun nb =>
      (count_nb nb (adj g u) =? count_nb (mkNeighbor u (weight nb)) (adj g (vertex nb)))%nat)
      (adj g u))
    (upto (numVertices g)).

Definition mem (v : Z) (l : list Z) : bool := existsb (Z.eqb v) l.

Definition reach_step (g : Graph) (seen : list Z) : list Z :=
  fold_left (fun acc v => if mem v acc then acc else acc ++ [v])
            (flat_map (fun u => map vertex (adj g u)) seen) seen.

(** The vertices reachable from [start], by [numVertices] rounds of
    following edges. *)
Definition reachable (g : Graph) (start : Z) : list Z :=
  Nat.iter (Z.to_nat (numVertices g)) (reach_step g) [start].

Definition connected (g : Graph) : bool :=
  forallb (fun v => mem v (reachable g 0)) (upto (numVertices g)).

(** The reference triangle of the tests: edges (0,1,1), (1,2,2), (0,2,5),
    as the three addEdge calls leave the adjacency lists. *)
Definition triangle : Graph :=
  mkGraph 3 [ [mkNeighbor 2 5; mkNeighbor 1 1];
              [mkNeighbor 2 2; mkNeighbor 0 1];
              [mkNeighbor 0 5; mkNeighbor 1 2] ].

(** Five vertices; 0 is joined to all others by heavy edges, and 1 offers
    each of 2, 3, 4 a cheaper one. *)
Definition fan_edges : list (Z * Z * Z) :=
  [(0,1,1); (0,2,10); (0,3,10); (0,4,10); (1,2,1); (1,3,1); (1,4,1)].

Definition fan : Graph :=
  mkGraph 5 [ [mkNeighbor 4 10; mkNeighbor 3 10; mkNeighbor 2 10; mkNeighbor 1 1];
              [mkNeighbor 4 1; mkNeighbor 3 1; mkNeighbor 2 1; mkNeighbor 0 1];
              [mkNeighbor 1 1; mkNeighbor 0 10];
              [mkNeighbor 1 1; mkNeighbor 0 10];
              [mkNeighbor 1 1; mkNeighbor 0 10] ].

(** *** Priority queue *)

(** The priority held in slot [i]. *)
Definition prio (h : list PriorityQueue.Element) (i : Z) : Z :=
  match h !! Z.to_nat i with
  | Some e => PriorityQueue.priority e
  | None => 0
  end.

(** Slot [i] is not above either of its children that lie below [sz]. *)
Definition min_heap_at (h : list PriorityQueue.Element) (sz i : Z) : bool :=
  (if 2 * i + 1 <? sz then prio h i <=? prio h (2 * i + 1) else true)
  && (if 2 * i + 2 <? sz then prio h i <=? prio h (2 * i + 2) else true).

(** The min-heap order on the first [sz] slots. *)
Definition min_heap (h : list PriorityQueue.Element) (sz : Z) : bool :=
  forallb (min_heap_at h sz) (upto sz).

(** The same order stated from the child's side. *)
Definition parent_le (h : list PriorityQueue.Element) (sz : Z) : Prop :=
  forall j, 0 < j < sz -> prio h (PriorityQueue.parent j) <= prio h j.

(** The representation invariant of a PriorityQueue: the size lies between
    0 and the capacity, the array has [capacity] slots, and the live slots
    are in min-heap order. *)
Definition pq_inv (q : PriorityQueue.t) : bool :=
  (0 <=? PriorityQueue.size q)
  && (PriorityQueue.size q <=? PriorityQueue.capacity q)
  && (Z.of_nat (length (PriorityQueue.heap q)) =? PriorityQueue.capacity q)
  && min_heap (PriorityQueue.heap q) (PriorityQueue.size q).

(** The live elements of the queue. *)
Definition contents (q : PriorityQueue.t) : list PriorityQueue.Element :=
  take (Z.to_nat (PriorityQueue.size q)) (PriorityQueue.heap q).

(** The heap of the test suite after insert (100,5), (200,2), (300,8),
    (400,1) into a queue of capacity 5. *)
Definition sample_pq : PriorityQueue.t :=
  PriorityQueue.mk
    [ PriorityQueue.mkElement 400 1; PriorityQueue.mkElement 200 2;
      PriorityQueue.mkElement 300 8; PriorityQueue.mkElement 100 5;
      PriorityQueue.mkElement 0 0 ] 5 4.

(** *** Queue *)

(** The circular buffer [q] holds the values [items], oldest first. *)
Definition q_repr (q : Queue.t) (items : list Z) : Prop :=
  0 < Queue.capacity q /\
  Z.of_nat (length (Queue.data q)) = Queue.capacity q /\
  0 <= Queue.front q < Queue.capacity q /\
  -1 <= Queue.rear q < Queue.capacity q /\
  Queue.count q = Z.of_nat (length items) /\
  Queue.count q <= Queue.capacity q /\
  (Queue.rear q + 1) mod Queue.capacity q
    = (Queue.front q + Queue.count q) mod Queue.capacity q /\
  forall (k : nat) (x : Z),
    items !! k = Some x ->
    Queue.data q !! Z.to_nat ((Queue.front q + Z.of_nat k) mod Queue.capacity q)
      = Some x.

(** *** bfs *)

(** The loop invariant of bfs: the queue holds [items], the vertices
    enqueued so far are those already served followed by [items], none was
    enqueued twice, and each of them is a marked vertex of the graph. *)
Definition bfs_inv (g : Graph) (s : bfs_state) (served items : list Z) : Prop :=
  q_repr (bfs_q s) items /\
  Queue.capacity (bfs_q s) = numVertices g /\
  enqueued s = served ++ items /\
  NoDup (enqueued s) /\
  Z.of_nat (length (bfs_visited s)) = numVertices g /\
  (forall v, In v (enqueued s) ->
     0 <= v < numVertices g /\ bfs_visited s !! Z.to_nat v = Some true) /\
  numVertices (bfs_tree s) = numVertices g.

(** *** kruskal's edge gathering *)

(** The filled part of the edge array. *)
Definition gathered (b : edge_buf) : list Edge :=
  take (Z.to_nat (edgeCount b)) (edges b).

(** An undirected edge as kruskal stores it: weight, smaller endpoint,
    larger endpoint. *)
Definition normalize (e : Z * Z * Z) : Edge :=
  let '(u, v, w) := e in
  if u <? v then mkEdge w u v else mkEdge w v u.

Definition is_loop (e : Z * Z * Z) : bool :=
  let '(u, v, _) := e in u =? v.

Definition proper_edges (es : list (Z * Z * Z)) : list (Z * Z * Z) :=
  List.filter (fun e => negb (is_loop e)) es.

(** What the scan of vertex [u] keeps: its neighbours with a larger index. *)
Definition scan_vertex (g : Graph) (u : Z) : list Edge :=
  map (fun nb => mkEdge (weight nb) u (vertex nb))
      (List.filter (fun nb => u <? vertex nb) (adj g u)).

Definition scan (g : Graph) : list Edge :=
  flat_map (scan_vertex g) (upto (numVertices g)).

(** The calls by which a caller shapes a graph after constructing it. *)
Inductive op : Set :=
| AddEdge (u v w : Z)
| RemoveEdge (u v : Z).

Definition apply_op (g : Graph) (o : op) : outcome Graph :=
  match o with
  | AddEdge u v w => addEdge g u v w
  | RemoveEdge u v => removeEdge g u v
  end.

Definition run_ops (n : Z) (ops : list op) : outcome Graph :=
  let* g := Graph_new n in
  foldM apply_op ops g.

(** The undirected edges a graph holds after such calls, latest first:
    addEdge puts one in front, removeEdge takes out the latest one that joins
    its two vertices, if any. *)
Definition joins (u v : Z) (e : Z * Z * Z) : bool :=
  let '(a, b, _) := e in
  ((a =? u) && (b =? v)) || ((a =? v) && (b =? u)).

Fixpoint drop_first (u v : Z) (es : list (Z * Z * Z)) : list (Z * Z * Z) :=
  match es with
  | [] => []
  | e :: t => if joins u v e then t else e :: drop_first u v t
  end.

Definition edge_step (es : list (Z * Z * Z)) (o : op) : list (Z * Z * Z) :=
  match o with
  | AddEdge u v w => (u, v, w) :: es
  | RemoveEdge u v => drop_first u v es
  end.

Definition edges_of (ops : list op) : list (Z * Z * Z) :=
  fold_left edge_step ops [].

(** The nodes that the edge [e] contributes to the list of vertex [x]. *)
Definition entries_of (x : Z) (e : Z * Z * Z) : list Neighbor :=
  let '(a, b, w) := e in
  (if x =? b then [mkNeighbor a w] else []) ++
  (if x =? a then [mkNeighbor b w] else []).

(** The adjacency lists of [g] store exactly the edges [es]. *)
Definition stores (g : Graph) (es : list (Z * Z * Z)) : Prop :=
  Z.of_nat (length (adjacencyList g)) = numVertices g /\
  (forall a b w, In (a, b, w) es ->
     0 <= a < numVertices g /\ 0 <= b < numVertices g) /\
  forall x, 0 <= x -> adj g x = flat_map (entries_of x) es.

(** What the scan of vertex [x] keeps of the edge [e]. *)
Definition kept_of (x : Z) (e : Z * Z * Z) : list Edge :=
  map (fun nb => mkEdge (weight nb) x (vertex nb))
      (List.filter (fun nb => x <? vertex nb) (entries_of x e)).

(** *** dijkstra *)

(** [l[i]] for an index known to lie in the array. *)
Definition nth_z (l : list Z) (i : Z) : Z := default 0 (l !! Z.to_nat i).

(** Every edge out of [v] has been relaxed under the distances [d]. *)
Definition relaxed (g : Graph) (d : list Z) (v : Z) : Prop :=
  forall nb, In nb (adj g v) -> nth_z d (vertex nb) <= nth_z d v + weight nb.

(** The queue entries of dijkstra are vertices of the graph, their
    priorities lie between the floor [f] and INT_MAX, and none is below the
    current distance of its vertex. *)
Definition entries_ok (g : Graph) (s : dijkstra_state) (f : Z) : Prop :=
  forall e, In e (contents (dj_pq s)) ->
    0 <= PriorityQueue.value e < numVertices g /\
    f <= PriorityQueue.priority e <= INT_MAX /\
    nth_z (dist s) (PriorityQueue.value e) <= PriorityQueue.priority e.

(** The predecessor of [v], when there is one, is a settled vertex (its
    distance is at most the floor [f]) joined to [v] by an edge whose weight
    is the difference of the two distances. *)
Definition prev_ok (g : Graph) (s : dijkstra_state) (f : Z) : Prop :=
  forall v, 0 <= v < numVertices g -> nth_z (prev s) v <> -1 ->
    0 <= nth_z (prev s) v < numVertices g /\
    nth_z (dist s) (nth_z (prev s) v) <= f /\
    exists w, In (mkNeighbor v w) (adj g (nth_z (prev s) v)) /\
              nth_z (dist s) v = nth_z (dist s) (nth_z (prev s) v) + w.

Definition shape_ok (g : Graph) (s : dijkstra_state) : Prop :=
  Z.of_nat (length (dist s)) = numVertices g /\
  Z.of_nat (length (prev s)) = numVertices g /\
  pq_inv (dj_pq s) = true.

(** A vertex is still waiting in the queue with its current distance, or
    all its edges are relaxed, or it has not been reached. *)
Definition pending_or_relaxed (g : Graph) (s : dijkstra_state) (v : Z) : Prop :=
  In (PriorityQueue.mkElement v (nth_z (dist s) v)) (contents (dj_pq s)) \/
  relaxed g (dist s) v \/
  nth_z (dist s) v = INT_MAX.

(** The invariant of the [while] loop of dijkstra, with floor [f]: the
    priority of the last extraction. *)
Definition dj_inv (g : Graph) (s : dijkstra_state) (f : Z) : Prop :=
  shape_ok g s /\ entries_ok g s f /\ prev_ok g s f /\
  forall v, 0 <= v < numVertices g -> pending_or_relaxed g s v.

(** The invariant of the relaxation loop at vertex [u], which was extracted
    with its current distance [f]; [seen] are the neighbours handled so
    far. *)
Definition relax_inv (g : Graph) (s : dijkstra_state) (f u : Z)
    (seen : list Neighbor) : Prop :=
  shape_ok g s /\ entries_ok g s f /\ prev_ok g s f /\
  nth_z (dist s) u = f /\
  (forall v, 0 <= v < numVertices g -> v <> u -> pending_or_relaxed g s v) /\
  (forall nb, In nb seen -> nth_z (dist s) (vertex nb) <= f + weight nb).

(** The spanning tree of the triangle: edges (0,1,1) and (1,2,2). *)
Definition triangle_mst : Graph :=
  mkGraph 3 [ [mkNeighbor 1 1];
              [mkNeighbor 2 2; mkNeighbor 0 1];
              [mkNeighbor 1 2] ].

(** *** Queue against a bounded list *)

Inductive qop : Set :=
| Enq (v : Z)
| Deq.

(** A run of enqueue and dequeue calls on a queue; the result is the list
    of values the dequeues returned, in order. *)
Fixpoint queue_run (q : Queue.t) (ops : list qop) : outcome (list Z) :=
  match ops with
  | [] => Ok []
  | Enq v :: t =>
      let* q1 := Queue.enqueue q v in
      queue_run q1 t
  | Deq :: t =>
      let* (x, q1) := Queue.dequeue q in
      let* out := queue_run q1 t in
      Ok (x :: out)
  end.

(** The same run on a plain list that may hold at most [cap] values. *)
Fixpoint fifo_run (cap : Z) (items : list Z) (ops : list qop) : outcome (list Z) :=
  match ops with
  | [] => Ok []
  | Enq v :: t =>
      if Z.of_nat (length items) =? cap then Throw QueueIsFull
      else fifo_run cap (items ++ [v]) t
  | Deq :: t =>
      match items with
      | [] => Throw QueueIsEmpty
      | x :: rest =>
          let* out := fifo_run cap rest t in
          Ok (x :: out)
      end
  end.

(** *** PriorityQueue: filling and draining *)

(** insert called for every element of [xs] in turn. *)
Definition insert_all (q : PriorityQueue.t) (xs : list PriorityQueue.Element)
  : outcome PriorityQueue.t :=
  foldM (fun q e =>
           PriorityQueue.insert q (PriorityQueue.value e) (PriorityQueue.priority e))
        xs q.

(** [n] calls of extractMin; the values they returned, in order. *)
Fixpoint extract_n (n : nat) (q : PriorityQueue.t)
  : outcome (list Z * PriorityQueue.t) :=
  match n with
  | O => Ok ([], q)
  | S n' =>
      let* (v, q1) := PriorityQueue.extractMin q in
      let* (vs, q2) := extract_n n' q1 in
      Ok (v :: vs, q2)
  end.

Definition prio_le (a b : PriorityQueue.Element) : Prop :=
  PriorityQueue.priority a <= PriorityQueue.priority b.

(** *** Graph: the calls a caller may make *)

(** The weight handed to addEdge is an [int]. *)
Definition op_ok (o : op) : bool :=
  match o with
  | AddEdge _ _ w => in_int w
  | RemoveEdge _ _ => true
  end.

(** No node of the list points to [d]. *)
Definition no_entry_to (d : Z) (l : list Neighbor) : bool :=
  forallb (fun nb => negb (vertex nb =? d)) l.

(** *** The trees the algorithms return *)

(** The list of [a] holds a node for [b] with weight [w]. *)
Definition edge_of (g : Graph) (e : Z * Z * Z) : Prop :=
  let '(a, b, w) := e in In (mkNeighbor b w) (adj g a).

(** Same vertices, and every node of [t] is a node of [g]. *)
Definition subgraph (t g : Graph) : Prop :=
  numVertices t = numVertices g /\
  forall u nb, In nb (adj t u) -> In nb (adj g u).

Definition child (e : Z * Z * Z) : Z := let '(_, b, _) := e in b.

(** The edge that the final loop of prim adds for vertex [v], if any. *)
Definition prim_edge_of (key0 parent0 : list Z) (v : Z) : option (Z * Z * Z) :=
  if nth_z parent0 v =? -1 then None
  else Some (nth_z parent0 v, v, nth_z key0 v).

(** The key and parent arrays of prim name edges of the graph. *)
Definition prim_arrays_ok (g : Graph) (s : prim_state) : Prop :=
  Z.of_nat (length (key s)) = numVertices g /\
  Z.of_nat (length (pr_parent s)) = numVertices g /\
  forall v, 0 <= v < numVertices g -> nth_z (pr_parent s) v <> -1 ->
    In (mkNeighbor v (nth_z (key s) v)) (adj g (nth_z (pr_parent s) v)).

(** The edge that the final loop of dijkstra adds for vertex [v], if any. *)
Definition dijkstra_edge_of (dist0 prev0 : list Z) (v : Z) : option (Z * Z * Z) :=
  if nth_z prev0 v =? -1 then None
  else Some (nth_z prev0 v, v, nth_z dist0 v - nth_z dist0 (nth_z prev0 v)).

(** A walk in [g] from [a], with the sum of its weights. *)
Inductive walk (g : Graph) (a : Z) : Z -> Z -> Prop :=
| walk_here : walk g a a 0
| walk_step (b c w W : Z) :
    walk g a b W -> In (mkNeighbor c w) (adj g b) -> walk g a c (W + w).

(** The distance of [start] is not above 0, and every finite distance of
    the array is the weight of a walk from [start]. *)
Definition walks_ok (g : Graph) (start : Z) (d : list Z) : Prop :=
  Z.of_nat (length d) = numVertices g /\
  nth_z d start <= 0 /\
  forall v, 0 <= v < numVertices g ->
    nth_z d v = INT_MAX \/ (nth_z d v < INT_MAX /\ walk g start v (nth_z d v)).

(** *** kruskal's sort *)

(** The weight of the edge in slot [k]. *)
Definition ew_at (es : list Edge) (k : Z) : Z :=
  match es !! Z.to_nat k with
  | Some e => ew e
  | None => 0
  end.

Definition weight_le (a b : Edge) : Prop := ew a <= ew b.

(** Slots below [a] are in order and hold nothing heavier than any later
    slot below [cnt]. *)
Definition sorted_upto (cnt a : Z) (es : list Edge) : Prop :=
  forall k l, 0 <= k < a -> k <= l < cnt -> ew_at es k <= ew_at es l.

(** *** UnionFind *)

(** [root_path p i r k]: following the parent array [p] from [i] reaches
    the root [r] (an element that is its own parent) in [k] steps. *)
Inductive root_path (p : list Z) : Z -> Z -> nat -> Prop :=
| rp_root (r : Z) :
    0 <= r < Z.of_nat (length p) -> nth_z p r = r -> root_path p r r 0
| rp_step (i r : Z) (k : nat) :
    0 <= i < Z.of_nat (length p) -> nth_z p i <> i ->
    root_path p (nth_z p i) r k -> root_path p i r (S k).

(** [r] is the representative of [i]. *)
Definition rep (u : UnionFind.t) (i r : Z) : Prop :=
  exists k, root_path (UnionFind.parent u) i r k.

Definition same_set (u : UnionFind.t) (i j : Z) : Prop :=
  exists r, rep u i r /\ rep u j r.

(** The elements that the parent array visits from [i] in [k] steps. *)
Fixpoint path_nodes (p : list Z) (i : Z) (k : nat) : list Z :=
  match k with
  | O => [i]
  | S k' => i :: path_nodes p (nth_z p i) k'
  end.

(** The representation invariant of UnionFind: both arrays have [size]
    slots, every element has a representative, and no rank is negative or
    above [bound]. *)
Definition uf_inv (bound : Z) (u : UnionFind.t) : Prop :=
  0 <= UnionFind.size u /\
  Z.of_nat (length (UnionFind.parent u)) = UnionFind.size u /\
  Z.of_nat (length (UnionFind.rank u)) = UnionFind.size u /\
  (forall i, 0 <= i < UnionFind.size u -> exists r, rep u i r) /\
  (forall i, 0 <= i < UnionFind.size u -> 0 <= nth_z (UnionFind.rank u) i <= bound).

(** The least equivalence that relates the two elements of every pair. *)
Inductive linked (ps : list (Z * Z)) : Z -> Z -> Prop :=
| linked_refl (a : Z) : linked ps a a
| linked_pair (a b : Z) : In (a, b) ps -> linked ps a b
| linked_sym (a b : Z) : linked ps a b -> linked ps b a
| linked_trans (a b c : Z) : linked ps a b -> linked ps b c -> linked ps a c.

(** unite called for every pair in turn. *)
Definition unite_all (u : UnionFind.t) (ps : list (Z * Z)) : outcome UnionFind.t :=
  foldM (fun u '(a, b) => UnionFind.unite u a b) ps u.

(** The test [uf.find(a) != uf.find(b)] of kruskal, negated: the second
    find runs on what the first one left. *)
Definition same_root (u : UnionFind.t) (a b : Z) : outcome (bool * UnionFind.t) :=
  let* (ra, u1) := UnionFind.find u a in
  let* (rb, u2) := UnionFind.find u1 b in
  Ok (ra =? rb, u2).

(** A check of the invariant that can be run: every parent is in range and
    [size] steps along the parents end at a root. *)
Fixpoint root_at (p : list Z) (k : nat) (i : Z) : Z :=
  match k with
  | O => i
  | S k' => root_at p k' (nth_z p i)
  end.

Definition uf_ok (bound : Z) (u : UnionFind.t) : bool :=
  (0 <=? UnionFind.size u)
  && (Z.of_nat (length (UnionFind.parent u)) =? UnionFind.size u)
  && (Z.of_nat (length (UnionFind.rank u)) =? UnionFind.size u)
  && forallb (fun i => (0 <=? i) && (i <? UnionFind.size u)) (UnionFind.parent u)
  && forallb (fun i =>
       let r := root_at (UnionFind.parent u) (Z.to_nat (UnionFind.size u)) i in
       nth_z (UnionFind.parent u) r =? r) (upto (UnionFind.size u))
  && forallb (fun x => (0 <=? x) && (x <=? bound)) (UnionFind.rank u).

Definition pair_ok (n : Z) (p : Z * Z) : Prop :=
  0 <= fst p < n /\ 0 <= snd p < n.

(** *** bfs and dfs: the tree against the reachable vertices *)

(** [b] can be reached from [a] along the lists of [g]. *)
Definition reach (g : Graph) (a b : Z) : Prop := exists W, walk g a b W.

(** What the tree of a traversal from [start] looks like when the vertices
    [vs] have been discovered, in this order: it stores one edge of the graph
    per discovered vertex other than [start], latest first, and joins each
    discovered vertex to [start]. *)
Definition tree_of (g : Graph) (start : Z) (tree : Graph) (vs : list Z)
    (es : list (Z * Z * Z)) : Prop :=
  stores tree es /\ numVertices tree = numVertices g /\
  Forall (edge_of g) es /\
  vs = start :: reverse (map child es) /\
  (forall v, In v vs -> 0 <= v < numVertices g) /\
  (forall v, In v vs -> reach tree start v) /\
  (forall v, In v vs -> reach g start v).

(** The marks of a traversal are exactly on the discovered vertices. *)
Definition marks_of (visited : list bool) (vs : list Z) : Prop :=
  forall v, 0 <= v -> (visited !! Z.to_nat v = Some true <-> In v vs).

(** Every neighbour of a vertex of [us] is among [vs]. *)
Definition closed_under (g : Graph) (us vs : list Z) : Prop :=
  forall u nb, In u us -> In nb (adj g u) -> In (vertex nb) vs.

(** Body of the [for] loop of dfs_visit at vertex [u], with [visit] for the
    recursive call. *)
Definition dfs_step (visit : Z -> list bool * Graph -> outcome (list bool * Graph))
    (u : Z) (s : list bool * Graph) (nb : Neighbor) : outcome (list bool * Graph) :=
  let* seen := aget (fst s) (vertex nb) in
  if negb seen then
    let* tree := addEdge (snd s) u (vertex nb) (weight nb) in
    visit (vertex nb) (fst s, tree)
  else Ok s.

(** *** kruskal: the forest *)

Definition ends (e : Z * Z * Z) : Z * Z := let '(a, b, _) := e in (a, b).

Definition edge_triple (e : Edge) : Z * Z * Z := (eu e, ev e, ew e).

(** No edge of the list, latest first, joins two vertices that the earlier
    edges had joined already: the edges close no cycle. *)
Inductive forest : list (Z * Z * Z) -> Prop :=
| forest_nil : forest []
| forest_cons (a b w : Z) (es : list (Z * Z * Z)) :
    forest es -> ~ linked (map ends es) a b -> forest ((a, b, w) :: es).

(** The choices of kruskal on the edges [seen], in the order it handles
    them: an edge is taken exactly when the edges taken before it do not
    join its ends. *)
Inductive greedy : list Edge -> list (Z * Z * Z) -> Prop :=
| greedy_nil : greedy [] []
| greedy_skip (seen : list Edge) (tes : list (Z * Z * Z)) (e : Edge) :
    greedy seen tes -> linked (map ends tes) (eu e) (ev e) ->
    greedy (seen ++ [e]) tes
| greedy_pick (seen : list Edge) (tes : list (Z * Z * Z)) (e : Edge) :
    greedy seen tes -> ~ linked (map ends tes) (eu e) (ev e) ->
    greedy (seen ++ [e]) (edge_triple e :: tes).

(** The invariant of the last loop of kruskal when the edges [seen] have
    been handled: the tree stores [tes], chosen among [seen]; the sets of
    the UnionFind are the components of the tree; both ends of every handled
    edge lie in one set; the tree is a forest; and its edges are the choices of
    [greedy]. *)
Definition kruskal_inv (n : Z) (seen : list Edge) (tree : Graph) (uf : UnionFind.t)
    (tes : list (Z * Z * Z)) : Prop :=
  stores tree tes /\ numVertices tree = n /\
  uf_inv (Z.of_nat (length seen)) uf /\ UnionFind.size uf = n /\
  (forall i j, 0 <= i < n -> 0 <= j < n ->
     (same_set uf i j <-> linked (map ends tes) i j)) /\
  (forall e, In e tes -> exists e', In e' seen /\ e = edge_triple e') /\
  (forall e, In e seen -> same_set uf (eu e) (ev e)) /\
  forest tes /\ greedy seen tes.

(** What a call dfs_visit(v) promises, for a vertex [v] that hangs in the
    tree already but is not marked yet: it returns, and everything it
    discovers is explored to the end. *)
Definition dfs_visit_spec (g : Graph) (start : Z) (fuel : nat) : Prop :=
  forall (v : Z) (visited : list bool) (tree : Graph) (vs : list Z) (es : list (Z * Z * Z)),
    tree_of g start tree (vs ++ [v]) es -> marks_of visited vs ->
    Z.of_nat (length visited) = numVertices g -> NoDup (vs ++ [v]) ->
    numVertices g <= Z.of_nat fuel + Z.of_nat (length vs) ->
    exists visited' tree' rest es',
      dfs_visit fuel g v (visited, tree) = Ok (visited', tree') /\
      tree_of g start tree' (vs ++ v :: rest) es' /\
      marks_of visited' (vs ++ v :: rest) /\
      Z.of_nat (length visited') = numVertices g /\
      NoDup (vs ++ v :: rest) /\
      closed_under g (v :: rest) (vs ++ v :: rest).

(** *** dijkstra: the predecessor links *)

(** [v] hangs under [start] by predecessor links, and every vertex passed on
    the way has a distance of at most the floor [f], which makes it final. *)
Inductive chain (d pv : list Z) (start f : Z) : Z -> Prop :=
| chain_start : chain d pv start f start
| chain_step (v : Z) :
    0 <= v < Z.of_nat (length d) ->
    nth_z pv v <> -1 -> 0 <= nth_z pv v < Z.of_nat (length d) ->
    nth_z d (nth_z pv v) <= f ->
    chain d pv start f (nth_z pv v) -> chain d pv start f v.

Definition chains_ok (g : Graph) (start f : Z) (s : dijkstra_state) : Prop :=
  forall v, 0 <= v < numVertices g ->
    nth_z (dist s) v <= INT_MAX /\
    (nth_z (dist s) v < INT_MAX -> chain (dist s) (prev s) start f v).

(** *** prim: the tree reaches what vertex 0 reaches *)

Definition marked (m : list bool) (v : Z) : Prop := m !! Z.to_nat v = Some true.

(** [v] hangs under vertex 0 by parent links through vertices that are in
    the tree already. *)
Inductive pchain (m : list bool) (pr : list Z) : Z -> Prop :=
| pchain_root : pchain m pr 0
| pchain_step (v : Z) :
    0 <= v < Z.of_nat (length pr) ->
    nth_z pr v <> -1 -> 0 <= nth_z pr v < Z.of_nat (length pr) ->
    marked m (nth_z pr v) ->
    pchain m pr (nth_z pr v) -> pchain m pr v.

(** No stored weight is INT_MAX, the value that marks a vertex without
    key. *)
Definition light_weights (g : Graph) : bool :=
  forallb (forallb (fun nb => weight nb <? INT_MAX)) (adjacencyList g).

(** The neighbour is in the tree, or its key is no heavier than this
    edge. *)
Definition settled (s : prim_state) (nb : Neighbor) : Prop :=
  marked (inMST s) (vertex nb) \/ nth_z (key s) (vertex nb) <= weight nb.

(** What holds of the arrays and the queue of prim throughout: a vertex has
    a key below INT_MAX exactly when it was reached; a reached vertex is in
    the tree or waits in the queue; and it hangs under vertex 0. *)
Definition prim_core (g : Graph) (s : prim_state) : Prop :=
  Z.of_nat (length (inMST s)) = numVertices g /\
  Z.of_nat (length (key s)) = numVertices g /\
  Z.of_nat (length (pr_parent s)) = numVertices g /\
  pq_inv (pr_pq s) = true /\
  (forall e, In e (contents (pr_pq s)) ->
     0 <= PriorityQueue.value e < numVertices g /\
     nth_z (key s) (PriorityQueue.value e) < INT_MAX) /\
  nth_z (key s) 0 < INT_MAX /\
  (forall v, 0 <= v < numVertices g ->
     nth_z (key s) v <= INT_MAX /\
     (marked (inMST s) v -> nth_z (key s) v < INT_MAX) /\
     (nth_z (key s) v < INT_MAX ->
        (marked (inMST s) v \/
         exists e, In e (contents (pr_pq s)) /\ PriorityQueue.value e = v) /\
        pchain (inMST s) (pr_parent s) v)).

(** The invariant of the [while] loop of prim. *)
Definition prim_inv (g : Graph) (s : prim_state) : Prop :=
  prim_core g s /\
  forall u nb, 0 <= u < numVertices g -> marked (inMST s) u ->
    In nb (adj g u) -> settled s nb.

(** The invariant of the [for] loop at vertex [u]; [seen] are the
    neighbours handled so far. *)
Definition prim_relax_inv (g : Graph) (s : prim_state) (u : Z) (seen : list Neighbor)
  : Prop :=
  prim_core g s /\ 0 <= u < numVertices g /\ marked (inMST s) u /\
  (forall u' nb, 0 <= u' < numVertices g -> marked (inMST s) u' -> u' <> u ->
     In nb (adj g u') -> settled s nb) /\
  (forall nb, In nb seen -> settled s nb).

(** *** bfs: levels *)

(** A path in [g] from [a], with the number of its edges. *)
Inductive path (g : Graph) (a : Z) : Z -> nat -> Prop :=
| path_here : path g a a 0
| path_step (b c w : Z) (k : nat) :
    path g a b k -> In (mkNeighbor c w) (adj g b) -> path g a c (S k).

(** The levels [lv] of the discovered vertices [vs] while bfs serves [u],
    with [items] waiting behind it: the tree has a path of [lv v] edges to
    each discovered [v]; nothing discovered lies more than one level beyond
    [u]; and the queue holds its vertices in the order of their levels, none
    before the level of [u]. *)
Definition levels_ok (tree : Graph) (start : Z) (vs items : list Z) (lv : Z -> nat)
    (u : Z) : Prop :=
  lv start = 0%nat /\
  (forall v, In v vs -> path tree start v (lv v)) /\
  (forall x, In x vs -> (lv x <= lv u + 1)%nat) /\
  (forall x, In x items -> In x vs /\ (lv u <= lv x)%nat) /\
  StronglySorted (fun a b => (lv a <= lv b)%nat) items.

(** The same between two rounds: nothing discovered lies more than one
    level beyond any waiting vertex. *)
Definition front_ok (tree : Graph) (start : Z) (vs items : list Z) (lv : Z -> nat)
  : Prop :=
  lv start = 0%nat /\
  (forall v, In v vs -> path tree start v (lv v)) /\
  (forall x u, In x vs -> In u items -> (lv x <= lv u + 1)%nat) /\
  (forall x, In x items -> In x vs) /\
  StronglySorted (fun a b => (lv a <= lv b)%nat) items.

(** Every neighbour of a served vertex is discovered, at most one level
    further. *)
Definition level_closed (g : Graph) (us vs : list Z) (lv : Z -> nat) : Prop :=
  forall u nb, In u us -> In nb (adj g u) ->
    In (vertex nb) vs /\ (lv (vertex nb) <= lv u + 1)%nat.

(** *** Counting the sets of a UnionFind *)

(** The roots: one per set. *)
Definition roots (u : UnionFind.t) : list Z :=
  List.filter (fun i => nth_z (UnionFind.parent u) i =? i) (upto (UnionFind.size u)).

(** The root that [size] steps along the parents lead to. *)
Definition root_of (u : UnionFind.t) (i : Z) : Z :=
  root_at (UnionFind.parent u) (Z.to_nat (UnionFind.size u)) i.

(** *** kruskal: the weight of the forest *)

Definition weight_sum (es : list (Z * Z * Z)) : Z :=
  fold_right (fun e acc => snd e + acc) 0 es.

(** The edges that weigh at most [w]. *)
Definition lighter (w : Z) (es : list (Z * Z * Z)) : list (Z * Z * Z) :=
  List.filter (fun e => snd e <=? w) es.

(** Both ends of every edge are vertices. *)
Definition ends_ok (n : Z) (es : list (Z * Z * Z)) : Prop :=
  forall e, In e es -> pair_ok n (ends e).

(** The number of pairs (edge, k) with [k < K] and the weight of the edge at
    most [L + k]. *)
Fixpoint light_total (L : Z) (K : nat) (es : list (Z * Z * Z)) : Z :=
  match K with
  | O => 0
  | S k => light_total L k es + Z.of_nat (length (lighter (L + Z.of_nat k) es))
  end.

(** *** prim: the weight of the tree *)

(** The tree edges of the vertices [order]. *)
Definition tree_edges (s : prim_state) (order : list Z) : list (Z * Z * Z) :=
  omap (prim_edge_of (key s) (pr_parent s)) order.

(** Tree edges of weight at most [w] join the two ends of every edge of the
    graph of weight at most [w] that leaves a vertex of the tree, unless
    they join that vertex to the one that entered the tree last. *)
Definition bottleneck (g : Graph) (s : prim_state) (order : list Z) : Prop :=
  forall w a b x,
    0 <= a < numVertices g -> marked (inMST s) a ->
    In (mkNeighbor b x) (adj g a) -> x <= w ->
    (marked (inMST s) b /\ linked (map ends (lighter w (tree_edges s order))) a b) \/
    linked (map ends (lighter w (tree_edges s order))) a (hd 0 order).

(** What holds of prim when the vertices [order] have entered the tree,
    latest first: the queue holds every reached vertex outside the tree with
    its key, and no entry with a priority below the key; only reached
    vertices other than 0 have a parent; and the tree edges close no
    cycle. *)
Definition prim_mst_inv (g : Graph) (s : prim_state) (order : list Z) : Prop :=
  prim_arrays_ok g s /\
  NoDup order /\
  (forall v, In v order <-> 0 <= v < numVertices g /\ marked (inMST s) v) /\
  (forall v, In v order -> In 0 order) /\
  (forall e, In e (contents (pr_pq s)) ->
     nth_z (key s) (PriorityQueue.value e) <= PriorityQueue.priority e) /\
  (forall v, 0 <= v < numVertices g -> ~ marked (inMST s) v ->
     nth_z (key s) v < INT_MAX ->
     In (PriorityQueue.mkElement v (nth_z (key s) v)) (contents (pr_pq s))) /\
  (forall v, 0 <= v < numVertices g -> nth_z (pr_parent s) v <> -1 ->
     v <> 0 /\ nth_z (key s) v < INT_MAX) /\
  forest (tree_edges s order) /\
  bottleneck g s order.

(** *** prim: the turns of the loop *)

(** The list nodes of the vertices that are not in the tree. *)
Definition pending (g : Graph) (m : list bool) : Z :=
  fold_right
    (fun u acc =>
       match m !! Z.to_nat u with
       | Some true => 0
       | _ => Z.of_nat (length (adj g u))
       end + acc)
    0 (upto (numVertices g)).

(** What bounds the turns that the [while] loop of prim has left: the
    entries of the queue and the list nodes of the vertices outside the
    tree. *)
Definition prim_work (g : Graph) (s : prim_state) : Z :=
  PriorityQueue.size (pr_pq s) + pending g (inMST s).

(** *** dijkstra: the turns of the loop *)

(** The vertices marked in [m] are done under the floor [f]: their edges are
    relaxed, their distance is at most [f], and adding the weight of one of
    their edges to it does not overflow.  A reached vertex other than [u]
    that is not done waits in the queue with its distance. *)
Definition dj_done (g : Graph) (s : dijkstra_state) (f u : Z) (m : list bool) : Prop :=
  Z.of_nat (length m) = numVertices g /\
  (forall v, 0 <= v < numVertices g -> marked m v ->
     relaxed g (dist s) v /\ nth_z (dist s) v <= f /\
     forall nb, In nb (adj g v) -> in_int (nth_z (dist s) v + weight nb) = true) /\
  (forall v, 0 <= v < numVertices g -> v <> u -> ~ marked m v ->
     nth_z (dist s) v < INT_MAX ->
     In (PriorityQueue.mkElement v (nth_z (dist s) v)) (contents (dj_pq s))).

(** What bounds the turns that the [while] loop of dijkstra has left. *)
Definition dj_work (g : Graph) (s : dijkstra_state) (m : list bool) : Z :=
  PriorityQueue.size (dj_pq s) + pending g m.

(** *** dijkstra: sums within the range of int *)

(** No sum [dist[u] + w] and no difference [dist[v] - dist[prev[v]]] that
    dijkstra computes on this input leaves the range of [int]: the run that
    checks each of them does not stop at one. *)
Definition sums_fit (fuel : nat) (g : Graph) (start : Z) : Prop :=
  dijkstra fuel g start <> Fault SignedOverflow.

(** The same for the search alone, the part before the tree is built. *)
Definition search_sums_fit (fuel : nat) (g : Graph) (start : Z) : Prop :=
  dijkstra_search fuel g start <> Fault SignedOverflow.

(** Graph(3) with addEdge(0,1,2147483646) and addEdge(1,2,2): the path
    0 - 1 - 2 weighs more than INT_MAX. *)
Definition heavy_path : Graph :=
  mkGraph 3 [[mkNeighbor 1 2147483646];
             [mkNeighbor 2 2; mkNeighbor 0 2147483646];
             [mkNeighbor 1 2]].

(** * Properties *)

(** ** Outcomes and arrays *)

Lemma bind_Ok {A B : Type} (m : outcome A) (k : A -> outcome B) (b : B) :
  bind m k = Ok b <-> exists a, m = Ok a /\ k a = Ok b.
Proof.
  destruct m; simpl; split; intros H; try discriminate; eauto;
    destruct H as (a' & Ha & Hk); congruence.
Qed.

Lemma in_bounds_true {A : Type} (a : list A) (i : Z) :
  in_bounds a i = true <-> 0 <= i < Z.of_nat (length a).
Proof. unfold in_bounds. rewrite andb_true_iff, Z.leb_le, Z.ltb_lt. tauto. Qed.

Lemma in_bounds_false {A : Type} (a : list A) (i : Z) :
  in_bounds a i = false <-> ~ (0 <= i < Z.of_nat (length a)).
Proof. rewrite <- in_bounds_true. destruct (in_bounds a i); split; congruence. Qed.

Lemma aget_Ok {A : Type} (a : list A) (i : Z) (x : A) :
  aget a i = Ok x <-> 0 <= i /\ a !! Z.to_nat i = Some x.
Proof.
  unfold aget. destruct (in_bounds a i) eqn:Hb.
  - apply in_bounds_true in Hb. destruct (a !! Z.to_nat i) eqn:Hl.
    + split; [intros [= ->]; split; [lia | done] | intros [_ [= ->]]; done].
    + split; [discriminate | intros [_ ?]; discriminate].
  - apply in_bounds_false in Hb. split; [discriminate |].
    intros [H0 Hl]. apply lookup_lt_Some in Hl. lia.
Qed.

Lemma aget_in {A : Type} (a : list A) (i : Z) :
  0 <= i < Z.of_nat (length a) -> exists x, aget a i = Ok x.
Proof.
  intros Hi. destruct (lookup_lt_is_Some_2 a (Z.to_nat i)) as [x Hx]; [lia |].
  exists x. apply aget_Ok. split; [lia | done].
Qed.

Lemma aget_out {A : Type} (a : list A) (i : Z) :
  ~ (0 <= i < Z.of_nat (length a)) -> aget a i = Fault OutOfBoundsAccess.
Proof. intros Hi. unfold aget. apply in_bounds_false in Hi. by rewrite Hi. Qed.

Lemma aset_Ok {A : Type} (a a' : list A) (i : Z) (x : A) :
  aset a i x = Ok a' <->
  0 <= i < Z.of_nat (length a) /\ a' = <[Z.to_nat i := x]> a.
Proof.
  unfold aset. destruct (in_bounds a i) eqn:Hb.
  - apply in_bounds_true in Hb. split; [intros [= <-]; done | intros [_ ->]; done].
  - apply in_bounds_false in Hb. split; [discriminate | tauto].
Qed.

Lemma aset_in {A : Type} (a : list A) (i : Z) (x : A) :
  0 <= i < Z.of_nat (length a) -> aset a i x = Ok (<[Z.to_nat i := x]> a).
Proof. intros Hi. by apply aset_Ok. Qed.

Lemma aset_out {A : Type} (a : list A) (i : Z) (x : A) :
  ~ (0 <= i < Z.of_nat (length a)) -> aset a i x = Fault OutOfBoundsAccess.
Proof. intros Hi. unfold aset. apply in_bounds_false in Hi. by rewrite Hi. Qed.

Lemma new_array_Ok {A : Type} (n : Z) (d : A) :
  0 <= n -> new_array n d = Ok (replicate (Z.to_nat n) d).
Proof. intros Hn. unfold new_array. destruct (Z.ltb_spec n 0); [lia | done]. Qed.

(** Destructure a hypothesis [H : ... = Ok _] made of binds. *)
Ltac inv_ok H :=
  repeat match type of H with
  | bind _ _ = Ok _ =>
      let x := fresh "x" in let Hx := fresh "Hx" in
      apply bind_Ok in H; destruct H as (x & Hx & H)
  | Ok _ = Ok _ => injection H as H
  | Throw _ = Ok _ => discriminate H
  | Fault _ = Ok _ => discriminate H
  | Timeout = Ok _ => discriminate H
  end.

(** ** Graph *)

Lemma in_int_spec (x : Z) : in_int x = true <-> INT_MIN <= x <= INT_MAX.
Proof. unfold in_int. rewrite andb_true_iff, !Z.leb_le. tauto. Qed.

Lemma well_formed_spec (g : Graph) :
  well_formed g = true <->
  0 <= numVertices g <= INT_MAX /\
  Z.of_nat (length (adjacencyList g)) = numVertices g /\
  (forall u nb, In nb (adj g u) ->
     0 <= vertex nb < numVertices g /\ in_int (weight nb) = true).
Proof.
  unfold well_formed.
  rewrite !andb_true_iff, in_int_spec, !Z.leb_le, Z.eqb_eq, forallb_forall.
  unfold INT_MIN. split.
  - intros [[[H0 [_ H1]] H2] H3]. split; [lia |]. split; [done |].
    intros u nb Hin. unfold adj in Hin. destruct (Z.leb_spec 0 u); [| done].
    destruct (adjacencyList g !! Z.to_nat u) as [l |] eqn:Hl; [| done]. simpl in Hin.
    assert (Hf : forallb (neighbor_ok (numVertices g)) l = true).
    { apply H3. apply list_elem_of_In. eapply list_elem_of_lookup_2; eauto. }
    rewrite forallb_forall in Hf. specialize (Hf nb Hin).
    unfold neighbor_ok in Hf. rewrite !andb_true_iff, Z.leb_le, Z.ltb_lt in Hf.
    tauto.
  - intros (H0 & H1 & H2). repeat split; try lia; try done.
    intros l Hl. apply forallb_forall. intros nb Hnb.
    apply list_elem_of_In, list_elem_of_lookup_1 in Hl. destruct Hl as [i Hi].
    specialize (H2 (Z.of_nat i) nb). unfold adj in H2.
    destruct (Z.leb_spec 0 (Z.of_nat i)); [| lia].
    rewrite Nat2Z.id, Hi in H2. simpl in H2. specialize (H2 Hnb).
    unfold neighbor_ok. rewrite !andb_true_iff, Z.leb_le, Z.ltb_lt. tauto.
Qed.

Lemma valid_vertex_spec (g : Graph) (v : Z) :
  valid_vertex g v = true <-> 0 <= v < numVertices g.
Proof. unfold valid_vertex. rewrite andb_true_iff, Z.leb_le, Z.ltb_lt. tauto. Qed.

Lemma range_check_false (n u v : Z) :
  0 <= u < n -> 0 <= v < n ->
  (u <? 0) || (u >=? n) || (v <? 0) || (v >=? n) = false.
Proof.
  intros Hu Hv. rewrite !orb_false_iff, !Z.ltb_ge, !Z.geb_leb, !Z.leb_gt. lia.
Qed.

Lemma range_check_true (n u v : Z) :
  ~ (0 <= u < n /\ 0 <= v < n) ->
  (u <? 0) || (u >=? n) || (v <? 0) || (v >=? n) = true.
Proof.
  intros H. destruct ((u <? 0) || (u >=? n) || (v <? 0) || (v >=? n)) eqn:E; [done |].
  rewrite !orb_false_iff, !Z.ltb_ge, !Z.geb_leb, !Z.leb_gt in E. lia.
Qed.

Lemma getNeighbors_Ok (g : Graph) (v : Z) :
  Z.of_nat (length (adjacencyList g)) = numVertices g ->
  0 <= v < numVertices g ->
  getNeighbors g v = Ok (adj g v).
Proof.
  intros Hlen Hv. unfold getNeighbors, adj.
  destruct (Z.leb_spec 0 v); [| lia].
  replace ((v <? 0) || (v >=? numVertices g)) with false
    by (symmetry; rewrite orb_false_iff, Z.ltb_ge, Z.geb_leb, Z.leb_gt; lia).
  destruct (aget_in (adjacencyList g) v) as [l Hl]; [lia |].
  rewrite Hl. apply aget_Ok in Hl as [_ ->]. done.
Qed.

Lemma getNeighbors_invalid (g : Graph) (v : Z) :
  ~ (0 <= v < numVertices g) -> getNeighbors g v = Throw VertexIndexOutOfBounds.
Proof.
  intros Hv. unfold getNeighbors.
  replace ((v <? 0) || (v >=? numVertices g)) with true; [done |].
  symmetry. rewrite orb_true_iff, Z.ltb_lt, Z.geb_leb, Z.leb_le. lia.
Qed.

Lemma addEdge_Ok (g : Graph) (u v w : Z) :
  0 <= u < numVertices g -> 0 <= v < numVertices g ->
  addEdge g u v w =
  Ok (mkGraph (numVertices g)
        (push_front v (mkNeighbor u w) (push_front u (mkNeighbor v w) (adjacencyList g)))).
Proof. intros Hu Hv. unfold addEdge. by rewrite range_check_false. Qed.

Lemma lookup_alter_at {A : Type} (f : A -> A) (l : list A) (i j : nat) :
  alter f i l !! j = if decide (i = j) then f <$> l !! j else l !! j.
Proof. rewrite list_lookup_alter. case_decide; subst; done. Qed.

Lemma adj_addEdge (g g' : Graph) (u v w x : Z) :
  Z.of_nat (length (adjacencyList g)) = numVertices g ->
  addEdge g u v w = Ok g' ->
  0 <= x ->
  adj g' x =
  (if x =? v then [mkNeighbor u w] else []) ++
  (if x =? u then [mkNeighbor v w] else []) ++ adj g x.
Proof.
  intros Hlen H Hx. unfold addEdge in H.
  destruct (_ || _) eqn:E in H; [discriminate |]. injection H as <-.
  rewrite !orb_false_iff, !Z.ltb_ge, !Z.geb_leb, !Z.leb_gt in E.
  unfold adj, push_front. simpl. destruct (Z.leb_spec 0 x); [| lia].
  rewrite !lookup_alter_at.
  destruct (adjacencyList g !! Z.to_nat x) as [l |] eqn:Hl.
  - destruct (Z.eqb_spec x v), (Z.eqb_spec x u); subst;
      repeat case_decide; simpl; try done; lia.
  - apply lookup_ge_None_1 in Hl.
    destruct (Z.eqb_spec x v), (Z.eqb_spec x u); subst; try lia.
    repeat case_decide; done.
Qed.

Lemma unlink_first_cons (x : Z) (nb : Neighbor) (l : list Neighbor) :
  vertex nb = x -> unlink_first x (nb :: l) = l.
Proof. intros <-. simpl. by rewrite Z.eqb_refl. Qed.

(** removeEdge undoes the addEdge that came just before it: the nodes it
    unlinks are the two that were pushed at the heads. *)
Lemma removeEdge_addEdge (g g1 : Graph) (u v w : Z) :
  Z.of_nat (length (adjacencyList g)) = numVertices g ->
  addEdge g u v w = Ok g1 ->
  removeEdge g1 u v = Ok g.
Proof.
  intros Hlen H. unfold addEdge in H.
  destruct (_ || _) eqn:E in H; [discriminate |]. injection H as <-.
  unfold removeEdge. simpl. rewrite E. f_equal. destruct g as [n a]. simpl in *.
  f_equal. unfold push_front.
  rewrite !orb_false_iff, !Z.ltb_ge, !Z.geb_leb, !Z.leb_gt in E.
  apply list_eq. intros i. rewrite !lookup_alter_at.
  destruct (a !! i) as [l |] eqn:Hl; repeat case_decide; simpl; try done;
    f_equal; rewrite ?Z.eqb_refl; try done.
  assert (u = v) as -> by lia. rewrite Z.eqb_refl. simpl. by rewrite Z.eqb_refl.
Qed.

(** *** Every graph the interface can make is well formed *)

Lemma Graph_new_well_formed (n : Z) (g : Graph) :
  n <= INT_MAX -> Graph_new n = Ok g -> well_formed g = true.
Proof.
  intros Hn H. unfold Graph_new, new_array in H.
  destruct (Z.ltb_spec n 0); [done |]. simpl in H. injection H as <-.
  apply well_formed_spec. simpl. rewrite length_replicate.
  split; [lia |]. split; [lia |].
  intros u nb Hin. unfold adj in Hin. simpl in Hin.
  destruct (0 <=? u); [| done].
  destruct (replicate (Z.to_nat n) [] !! Z.to_nat u) as [l |] eqn:E; [| done].
  apply lookup_replicate in E as [-> _]. done.
Qed.

Lemma addEdge_well_formed (g g' : Graph) (u v w : Z) :
  well_formed g = true -> in_int w = true ->
  addEdge g u v w = Ok g' -> well_formed g' = true.
Proof.
  intros Hwf Hw Hadd. apply well_formed_spec in Hwf as (Hn & Hlen & Hadj).
  assert (Hr : 0 <= u < numVertices g /\ 0 <= v < numVertices g).
  { unfold addEdge in Hadd. destruct (_ || _) eqn:E in Hadd; [done |].
    rewrite !orb_false_iff, !Z.ltb_ge, !Z.geb_leb, !Z.leb_gt in E. lia. }
  assert (Hn' : numVertices g' = numVertices g).
  { unfold addEdge in Hadd. destruct (_ || _) in Hadd; [done |]. by injection Hadd as <-. }
  apply well_formed_spec. rewrite Hn'. split; [done |]. split.
  - unfold addEdge in Hadd. destruct (_ || _) in Hadd; [done |].
    injection Hadd as <-. unfold push_front. simpl. by rewrite !length_alter.
  - intros x nb Hin. destruct (Z.leb_spec 0 x) as [Hx | Hx].
    + rewrite (adj_addEdge g g' u v w x Hlen Hadd Hx) in Hin.
      apply in_app_or in Hin as [Hin | Hin];
        [| apply in_app_or in Hin as [Hin | Hin]; [| by apply (Hadj x)]].
      * destruct (x =? v); [| done]. destruct Hin as [<- | []]. simpl. split; [lia | done].
      * destruct (x =? u); [| done]. destruct Hin as [<- | []]. simpl. split; [lia | done].
    + unfold adj in Hin. destruct (Z.leb_spec 0 x); [lia | done].
Qed.

Lemma In_unlink_first (d : Z) (nb : Neighbor) (l : list Neighbor) :
  In nb (unlink_first d l) -> In nb l.
Proof.
  induction l as [| x l IH]; simpl; [done |].
  destruct (vertex x =? d); [by right |]. intros [<- | H]; [by left | right; auto].
Qed.

Lemma removeEdge_well_formed (g g' : Graph) (u v : Z) :
  well_formed g = true -> removeEdge g u v = Ok g' -> well_formed g' = true.
Proof.
  intros Hwf Hrem. apply well_formed_spec in Hwf as (Hn & Hlen & Hadj).
  unfold removeEdge in Hrem. destruct (_ || _) in Hrem; [done |].
  injection Hrem as <-. apply well_formed_spec. simpl.
  split; [done |]. split; [by rewrite !length_alter |].
  intros x nb Hin. apply (Hadj x). unfold adj in *. simpl in Hin.
  destruct (0 <=? x); [| done]. rewrite !lookup_alter_at in Hin.
  destruct (adjacencyList g !! Z.to_nat x) as [l |]; [| by repeat case_decide].
  repeat case_decide; simpl in *; repeat apply In_unlink_first in Hin; done.
Qed.

Lemma neighbor_eqb_eq (a b : Neighbor) : neighbor_eqb a b = true <-> a = b.
Proof.
  unfold neighbor_eqb. rewrite andb_true_iff, !Z.eqb_eq.
  destruct a, b; simpl. split; [intros [-> ->]; done | intros [= -> ->]; done].
Qed.

Lemma count_nb_app (x : Neighbor) (l1 l2 : list Neighbor) :
  count_nb x (l1 ++ l2) = (count_nb x l1 + count_nb x l2)%nat.
Proof. induction l1 as [| y l1 IH]; simpl; [done | rewrite IH; lia]. Qed.

Lemma count_nb_zero (x : Neighbor) (l : list Neighbor) :
  count_nb x l = 0%nat <-> ~ In x l.
Proof.
  induction l as [| y l IH]; simpl; [tauto |].
  destruct (neighbor_eqb x y) eqn:E.
  - apply neighbor_eqb_eq in E. subst. split; [lia | tauto].
  - assert (x <> y) by (intros ->; rewrite (proj2 (neighbor_eqb_eq y y)) in E; done).
    simpl. rewrite IH. split; [intros H1 [H2 | H2]; [congruence | tauto] | tauto].
Qed.

Lemma count_nb_self (x : Neighbor) : count_nb x [x] = 1%nat.
Proof. simpl. by rewrite (proj2 (neighbor_eqb_eq x x)). Qed.

(** C7.  For a well-formed graph and valid vertices u, v: addEdge(u,v,w)
    succeeds, after it the snapshot of u holds (v,w) and the snapshot of v
    holds (u,w); and when the graph then holds exactly one copy of that edge,
    removeEdge(u,v) succeeds and afterwards neither snapshot holds the pair. *)
Theorem addEdge_removeEdge_symmetry (g : Graph) (u v w : Z) :
  well_formed g = true ->
  valid_vertex g u = true ->
  valid_vertex g v = true ->
  exists g1 nu nv,
    addEdge g u v w = Ok g1 /\
    getNeighbors g1 u = Ok nu /\ getNeighbors g1 v = Ok nv /\
    In (mkNeighbor v w) nu /\ In (mkNeighbor u w) nv /\
    (single_copy g1 u v w = true ->
     exists g2 nu' nv',
       removeEdge g1 u v = Ok g2 /\
       getNeighbors g2 u = Ok nu' /\ getNeighbors g2 v = Ok nv' /\
       ~ In (mkNeighbor v w) nu' /\ ~ In (mkNeighbor u w) nv').
Proof.
  intros Hwf Hu Hv. apply well_formed_spec in Hwf as (Hn & Hlen & _).
  apply valid_vertex_spec in Hu, Hv.
  pose proof (addEdge_Ok g u v w Hu Hv) as Hadd.
  set (g1 := mkGraph _ _) in Hadd.
  assert (Hlen1 : Z.of_nat (length (adjacencyList g1)) = numVertices g1).
  { unfold g1, push_front. simpl. by rewrite !length_alter. }
  pose proof (adj_addEdge g g1 u v w u Hlen Hadd ltac:(lia)) as Hau.
  pose proof (adj_addEdge g g1 u v w v Hlen Hadd ltac:(lia)) as Hav.
  rewrite Z.eqb_refl in Hau, Hav.
  exists g1, (adj g1 u), (adj g1 v).
  split; [done |]. split; [by apply getNeighbors_Ok |].
  split; [by apply getNeighbors_Ok |].
  split; [rewrite Hau; apply in_or_app; right; by left |].
  split; [rewrite Hav; by left |].
  intros Hone. exists g, (adj g u), (adj g v).
  split; [by apply (removeEdge_addEdge g g1 u v w) |].
  split; [by apply getNeighbors_Ok |]. split; [by apply getNeighbors_Ok |].
  unfold single_copy in Hone. rewrite andb_true_iff, !Nat.eqb_eq in Hone.
  destruct Hone as [H1 H2]. rewrite Hau in H1. rewrite Hav in H2.
  rewrite <- !count_nb_zero. unfold nodes_per_edge in *.
  rewrite !count_nb_app in H1, H2.
  destruct (Z.eqb_spec u v) as [-> | Hne].
  - rewrite Z.eqb_refl in *. rewrite !count_nb_self in *. lia.
  - destruct (Z.eqb_spec v u); [congruence |].
    rewrite !count_nb_self in *. simpl in *. lia.
Qed.

Lemma addEdge_removeEdge_symmetry_witness :
  exists g1 g2 nu nv,
    addEdge triangle 0 1 7 = Ok g1 /\ removeEdge g1 0 1 = Ok g2 /\
    getNeighbors g2 0 = Ok nu /\ getNeighbors g2 1 = Ok nv /\
    ~ In (mkNeighbor 1 7) nu /\ ~ In (mkNeighbor 0 7) nv.
Proof.
  destruct (addEdge_removeEdge_symmetry triangle 0 1 7)
    as (g1 & nu & nv & Hadd & _ & _ & _ & _ & Hrem);
    [reflexivity | reflexivity | reflexivity |].
  assert (Hg1 : g1 = mkGraph 3 [ [mkNeighbor 1 7; mkNeighbor 2 5; mkNeighbor 1 1];
                                  [mkNeighbor 0 7; mkNeighbor 2 2; mkNeighbor 0 1];
                                  [mkNeighbor 0 5; mkNeighbor 1 2] ]).
  { vm_compute in Hadd. congruence. }
  destruct Hrem as (g2 & nu' & nv' & H1 & H2 & H3 & H4 & H5);
    [rewrite Hg1; reflexivity |].
  exists g1, g2, nu', nv'. tauto.
Defined.

(** ** Constructors *)

(** C5.  Only PriorityQueue rejects a non-positive capacity.  Graph(0),
    Queue(0) and UnionFind(0) construct an empty object, and a negative
    length fails inside [new], not with a GraphException. *)
Theorem only_PriorityQueue_checks_capacity :
  PriorityQueue.new 0 = Throw PQCapacityMustBePositive /\
  PriorityQueue.new (-1) = Throw PQCapacityMustBePositive /\
  kind PQCapacityMustBePositive = InvalidArgument /\
  Graph_new 0 = Ok (mkGraph 0 []) /\
  Queue.new 0 = Ok (Queue.mk [] 0 (-1) 0 0) /\
  UnionFind.new 0 = Ok (UnionFind.mk [] [] 0) /\
  Graph_new (-1) = Fault BadArrayNewLength /\
  Queue.new (-1) = Fault BadArrayNewLength /\
  UnionFind.new (-1) = Fault BadArrayNewLength.
Proof. repeat split. Qed.

(** ** Loop budgets: a larger budget never changes a finished run *)

Lemma bfs_loop_mono (g : Graph) (f : nat) :
  forall s r, bfs_loop f g s = r -> r <> Timeout ->
  forall k, bfs_loop (k + f) g s = r.
Proof.
  induction f as [| f IH]; intros s r H Hr k; simpl in H; [congruence |].
  rewrite Nat.add_succ_r. simpl.
  destruct (Queue.isEmpty (bfs_q s)); [done |].
  destruct (Queue.dequeue (bfs_q s)) as [[u q] | | |]; simpl in *; try done.
  destruct (getNeighbors g u); simpl in *; try done.
  destruct (foldM _ _ _); simpl in *; try done. by apply IH.
Qed.

Lemma dijkstra_loop_mono (g : Graph) (f : nat) :
  forall s r, dijkstra_loop f g s = r -> r <> Timeout ->
  forall k, dijkstra_loop (k + f) g s = r.
Proof.
  induction f as [| f IH]; intros s r H Hr k; simpl in H; [congruence |].
  rewrite Nat.add_succ_r. simpl.
  destruct (PriorityQueue.isEmpty (dj_pq s)); [done |].
  destruct (PriorityQueue.extractMin (dj_pq s)) as [[u q] | | |]; simpl in *; try done.
  destruct (getNeighbors g u); simpl in *; try done.
  destruct (foldM _ _ _); simpl in *; try done. by apply IH.
Qed.

Lemma prim_loop_mono (g : Graph) (f : nat) :
  forall s r, prim_loop f g s = r -> r <> Timeout ->
  forall k, prim_loop (k + f) g s = r.
Proof.
  induction f as [| f IH]; intros s r H Hr k; simpl in H; [congruence |].
  rewrite Nat.add_succ_r. simpl.
  destruct (PriorityQueue.isEmpty (pr_pq s)); [done |].
  destruct (PriorityQueue.extractMin (pr_pq s)) as [[u q] | | |]; simpl in *; try done.
  destruct (aset (inMST s) u true); simpl in *; try done.
  destruct (getNeighbors g u); simpl in *; try done.
  destruct (foldM _ _ _); simpl in *; try done. by apply IH.
Qed.

Lemma bfs_mono (g : Graph) (start : Z) (f : nat) (r : outcome Graph) :
  bfs f g start = r -> r <> Timeout -> forall k, bfs (k + f) g start = r.
Proof.
  unfold bfs, bfs_run. intros H Hr k.
  destruct (Graph_new _); simpl in *; try done.
  destruct (new_array _ _); simpl in *; try done.
  destruct (Queue.new _); simpl in *; try done.
  destruct (aset _ _ _); simpl in *; try done.
  destruct (Queue.enqueue _ _); simpl in *; try done.
  destruct (bfs_loop f g _) as [s | e | ft |] eqn:E; simpl in *;
    try (rewrite (bfs_loop_mono g f _ _ E) by done; done).
Qed.

Lemma dijkstra_mono (g : Graph) (start : Z) (f : nat) (r : outcome Graph) :
  dijkstra f g start = r -> r <> Timeout -> forall k, dijkstra (k + f) g start = r.
Proof.
  unfold dijkstra, dijkstra_search. intros H Hr k.
  destruct (Graph_new _); simpl in *; try done.
  destruct (new_array _ INT_MAX); simpl in *; try done.
  destruct (new_array _ (-1)); simpl in *; try done.
  destruct (aset _ _ _); simpl in *; try done.
  destruct (PriorityQueue.new _); simpl in *; try done.
  destruct (PriorityQueue.insert _ _ _); simpl in *; try done.
  destruct (dijkstra_loop f g _) as [s | e | ft |] eqn:E; simpl in *;
    try (rewrite (dijkstra_loop_mono g f _ _ E) by done; done).
Qed.

Lemma prim_mono (g : Graph) (f : nat) (r : outcome Graph) :
  prim f g = r -> r <> Timeout -> forall k, prim (k + f) g = r.
Proof.
  unfold prim. intros H Hr k.
  destruct (Graph_new _); simpl in *; try done.
  destruct (new_array _ false); simpl in *; try done.
  destruct (new_array _ INT_MAX); simpl in *; try done.
  destruct (new_array _ (-1)); simpl in *; try done.
  destruct (aset _ _ _); simpl in *; try done.
  destruct (PriorityQueue.new _); simpl in *; try done.
  destruct (PriorityQueue.insert _ _ _); simpl in *; try done.
  destruct (prim_loop f g _) as [s | e | ft |] eqn:E; simpl in *;
    try (rewrite (prim_loop_mono g f _ _ E) by done; done).
Qed.

(** ** Runs on the fixed graphs *)

Lemma build_triangle : build 3 [(0,1,1); (1,2,2); (0,2,5)] = Ok triangle.
Proof. reflexivity. Qed.

Lemma build_fan : build 5 fan_edges = Ok fan.
Proof. reflexivity. Qed.

Lemma fan_is_valid_input :
  well_formed fan = true /\ nonneg_weights fan = true /\
  symmetric fan = true /\ connected fan = true /\ valid_vertex fan 0 = true.
Proof. repeat split. Qed.

Lemma dijkstra_fan_full (k : nat) : dijkstra (k + 2) fan 0 = Throw PQIsFull.
Proof. apply dijkstra_mono; [by vm_compute | done]. Qed.

Lemma prim_fan_full (k : nat) : prim (k + 2) fan = Throw PQIsFull.
Proof. apply prim_mono; [by vm_compute | done]. Qed.

(** C3.  On the triangle built by addEdge(0,1,1), addEdge(1,2,2),
    addEdge(0,2,5), prim (with any budget of at least five loop rounds) and
    kruskal both return the graph that holds (0,1) with weight 1 and (1,2)
    with weight 2 in both directions, no entry joining 0 and 2, and four
    adjacency entries in all. *)
Theorem triangle_mst_prim_kruskal :
  build 3 [(0,1,1); (1,2,2); (0,2,5)] = Ok triangle /\
  (forall k : nat, prim (k + 5) triangle = Ok triangle_mst) /\
  kruskal triangle = Ok triangle_mst /\
  In (mkNeighbor 1 1) (adj triangle_mst 0) /\
  In (mkNeighbor 0 1) (adj triangle_mst 1) /\
  In (mkNeighbor 2 2) (adj triangle_mst 1) /\
  In (mkNeighbor 1 2) (adj triangle_mst 2) /\
  (forall w, ~ In (mkNeighbor 2 w) (adj triangle_mst 0)) /\
  (forall w, ~ In (mkNeighbor 0 w) (adj triangle_mst 2)) /\
  total_entries triangle_mst = 4.
Proof.
  split; [reflexivity |].
  split; [intros k; apply prim_mono; [by vm_compute | done] |].
  split; [by vm_compute |].
  repeat split; simpl; try tauto.
  - intros w [H | []]. discriminate.
  - intros w [H | []]. discriminate.
Qed.

(** C4.  A valid input on which the priority queue of capacity
    vertexCount overflows: on the five-vertex fan, with non-negative weights
    and start vertex 0, dijkstra raises "Priority Queue is full", and so
    does prim. *)
Theorem priority_queue_overflow_exists :
  exists (g : Graph) (start : Z),
    well_formed g = true /\ nonneg_weights g = true /\ symmetric g = true /\
    valid_vertex g start = true /\
    (forall k : nat, dijkstra (k + 2) g start = Throw PQIsFull) /\
    (forall k : nat, prim (k + 2) g = Throw PQIsFull) /\
    kind PQIsFull = CapacityExceeded.
Proof.
  exists fan, 0. repeat split.
  - apply dijkstra_fan_full.
  - apply prim_fan_full.
Qed.

(** C1.  The fan is a connected graph of five vertices with non-negative
    weights, yet neither dijkstra nor prim returns a tree on it: both stop
    with "Priority Queue is full".  Kruskal does return its four edges. *)
Theorem connected_graph_without_tree :
  build 5 fan_edges = Ok fan /\
  well_formed fan = true /\ nonneg_weights fan = true /\
  symmetric fan = true /\ connected fan = true /\
  (forall k : nat, dijkstra (k + 2) fan 0 = Throw PQIsFull) /\
  (forall k : nat, prim (k + 2) fan = Throw PQIsFull) /\
  (exists t, kruskal fan = Ok t /\ total_entries t = 2 * (5 - 1)).
Proof.
  split; [reflexivity |]. repeat split.
  - apply dijkstra_fan_full.
  - apply prim_fan_full.
  - eexists. split; [by vm_compute | reflexivity].
Qed.

(** An edge of weight INT_MAX is never below the initial key or distance of
    its endpoint, so on the connected two-vertex graph that has only this
    edge prim and dijkstra return a tree without edges. *)
Lemma max_weight_edge_is_never_taken :
  exists g,
    build 2 [(0, 1, INT_MAX)] = Ok g /\ connected g = true /\
    prim 3 g = Ok (mkGraph 2 [[]; []]) /\
    dijkstra 3 g 0 = Ok (mkGraph 2 [[]; []]).
Proof. eexists. split; [reflexivity |]. repeat split. Qed.

(** ** A start vertex outside the graph *)

Lemma Graph_new_Ok (n : Z) :
  0 <= n -> Graph_new n = Ok (mkGraph n (replicate (Z.to_nat n) [])).
Proof. intros Hn. unfold Graph_new. by rewrite new_array_Ok. Qed.

Lemma Queue_new_Ok (n : Z) :
  0 <= n -> Queue.new n = Ok (Queue.mk (replicate (Z.to_nat n) 0) 0 (-1) n 0).
Proof. intros Hn. unfold Queue.new. by rewrite new_array_Ok. Qed.

(** C6.  For a well-formed graph and a start vertex outside
    [0, vertexCount), none of bfs, dfs and dijkstra raises the
    out-of-range exception.  The result tree, the working arrays and the
    queue are all allocated first; what fails is the write of visited[start]
    (dist[start] for dijkstra) outside its array, before any range test. *)
Theorem invalid_start_is_written_first (fuel : nat) (g : Graph) (start : Z) :
  well_formed g = true ->
  valid_vertex g start = false ->
  exists (tree : Graph) (visited : list bool) (q : Queue.t) (dist0 : list Z),
    Graph_new (getVertexCount g) = Ok tree /\
    new_array (getVertexCount g) false = Ok visited /\
    Queue.new (getVertexCount g) = Ok q /\
    new_array (getVertexCount g) INT_MAX = Ok dist0 /\
    aset visited start true = Fault OutOfBoundsAccess /\
    aset dist0 start 0 = Fault OutOfBoundsAccess /\
    bfs fuel g start = Fault OutOfBoundsAccess /\
    dfs (S fuel) g start = Fault OutOfBoundsAccess /\
    dijkstra fuel g start = Fault OutOfBoundsAccess.
Proof.
  intros Hwf Hs. apply well_formed_spec in Hwf as (Hn & Hlen & _).
  assert (Hbad : ~ (0 <= start < numVertices g)).
  { intros H. apply valid_vertex_spec in H. congruence. }
  assert (Hlenr : forall (A : Type) (d : A),
             Z.of_nat (length (replicate (Z.to_nat (numVertices g)) d)) = numVertices g).
  { intros A d. rewrite length_replicate. lia. }
  unfold bfs, bfs_run, dfs, dijkstra, dijkstra_search, getVertexCount.
  rewrite Graph_new_Ok, !new_array_Ok, Queue_new_Ok by lia. simpl.
  do 4 eexists. do 4 (split; [reflexivity |]).
  rewrite !aset_out by (rewrite Hlenr; done). done.
Qed.

Lemma invalid_start_is_written_first_witness :
  bfs 3 fan 5 = Fault OutOfBoundsAccess /\
  dfs 4 fan 5 = Fault OutOfBoundsAccess /\
  dijkstra 3 fan 5 = Fault OutOfBoundsAccess.
Proof.
  destruct (invalid_start_is_written_first 3 fan 5)
    as (t & vis & q & d & _ & _ & _ & _ & _ & _ & H);
    [reflexivity | reflexivity | exact H].
Defined.

(** ** PriorityQueue: the heap order *)

Section Heap.

Import PriorityQueue.

Lemma In_upto (n i : Z) : In i (upto n) <-> 0 <= i < n.
Proof.
  unfold upto. rewrite in_map_iff. split.
  - intros (k & <- & Hk). apply in_seq in Hk. lia.
  - intros Hi. exists (Z.to_nat i). split; [lia |]. apply in_seq. lia.
Qed.

Lemma parent_bounds (j : Z) :
  0 < j -> 0 <= parent j < j /\ (j = 2 * parent j + 1 \/ j = 2 * parent j + 2).
Proof. intros Hj. unfold parent. Z.to_euclidean_division_equations. lia. Qed.

Lemma parent_left (i : Z) : 0 <= i -> parent (2 * i + 1) = i.
Proof. intros Hi. unfold parent. Z.to_euclidean_division_equations. lia. Qed.

Lemma parent_right (i : Z) : 0 <= i -> parent (2 * i + 2) = i.
Proof. intros Hi. unfold parent. Z.to_euclidean_division_equations. lia. Qed.

Lemma min_heap_spec (h : list Element) (sz : Z) :
  min_heap h sz = true <->
  forall i, 0 <= i ->
    (2 * i + 1 < sz -> prio h i <= prio h (2 * i + 1)) /\
    (2 * i + 2 < sz -> prio h i <= prio h (2 * i + 2)).
Proof.
  unfold min_heap. rewrite forallb_forall. split.
  - intros H i Hi.
    assert (Hc : i < sz \/ sz <= i) by lia. destruct Hc as [Hc | Hc]; [| lia].
    specialize (H i (proj2 (In_upto sz i) (conj Hi Hc))).
    unfold min_heap_at in H. rewrite andb_true_iff in H. destruct H as [H1 H2].
    split; intros Hlt.
    + destruct (Z.ltb_spec (2 * i + 1) sz); [| lia]. by apply Z.leb_le.
    + destruct (Z.ltb_spec (2 * i + 2) sz); [| lia]. by apply Z.leb_le.
  - intros H i Hi. apply In_upto in Hi. destruct (H i ltac:(lia)) as [H1 H2].
    unfold min_heap_at. rewrite andb_true_iff. split.
    + destruct (Z.ltb_spec (2 * i + 1) sz); [| done]. apply Z.leb_le. auto.
    + destruct (Z.ltb_spec (2 * i + 2) sz); [| done]. apply Z.leb_le. auto.
Qed.

Lemma min_heap_parent_le (h : list Element) (sz : Z) :
  min_heap h sz = true <-> parent_le h sz.
Proof.
  rewrite min_heap_spec. unfold parent_le. split.
  - intros H j Hj. destruct (parent_bounds j ltac:(lia)) as [Hp Hc].
    destruct (H (parent j) ltac:(lia)) as [H1 H2].
    destruct Hc as [Hc | Hc]; [rewrite Hc at 2; apply H1 | rewrite Hc at 2; apply H2]; lia.
  - intros H i Hi. split; intros Hlt.
    + specialize (H (2 * i + 1) ltac:(lia)). by rewrite parent_left in H.
    + specialize (H (2 * i + 2) ltac:(lia)). by rewrite parent_right in H.
Qed.

(** In a heap the root carries the least priority. *)
Lemma root_least (h : list Element) (sz : Z) :
  parent_le h sz -> forall j, 0 <= j < sz -> prio h 0 <= prio h j.
Proof.
  intros H j Hj.
  assert (Hn : exists n : nat, j = Z.of_nat n) by (exists (Z.to_nat j); lia).
  destruct Hn as [n ->]. induction n as [n IH] using lt_wf_ind.
  destruct (decide (Z.of_nat n = 0)) as [-> | Hne]; [lia |].
  destruct (parent_bounds (Z.of_nat n) ltac:(lia)) as [Hp _].
  specialize (IH (Z.to_nat (parent (Z.of_nat n))) ltac:(lia)).
  rewrite Z2Nat.id in IH by lia.
  specialize (IH ltac:(lia)). specialize (H (Z.of_nat n) ltac:(lia)). lia.
Qed.

(** *** Exchanging two slots *)

Lemma prio_lookup (h : list Element) (i : Z) (e : Element) :
  h !! Z.to_nat i = Some e -> prio h i = priority e.
Proof. unfold prio. by intros ->. Qed.

Lemma aswap_Ok (h : list Element) (i j : Z) :
  0 <= i < Z.of_nat (length h) -> 0 <= j < Z.of_nat (length h) ->
  exists h',
    aswap h i j = Ok h' /\ length h' = length h /\
    (forall k, 0 <= k ->
       h' !! Z.to_nat k =
       h !! Z.to_nat (if k =? j then i else if k =? i then j else k)) /\
    (forall n : nat, (Z.to_nat i < n)%nat -> (Z.to_nat j < n)%nat ->
       take n h' ≡ₚ take n h).
Proof.
  intros Hi Hj. unfold aswap.
  destruct (lookup_lt_is_Some_2 h (Z.to_nat i)) as [x Hx]; [lia |].
  destruct (lookup_lt_is_Some_2 h (Z.to_nat j)) as [y Hy]; [lia |].
  rewrite (proj2 (aget_Ok h i x)), (proj2 (aget_Ok h j y)) by (split; [lia | done]).
  simpl. rewrite aset_in by lia. simpl.
  rewrite aset_in by (rewrite length_insert; lia).
  eexists. split; [done |]. split; [by rewrite !length_insert |]. split.
  - intros k Hk. rewrite !list_lookup_insert, length_insert.
    destruct (Z.eqb_spec k j), (Z.eqb_spec k i); subst;
      repeat case_decide; try done; lia.
  - intros n Hin Hjn. rewrite !take_insert_lt by done.
    apply Permutation_insert_swap; by rewrite lookup_take_lt.
Qed.

Lemma prio_swap (h h' : list Element) (i j : Z) :
  (forall k, 0 <= k ->
     h' !! Z.to_nat k =
     h !! Z.to_nat (if k =? j then i else if k =? i then j else k)) ->
  forall k, 0 <= k ->
    prio h' k = prio h (if k =? j then i else if k =? i then j else k).
Proof. intros H k Hk. unfold prio. by rewrite H. Qed.

(** *** heapifyUp *)

(** The order holds everywhere below [sz] except possibly between slot [i]
    and its parent, and the children of [i] are not below its parent. *)
Lemma heapifyUp_loop_ok (sz : Z) (n : nat) :
  forall (h : list Element) (i : Z),
    0 <= i < sz -> sz <= Z.of_nat (length h) -> (Z.to_nat i < n)%nat ->
    (forall j, 0 < j < sz -> j <> i -> prio h (parent j) <= prio h j) ->
    (forall j, 0 < j < sz -> parent j = i -> 0 < i ->
       prio h (parent i) <= prio h j) ->
    exists h',
      heapifyUp_loop n h i = Ok h' /\ length h' = length h /\
      parent_le h' sz /\
      take (Z.to_nat sz) h' ≡ₚ take (Z.to_nat sz) h.
Proof.
  induction n as [| n IH]; intros h i Hi Hsz Hn Hrest Hgrand; [lia |].
  simpl. destruct (Z.gtb_spec i 0) as [Hpos | Hzero].
  - destruct (parent_bounds i Hpos) as [Hp Hc].
    destruct (lookup_lt_is_Some_2 h (Z.to_nat i)) as [a Ha]; [lia |].
    destruct (lookup_lt_is_Some_2 h (Z.to_nat (parent i))) as [b Hb]; [lia |].
    rewrite (proj2 (aget_Ok h i a)), (proj2 (aget_Ok h (parent i) b))
      by (split; [lia | done]).
    simpl. destruct (Z.ltb_spec (priority a) (priority b)) as [Hlt | Hge].
    + destruct (aswap_Ok h i (parent i)) as (h1 & Hsw & Hlen1 & Hlk & Hperm);
        [lia | lia |].
      rewrite Hsw. simpl.
      pose proof (prio_swap h h1 i (parent i) Hlk) as Hpr.
      rewrite <- (prio_lookup h i a Ha) in Hlt.
      rewrite <- (prio_lookup h (parent i) b Hb) in Hlt.
      destruct (IH h1 (parent i)) as (h' & Hrun & Hlen' & Hheap & Hperm');
        [lia | lia | lia | | |].
      * intros j Hj Hne. destruct (parent_bounds j ltac:(lia)) as [Hpj _].
        rewrite !Hpr by lia.
        destruct (Z.eqb_spec j (parent i)); [done |].
        destruct (Z.eqb_spec j i) as [-> | Hji].
        -- rewrite Z.eqb_refl. lia.
        -- destruct (Z.eqb_spec (parent j) (parent i)) as [Hpp | Hpp].
           ++ specialize (Hrest j Hj Hji). rewrite Hpp in Hrest. lia.
           ++ destruct (Z.eqb_spec (parent j) i) as [Hpi | Hpi].
              ** apply Hgrand; [done | done | lia].
              ** by apply Hrest.
      * intros j Hj Hpj Hppos.
        destruct (parent_bounds (parent i) Hppos) as [Hpp _].
        rewrite !Hpr by lia.
        destruct (Z.eqb_spec (parent (parent i)) (parent i)); [lia |].
        destruct (Z.eqb_spec (parent (parent i)) i); [lia |].
        destruct (Z.eqb_spec j (parent i)) as [Hjp | Hjp]; [rewrite Hjp in Hpj; lia |].
        destruct (Z.eqb_spec j i) as [-> | Hji].
        -- apply Hrest; lia.
        -- pose proof (Hrest j Hj Hji) as H1. rewrite Hpj in H1.
           pose proof (Hrest (parent i) ltac:(lia) ltac:(lia)) as H2. lia.
      * exists h'. split; [done |]. split; [congruence |]. split; [done |].
        rewrite Hperm'. apply Hperm; lia.
    + exists h. split; [done |]. split; [done |]. split; [| done].
      intros j Hj. destruct (decide (j = i)) as [-> | Hne]; [| by apply Hrest].
      rewrite (prio_lookup h i a Ha), (prio_lookup h (parent i) b Hb). lia.
  - exists h. split; [done |]. split; [done |]. split; [| done].
    intros j Hj. apply Hrest; lia.
Qed.

(** *** heapifyDown *)

Lemma heapifyDown_rec_ok (sz : Z) (n : nat) :
  forall (h : list Element) (i : Z),
    0 <= i -> sz <= Z.of_nat (length h) -> (Z.to_nat (sz - i) < n)%nat ->
    (forall j, 0 < j < sz -> parent j <> i -> prio h (parent j) <= prio h j) ->
    (forall j, 0 < j < sz -> parent j = i -> 0 < i ->
       prio h (parent i) <= prio h j) ->
    exists h',
      heapifyDown_rec n h sz i = Ok h' /\ length h' = length h /\
      parent_le h' sz /\
      take (Z.to_nat sz) h' ≡ₚ take (Z.to_nat sz) h.
Proof.
  induction n as [| n IH]; intros h i Hi Hsz Hn Hrest Hgrand; [lia |].
  cbn [heapifyDown_rec].
  (* the first comparison *)
  assert (H1 : exists s1,
    (if 2 * i + 1 <? sz
     then let* l := aget h (2 * i + 1) in
          let* s := aget h i in
          Ok (if priority l <? priority s then 2 * i + 1 else i)
     else Ok i) = Ok s1 /\
    (s1 = i \/ s1 = 2 * i + 1 /\ 2 * i + 1 < sz) /\
    prio h s1 <= prio h i /\
    (2 * i + 1 < sz -> prio h s1 <= prio h (2 * i + 1))).
  { destruct (Z.ltb_spec (2 * i + 1) sz) as [Hl | Hl].
    - destruct (lookup_lt_is_Some_2 h (Z.to_nat (2 * i + 1))) as [l Hlk]; [lia |].
      destruct (lookup_lt_is_Some_2 h (Z.to_nat i)) as [s Hs]; [lia |].
      rewrite (proj2 (aget_Ok h (2 * i + 1) l)), (proj2 (aget_Ok h i s))
        by (split; [lia | done]).
      simpl. eexists. split; [done |].
      rewrite <- (prio_lookup h _ l Hlk), <- (prio_lookup h _ s Hs).
      destruct (Z.ltb_spec (prio h (2 * i + 1)) (prio h i)); repeat split; auto; lia.
    - exists i. repeat split; auto; lia. }
  destruct H1 as (s1 & -> & Hs1 & Hs1i & Hs1l). cbn [bind].
  (* the second comparison *)
  assert (H2 : exists s2,
    (if 2 * i + 2 <? sz
     then let* r := aget h (2 * i + 2) in
          let* s := aget h s1 in
          Ok (if priority r <? priority s then 2 * i + 2 else s1)
     else Ok s1) = Ok s2 /\
    (s2 = i \/ (s2 = 2 * i + 1 \/ s2 = 2 * i + 2) /\ s2 < sz) /\
    prio h s2 <= prio h i /\
    (2 * i + 1 < sz -> prio h s2 <= prio h (2 * i + 1)) /\
    (2 * i + 2 < sz -> prio h s2 <= prio h (2 * i + 2))).
  { destruct (Z.ltb_spec (2 * i + 2) sz) as [Hr | Hr].
    - destruct (lookup_lt_is_Some_2 h (Z.to_nat (2 * i + 2))) as [r Hrk]; [lia |].
      destruct (lookup_lt_is_Some_2 h (Z.to_nat s1)) as [s Hs]; [lia |].
      rewrite (proj2 (aget_Ok h (2 * i + 2) r)), (proj2 (aget_Ok h s1 s))
        by (split; [lia | done]).
      simpl. eexists. split; [done |].
      rewrite <- (prio_lookup h _ r Hrk), <- (prio_lookup h _ s Hs).
      destruct (Z.ltb_spec (prio h (2 * i + 2)) (prio h s1));
        repeat split; auto; try lia.
    - exists s1. repeat split; auto; try lia. }
  destruct H2 as (s2 & -> & Hs2 & Hs2i & Hs2l & Hs2r). cbn [bind].
  destruct (Z.eqb_spec s2 i) as [-> | Hne]; cbn [negb].
  - (* slot i is the smallest: the heap is in order *)
    exists h. split; [done |]. split; [done |]. split; [| done].
    intros j Hj. destruct (decide (parent j = i)) as [Hpj | Hpj]; [| by apply Hrest].
    destruct (parent_bounds j ltac:(lia)) as [_ Hc]. rewrite Hpj in *.
    destruct Hc as [-> | ->]; [apply Hs2l | apply Hs2r]; lia.
  - assert (Hs2c : (s2 = 2 * i + 1 \/ s2 = 2 * i + 2) /\ s2 < sz) by tauto.
    destruct Hs2c as [Hs2c Hs2sz].
    assert (Hps2 : parent s2 = i).
    { destruct Hs2c as [-> | ->]; [by apply parent_left | by apply parent_right]. }
    destruct (aswap_Ok h i s2) as (h1 & Hsw & Hlen1 & Hlk & Hperm); [lia | lia |].
    rewrite Hsw. cbn [bind].
    pose proof (prio_swap h h1 i s2 Hlk) as Hpr.
    destruct (IH h1 s2) as (h' & Hrun & Hlen' & Hheap & Hperm');
      [lia | lia | lia | | |].
    + intros j Hj Hpj. destruct (parent_bounds j ltac:(lia)) as [Hpb Hc].
      rewrite !Hpr by lia.
      destruct (Z.eqb_spec (parent j) s2); [done |].
      destruct (Z.eqb_spec j s2) as [-> | Hjs].
      * rewrite Hps2, Z.eqb_refl. done.
      * destruct (Z.eqb_spec j i) as [-> | Hji].
        -- destruct (Z.eqb_spec (parent i) i); [lia |].
           apply Hgrand; [lia | done | lia].
        -- destruct (Z.eqb_spec (parent j) i) as [Hpi | Hpi].
           ++ rewrite Hpi in Hc. destruct Hc as [-> | ->]; [apply Hs2l | apply Hs2r]; lia.
           ++ by apply Hrest.
    + intros j Hj Hpj _. rewrite !Hpr by lia. rewrite Hps2.
      destruct (Z.eqb_spec i s2); [lia |]. rewrite Z.eqb_refl.
      destruct (parent_bounds j ltac:(lia)) as [Hpb _].
      destruct (Z.eqb_spec j s2); [lia |]. destruct (Z.eqb_spec j i); [lia |].
      pose proof (Hrest j Hj ltac:(lia)) as H1. rewrite Hpj in H1. done.
    + exists h'. split; [done |]. split; [congruence |]. split; [done |].
      rewrite Hperm'. apply Hperm; lia.
Qed.

(** *** The queue operations *)

Lemma pq_inv_spec (q : t) :
  pq_inv q = true <->
  0 <= size q <= capacity q /\ Z.of_nat (length (heap q)) = capacity q /\
  parent_le (heap q) (size q).
Proof.
  unfold pq_inv. rewrite !andb_true_iff, !Z.leb_le, Z.eqb_eq, min_heap_parent_le.
  tauto.
Qed.

Lemma new_inv (cap : Z) (q : t) : new cap = Ok q -> pq_inv q = true.
Proof.
  unfold new. destruct (Z.leb_spec cap 0); [discriminate |].
  rewrite new_array_Ok by lia. simpl. intros [= <-].
  apply pq_inv_spec. simpl. rewrite length_replicate.
  split; [lia |]. split; [lia |]. intros j Hj. lia.
Qed.

Lemma prio_insert_ne (h : list Element) (i j : Z) (e : Element) :
  0 <= i -> 0 <= j -> i <> j -> prio (<[Z.to_nat i := e]> h) j = prio h j.
Proof.
  intros Hi Hj Hne. unfold prio. rewrite list_lookup_insert_ne by lia. done.
Qed.

Lemma insert_full (q : t) (v p : Z) :
  size q = capacity q -> insert q v p = Throw PQIsFull.
Proof. intros H. unfold insert. by rewrite H, Z.eqb_refl. Qed.

Lemma insert_ok (q : t) (v p : Z) :
  pq_inv q = true -> size q < capacity q ->
  exists q',
    insert q v p = Ok q' /\ pq_inv q' = true /\
    size q' = size q + 1 /\ capacity q' = capacity q /\
    contents q' ≡ₚ mkElement v p :: contents q.
Proof.
  intros Hinv Hlt. apply pq_inv_spec in Hinv as (Hsz & Hlen & Hheap).
  unfold insert. destruct (Z.eqb_spec (size q) (capacity q)); [lia |].
  rewrite aset_in by lia. cbn [bind]. unfold heapifyUp.
  set (h1 := <[Z.to_nat (size q) := mkElement v p]> (heap q)).
  assert (Hlen1 : length h1 = length (heap q)) by apply length_insert.
  destruct (heapifyUp_loop_ok (size q + 1) (S (Z.to_nat (size q))) h1 (size q))
    as (h' & Hrun & Hlen' & Hheap' & Hperm); [lia | lia | lia | | |].
  - intros j Hj Hne. destruct (parent_bounds j ltac:(lia)) as [Hp _].
    unfold h1. rewrite !prio_insert_ne by lia. apply Hheap. lia.
  - intros j Hj Hpj. destruct (parent_bounds j ltac:(lia)) as [Hp _]. lia.
  - rewrite Hrun. cbn [bind]. eexists. split; [done |].
    split; [apply pq_inv_spec; simpl; split; [lia |]; split; [lia | done] |].
    split; [done |]. split; [done |].
    unfold contents. simpl. rewrite Hperm.
    replace (Z.to_nat (size q + 1)) with (S (Z.to_nat (size q))) by lia.
    rewrite (take_S_r h1 _ (mkElement v p))
      by (unfold h1; apply list_lookup_insert_eq; lia).
    unfold h1. rewrite take_insert_ge by lia.
    by rewrite Permutation_app_comm.
Qed.

Lemma extractMin_empty (q : t) :
  size q = 0 -> extractMin q = Throw PQIsEmpty.
Proof. intros H. unfold extractMin, isEmpty. by rewrite H. Qed.

Lemma extractMin_ok (q : t) :
  pq_inv q = true -> 0 < size q ->
  exists e q',
    extractMin q = Ok (value e, q') /\ pq_inv q' = true /\
    size q' = size q - 1 /\ capacity q' = capacity q /\
    contents q ≡ₚ e :: contents q' /\
    (forall x, In x (contents q) -> priority e <= priority x).
Proof.
  intros Hinv Hpos. apply pq_inv_spec in Hinv as (Hsz & Hlen & Hheap).
  unfold extractMin, isEmpty. destruct (Z.eqb_spec (size q) 0); [lia |].
  destruct (lookup_lt_is_Some_2 (heap q) (Z.to_nat 0)) as [root Hroot]; [lia |].
  destruct (lookup_lt_is_Some_2 (heap q) (Z.to_nat (size q - 1))) as [last Hlast];
    [lia |].
  rewrite (proj2 (aget_Ok (heap q) 0 root)) by (split; [lia | done]). cbn [bind].
  rewrite (proj2 (aget_Ok (heap q) (size q - 1) last)) by (split; [lia | done]).
  cbn [bind]. rewrite aset_in by lia. cbn [bind]. unfold heapifyDown.
  set (h1 := <[Z.to_nat 0 := last]> (heap q)).
  assert (Hlen1 : length h1 = length (heap q)) by apply length_insert.
  destruct (heapifyDown_rec_ok (size q - 1) (S (Z.to_nat (size q - 1))) h1 0)
    as (h' & Hrun & Hlen' & Hheap' & Hperm); [lia | lia | lia | | |].
  - intros j Hj Hne. destruct (parent_bounds j ltac:(lia)) as [Hp _].
    unfold h1. rewrite !prio_insert_ne by lia. apply Hheap. lia.
  - intros j Hj Hpj. lia.
  - rewrite Hrun. cbn [bind]. exists root. eexists. split; [done |].
    split; [apply pq_inv_spec; simpl; split; [lia |]; split; [lia | done] |].
    split; [done |]. split; [done |].
    assert (Hcont : contents q ≡ₚ root :: take (Z.to_nat (size q - 1)) h').
    { unfold contents. rewrite Hperm.
      replace (Z.to_nat (size q)) with (S (Z.to_nat (size q - 1))) by lia.
      rewrite (take_S_r (heap q) _ last) by done.
      unfold h1. destruct (Z.to_nat (size q - 1)) as [| m] eqn:Hm.
      - change (Z.to_nat 0) with 0%nat in Hroot. rewrite Hroot in Hlast.
        injection Hlast as ->. done.
      - rewrite take_insert_lt by (simpl; lia).
        destruct (heap q) as [| x t]; [done |]. simpl in Hroot. injection Hroot as ->.
        simpl. apply perm_skip. symmetry. apply Permutation_cons_append. }
    split; [done |].
    intros x Hx. unfold contents in Hx. apply list_elem_of_In in Hx.
    apply list_elem_of_lookup_1 in Hx as [k Hk].
    apply lookup_take_Some in Hk as [Hk Hklt].
    pose proof (root_least (heap q) (size q) Hheap (Z.of_nat k) ltac:(lia)) as Hle.
    unfold prio in Hle. rewrite Nat2Z.id, Hk in Hle. simpl in Hroot.
    by rewrite Hroot in Hle.
Qed.

(** C9.  The constructor establishes the representation invariant of the
    priority queue, and insert and extractMin preserve it: whenever they
    return, the first [size] slots are again in min-heap order, every slot
    being no greater than the children it has below [size]; and they return
    unless the queue is full (insert) or empty (extractMin). *)
Theorem heap_order_invariant :
  (forall cap q, new cap = Ok q -> pq_inv q = true) /\
  (forall q v p, pq_inv q = true ->
     (size q = capacity q /\ insert q v p = Throw PQIsFull) \/
     (exists q', insert q v p = Ok q' /\ pq_inv q' = true /\
                 size q' = size q + 1)) /\
  (forall q, pq_inv q = true ->
     (size q = 0 /\ extractMin q = Throw PQIsEmpty) \/
     (exists u q', extractMin q = Ok (u, q') /\ pq_inv q' = true /\
                   size q' = size q - 1)) /\
  (forall q, pq_inv q = true ->
     forall i, 0 <= i ->
       (2 * i + 1 < size q -> prio (heap q) i <= prio (heap q) (2 * i + 1)) /\
       (2 * i + 2 < size q -> prio (heap q) i <= prio (heap q) (2 * i + 2))).
Proof.
  split; [apply new_inv |]. split; [| split].
  - intros q v p Hinv.
    pose proof (proj1 (pq_inv_spec q) Hinv) as (Hsz & _).
    destruct (decide (size q = capacity q)) as [Hfull | Hroom].
    + left. split; [done | by apply insert_full].
    + right. destruct (insert_ok q v p Hinv ltac:(lia)) as (q' & H1 & H2 & H3 & _).
      eauto.
  - intros q Hinv.
    pose proof (proj1 (pq_inv_spec q) Hinv) as (Hsz & _).
    destruct (decide (size q = 0)) as [Hempty | Hsome].
    + left. split; [done | by apply extractMin_empty].
    + right. destruct (extractMin_ok q Hinv ltac:(lia)) as (e & q' & H1 & H2 & H3 & _).
      eauto.
  - intros q Hinv. unfold pq_inv in Hinv. rewrite !andb_true_iff in Hinv.
    destruct Hinv as [_ Hheap]. by apply min_heap_spec.
Qed.

Lemma heap_order_invariant_witness :
  pq_inv sample_pq = true /\
  (exists q', insert sample_pq 500 0 = Ok q' /\ pq_inv q' = true) /\
  (exists u q', extractMin sample_pq = Ok (u, q') /\ pq_inv q' = true) /\
  prio (heap sample_pq) 0 <= prio (heap sample_pq) 1.
Proof.
  destruct heap_order_invariant as (_ & Hins & Hext & Hord).
  split; [reflexivity |]. split; [| split].
  - destruct (Hins sample_pq 500 0) as [[Hfull _] | (q' & H1 & H2 & _)];
      [reflexivity | discriminate Hfull | eauto].
  - destruct (Hext sample_pq) as [[Hempty _] | (u & q' & H1 & H2 & _)];
      [reflexivity | discriminate Hempty | eauto].
  - apply (Hord sample_pq); [reflexivity | lia | reflexivity].
Defined.

End Heap.

(** ** Queue: the circular buffer is a FIFO *)

Lemma Queue_new_repr (n : Z) :
  0 < n -> exists q, Queue.new n = Ok q /\ q_repr q [] /\ Queue.capacity q = n.
Proof.
  intros Hn. rewrite Queue_new_Ok by lia. eexists. split; [done |].
  split; [| done]. unfold q_repr. simpl. rewrite length_replicate.
  repeat split; try lia. intros k x Hk. by destruct k.
Qed.

Lemma isEmpty_repr (q : Queue.t) (items : list Z) :
  q_repr q items -> Queue.isEmpty q = true <-> items = [].
Proof.
  intros (_ & _ & _ & _ & Hc & _). unfold Queue.isEmpty. rewrite Z.eqb_eq, Hc.
  destruct items; simpl; split; intros H; try done; lia.
Qed.

Lemma mod_shift_ne (c f k m : Z) :
  0 < c -> 0 <= k < m -> m < c -> (f + k) mod c <> (f + m) mod c.
Proof.
  intros Hc Hk Hm Heq.
  assert (H : ((f + m) - (f + k)) mod c = 0).
  { rewrite Zminus_mod, Heq, Z.sub_diag. by apply Z.mod_0_l, Z.neq_sym, Z.lt_neq. }
  replace (f + m - (f + k)) with (m - k) in H by lia.
  rewrite Z.mod_small in H by lia. lia.
Qed.

Lemma enqueue_repr (q : Queue.t) (items : list Z) (v : Z) :
  q_repr q items -> Z.of_nat (length items) < Queue.capacity q ->
  exists q',
    Queue.enqueue q v = Ok q' /\ q_repr q' (items ++ [v]) /\
    Queue.capacity q' = Queue.capacity q.
Proof.
  intros (Hcap & Hlen & Hf & Hr & Hc & Hle & Hrear & Hitems) Hroom.
  unfold Queue.enqueue. destruct (Z.eqb_spec (Queue.count q) (Queue.capacity q)); [lia |].
  rewrite Z.rem_mod_nonneg by lia.
  pose proof (Z.mod_pos_bound (Queue.rear q + 1) (Queue.capacity q) Hcap) as Hb.
  rewrite aset_in by lia. cbn [bind]. eexists. split; [done |]. split; [| done].
  unfold q_repr. simpl. rewrite length_insert, length_app. simpl.
  repeat split; try lia.
  - rewrite Hrear, Z.add_mod_idemp_l by lia. f_equal. lia.
  - intros k x Hk. destruct (decide (k < length items)%nat) as [Hlt | Hge].
    + rewrite lookup_app_l in Hk by done.
      rewrite list_lookup_insert_ne; [by apply Hitems |].
      rewrite Hrear. intros Heq. apply Z2Nat.inj in Heq;
        try (apply Z.mod_pos_bound; lia).
      symmetry in Heq. revert Heq. apply mod_shift_ne; lia.
    + rewrite lookup_app_r in Hk by lia.
      destruct (k - length items)%nat as [| m] eqn:Hm; [| by destruct m].
      simpl in Hk. injection Hk as <-.
      assert (k = length items) as -> by lia.
      rewrite Hrear, Hc. apply list_lookup_insert_eq.
      pose proof (Z.mod_pos_bound (Queue.front q + Z.of_nat (length items))
                    (Queue.capacity q) Hcap). lia.
Qed.

Lemma dequeue_repr (q : Queue.t) (x : Z) (items : list Z) :
  q_repr q (x :: items) ->
  exists q',
    Queue.dequeue q = Ok (x, q') /\ q_repr q' items /\
    Queue.capacity q' = Queue.capacity q.
Proof.
  intros (Hcap & Hlen & Hf & Hr & Hc & Hle & Hrear & Hitems).
  unfold Queue.dequeue, Queue.isEmpty. simpl in Hc.
  destruct (Z.eqb_spec (Queue.count q) 0); [lia |].
  pose proof (Hitems 0%nat x eq_refl) as H0.
  rewrite Z.add_0_r, Z.mod_small in H0 by lia.
  rewrite (proj2 (aget_Ok _ _ x)) by (split; [lia | done]). cbn [bind].
  rewrite Z.rem_mod_nonneg by lia.
  pose proof (Z.mod_pos_bound (Queue.front q + 1) (Queue.capacity q) Hcap) as Hb.
  eexists. split; [done |]. split; [| done].
  unfold q_repr. simpl. repeat split; try lia.
  - rewrite Hrear, Z.add_mod_idemp_l by lia. f_equal. lia.
  - intros k y Hk. specialize (Hitems (S k) y Hk).
    rewrite Z.add_mod_idemp_l by lia.
    replace (Queue.front q + 1 + Z.of_nat k) with (Queue.front q + Z.of_nat (S k)) by lia.
    done.
Qed.

(** ** bfs never fills its queue *)

Lemma NoDup_bounded_length (l : list Z) (n : Z) :
  0 <= n ->
  NoDup l -> (forall x, In x l -> 0 <= x < n) -> Z.of_nat (length l) <= n.
Proof.
  intros Hn Hnd Hin. apply NoDup_ListNoDup in Hnd.
  assert (Hlen : (length l <= length (upto n))%nat).
  { apply List.NoDup_incl_length; [done |]. intros x Hx. apply In_upto. auto. }
  unfold upto in Hlen. rewrite length_map, length_seq in Hlen. lia.
Qed.

Lemma bfs_visit_ok (g : Graph) (u : Z) (s : bfs_state) (served items : list Z)
    (nb : Neighbor) :
  bfs_inv g s served items ->
  0 <= u < numVertices g -> 0 <= vertex nb < numVertices g ->
  exists s' items', bfs_visit u s nb = Ok s' /\ bfs_inv g s' served items'.
Proof.
  intros Hinv Hu Hv.
  pose proof Hinv as (Hq & Hcap & Hlog & Hnd & Hvis & Hmarked & Htree).
  unfold bfs_visit.
  destruct (lookup_lt_is_Some_2 (bfs_visited s) (Z.to_nat (vertex nb)))
    as [seen Hseen]; [lia |].
  rewrite (proj2 (aget_Ok _ _ seen)) by (split; [lia | done]). cbn [bind].
  destruct seen; cbn [negb].
  { exists s, items. by split. }
  rewrite aset_in by lia. cbn [bind].
  rewrite addEdge_Ok by lia. cbn [bind].
  assert (Hfresh : ~ In (vertex nb) (enqueued s)).
  { intros Hin. apply Hmarked in Hin as [_ Hin]. congruence. }
  assert (Hnd' : NoDup (enqueued s ++ [vertex nb])).
  { apply NoDup_app. split; [done |].
    split; [| apply NoDup_singleton].
    intros x Hx Hx'. apply list_elem_of_singleton in Hx'. subst.
    by apply list_elem_of_In in Hx. }
  assert (Hin' : forall x, In x (enqueued s ++ [vertex nb]) -> 0 <= x < numVertices g).
  { intros x Hx. apply in_app_or in Hx as [Hx | [<- | []]]; [by apply Hmarked | done]. }
  pose proof (NoDup_bounded_length _ (numVertices g) ltac:(lia) Hnd' Hin') as Hbound.
  rewrite length_app, Hlog, length_app in Hbound. simpl in Hbound.
  destruct (enqueue_repr (bfs_q s) items (vertex nb) Hq) as (q' & Henq & Hq' & Hcap');
    [lia |].
  rewrite Henq. cbn [bind]. eexists. exists (items ++ [vertex nb]).
  split; [done |]. unfold bfs_inv. simpl.
  split; [done |]. split; [congruence |].
  split; [by rewrite Hlog, <- app_assoc |]. split; [done |].
  split; [by rewrite length_insert |]. split; [| done].
  intros x Hx. split; [by apply Hin' |].
  destruct (decide (x = vertex nb)) as [-> | Hne].
  - apply list_lookup_insert_eq. lia.
  - apply in_app_or in Hx as [Hx | [<- | []]]; [| done].
    destruct (Hmarked x Hx) as [Hxr Hxm].
    rewrite list_lookup_insert_ne by lia. done.
Qed.

Lemma bfs_neighbors_ok (g : Graph) (u : Z) (served : list Z) (nbs : list Neighbor) :
  0 <= u < numVertices g ->
  (forall nb, In nb nbs -> 0 <= vertex nb < numVertices g) ->
  forall s items,
    bfs_inv g s served items ->
    exists s' items', foldM (bfs_visit u) nbs s = Ok s' /\ bfs_inv g s' served items'.
Proof.
  intros Hu. induction nbs as [| nb nbs IH]; intros Hnbs s items Hinv; simpl.
  - eauto.
  - destruct (bfs_visit_ok g u s served items nb Hinv Hu) as (s1 & items1 & H1 & Hinv1);
      [apply Hnbs; by left |].
    rewrite H1. cbn [bind]. apply (IH ltac:(intros; apply Hnbs; by right) s1 items1 Hinv1).
Qed.

Lemma bfs_loop_ok (g : Graph) :
  well_formed g = true ->
  forall (fuel : nat) (s : bfs_state) (served items : list Z),
    bfs_inv g s served items ->
    numVertices g < Z.of_nat fuel + Z.of_nat (length served) ->
    exists s' served', bfs_loop fuel g s = Ok s' /\ bfs_inv g s' served' [].
Proof.
  intros Hwf. pose proof (proj1 (well_formed_spec g) Hwf) as (Hn & Hlen & Hadj).
  induction fuel as [| fuel IH]; intros s served items Hinv Hfuel.
  - exfalso. destruct Hinv as (_ & _ & Hlog & Hnd & _ & Hmarked & _).
    pose proof (NoDup_bounded_length _ (numVertices g) ltac:(lia) Hnd
                  (fun x Hx => proj1 (Hmarked x Hx))) as Hb.
    rewrite Hlog, length_app in Hb. lia.
  - simpl. pose proof Hinv as (Hq & Hcap & Hlog & Hnd & Hvis & Hmarked & Htree).
    destruct (Queue.isEmpty (bfs_q s)) eqn:Hemp.
    + apply (isEmpty_repr _ _ Hq) in Hemp. subst items. eauto.
    + destruct items as [| u items].
      { rewrite (proj2 (isEmpty_repr _ _ Hq) eq_refl) in Hemp. done. }
      destruct (dequeue_repr _ _ _ Hq) as (q' & Hdeq & Hq' & Hcap').
      rewrite Hdeq. cbn [bind].
      assert (Hu : 0 <= u < numVertices g).
      { apply Hmarked. rewrite Hlog. apply in_or_app. right. by left. }
      rewrite getNeighbors_Ok by done. cbn [bind].
      destruct (bfs_neighbors_ok g u (served ++ [u]) (adj g u) Hu
                  ltac:(intros nb Hnb; by apply (Hadj u))
                  (mkBfs (bfs_tree s) (bfs_visited s) q' (enqueued s)) items)
        as (s1 & items1 & H1 & Hinv1).
      { unfold bfs_inv. simpl. split; [done |]. split; [congruence |].
        split; [by rewrite Hlog, <- app_assoc |]. done. }
      rewrite H1. cbn [bind]. apply (IH s1 (served ++ [u]) items1 Hinv1).
      rewrite length_app. simpl. lia.
Qed.

Lemma bfs_run_ok (g : Graph) (start : Z) (fuel : nat) :
  well_formed g = true -> valid_vertex g start = true ->
  numVertices g < Z.of_nat fuel ->
  exists s served, bfs_run fuel g start = Ok s /\ bfs_inv g s served [].
Proof.
  intros Hwf Hs Hfuel. pose proof (proj1 (well_formed_spec g) Hwf) as (Hn & Hlen & Hadj).
  apply valid_vertex_spec in Hs. unfold bfs_run, getVertexCount.
  rewrite Graph_new_Ok, new_array_Ok by lia. cbn [bind].
  destruct (Queue_new_repr (numVertices g)) as (q0 & Hnew & Hq0 & Hcap0); [lia |].
  rewrite Hnew. cbn [bind].
  rewrite aset_in by (rewrite length_replicate; lia). cbn [bind].
  destruct (enqueue_repr q0 [] start Hq0) as (q1 & Henq & Hq1 & Hcap1);
    [simpl; lia |].
  rewrite Henq. cbn [bind]. apply (bfs_loop_ok g Hwf fuel _ [] [start]); [| simpl; lia].
  unfold bfs_inv. simpl. split; [done |]. split; [congruence |]. split; [done |].
  split; [apply NoDup_singleton |].
  split; [rewrite length_insert, length_replicate; lia |]. split; [| done].
  intros v [<- | []]. split; [done |].
  apply list_lookup_insert_eq. rewrite length_replicate. lia.
Qed.

(** C10.  For a well-formed graph and a valid start vertex, bfs with a
    budget of more than vertexCount loop rounds returns; no vertex occurs
    twice among the values it enqueued, every enqueued vertex is marked
    visited, at most vertexCount values were enqueued, and whatever the
    budget bfs does not raise "Queue is full". *)
Theorem bfs_enqueues_each_vertex_once (g : Graph) (start : Z) :
  well_formed g = true ->
  valid_vertex g start = true ->
  (forall fuel : nat, numVertices g < Z.of_nat fuel ->
     exists s,
       bfs_run fuel g start = Ok s /\ bfs fuel g start = Ok (bfs_tree s) /\
       NoDup (enqueued s) /\
       Z.of_nat (length (enqueued s)) <= numVertices g /\
       Queue.capacity (bfs_q s) = numVertices g /\
       (forall v, In v (enqueued s) -> aget (bfs_visited s) v = Ok true)) /\
  (forall fuel : nat, bfs fuel g start <> Throw QueueIsFull).
Proof.
  intros Hwf Hs.
  assert (Hmain : forall fuel : nat, numVertices g < Z.of_nat fuel ->
     exists s,
       bfs_run fuel g start = Ok s /\ bfs fuel g start = Ok (bfs_tree s) /\
       NoDup (enqueued s) /\
       Z.of_nat (length (enqueued s)) <= numVertices g /\
       Queue.capacity (bfs_q s) = numVertices g /\
       (forall v, In v (enqueued s) -> aget (bfs_visited s) v = Ok true)).
  { intros fuel Hfuel.
    destruct (bfs_run_ok g start fuel Hwf Hs Hfuel) as (s & served & Hrun & Hinv).
    destruct Hinv as (Hq & Hcap & Hlog & Hnd & Hvis & Hmarked & Htree).
    exists s. split; [done |]. split; [unfold bfs; by rewrite Hrun |].
    split; [done |].
    split; [apply NoDup_bounded_length;
             [apply well_formed_spec in Hwf; lia | done | intros x Hx; by apply Hmarked] |].
    split; [done |].
    intros v Hv. destruct (Hmarked v Hv) as [Hr Hm]. apply aget_Ok. split; [lia | done]. }
  split; [done |].
  intros fuel Hthrow.
  pose proof (bfs_mono g start fuel _ Hthrow ltac:(done)
                (S (Z.to_nat (numVertices g)))) as Hbig.
  destruct (Hmain (S (Z.to_nat (numVertices g)) + fuel)%nat ltac:(lia))
    as (s & _ & Hok & _).
  congruence.
Qed.

Lemma bfs_enqueues_each_vertex_once_witness :
  exists s,
    bfs_run 6 fan 0 = Ok s /\ bfs 6 fan 0 = Ok (bfs_tree s) /\
    NoDup (enqueued s) /\ Z.of_nat (length (enqueued s)) <= 5.
Proof.
  destruct (bfs_enqueues_each_vertex_once fan 0) as [H _];
    [reflexivity | reflexivity |].
  destruct (H 6%nat) as (s & H1 & H2 & H3 & H4 & _); [simpl; lia |].
  exists s. auto.
Defined.

(** ** kruskal: which edges are gathered *)

Lemma collect_neighbors_ok (u : Z) (nbs : list Neighbor) :
  forall b : edge_buf,
    Z.of_nat (length (edges b)) = MAX_EDGES -> 0 <= edgeCount b ->
    let kept := map (fun nb => mkEdge (weight nb) u (vertex nb))
                    (List.filter (fun nb => u <? vertex nb) nbs) in
    edgeCount b + Z.of_nat (length kept) <= MAX_EDGES ->
    exists b',
      foldM (collect_neighbor u) nbs b = Ok b' /\
      Z.of_nat (length (edges b')) = MAX_EDGES /\
      edgeCount b' = edgeCount b + Z.of_nat (length kept) /\
      gathered b' = gathered b ++ kept.
Proof.
  induction nbs as [| nb nbs IH]; intros b Hlen Hcnt; simpl.
  - intros _. exists b. rewrite app_nil_r. repeat split; try done; lia.
  - unfold collect_neighbor at 1. destruct (u <? vertex nb) eqn:Hlt; simpl.
    + intros Hroom. rewrite aset_in by lia. cbn [bind].
      set (b1 := mkBuf _ _).
      destruct (IH b1) as (b' & Hrun & Hlen' & Hcnt' & Hg);
        [unfold b1; simpl; by rewrite length_insert | unfold b1; simpl; lia
        | unfold b1; simpl; lia |].
      exists b'. split; [done |]. split; [done |].
      split; [rewrite Hcnt'; unfold b1; simpl; lia |].
      rewrite Hg. unfold gathered, b1. simpl.
      replace (Z.to_nat (edgeCount b + 1)) with (S (Z.to_nat (edgeCount b))) by lia.
      rewrite (take_S_r _ _ (mkEdge (weight nb) u (vertex nb)))
        by (apply list_lookup_insert_eq; lia).
      rewrite take_insert_ge by lia. by rewrite <- app_assoc.
    + intros Hroom. apply (IH b Hlen Hcnt Hroom).
Qed.

Lemma collect_vertices_ok (g : Graph) (us : list Z) :
  Z.of_nat (length (adjacencyList g)) = numVertices g ->
  (forall u, In u us -> 0 <= u < numVertices g) ->
  forall b : edge_buf,
    Z.of_nat (length (edges b)) = MAX_EDGES -> 0 <= edgeCount b ->
    edgeCount b + Z.of_nat (length (flat_map (scan_vertex g) us)) <= MAX_EDGES ->
    exists b',
      foldM (collect_vertex g) us b = Ok b' /\
      edgeCount b' = edgeCount b + Z.of_nat (length (flat_map (scan_vertex g) us)) /\
      gathered b' = gathered b ++ flat_map (scan_vertex g) us.
Proof.
  intros Hadj. induction us as [| u us IH]; intros Hus b Hlen Hcnt Hroom; simpl.
  - exists b. rewrite app_nil_r. repeat split; try done; lia.
  - simpl in Hroom. rewrite length_app in Hroom.
    unfold collect_vertex at 1.
    rewrite getNeighbors_Ok by (try done; apply Hus; by left). cbn [bind].
    destruct (collect_neighbors_ok u (adj g u) b Hlen Hcnt) as (b1 & H1 & Hlen1 & Hcnt1 & Hg1).
    { fold (scan_vertex g u). lia. }
    fold (scan_vertex g u) in Hcnt1, Hg1.
    rewrite H1. cbn [bind].
    destruct (IH ltac:(intros; apply Hus; by right) b1 Hlen1 ltac:(lia) ltac:(lia))
      as (b' & Hrun & Hcnt' & Hg').
    exists b'. split; [done |]. split; [rewrite length_app; lia |].
    by rewrite Hg', Hg1, <- app_assoc.
Qed.

(** On any graph with one list per vertex, the gathering loop keeps, vertex
    by vertex, exactly the neighbour entries with a larger index. *)
Lemma collect_edges_scan (g : Graph) :
  Z.of_nat (length (adjacencyList g)) = numVertices g ->
  Z.of_nat (length (scan g)) <= MAX_EDGES ->
  exists b,
    collect_edges g = Ok b /\ edgeCount b = Z.of_nat (length (scan g)) /\
    gathered b = scan g.
Proof.
  intros Hadj Hroom. unfold collect_edges, getVertexCount.
  rewrite new_array_Ok by done. cbn [bind].
  destruct (collect_vertices_ok g (upto (numVertices g)) Hadj
              ltac:(intros u Hu; by apply In_upto)
              (mkBuf (replicate (Z.to_nat MAX_EDGES) (mkEdge 0 0 0)) 0))
    as (b & Hrun & Hcnt & Hg); simpl; try done.
  exists b. split; [done |]. split; [by rewrite Hcnt |]. by rewrite Hg.
Qed.

Lemma flat_map_app_perm {A B : Type} (f h : A -> list B) (l : list A) :
  flat_map (fun x => f x ++ h x) l ≡ₚ flat_map f l ++ flat_map h l.
Proof.
  induction l as [| a l IH]; simpl; [done |].
  rewrite IH, <- !app_assoc. apply Permutation_app_head.
  rewrite !app_assoc. apply Permutation_app_tail, Permutation_app_comm.
Qed.

Lemma flat_map_single {B : Type} (v : Z) (c : list B) (n : Z) :
  0 <= v < n ->
  flat_map (fun x => if x =? v then c else []) (upto n) = c.
Proof.
  intros Hv. unfold upto.
  replace (Z.to_nat n) with (Z.to_nat v + (1 + (Z.to_nat n - Z.to_nat v - 1)))%nat by lia.
  rewrite !seq_app, !map_app, !flat_map_app. simpl.
  rewrite Z2Nat.id, Z.eqb_refl by lia.
  assert (Hnil : forall l : list nat,
             (forall k, In k l -> Z.of_nat k <> v) ->
             flat_map (fun x => if x =? v then c else []) (map Z.of_nat l) = []).
  { induction l as [| k l IH]; intros Hl; simpl; [done |].
    destruct (Z.eqb_spec (Z.of_nat k) v) as [He | _];
      [exfalso; apply (Hl k); [by left | done] |].
    apply IH. intros k' Hk'. apply Hl. by right. }
  rewrite !Hnil; [simpl; by rewrite !app_nil_r | |];
    intros k Hk; apply in_seq in Hk; lia.
Qed.

Lemma flat_map_swap {A B C : Type} (f : A -> B -> list C) (la : list A) (lb : list B) :
  flat_map (fun x => flat_map (f x) lb) la
  ≡ₚ flat_map (fun y => flat_map (fun x => f x y) la) lb.
Proof.
  induction la as [| a la IH]; simpl.
  - induction lb as [| y lb IHb]; simpl; done.
  - rewrite IH. symmetry. apply flat_map_app_perm.
Qed.

Lemma flat_map_perm_ext {A B : Type} (f h : A -> list B) (l : list A) :
  (forall x, In x l -> f x ≡ₚ h x) -> flat_map f l ≡ₚ flat_map h l.
Proof.
  induction l as [| a l IH]; intros H; simpl; [done |].
  rewrite (H a) by (by left). rewrite IH by (intros; apply H; by right). done.
Qed.

Lemma map_filter_flat_map {A B C : Type} (f : A -> list B) (p : B -> bool)
    (m : B -> C) (l : list A) :
  map m (List.filter p (flat_map f l))
  = flat_map (fun x => map m (List.filter p (f x))) l.
Proof.
  induction l as [| a l IH]; simpl; [done |].
  by rewrite List.filter_app, map_app, IH.
Qed.

(** *** The adjacency lists store the edge history *)

Lemma adj_removeEdge (g g' : Graph) (u v x : Z) :
  removeEdge g u v = Ok g' -> 0 <= x ->
  adj g' x =
  (if x =? v then unlink_first u else id)
    ((if x =? u then unlink_first v else id) (adj g x)).
Proof.
  intros H Hx. unfold removeEdge in H.
  destruct (_ || _) eqn:E in H; [discriminate |]. injection H as <-.
  rewrite !orb_false_iff, !Z.ltb_ge, !Z.geb_leb, !Z.leb_gt in E.
  unfold adj. simpl. destruct (Z.leb_spec 0 x); [| lia].
  rewrite !lookup_alter_at.
  destruct (adjacencyList g !! Z.to_nat x) as [l |] eqn:Hl.
  - destruct (Z.eqb_spec x v), (Z.eqb_spec x u); subst;
      repeat case_decide; simpl; try done; lia.
  - destruct (Z.eqb_spec x v), (Z.eqb_spec x u); subst;
      repeat case_decide; simpl; done.
Qed.

Lemma unlink_first_app_miss (d : Z) (l1 l2 : list Neighbor) :
  (forall nb, In nb l1 -> vertex nb <> d) ->
  unlink_first d (l1 ++ l2) = l1 ++ unlink_first d l2.
Proof.
  induction l1 as [| y l1 IH]; intros H; simpl; [done |].
  destruct (Z.eqb_spec (vertex y) d) as [He | _];
    [exfalso; apply (H y); [by left | done] |].
  rewrite IH by (intros; apply H; by right). done.
Qed.

Lemma unlink_drop_first (u v x : Z) (es : list (Z * Z * Z)) :
  (if x =? v then unlink_first u else id)
    ((if x =? u then unlink_first v else id) (flat_map (entries_of x) es))
  = flat_map (entries_of x) (drop_first u v es).
Proof.
  induction es as [| [[a b] w] es IH]; [simpl; by destruct (x =? v), (x =? u) |].
  cbn [drop_first flat_map]. destruct (joins u v (a, b, w)) eqn:Hj; unfold joins in Hj.
  - (* the latest edge between u and v: both its nodes go *)
    rewrite orb_true_iff, !andb_true_iff, !Z.eqb_eq in Hj.
    destruct Hj as [[-> ->] | [-> ->]]; unfold entries_of;
      repeat (match goal with
              | |- context [Z.eqb ?p ?q] => destruct (Z.eqb_spec p q)
              end; simpl in *);
      subst; try done; lia.
  - (* another edge: its nodes stay *)
    rewrite orb_false_iff, !andb_false_iff, !Z.eqb_neq in Hj.
    cbn [flat_map]. rewrite <- IH. unfold entries_of.
    repeat (match goal with
            | |- context [Z.eqb ?p ?q] => destruct (Z.eqb_spec p q)
            end; simpl in *);
      subst; try done; lia.
Qed.

Lemma stores_new (n : Z) (g : Graph) : Graph_new n = Ok g -> stores g [].
Proof.
  intros H. unfold Graph_new, new_array in H.
  destruct (Z.ltb_spec n 0); [done |]. simpl in H. injection H as <-.
  split; [simpl; rewrite length_replicate; lia |]. split; [by intros a b w [] |].
  intros x Hx. unfold adj. simpl. destruct (0 <=? x); [| done].
  destruct (replicate (Z.to_nat n) [] !! Z.to_nat x) as [l |] eqn:E; [| done].
  apply lookup_replicate in E as [-> _]. done.
Qed.

Lemma In_drop_first (u v : Z) (e : Z * Z * Z) (es : list (Z * Z * Z)) :
  In e (drop_first u v es) -> In e es.
Proof.
  induction es as [| y es IH]; simpl; [done |].
  destruct (joins u v y); [by right |]. intros [<- | H]; [by left | right; auto].
Qed.

Lemma stores_apply_op (g g' : Graph) (es : list (Z * Z * Z)) (o : op) :
  stores g es -> apply_op g o = Ok g' -> stores g' (edge_step es o).
Proof.
  intros (Hlen & Hends & Hadj) H. destruct o as [u v w | u v]; simpl in *.
  - assert (Hr : 0 <= u < numVertices g /\ 0 <= v < numVertices g).
    { unfold addEdge in H. destruct (_ || _) eqn:E in H; [done |].
      rewrite !orb_false_iff, !Z.ltb_ge, !Z.geb_leb, !Z.leb_gt in E. lia. }
    pose proof (fun x => adj_addEdge g g' u v w x Hlen H) as Hadj'.
    unfold addEdge in H. destruct (_ || _) in H; [done |]. injection H as <-.
    split; [unfold push_front; simpl; by rewrite !length_alter |]. simpl. split.
    + intros a b c [[= <- <- <-] | Hin]; [done | by apply (Hends a b c)].
    + intros x Hx. rewrite Hadj' by done. simpl. by rewrite Hadj, <- app_assoc.
  - pose proof (fun x => adj_removeEdge g g' u v x H) as Hadj'.
    unfold removeEdge in H. destruct (_ || _) in H; [done |]. injection H as <-.
    split; [simpl; by rewrite !length_alter |]. simpl. split.
    + intros a b c Hin. apply (Hends a b c). by apply In_drop_first in Hin.
    + intros x Hx. rewrite Hadj', Hadj by done. apply unlink_drop_first.
Qed.

Lemma stores_foldM (ops : list op) :
  forall g g' es,
    stores g es -> foldM apply_op ops g = Ok g' ->
    stores g' (fold_left edge_step ops es).
Proof.
  induction ops as [| o ops IH]; intros g g' es Hst H; simpl in *.
  - by injection H as <-.
  - apply bind_Ok in H as (g1 & H1 & H). apply (IH g1 g' _); [| done].
    by apply (stores_apply_op g g1 es o).
Qed.

Lemma run_ops_stores (n : Z) (ops : list op) (g : Graph) :
  run_ops n ops = Ok g -> stores g (edges_of ops).
Proof.
  unfold run_ops. intros H. apply bind_Ok in H as (g0 & Hnew & H).
  apply (stores_foldM ops g0 g []); [by apply (stores_new n) | done].
Qed.

(** *** What the scan keeps of the stored edges *)

Lemma kept_of_vertices (n : Z) (e : Z * Z * Z) :
  (let '(a, b, _) := e in 0 <= a < n /\ 0 <= b < n) ->
  flat_map (fun x => kept_of x e) (upto n)
  ≡ₚ if is_loop e then [] else [normalize e].
Proof.
  destruct e as [[a b] w]. intros [Ha Hb]. unfold kept_of, entries_of. simpl.
  set (fb := fun x : Z => if x =? b then (if b <? a then [mkEdge w b a] else []) else []).
  set (fa := fun x : Z => if x =? a then (if a <? b then [mkEdge w a b] else []) else []).
  rewrite (flat_map_ext _ (fun x => fb x ++ fa x)).
  2:{ intros x. unfold fa, fb. rewrite List.filter_app, map_app.
      destruct (Z.eqb_spec x b), (Z.eqb_spec x a); subst; simpl;
        repeat (destruct (_ <? _); simpl); done. }
  rewrite flat_map_app_perm. unfold fa, fb. rewrite !flat_map_single by lia.
  destruct (Z.eqb_spec a b) as [-> | Hne].
  - by rewrite Z.ltb_irrefl.
  - destruct (Z.ltb_spec b a), (Z.ltb_spec a b); simpl; try done; lia.
Qed.

Lemma proper_edges_flat_map (es : list (Z * Z * Z)) :
  map normalize (proper_edges es)
  = flat_map (fun e => if is_loop e then [] else [normalize e]) es.
Proof.
  unfold proper_edges. induction es as [| e es IH]; simpl; [done |].
  destruct (is_loop e); simpl; by rewrite IH.
Qed.

Lemma scan_stores (g : Graph) (es : list (Z * Z * Z)) :
  stores g es -> scan g ≡ₚ map normalize (proper_edges es).
Proof.
  intros (Hlen & Hends & Hadj). unfold scan.
  rewrite (flat_map_perm_ext _ (fun x => flat_map (kept_of x) es)).
  2:{ intros x Hx. apply In_upto in Hx. unfold scan_vertex.
      rewrite Hadj by lia. by rewrite map_filter_flat_map. }
  rewrite flat_map_swap, proper_edges_flat_map.
  apply flat_map_perm_ext. intros [[a b] w] He.
  apply kept_of_vertices. by apply (Hends a b w).
Qed.

(** C8 as stated fails on a graph with a loop: the loop is an undirected
    edge of the graph, and the scan, which wants u < v, never gathers it. *)
Lemma kruskal_never_gathers_a_loop :
  exists g b,
    run_ops 1 [AddEdge 0 0 5] = Ok g /\
    Z.of_nat (length (edges_of [AddEdge 0 0 5])) <= MAX_EDGES /\
    collect_edges g = Ok b /\
    ~ (gathered b ≡ₚ map normalize (edges_of [AddEdge 0 0 5])).
Proof.
  eexists. eexists. split; [reflexivity |]. split; [by vm_compute |].
  split; [by vm_compute |].
  intros H. apply Permutation_length in H. discriminate H.
Qed.

(** C8, amended.  Take any graph made by the constructor followed by
    addEdge and removeEdge calls, holding at most 500 edges that join two
    distinct vertices.  The gathering loop of kruskal returns, and the edges
    it gathered are, as a multiset, the edges of the graph that join two
    distinct vertices, each once, stored as (weight, smaller endpoint, larger
    endpoint).  Loops are not gathered. *)
Theorem kruskal_gathers_each_proper_edge_once (n : Z) (ops : list op) (g : Graph) :
  run_ops n ops = Ok g ->
  Z.of_nat (length (proper_edges (edges_of ops))) <= MAX_EDGES ->
  exists b,
    collect_edges g = Ok b /\
    edgeCount b = Z.of_nat (length (proper_edges (edges_of ops))) /\
    gathered b = scan g /\
    gathered b ≡ₚ map normalize (proper_edges (edges_of ops)) /\
    (forall e, In e (gathered b) -> eu e < ev e).
Proof.
  intros Hrun Hroom. pose proof (run_ops_stores n ops g Hrun) as Hst.
  pose proof (scan_stores g _ Hst) as Hperm. destruct Hst as (Hlen & _ & _).
  destruct (collect_edges_scan g Hlen) as (b & Hcol & Hcnt & Hg).
  { by rewrite (Permutation_length Hperm), length_map. }
  exists b. split; [done |].
  split; [by rewrite Hcnt, (Permutation_length Hperm), length_map |].
  split; [done |]. split; [by rewrite Hg |].
  intros e He. rewrite Hg in He. unfold scan in He.
  apply in_flat_map in He as (u & _ & He). unfold scan_vertex in He.
  apply in_map_iff in He as (nb & <- & Hnb). apply List.filter_In in Hnb as [_ Hlt].
  simpl. by apply Z.ltb_lt.
Qed.

Lemma kruskal_gathers_each_proper_edge_once_witness :
  exists g b,
    run_ops 3 [AddEdge 0 1 1; AddEdge 1 2 2; AddEdge 2 2 9; AddEdge 0 2 5;
               RemoveEdge 1 0] = Ok g /\
    collect_edges g = Ok b /\ edgeCount b = 2 /\
    gathered b ≡ₚ [mkEdge 5 0 2; mkEdge 2 1 2].
Proof.
  eexists.
  destruct (kruskal_gathers_each_proper_edge_once 3
              [AddEdge 0 1 1; AddEdge 1 2 2; AddEdge 2 2 9; AddEdge 0 2 5;
               RemoveEdge 1 0] _ eq_refl)
    as (b & H1 & H2 & _ & H3 & _); [by vm_compute |].
  exists b. split; [reflexivity |]. auto.
Defined.

(** ** dijkstra: the tree weights are edge weights *)

Lemma insert_Ok_inv (q q' : PriorityQueue.t) (v p : Z) :
  pq_inv q = true -> PriorityQueue.insert q v p = Ok q' ->
  pq_inv q' = true /\
  contents q' ≡ₚ PriorityQueue.mkElement v p :: contents q.
Proof.
  intros Hinv Hins. pose proof (proj1 (pq_inv_spec q) Hinv) as (Hsz & _).
  destruct (decide (PriorityQueue.size q = PriorityQueue.capacity q)) as [Hfull | Hroom].
  - rewrite insert_full in Hins by done. discriminate.
  - destruct (insert_ok q v p Hinv ltac:(lia)) as (q1 & H1 & H2 & _ & _ & H3).
    rewrite H1 in Hins. injection Hins as <-. done.
Qed.

Lemma extractMin_Ok_inv (q q' : PriorityQueue.t) (u : Z) :
  pq_inv q = true -> PriorityQueue.extractMin q = Ok (u, q') ->
  exists e,
    PriorityQueue.value e = u /\ pq_inv q' = true /\
    contents q ≡ₚ e :: contents q' /\
    (forall x, In x (contents q) -> PriorityQueue.priority e <= PriorityQueue.priority x).
Proof.
  intros Hinv Hext. pose proof (proj1 (pq_inv_spec q) Hinv) as (Hsz & _).
  destruct (decide (PriorityQueue.size q = 0)) as [Hempty | Hsome].
  - rewrite extractMin_empty in Hext by done. discriminate.
  - destruct (extractMin_ok q Hinv ltac:(lia)) as (e & q1 & H1 & H2 & _ & _ & H3 & H4).
    rewrite H1 in Hext. injection Hext as <- <-. eauto.
Qed.

Lemma aget_nth_z (l : list Z) (i : Z) :
  0 <= i < Z.of_nat (length l) -> aget l i = Ok (nth_z l i).
Proof.
  intros Hi. destruct (aget_in l i Hi) as [x Hx]. rewrite Hx.
  apply aget_Ok in Hx as [_ Hx]. unfold nth_z. by rewrite Hx.
Qed.

Lemma aget_nth_z_inv (l : list Z) (i x : Z) :
  aget l i = Ok x -> 0 <= i < Z.of_nat (length l) /\ x = nth_z l i.
Proof.
  intros H. apply aget_Ok in H as [H0 H]. pose proof (lookup_lt_Some _ _ _ H).
  unfold nth_z. rewrite H. split; [lia | done].
Qed.

Lemma nth_z_insert (l : list Z) (i j x : Z) :
  0 <= i < Z.of_nat (length l) -> 0 <= j ->
  nth_z (<[Z.to_nat i := x]> l) j = if j =? i then x else nth_z l j.
Proof.
  intros Hi Hj. unfold nth_z. destruct (Z.eqb_spec j i) as [-> | Hne].
  - rewrite list_lookup_insert_eq by lia. done.
  - rewrite list_lookup_insert_ne by lia. done.
Qed.

Lemma nth_z_replicate (n : Z) (d i : Z) :
  0 <= i < n -> nth_z (replicate (Z.to_nat n) d) i = d.
Proof.
  intros Hi. unfold nth_z. rewrite lookup_replicate_2 by lia. done.
Qed.

Lemma int_add_Ok (a b c : Z) :
  int_add a b = Ok c -> c = a + b /\ INT_MIN <= c <= INT_MAX.
Proof.
  unfold int_add. destruct (in_int (a + b)) eqn:E; [| done].
  intros [= <-]. by apply in_int_spec in E.
Qed.

Lemma nonneg_weights_spec (g : Graph) :
  nonneg_weights g = true -> forall u nb, In nb (adj g u) -> 0 <= weight nb.
Proof.
  unfold nonneg_weights. rewrite forallb_forall. intros H u nb Hin.
  unfold adj in Hin. destruct (0 <=? u); [| done].
  destruct (adjacencyList g !! Z.to_nat u) as [l |] eqn:Hl; [| done]. simpl in Hin.
  assert (Hf : forallb (fun nb => 0 <=? weight nb) l = true).
  { apply H. apply list_elem_of_In. eapply list_elem_of_lookup_2; eauto. }
  rewrite forallb_forall in Hf. specialize (Hf nb Hin). by apply Z.leb_le.
Qed.

Lemma nth_z_insert_le (l : list Z) (i x : Z) :
  0 <= i < Z.of_nat (length l) -> x <= nth_z l i ->
  forall j, nth_z (<[Z.to_nat i := x]> l) j <= nth_z l j.
Proof.
  intros Hi Hx j. unfold nth_z in *.
  destruct (decide (Z.to_nat j = Z.to_nat i)) as [-> | Hne].
  - rewrite list_lookup_insert_eq by lia. done.
  - rewrite list_lookup_insert_ne by done. done.
Qed.

Lemma neighbor_eta (nb : Neighbor) : mkNeighbor (vertex nb) (weight nb) = nb.
Proof. by destruct nb. Qed.

Section Dijkstra.

Variable g : Graph.
Hypothesis Hwf : well_formed g = true.
Hypothesis Hnonneg : nonneg_weights g = true.

Lemma relax_step (f u : Z) (s s' : dijkstra_state) (nb : Neighbor)
    (seen : list Neighbor) :
  0 <= u < numVertices g -> In nb (adj g u) ->
  relax_inv g s f u seen ->
  relax u s nb = Ok s' ->
  relax_inv g s' f u (nb :: seen).
Proof.
  intros Hu Hnb (Hshape & Hentries & Hprev & Hdu & Hpending & Hseen) Hrun.
  pose proof (proj1 (well_formed_spec g) Hwf) as (Hn & Hlen & Hadj).
  destruct (Hadj u nb Hnb) as [Hv _].
  pose proof (nonneg_weights_spec g Hnonneg u nb Hnb) as Hw.
  pose proof Hshape as (Hld & Hlp & Hpq).
  unfold relax in Hrun. inv_ok Hrun.
  apply aget_nth_z_inv in Hx as [_ ->]. rewrite Hdu in Hx0.
  apply int_add_Ok in Hx0 as [-> Halt].
  apply aget_nth_z_inv in Hx1 as [_ ->].
  destruct (Z.ltb_spec (f + weight nb) (nth_z (dist s) (vertex nb))) as [Hlt | Hge].
  2:{ injection Hrun as <-. unfold relax_inv. repeat (split; [done |]).
      intros nb' [<- | Hin]; [done | by apply Hseen]. }
  inv_ok Hrun. subst s'.
  apply aset_Ok in Hx as [_ ->]. apply aset_Ok in Hx0 as [_ ->].
  apply aget_nth_z_inv in Hx1 as [_ ->].
  rewrite nth_z_insert, Z.eqb_refl in Hx2 by lia.
  apply insert_Ok_inv in Hx2 as [Hpq' Hcont]; [| done].
  set (alt := f + weight nb) in *. set (v := vertex nb) in *.
  assert (Hvu : v <> u) by (intros ->; lia).
  assert (Hmono : forall j, nth_z (<[Z.to_nat v := alt]> (dist s)) j <= nth_z (dist s) j).
  { apply nth_z_insert_le; lia. }
  assert (Hdist : forall j, 0 <= j -> j <> v ->
            nth_z (<[Z.to_nat v := alt]> (dist s)) j = nth_z (dist s) j).
  { intros j Hj Hne. rewrite nth_z_insert by lia.
    destruct (Z.eqb_spec j v); [done | done]. }
  assert (Hdv : nth_z (<[Z.to_nat v := alt]> (dist s)) v = alt).
  { rewrite nth_z_insert by lia. by rewrite Z.eqb_refl. }
  unfold relax_inv, shape_ok, entries_ok, prev_ok, pending_or_relaxed. simpl.
  split; [by rewrite !length_insert |]. split; [| split; [| split; [| split]]].
  - (* queue entries *)
    intros e He. apply (Permutation_in _ Hcont) in He as [<- | He]; simpl.
    + rewrite Hdv. unfold INT_MAX in *. lia.
    + destruct (Hentries e He) as (H1 & H2 & H3).
      split; [done |]. split; [done |].
      etrans; [apply Hmono | done].
  - (* predecessors *)
    intros x Hx Hpx. rewrite nth_z_insert in Hpx |- * by lia.
    destruct (Z.eqb_spec x v) as [-> | Hne].
    + split; [done |]. rewrite Hdv, Hdist by lia. split; [lia |].
      exists (weight nb). split; [| lia]. unfold v. by rewrite neighbor_eta.
    + destruct (Hprev x Hx Hpx) as (H1 & H2 & w' & H3 & H4).
      assert (nth_z (prev s) x <> v) by (intros Heq; rewrite Heq in H2; lia).
      rewrite !Hdist by lia. split; [done |]. split; [done |]. eauto.
  - by rewrite Hdist by lia.
  - (* the other vertices *)
    intros x Hx Hxu. destruct (decide (x = v)) as [-> | Hne].
    + left. rewrite Hdv. apply (Permutation_in _ (Permutation_sym Hcont)). by left.
    + rewrite Hdist by lia.
      destruct (Hpending x Hx Hxu) as [Hin | [Hrel | Hinf]].
      * left. apply (Permutation_in _ (Permutation_sym Hcont)). by right.
      * right. left. intros nb' Hnb'. rewrite (Hdist x) by lia.
        etrans; [apply Hmono | by apply Hrel].
      * right. by right.
  - (* the neighbours seen so far *)
    intros nb' [<- | Hin].
    + fold v. rewrite Hdv. done.
    + etrans; [apply Hmono | by apply Hseen].
Qed.

Lemma relax_loop (f u : Z) (nbs : list Neighbor) :
  0 <= u < numVertices g -> (forall nb, In nb nbs -> In nb (adj g u)) ->
  forall (s s' : dijkstra_state) (seen : list Neighbor),
    relax_inv g s f u seen ->
    foldM (relax u) nbs s = Ok s' ->
    relax_inv g s' f u (rev nbs ++ seen).
Proof.
  intros Hu. induction nbs as [| nb nbs IH]; intros Hnbs s s' seen Hinv Hrun; simpl in *.
  - by injection Hrun as <-.
  - apply bind_Ok in Hrun as (s1 & H1 & Hrun).
    rewrite <- app_assoc. simpl.
    apply (IH ltac:(intros; apply Hnbs; by right) s1 s' (nb :: seen)); [| done].
    apply (relax_step f u s s1 nb seen); auto.
Qed.

(** An entry that lost the race: relaxing from its vertex changes nothing. *)
Lemma relax_loop_stale (u : Z) (nbs : list Neighbor) (s s' : dijkstra_state) :
  Z.of_nat (length (dist s)) = numVertices g ->
  relaxed g (dist s) u ->
  (forall nb, In nb nbs -> In nb (adj g u)) ->
  foldM (relax u) nbs s = Ok s' -> s' = s.
Proof.
  intros Hld Hrel. induction nbs as [| nb nbs IH]; intros Hnbs Hrun; simpl in *.
  - by injection Hrun as <-.
  - apply bind_Ok in Hrun as (s1 & H1 & Hrun).
    assert (s1 = s) as ->; [| apply IH; [intros; apply Hnbs; by right | done]].
    unfold relax in H1. inv_ok H1.
    apply aget_nth_z_inv in Hx as [_ ->].
    apply int_add_Ok in Hx0 as [-> _].
    apply aget_nth_z_inv in Hx1 as [_ ->].
    specialize (Hrel nb (Hnbs nb ltac:(by left))).
    destruct (Z.ltb_spec (nth_z (dist s) u + weight nb) (nth_z (dist s) (vertex nb)));
      [lia |].
    by injection H1 as <-.
Qed.

Lemma dijkstra_loop_inv (fuel : nat) :
  forall (s s' : dijkstra_state) (f : Z),
    dj_inv g s f -> dijkstra_loop fuel g s = Ok s' -> exists f', dj_inv g s' f'.
Proof.
  pose proof (proj1 (well_formed_spec g) Hwf) as (Hn & Hlen & Hadj).
  induction fuel as [| fuel IH]; intros s s' f Hinv Hrun; simpl in Hrun; [done |].
  destruct (PriorityQueue.isEmpty (dj_pq s)); [injection Hrun as <-; eauto |].
  apply bind_Ok in Hrun as ([u pq'] & Hext & Hrun).
  apply bind_Ok in Hrun as (nbs & Hnbs & Hrun).
  apply bind_Ok in Hrun as (s1 & Hfold & Hrun).
  destruct Hinv as (Hshape & Hentries & Hprev & Hpending).
  pose proof Hshape as (Hld & Hlp & Hpq).
  destruct (extractMin_Ok_inv _ _ _ Hpq Hext) as (e & Hval & Hpq' & Hcont & Hmin).
  assert (He : In e (contents (dj_pq s))).
  { apply (Permutation_in _ (Permutation_sym Hcont)). by left. }
  destruct (Hentries e He) as (Hu & Hp & Hdu). rewrite Hval in Hu, Hdu.
  rewrite getNeighbors_Ok in Hnbs by done. injection Hnbs as <-.
  set (p := PriorityQueue.priority e) in *.
  set (s0 := mkDijkstra (dist s) (prev s) pq') in *.
  assert (Hshape0 : shape_ok g s0) by done.
  assert (Hentries0 : entries_ok g s0 p).
  { intros x Hx.
    assert (Hx' : In x (contents (dj_pq s))).
    { apply (Permutation_in _ (Permutation_sym Hcont)). by right. }
    destruct (Hentries x Hx') as (H1 & H2 & H3).
    split; [done |]. split; [| done]. split; [by apply Hmin | lia]. }
  assert (Hprev0 : prev_ok g s0 p).
  { intros v Hv Hpv. destruct (Hprev v Hv Hpv) as (H1 & H2 & H3).
    split; [done |]. split; [simpl; lia | done]. }
  assert (Hpending0 : forall v, 0 <= v < numVertices g -> v <> u ->
                        pending_or_relaxed g s0 v).
  { intros v Hv Hvu. destruct (Hpending v Hv) as [Hin | Hrest]; [| by right].
    left. apply (Permutation_in _ Hcont) in Hin as [Heq | Hin]; [| done].
    rewrite Heq in Hval. simpl in Hval. congruence. }
  apply (IH s1 s' p); [| done].
  destruct (decide (nth_z (dist s) u = p)) as [Hfresh | Hstale].
  - (* the entry carries the current distance of u *)
    pose proof (relax_loop p u (adj g u) Hu ltac:(auto) s0 s1 []
                  ltac:(by repeat (split; [done |])) Hfold)
      as (Hshape1 & Hentries1 & Hprev1 & Hdu1 & Hpending1 & Hseen1).
    split; [done |]. split; [done |]. split; [done |].
    intros v Hv. destruct (decide (v = u)) as [-> | Hvu]; [| by apply Hpending1].
    right. left. intros nb Hnb. rewrite Hdu1. apply Hseen1.
    apply in_or_app. left. by apply in_rev in Hnb.
  - (* a stale entry: u was settled with a smaller distance *)
    assert (Hrel : relaxed g (dist s) u).
    { destruct (Hpending u Hu) as [Hin | [Hrel | Hinf]]; [| done | lia].
      specialize (Hmin _ Hin). simpl in Hmin. fold p in Hmin. lia. }
    assert (s1 = s0) as ->.
    { apply (relax_loop_stale u (adj g u) s0 s1); auto. }
    split; [done |]. split; [done |]. split; [done |].
    intros v Hv. destruct (decide (v = u)) as [-> | Hvu]; [| by apply Hpending0].
    right. by left.
Qed.

Lemma dijkstra_search_inv (fuel : nat) (start : Z) (s : dijkstra_state) :
  valid_vertex g start = true ->
  dijkstra_search fuel g start = Ok s -> exists f, dj_inv g s f.
Proof.
  intros Hs Hrun. apply valid_vertex_spec in Hs.
  pose proof (proj1 (well_formed_spec g) Hwf) as (Hn & Hlen & Hadj).
  unfold dijkstra_search, getVertexCount in Hrun.
  rewrite !new_array_Ok in Hrun by lia. cbn [bind] in Hrun.
  rewrite aset_in in Hrun by (rewrite length_replicate; lia). cbn [bind] in Hrun.
  apply bind_Ok in Hrun as (pq0 & Hnew & Hrun).
  apply bind_Ok in Hrun as (pq1 & Hins & Hrun).
  pose proof (new_inv _ _ Hnew) as Hpq0.
  destruct (insert_Ok_inv _ _ _ _ Hpq0 Hins) as [Hpq1 Hcont].
  assert (Hc0 : contents pq0 = []).
  { unfold PriorityQueue.new in Hnew. destruct (numVertices g <=? 0); [done |].
    rewrite new_array_Ok in Hnew by lia. by injection Hnew as <-. }
  rewrite Hc0 in Hcont.
  refine (dijkstra_loop_inv fuel _ s 0 _ Hrun).
  assert (Hd : forall v, 0 <= v ->
            nth_z (<[Z.to_nat start := 0]> (replicate (Z.to_nat (numVertices g)) INT_MAX)) v
            = if v =? start then 0 else
                nth_z (replicate (Z.to_nat (numVertices g)) INT_MAX) v).
  { intros v Hv. apply nth_z_insert; [rewrite length_replicate |]; lia. }
  split; [| split; [| split]].
  - unfold shape_ok. simpl. rewrite length_insert, !length_replicate.
    split; [lia |]. split; [lia | done].
  - intros e He. simpl in He. apply (Permutation_in _ Hcont) in He as [<- | []].
    simpl. rewrite Hd, Z.eqb_refl by lia. unfold INT_MAX. lia.
  - intros v Hv Hpv. simpl in Hpv. rewrite nth_z_replicate in Hpv by done. done.
  - intros v Hv. unfold pending_or_relaxed. simpl. rewrite Hd by lia.
    destruct (Z.eqb_spec v start) as [-> | Hne].
    + left. apply (Permutation_in _ (Permutation_sym Hcont)). by left.
    + right. right. by apply nth_z_replicate.
Qed.

End Dijkstra.

(** *** The run that checks its sums against the compiled run *)

Lemma wrap_in_int (x : Z) : in_int x = true -> wrap x = x.
Proof.
  intros H. apply in_int_spec in H. unfold wrap, INT_MIN, INT_MAX in *.
  rewrite Z.mod_small by lia. lia.
Qed.

(** The two runs differ only where the checked one stops at a sum. *)
Lemma relax_wrap_agrees (u : Z) (s : dijkstra_state) (nb : Neighbor) :
  relax u s nb = Fault SignedOverflow \/ relax_wrap u s nb = relax u s nb.
Proof.
  unfold relax, relax_wrap.
  destruct (aget (dist s) u) as [du | | |]; cbn [bind]; try (by right).
  unfold int_add. destruct (in_int (du + weight nb)) eqn:E; cbn [bind]; [| by left].
  right. by rewrite wrap_in_int.
Qed.

Lemma foldM_agrees {A S : Type} (f f' : S -> A -> outcome S) (l : list A) :
  (forall s x, f s x = Fault SignedOverflow \/ f' s x = f s x) ->
  forall s, foldM f l s = Fault SignedOverflow \/ foldM f' l s = foldM f l s.
Proof.
  intros Hf. induction l as [| x l IH]; intros s; [by right |].
  cbn [foldM]. destruct (Hf s x) as [-> | ->]; [by left |].
  destruct (f s x) as [s1 | | |]; cbn [bind]; try (by right). apply IH.
Qed.

Lemma dijkstra_loop_wrap_agrees (fuel : nat) (g : Graph) :
  forall s,
    dijkstra_loop fuel g s = Fault SignedOverflow \/
    dijkstra_loop_wrap fuel g s = dijkstra_loop fuel g s.
Proof.
  induction fuel as [| fuel IH]; intros s; [by right |].
  cbn [dijkstra_loop dijkstra_loop_wrap].
  destruct (PriorityQueue.isEmpty (dj_pq s)); [by right |].
  destruct (PriorityQueue.extractMin (dj_pq s)) as [[u pq] | | |]; cbn [bind]; try (by right).
  destruct (getNeighbors g u) as [nbs | | |]; cbn [bind]; try (by right).
  destruct (foldM_agrees (relax u) (relax_wrap u) nbs (relax_wrap_agrees u)
              (mkDijkstra (dist s) (prev s) pq)) as [-> | ->]; [by left |].
  destruct (foldM (relax u) nbs _) as [s1 | | |]; cbn [bind]; try (by right). apply IH.
Qed.

Lemma dijkstra_search_wrap_agrees (fuel : nat) (g : Graph) (start : Z) :
  dijkstra_search fuel g start = Fault SignedOverflow \/
  dijkstra_search_wrap fuel g start = dijkstra_search fuel g start.
Proof.
  unfold dijkstra_search, dijkstra_search_wrap.
  destruct (new_array _ INT_MAX) as [d0 | | |]; cbn [bind]; try (by right).
  destruct (new_array _ (-1)) as [p0 | | |]; cbn [bind]; try (by right).
  destruct (aset d0 start 0) as [d1 | | |]; cbn [bind]; try (by right).
  destruct (PriorityQueue.new _) as [pq0 | | |]; cbn [bind]; try (by right).
  destruct (PriorityQueue.insert pq0 start 0) as [pq1 | | |]; cbn [bind]; try (by right).
  apply dijkstra_loop_wrap_agrees.
Qed.

Lemma dijkstra_edge_wrap_agrees (d p : list Z) (t : Graph) (v : Z) :
  dijkstra_edge d p t v = Fault SignedOverflow \/
  dijkstra_edge_wrap d p t v = dijkstra_edge d p t v.
Proof.
  unfold dijkstra_edge, dijkstra_edge_wrap.
  destruct (aget p v) as [pv | | |]; cbn [bind]; try (by right).
  destruct (negb (pv =? -1)); [| by right].
  destruct (aget d v) as [dv | | |]; cbn [bind]; try (by right).
  destruct (aget d pv) as [dp | | |]; cbn [bind]; try (by right).
  unfold int_sub. destruct (in_int (dv - dp)) eqn:E; cbn [bind]; [| by left].
  right. by rewrite wrap_in_int.
Qed.

Lemma dijkstra_wrap_agrees (fuel : nat) (g : Graph) (start : Z) :
  dijkstra fuel g start = Fault SignedOverflow \/
  dijkstra_wrap fuel g start = dijkstra fuel g start.
Proof.
  unfold dijkstra, dijkstra_wrap.
  destruct (Graph_new _) as [tree | | |]; cbn [bind]; try (by right).
  destruct (dijkstra_search_wrap_agrees fuel g start) as [-> | ->]; [by left |].
  destruct (dijkstra_search fuel g start) as [s | | |]; cbn [bind]; try (by right).
  apply foldM_agrees. intros t v. apply dijkstra_edge_wrap_agrees.
Qed.

(** When no sum leaves the range, what the compiled program returns is what
    the checked run returns. *)
Lemma dijkstra_wrap_checked (fuel : nat) (g : Graph) (start : Z) (tree : Graph) :
  dijkstra_wrap fuel g start = Ok tree -> sums_fit fuel g start ->
  dijkstra fuel g start = Ok tree.
Proof.
  intros Hrun Hfit. destruct (dijkstra_wrap_agrees fuel g start) as [Hf | He]; [done |].
  by rewrite <- He.
Qed.

Lemma dijkstra_search_wrap_checked (fuel : nat) (g : Graph) (start : Z)
    (s : dijkstra_state) :
  dijkstra_search_wrap fuel g start = Ok s -> search_sums_fit fuel g start ->
  dijkstra_search fuel g start = Ok s.
Proof.
  intros Hrun Hfit. destruct (dijkstra_search_wrap_agrees fuel g start) as [Hf | He]; [done |].
  by rewrite <- He.
Qed.

Lemma dijkstra_search_checked_wrap (fuel : nat) (g : Graph) (start : Z)
    (s : dijkstra_state) :
  dijkstra_search fuel g start = Ok s -> dijkstra_search_wrap fuel g start = Ok s.
Proof.
  intros Hrun. destruct (dijkstra_search_wrap_agrees fuel g start) as [Hf | He];
    [by rewrite Hrun in Hf | by rewrite He].
Qed.

(** *** What the tree stores *)

Lemma stores_entry (t : Graph) (es : list (Z * Z * Z)) (a b w : Z) :
  stores t es -> In (a, b, w) es ->
  In (mkNeighbor b w) (adj t a) /\ In (mkNeighbor a w) (adj t b).
Proof.
  intros (_ & Hends & Hadj) Hin. destruct (Hends a b w Hin) as [Ha Hb].
  rewrite !Hadj by lia. split; apply in_flat_map; exists (a, b, w); (split; [done |]);
    unfold entries_of; rewrite Z.eqb_refl; apply in_or_app; [right | left]; by left.
Qed.

(** A loop whose body either leaves the tree alone or calls addEdge once
    stores the edges it added, latest first. *)
Lemma foldM_edges {X : Type} (f : Graph -> X -> outcome Graph)
    (h : X -> option (Z * Z * Z)) (xs : list X) :
  (forall t x, In x xs ->
     f t x = match h x with
             | Some (a, b, w) => addEdge t a b w
             | None => Ok t
             end) ->
  forall t es t',
    stores t es -> foldM f xs t = Ok t' ->
    stores t' (reverse (omap h xs) ++ es) /\ numVertices t' = numVertices t.
Proof.
  induction xs as [| x xs IH]; intros Hf t es t' Hst Hrun; simpl in Hrun.
  - injection Hrun as <-. done.
  - apply bind_Ok in Hrun as (t1 & H1 & Hrun).
    rewrite Hf in H1 by by left.
    assert (Hf' : forall t x, In x xs ->
              f t x = match h x with
                      | Some (a, b, w) => addEdge t a b w
                      | None => Ok t
                      end) by (intros; apply Hf; by right).
    simpl. destruct (h x) as [[[a b] w] |].
    + pose proof (stores_apply_op t t1 es (AddEdge a b w) Hst H1) as Hst1.
      destruct (IH Hf' t1 _ t' Hst1 Hrun) as [Hst' Hn'].
      rewrite reverse_cons, <- app_assoc. split; [done |].
      rewrite Hn'. unfold addEdge in H1. destruct (_ || _) in H1; [done |].
      by injection H1 as <-.
    + injection H1 as <-. by apply IH.
Qed.

(** The final loop of dijkstra stores one edge per vertex with a
    predecessor, the last vertex first. *)
Lemma dijkstra_tree_edges (fuel : nat) (g : Graph) (start : Z) (tree : Graph) :
  well_formed g = true -> nonneg_weights g = true -> valid_vertex g start = true ->
  dijkstra fuel g start = Ok tree ->
  exists s,
    dijkstra_search fuel g start = Ok s /\
    numVertices tree = numVertices g /\
    stores tree (reverse (omap (dijkstra_edge_of (dist s) (prev s))
                               (upto (numVertices g)))).
Proof.
  intros Hwf Hnonneg Hs Hrun.
  pose proof (proj1 (well_formed_spec g) Hwf) as (Hn & Hlen & Hadj).
  unfold dijkstra, getVertexCount in Hrun.
  apply bind_Ok in Hrun as (tree0 & Htree0 & Hrun).
  apply bind_Ok in Hrun as (s & Hsearch & Hrun).
  destruct (dijkstra_search_inv g Hwf Hnonneg fuel start s Hs Hsearch)
    as (f & (Hld & Hlp & _) & _ & Hprev & _).
  destruct (foldM_edges (dijkstra_edge (dist s) (prev s))
              (dijkstra_edge_of (dist s) (prev s)) (upto (numVertices g)))
    with (t := tree0) (es := @nil (Z * Z * Z)) (t' := tree) as [Hst Hnv];
    [| by apply (stores_new (numVertices g)) | done |].
  { intros t v Hv. apply In_upto in Hv. unfold dijkstra_edge, dijkstra_edge_of.
    rewrite aget_nth_z by lia. cbn [bind].
    destruct (Z.eqb_spec (nth_z (prev s) v) (-1)) as [| Hpv]; [done |]. cbn [negb].
    destruct (Hprev v Hv Hpv) as (Hr & _ & w & Hin & Hd).
    rewrite !aget_nth_z by lia. cbn [bind].
    destruct (Hadj _ _ Hin) as [_ Hint]. simpl in Hint. unfold int_sub.
    replace (nth_z (dist s) v - nth_z (dist s) (nth_z (prev s) v)) with w by lia.
    by rewrite Hint. }
  rewrite app_nil_r in Hst. exists s. split; [done |]. split; [| done].
  rewrite Hnv. rewrite Graph_new_Ok in Htree0 by lia. by injection Htree0 as <-.
Qed.

Lemma build_heavy_path : build 3 [(0, 1, 2147483646); (1, 2, 2)] = Ok heavy_path.
Proof. reflexivity. Qed.

(** The claim as it was written fails where a sum overflows.  On the path
    0 - 1 - 2 with weights 2147483646 and 2, a well-formed graph with
    non-negative weights, the compiled dijkstra returns from start 0; the sum
    dist[1] + 2 has wrapped around, the final loop adds the edge
    (prev[2], 2) = (1, 2) with weight dist[2] - dist[1] = -2, and no edge of
    the input has this weight. *)
Lemma dijkstra_wrapped_sum_is_no_edge_weight :
  well_formed heavy_path = true /\ nonneg_weights heavy_path = true /\
  valid_vertex heavy_path 0 = true /\
  dijkstra 8 heavy_path 0 = Fault SignedOverflow /\
  exists s tree,
    dijkstra_search_wrap 8 heavy_path 0 = Ok s /\
    dijkstra_wrap 8 heavy_path 0 = Ok tree /\
    nth_z (prev s) 2 = 1 /\
    wrap (nth_z (dist s) 2 - nth_z (dist s) 1) = -2 /\
    In (mkNeighbor 2 (-2)) (adj tree 1) /\
    forall a nb, In nb (adj heavy_path a) -> weight nb <> -2.
Proof.
  split; [reflexivity |]. split; [reflexivity |]. split; [reflexivity |].
  split; [by vm_compute |].
  eexists. eexists. split; [by vm_compute |]. split; [by vm_compute |].
  split; [reflexivity |]. split; [reflexivity |]. split; [simpl; tauto |].
  intros a nb Hin. unfold adj in Hin. destruct (0 <=? a); [| done].
  destruct (Z.to_nat a) as [| [| [| k]]]; simpl in Hin;
    repeat (destruct Hin as [<- | Hin]; [simpl; lia |]); done.
Qed.

(** C2.  On a well-formed graph with non-negative weights and a valid
    start, whenever dijkstra returns a tree and no sum [dist[u] + w] of the
    run leaves the range of int: the tree has the vertices of the input and
    stores exactly one edge for every vertex with a predecessor, the edge
    (prev[v], v) with weight dist[v] - dist[prev[v]], and nothing for a
    vertex without one; and that weight is the weight of an entry for v in
    the input graph's list of prev[v]. *)
Theorem dijkstra_tree_weights_are_edge_weights
    (fuel : nat) (g : Graph) (start : Z) (tree : Graph) :
  well_formed g = true ->
  nonneg_weights g = true ->
  valid_vertex g start = true ->
  dijkstra_wrap fuel g start = Ok tree ->
  sums_fit fuel g start ->
  exists s,
    dijkstra_search_wrap fuel g start = Ok s /\
    numVertices tree = numVertices g /\
    stores tree (reverse (omap (dijkstra_edge_of (dist s) (prev s))
                               (upto (numVertices g)))) /\
    forall v, 0 <= v < numVertices g ->
      let pv := nth_z (prev s) v in
      let w := nth_z (dist s) v - nth_z (dist s) pv in
      (pv = -1 -> dijkstra_edge_of (dist s) (prev s) v = None) /\
      (pv <> -1 ->
         dijkstra_edge_of (dist s) (prev s) v = Some (pv, v, w) /\
         In (mkNeighbor v w) (adj tree pv) /\ In (mkNeighbor pv w) (adj tree v) /\
         In (mkNeighbor v w) (adj g pv)).
Proof.
  intros Hwf Hnonneg Hs Hwrap Hfit.
  pose proof (dijkstra_wrap_checked fuel g start tree Hwrap Hfit) as Hrun.
  destruct (dijkstra_tree_edges fuel g start tree Hwf Hnonneg Hs Hrun)
    as (s & Hsearch & Hnt & Hst).
  exists s. split; [by apply dijkstra_search_checked_wrap |].
  split; [done |]. split; [done |].
  destruct (dijkstra_search_inv g Hwf Hnonneg fuel start s Hs Hsearch)
    as (f & _ & _ & Hprev & _).
  intros v Hv pv w. unfold dijkstra_edge_of. fold pv. split.
  - intros ->. done.
  - intros Hpv. destruct (Z.eqb_spec pv (-1)) as [| _]; [done |]. fold w.
    split; [done |].
    destruct (Hprev v Hv Hpv) as (_ & _ & w' & Hin & Hd). fold pv in Hin, Hd.
    assert (Hw : w = w') by (unfold w; lia).
    assert (Hedge : In (pv, v, w)
              (reverse (omap (dijkstra_edge_of (dist s) (prev s)) (upto (numVertices g))))).
    { apply list_elem_of_In. rewrite elem_of_reverse. apply list_elem_of_omap.
      exists v. split; [by apply list_elem_of_In, In_upto |].
      unfold dijkstra_edge_of. fold pv. by destruct (Z.eqb_spec pv (-1)). }
    destruct (stores_entry tree _ pv v w Hst Hedge) as [H1 H2].
    split; [done |]. split; [done |]. by rewrite Hw.
Qed.

Lemma dijkstra_tree_weights_are_edge_weights_witness :
  exists s,
    dijkstra_search_wrap 8 triangle 0 = Ok s /\
    stores triangle_mst (reverse (omap (dijkstra_edge_of (dist s) (prev s)) (upto 3))) /\
    nth_z (prev s) 2 = 1 /\
    In (mkNeighbor 2 (nth_z (dist s) 2 - nth_z (dist s) 1)) (adj triangle 1).
Proof.
  destruct (dijkstra_tree_weights_are_edge_weights 8 triangle 0 triangle_mst)
    as (s & Hsearch & _ & Hst & Hedges);
    [reflexivity | reflexivity | reflexivity | by vm_compute | by vm_compute |].
  exists s. split; [exact Hsearch |]. split; [exact Hst |].
  assert (Hp : nth_z (prev s) 2 = 1).
  { vm_compute in Hsearch. injection Hsearch as <-. reflexivity. }
  split; [exact Hp |].
  destruct (Hedges 2 ltac:(simpl; lia)) as (_ & Hw).
  rewrite Hp in Hw. apply Hw. lia.
Defined.

(** * Further properties of the code *)

(** ** Queue: first in, first out *)

Lemma queue_run_repr (ops : list qop) :
  forall (q : Queue.t) (items : list Z),
    q_repr q items ->
    queue_run q ops = fifo_run (Queue.capacity q) items ops.
Proof.
  induction ops as [| [v |] ops IH]; intros q items Hq; simpl; [done | |].
  - pose proof Hq as (Hcap & _ & _ & _ & Hc & Hle & _).
    destruct (Z.eqb_spec (Z.of_nat (length items)) (Queue.capacity q)) as [Hfull | Hroom].
    + unfold Queue.enqueue. rewrite Hc, Hfull, Z.eqb_refl. done.
    + destruct (enqueue_repr q items v Hq ltac:(lia)) as (q' & Henq & Hq' & Hcap').
      rewrite Henq. cbn [bind]. rewrite (IH q' _ Hq'). by rewrite Hcap'.
  - destruct items as [| x items].
    + unfold Queue.dequeue. by rewrite (proj2 (isEmpty_repr q [] Hq) eq_refl).
    + destruct (dequeue_repr q x items Hq) as (q' & Hdeq & Hq' & Hcap').
      rewrite Hdeq. cbn [bind]. rewrite (IH q' _ Hq'). by rewrite Hcap'.
Qed.

(** X1.  A Queue of capacity [cap >= 0] behaves, under every sequence of
    enqueue and dequeue calls, as a list bounded by [cap]: dequeue returns
    the values in the order they were enqueued, enqueue throws "Queue is
    full" exactly when [cap] values are waiting, dequeue throws "Queue is
    empty" exactly when none is, and the circular buffer is never accessed
    outside its bounds. *)
Theorem queue_is_bounded_fifo (cap : Z) (ops : list qop) :
  0 <= cap ->
  (let* q := Queue.new cap in queue_run q ops) = fifo_run cap [] ops.
Proof.
  intros Hcap. destruct (decide (cap = 0)) as [-> | Hpos].
  - destruct ops as [| [v |] ops]; reflexivity.
  - destruct (Queue_new_repr cap ltac:(lia)) as (q & Hnew & Hq & Hc).
    rewrite Hnew. cbn [bind]. rewrite (queue_run_repr ops q [] Hq). by rewrite Hc.
Qed.

Lemma queue_is_bounded_fifo_witness :
  (let* q := Queue.new 2 in
   queue_run q [Enq 7; Enq 8; Deq; Enq 9; Deq; Deq]) = Ok [7; 8; 9] /\
  (let* q := Queue.new 2 in queue_run q [Enq 7; Enq 8; Enq 9]) = Throw QueueIsFull.
Proof.
  split.
  - rewrite (queue_is_bounded_fifo 2 _ ltac:(lia)). reflexivity.
  - rewrite (queue_is_bounded_fifo 2 _ ltac:(lia)). reflexivity.
Defined.

(** ** PriorityQueue: what insert and extractMin do to the contents *)

(** X2.  On a queue that satisfies its representation invariant, insert
    into a queue that is not full adds exactly the given element to the
    contents, and extractMin on a non-empty queue returns the value of an
    element whose priority is least among the contents and removes exactly
    that element. *)
Theorem insert_extractMin_contents (q : PriorityQueue.t) :
  pq_inv q = true ->
  (forall v p, PriorityQueue.size q < PriorityQueue.capacity q ->
     exists q',
       PriorityQueue.insert q v p = Ok q' /\
       contents q' ≡ₚ PriorityQueue.mkElement v p :: contents q) /\
  (0 < PriorityQueue.size q ->
     exists e q',
       PriorityQueue.extractMin q = Ok (PriorityQueue.value e, q') /\
       contents q ≡ₚ e :: contents q' /\
       (forall x, In x (contents q) -> prio_le e x)).
Proof.
  intros Hinv. split.
  - intros v p Hroom.
    destruct (insert_ok q v p Hinv Hroom) as (q' & H1 & _ & _ & _ & H2). eauto.
  - intros Hsome.
    destruct (extractMin_ok q Hinv Hsome) as (e & q' & H1 & _ & _ & _ & H2 & H3).
    eauto.
Qed.

Lemma insert_extractMin_contents_witness :
  (exists q', PriorityQueue.insert sample_pq 500 0 = Ok q' /\
              contents q' ≡ₚ PriorityQueue.mkElement 500 0 :: contents sample_pq) /\
  (exists e q', PriorityQueue.extractMin sample_pq = Ok (PriorityQueue.value e, q') /\
                contents sample_pq ≡ₚ e :: contents q').
Proof.
  destruct (insert_extractMin_contents sample_pq eq_refl) as [Hins Hext]. split.
  - apply Hins. reflexivity.
  - destruct Hext as (e & q' & H1 & H2 & _); [reflexivity |]. eauto.
Defined.

Lemma insert_all_ok (xs : list PriorityQueue.Element) :
  forall q,
    pq_inv q = true ->
    PriorityQueue.size q + Z.of_nat (length xs) <= PriorityQueue.capacity q ->
    exists q',
      insert_all q xs = Ok q' /\ pq_inv q' = true /\
      PriorityQueue.size q' = PriorityQueue.size q + Z.of_nat (length xs) /\
      contents q' ≡ₚ xs ++ contents q.
Proof.
  induction xs as [| [v p] xs IH]; intros q Hinv Hroom; simpl in *.
  - exists q. repeat split; try done; lia.
  - destruct (insert_ok q v p Hinv ltac:(lia)) as (q1 & H1 & Hinv1 & Hsz1 & Hcap1 & Hc1).
    unfold insert_all. simpl. rewrite H1. cbn [bind].
    destruct (IH q1 Hinv1 ltac:(lia)) as (q' & H2 & Hinv' & Hsz' & Hc').
    exists q'. split; [done |]. split; [done |]. split; [lia |].
    rewrite Hc', Hc1. symmetry. apply Permutation_middle.
Qed.

Lemma extract_n_sorted (n : nat) :
  forall q,
    pq_inv q = true -> PriorityQueue.size q = Z.of_nat n ->
    exists ys q',
      extract_n n q = Ok (map PriorityQueue.value ys, q') /\
      ys ≡ₚ contents q /\ StronglySorted prio_le ys /\
      PriorityQueue.isEmpty q' = true.
Proof.
  induction n as [| n IH]; intros q Hinv Hsz; simpl.
  - exists [], q. split; [done |].
    split; [unfold contents; rewrite Hsz; done |]. split; [constructor |].
    unfold PriorityQueue.isEmpty. by rewrite Hsz.
  - destruct (extractMin_ok q Hinv ltac:(lia))
      as (e & q1 & H1 & Hinv1 & Hsz1 & _ & Hc & Hmin).
    rewrite H1. cbn [bind].
    destruct (IH q1 Hinv1 ltac:(lia)) as (ys & q' & H2 & Hperm & Hsorted & Hemp).
    rewrite H2. cbn [bind]. exists (e :: ys), q'. split; [done |].
    split; [by rewrite Hc, Hperm |]. split; [| done].
    constructor; [done |]. apply Forall_forall. intros x Hx. apply Hmin.
    apply list_elem_of_In. rewrite Hc, <- Hperm. by right.
Qed.

(** X3.  Filling a fresh PriorityQueue of capacity [cap] with the elements
    [xs] (no more than [cap] of them) and then calling extractMin once per
    element succeeds and returns the values in ascending order of priority:
    the values of a rearrangement of [xs] that is sorted by priority.  The
    queue is empty afterwards. *)
Theorem fill_then_drain_sorts (cap : Z) (xs : list PriorityQueue.Element) :
  0 < cap -> Z.of_nat (length xs) <= cap ->
  exists ys q',
    (let* q0 := PriorityQueue.new cap in
     let* q := insert_all q0 xs in
     extract_n (length xs) q) = Ok (map PriorityQueue.value ys, q') /\
    ys ≡ₚ xs /\ StronglySorted prio_le ys /\
    PriorityQueue.isEmpty q' = true.
Proof.
  intros Hcap Hlen.
  assert (Hnew : exists q0, PriorityQueue.new cap = Ok q0 /\
                   PriorityQueue.size q0 = 0 /\ PriorityQueue.capacity q0 = cap).
  { unfold PriorityQueue.new. destruct (Z.leb_spec cap 0); [lia |].
    rewrite new_array_Ok by lia. simpl. eauto. }
  destruct Hnew as (q0 & Hnew & Hsz0 & Hcap0). rewrite Hnew. cbn [bind].
  destruct (insert_all_ok xs q0 (new_inv _ _ Hnew) ltac:(lia))
    as (q & Hfill & Hinv & Hsz & Hc).
  rewrite Hfill. cbn [bind].
  destruct (extract_n_sorted (length xs) q Hinv ltac:(lia))
    as (ys & q' & Hrun & Hperm & Hsorted & Hemp).
  exists ys, q'. split; [done |]. split; [| done].
  rewrite Hperm, Hc. unfold contents. rewrite Hsz0. simpl. by rewrite app_nil_r.
Qed.

Lemma fill_then_drain_sorts_witness :
  exists ys q',
    (let* q0 := PriorityQueue.new 5 in
     let* q := insert_all q0 [PriorityQueue.mkElement 100 5; PriorityQueue.mkElement 200 2;
                              PriorityQueue.mkElement 300 8; PriorityQueue.mkElement 400 1] in
     extract_n 4 q) = Ok (map PriorityQueue.value ys, q') /\
    StronglySorted prio_le ys.
Proof.
  destruct (fill_then_drain_sorts 5
              [PriorityQueue.mkElement 100 5; PriorityQueue.mkElement 200 2;
               PriorityQueue.mkElement 300 8; PriorityQueue.mkElement 400 1])
    as (ys & q' & H1 & _ & H2 & _); [lia | simpl; lia |].
  exists ys, q'. split; [exact H1 | exact H2].
Defined.

(** ** Graph: the adjacency lists against the edge history *)

(** X4.  A graph made by the constructor followed by any addEdge and
    removeEdge calls keeps its vertex count, and getNeighbors of a valid
    vertex x returns, latest edge first, one node per stored edge that ends
    in x (two for a loop at x), where the stored edges are those added and
    not yet removed, removeEdge(u,v) having removed the latest edge that
    joins u and v.  For any other x getNeighbors throws "Vertex index out of
    bounds". *)
Theorem graph_stores_edge_history (n : Z) (ops : list op) (g : Graph) :
  run_ops n ops = Ok g ->
  getVertexCount g = n /\
  (forall x, 0 <= x < n ->
     getNeighbors g x = Ok (flat_map (entries_of x) (edges_of ops))) /\
  (forall x, ~ (0 <= x < n) ->
     getNeighbors g x = Throw VertexIndexOutOfBounds).
Proof.
  intros Hrun.
  assert (Hn : numVertices g = n).
  { pose proof Hrun as Hrun'. clear Hrun. rename Hrun' into Hrun. unfold run_ops in Hrun. apply bind_Ok in Hrun as (g0 & Hnew & Hrun).
    assert (H0 : numVertices g0 = n).
    { unfold Graph_new in Hnew. apply bind_Ok in Hnew as (a & _ & [= <-]). done. }
    clear Hnew. revert g0 H0 Hrun.
    induction ops as [| o ops IH]; intros g0 H0 Hrun; simpl in Hrun.
    - by injection Hrun as <-.
    - apply bind_Ok in Hrun as (g1 & H1 & Hrun). apply (IH g1); [| done].
      destruct o as [u v w | u v]; simpl in H1.
      + unfold addEdge in H1. destruct (_ || _) in H1; [done |]. by injection H1 as <-.
      + unfold removeEdge in H1. destruct (_ || _) in H1; [done |]. by injection H1 as <-. }
  pose proof (run_ops_stores n ops g Hrun) as (Hlen & _ & Hadj).
  split; [done |]. split.
  - intros x Hx. rewrite getNeighbors_Ok by lia. rewrite Hadj by lia. done.
  - intros x Hx. apply getNeighbors_invalid. lia.
Qed.

Lemma graph_stores_edge_history_witness :
  exists g,
    run_ops 3 [AddEdge 0 1 4; AddEdge 0 1 6; AddEdge 1 1 9; RemoveEdge 1 0] = Ok g /\
    getNeighbors g 1 = Ok [mkNeighbor 1 9; mkNeighbor 1 9; mkNeighbor 0 4] /\
    getNeighbors g 3 = Throw VertexIndexOutOfBounds.
Proof.
  eexists. split; [reflexivity |].
  destruct (graph_stores_edge_history 3
              [AddEdge 0 1 4; AddEdge 0 1 6; AddEdge 1 1 9; RemoveEdge 1 0] _ eq_refl)
    as (_ & Hin & Hout).
  split; [apply (Hin 1); lia | apply (Hout 3); lia].
Defined.

Lemma count_nb_flat_map {A : Type} (x : Neighbor) (f : A -> list Neighbor) (l : list A) :
  count_nb x (flat_map f l) = foldr (fun a acc => (count_nb x (f a) + acc)%nat) 0%nat l.
Proof. induction l as [| a l IH]; simpl; [done |]. by rewrite count_nb_app, IH. Qed.

Lemma count_entries_of_swap (u v w : Z) (e : Z * Z * Z) :
  count_nb (mkNeighbor v w) (entries_of u e) = count_nb (mkNeighbor u w) (entries_of v e).
Proof.
  destruct e as [[a b] c]. unfold entries_of. rewrite !count_nb_app.
  destruct (Z.eqb_spec u b), (Z.eqb_spec u a), (Z.eqb_spec v b), (Z.eqb_spec v a);
    subst; simpl; unfold neighbor_eqb; simpl;
    repeat match goal with
           | |- context [Z.eqb ?p ?q] => destruct (Z.eqb_spec p q); simpl
           end; try done; lia.
Qed.

Lemma stores_counts (g : Graph) (es : list (Z * Z * Z)) (u v w : Z) :
  stores g es -> 0 <= u -> 0 <= v ->
  count_nb (mkNeighbor v w) (adj g u) = count_nb (mkNeighbor u w) (adj g v).
Proof.
  intros (_ & _ & Hadj) Hu Hv. rewrite !Hadj by done. rewrite !count_nb_flat_map.
  clear Hadj. induction es as [| e es IH]; simpl; [done |].
  by rewrite IH, count_entries_of_swap.
Qed.

Lemma run_ops_well_formed (n : Z) (ops : list op) (g : Graph) :
  n <= INT_MAX -> forallb op_ok ops = true ->
  run_ops n ops = Ok g -> well_formed g = true.
Proof.
  intros Hn Hok Hrun. unfold run_ops in Hrun.
  apply bind_Ok in Hrun as (g0 & Hnew & Hrun).
  pose proof (Graph_new_well_formed n g0 Hn Hnew) as Hwf. clear Hnew.
  revert g0 Hwf Hrun. induction ops as [| o ops IH]; intros g0 Hwf Hrun; simpl in *.
  - by injection Hrun as <-.
  - apply andb_true_iff in Hok as [Ho Hok].
    apply bind_Ok in Hrun as (g1 & H1 & Hrun). apply (IH Hok g1); [| done].
    destruct o as [u v w | u v]; simpl in *.
    + by apply (addEdge_well_formed g0 g1 u v w).
    + by apply (removeEdge_well_formed g0 g1 u v).
Qed.

(** X5.  Every graph made by the constructor followed by addEdge and
    removeEdge calls stores both directions of each edge: the list of u
    holds (v, w) exactly as many times as the list of v holds (u, w).  With
    a vertex count and weights that are ints, the graph is also well
    formed: one list per vertex, every stored vertex in range. *)
Theorem built_graph_is_symmetric (n : Z) (ops : list op) (g : Graph) :
  run_ops n ops = Ok g ->
  (forall u v w, 0 <= u -> 0 <= v ->
     count_nb (mkNeighbor v w) (adj g u) = count_nb (mkNeighbor u w) (adj g v)) /\
  symmetric g = true /\
  (n <= INT_MAX -> forallb op_ok ops = true -> well_formed g = true).
Proof.
  intros Hrun. pose proof (run_ops_stores n ops g Hrun) as Hst.
  split; [intros u v w; by apply (stores_counts g (edges_of ops)) |].
  split; [| intros Hn Hok; by apply (run_ops_well_formed n ops g)].
  unfold symmetric. apply forallb_forall. intros u Hu. apply In_upto in Hu.
  apply forallb_forall. intros [v w] Hnb. apply Nat.eqb_eq. simpl.
  apply (stores_counts g (edges_of ops)); [done | lia |].
  destruct Hst as (_ & Hends & Hadj). rewrite Hadj in Hnb by lia.
  apply in_flat_map in Hnb as ([[a b] c] & He & Hnb).
  destruct (Hends a b c He) as [Ha Hb]. unfold entries_of in Hnb.
  apply in_app_or in Hnb as [Hnb | Hnb].
  - destruct (u =? b); [| done]. destruct Hnb as [[= <- <-] | []]. lia.
  - destruct (u =? a); [| done]. destruct Hnb as [[= <- <-] | []]. lia.
Qed.

Lemma built_graph_is_symmetric_witness :
  exists g,
    run_ops 3 [AddEdge 0 1 4; AddEdge 0 1 6; AddEdge 1 1 9; RemoveEdge 1 0] = Ok g /\
    symmetric g = true /\ well_formed g = true.
Proof.
  eexists. split; [reflexivity |].
  destruct (built_graph_is_symmetric 3
              [AddEdge 0 1 4; AddEdge 0 1 6; AddEdge 1 1 9; RemoveEdge 1 0] _ eq_refl)
    as (_ & Hsym & Hwf).
  split; [exact Hsym | apply Hwf; [by vm_compute | reflexivity]].
Defined.

Lemma unlink_first_miss (d : Z) (l : list Neighbor) :
  no_entry_to d l = true -> unlink_first d l = l.
Proof.
  induction l as [| x l IH]; simpl; [done |].
  rewrite andb_true_iff. intros [Hx Hl]. apply negb_true_iff in Hx. rewrite Hx.
  by rewrite IH.
Qed.

(** X6.  removeEdge(u, v) with valid u and v on a graph that holds no node
    for v in the list of u and none for u in the list of v does not throw and
    leaves the graph as it was. *)
Theorem removeEdge_absent_is_noop (g : Graph) (u v : Z) :
  valid_vertex g u = true -> valid_vertex g v = true ->
  no_entry_to v (adj g u) = true -> no_entry_to u (adj g v) = true ->
  removeEdge g u v = Ok g.
Proof.
  intros Hu Hv Huv Hvu. apply valid_vertex_spec in Hu, Hv.
  unfold removeEdge. rewrite range_check_false by done.
  destruct g as [n a]. simpl in *. f_equal. f_equal.
  unfold adj in Huv, Hvu. simpl in Huv, Hvu.
  destruct (Z.leb_spec 0 u); [| lia]. destruct (Z.leb_spec 0 v); [| lia].
  apply list_eq. intros i. rewrite !lookup_alter_at.
  repeat case_decide; subst; try done.
  all: repeat match goal with
              | E : Z.to_nat _ = Z.to_nat _ |- _ =>
                  apply Z2Nat.inj in E; [subst | lia | lia]
              end.
  all: match goal with
       | |- context [_ <$> ?a0 !! ?k] => destruct (a0 !! k) as [l |]
       end; simpl in *; try done; f_equal.
  all: by rewrite !(unlink_first_miss _ l) by done.
Qed.

Lemma removeEdge_absent_is_noop_witness : removeEdge fan 2 3 = Ok fan.
Proof. apply (removeEdge_absent_is_noop fan 2 3); reflexivity. Defined.

(** ** Trees: what a loop of addEdge calls stores *)

Lemma count_nb_In (x : Neighbor) (l : list Neighbor) :
  In x l <-> (0 < count_nb x l)%nat.
Proof.
  induction l as [| y l IH]; simpl; [split; [done | lia] |].
  destruct (neighbor_eqb x y) eqn:E.
  - apply neighbor_eqb_eq in E. subst. split; [lia | by left].
  - split.
    + intros [-> | Hin]; [| by apply IH].
      assert (neighbor_eqb x x = true) by by apply neighbor_eqb_eq. congruence.
    + intros Hpos. right. apply IH. lia.
Qed.

Lemma symmetric_In (g : Graph) (a b w : Z) :
  symmetric g = true -> 0 <= a < numVertices g ->
  In (mkNeighbor b w) (adj g a) -> In (mkNeighbor a w) (adj g b).
Proof.
  intros Hsym Ha Hin. unfold symmetric in Hsym.
  pose proof (proj1 (forallb_forall _ _) Hsym a (proj2 (In_upto _ _) Ha)) as Hrow.
  pose proof (proj1 (forallb_forall _ _) Hrow _ Hin) as Hc. simpl in Hc.
  apply Nat.eqb_eq in Hc. apply count_nb_In. rewrite <- Hc. by apply count_nb_In.
Qed.

Lemma stores_subgraph (t g : Graph) (es : list (Z * Z * Z)) :
  symmetric g = true -> numVertices t = numVertices g ->
  stores t es -> Forall (edge_of g) es -> subgraph t g.
Proof.
  intros Hsym Hn (Hlen & Hends & Hadj) Hes. split; [done |].
  intros u nb Hnb. destruct (Z.leb_spec 0 u) as [Hu | Hu].
  - rewrite Hadj in Hnb by done. apply in_flat_map in Hnb as ([[a b] w] & He & Hnb).
    rewrite Forall_forall in Hes. pose proof (Hes _ ltac:(by apply list_elem_of_In)) as Hedge.
    simpl in Hedge. destruct (Hends a b w He) as [Ha Hb]. unfold entries_of in Hnb.
    apply in_app_or in Hnb as [Hnb | Hnb].
    + destruct (Z.eqb_spec u b) as [-> |]; [| done]. destruct Hnb as [<- | []].
      apply symmetric_In; [done | lia | done].
    + destruct (Z.eqb_spec u a) as [-> |]; [| done]. by destruct Hnb as [<- | []].
  - unfold adj in Hnb. destruct (Z.leb_spec 0 u); [lia | done].
Qed.

(** ** prim: the tree is made of edges of the graph *)

Lemma getNeighbors_Ok_inv (g : Graph) (u : Z) (nbs : list Neighbor) :
  Z.of_nat (length (adjacencyList g)) = numVertices g ->
  getNeighbors g u = Ok nbs -> 0 <= u < numVertices g /\ nbs = adj g u.
Proof.
  intros Hlen Hget.
  assert (Hu : 0 <= u < numVertices g).
  { destruct (decide (0 <= u < numVertices g)) as [| Hn]; [done |].
    rewrite getNeighbors_invalid in Hget by done. done. }
  rewrite getNeighbors_Ok in Hget by done. split; [done | congruence].
Qed.

Lemma prim_relax_arrays (g : Graph) (u : Z) (s s' : prim_state) (nb : Neighbor) :
  prim_arrays_ok g s -> In nb (adj g u) ->
  prim_relax u s nb = Ok s' -> prim_arrays_ok g s'.
Proof.
  intros (Hk & Hp & Hok) Hnb Hrun. unfold prim_relax in Hrun.
  apply bind_Ok in Hrun as (inv & _ & Hrun).
  destruct (negb inv); [| by injection Hrun as <-].
  apply bind_Ok in Hrun as (kv & _ & Hrun).
  destruct (weight nb <? kv); [| by injection Hrun as <-].
  apply bind_Ok in Hrun as (key' & Hkey & Hrun). apply aset_Ok in Hkey as [Hv ->].
  apply bind_Ok in Hrun as (parent' & Hpar & Hrun). apply aset_Ok in Hpar as [_ ->].
  apply bind_Ok in Hrun as (kv' & _ & Hrun).
  apply bind_Ok in Hrun as (pq & _ & [= <-]).
  unfold prim_arrays_ok. simpl. rewrite !length_insert.
  split; [done |]. split; [done |]. intros v Hvr.
  rewrite !nth_z_insert by lia.
  destruct (Z.eqb_spec v (vertex nb)) as [-> | Hne]; [| by apply Hok].
  intros _. by rewrite neighbor_eta.
Qed.

Lemma prim_relax_all_arrays (g : Graph) (u : Z) (nbs : list Neighbor) :
  (forall nb, In nb nbs -> In nb (adj g u)) ->
  forall s s', prim_arrays_ok g s ->
    foldM (prim_relax u) nbs s = Ok s' -> prim_arrays_ok g s'.
Proof.
  induction nbs as [| nb nbs IH]; intros Hnbs s s' Hok Hrun; simpl in Hrun.
  - by injection Hrun as <-.
  - apply bind_Ok in Hrun as (s1 & H1 & Hrun).
    apply (IH ltac:(intros; apply Hnbs; by right) s1 s'); [| done].
    apply (prim_relax_arrays g u s s1 nb Hok); [apply Hnbs; by left | done].
Qed.

Lemma prim_loop_arrays (g : Graph) :
  Z.of_nat (length (adjacencyList g)) = numVertices g ->
  forall (fuel : nat) (s s' : prim_state),
    prim_arrays_ok g s -> prim_loop fuel g s = Ok s' -> prim_arrays_ok g s'.
Proof.
  intros Hlen. induction fuel as [| fuel IH]; intros s s' Hok Hrun; [done |].
  simpl in Hrun. destruct (PriorityQueue.isEmpty (pr_pq s)); [by injection Hrun as <- |].
  apply bind_Ok in Hrun as ([u pq] & _ & Hrun).
  apply bind_Ok in Hrun as (inMST' & _ & Hrun).
  apply bind_Ok in Hrun as (nbs & Hget & Hrun).
  apply bind_Ok in Hrun as (s1 & H1 & Hrun).
  apply (getNeighbors_Ok_inv g u nbs Hlen) in Hget as [Hu ->].
  apply (IH s1 s'); [| done].
  refine (prim_relax_all_arrays g u (adj g u) ltac:(done) _ s1 _ H1).
  by destruct Hok as (? & ? & ?).
Qed.

Lemma omap_children (h : Z -> option (Z * Z * Z)) (xs : list Z) :
  (forall x e, h x = Some e -> child e = x) ->
  map child (omap h xs) `sublist_of` xs.
Proof.
  intros Hh. induction xs as [| x xs IH]; simpl; [done |].
  destruct (h x) as [e |] eqn:E; simpl.
  - rewrite (Hh x e E). by apply sublist_skip.
  - by apply sublist_cons.
Qed.

(** X7.  Whenever prim returns a tree for a well-formed, symmetric graph,
    the tree is a subgraph of the input: it has the same vertices and every
    node of its lists is a node of the same list of the input, with the same
    weight.  Its edges come one per vertex at most, each for a vertex other
    than 0, so there are fewer of them than vertices. *)
Theorem prim_tree_is_subgraph (fuel : nat) (g tree : Graph) :
  well_formed g = true -> symmetric g = true ->
  prim fuel g = Ok tree ->
  subgraph tree g /\
  exists es,
    stores tree es /\ Forall (edge_of g) es /\
    NoDup (map child es) /\
    (forall e, In e es -> 0 < child e < numVertices g) /\
    Z.of_nat (length es) < numVertices g.
Proof.
  intros Hwf Hsym Hrun.
  pose proof (proj1 (well_formed_spec g) Hwf) as (Hn & Hlen & Hadj).
  unfold prim, getVertexCount in Hrun.
  apply bind_Ok in Hrun as (tree0 & Htree0 & Hrun).
  apply bind_Ok in Hrun as (inMST0 & _ & Hrun).
  apply bind_Ok in Hrun as (key0 & Hkey0 & Hrun).
  apply bind_Ok in Hrun as (parent0 & Hparent0 & Hrun).
  apply bind_Ok in Hrun as (key1 & Hkey1 & Hrun).
  apply bind_Ok in Hrun as (pq0 & _ & Hrun).
  apply bind_Ok in Hrun as (pq1 & _ & Hrun).
  apply bind_Ok in Hrun as (s & Hloop & Hrun).
  rewrite new_array_Ok in Hkey0, Hparent0 by lia.
  injection Hkey0 as <-. injection Hparent0 as <-.
  apply aset_Ok in Hkey1 as [H0 ->]. rewrite length_replicate in H0.
  assert (Hinit : prim_arrays_ok g
            (mkPrim inMST0 (<[Z.to_nat 0 := 0]> (replicate (Z.to_nat (numVertices g)) INT_MAX))
                    (replicate (Z.to_nat (numVertices g)) (-1)) pq1)).
  { unfold prim_arrays_ok. simpl. rewrite length_insert, !length_replicate.
    split; [lia |]. split; [lia |]. intros v Hv Hpv.
    by rewrite nth_z_replicate in Hpv. }
  pose proof (prim_loop_arrays g Hlen fuel _ s Hinit Hloop) as (Hk & Hp & Hok).
  set (xs := map (Z.add 1) (upto (numVertices g - 1))) in *.
  assert (Hxs : forall v, In v xs <-> 0 < v < numVertices g).
  { intros v. unfold xs. rewrite in_map_iff. split.
    - intros (i & <- & Hi). apply In_upto in Hi. lia.
    - intros Hv. exists (v - 1). split; [lia |]. apply In_upto. lia. }
  destruct (foldM_edges (prim_edge (key s) (pr_parent s))
              (prim_edge_of (key s) (pr_parent s)) xs) with (t := tree0) (es := @nil (Z * Z * Z))
              (t' := tree) as [Hst Hnv]; [| by apply (stores_new (numVertices g)) | done |].
  { intros t v Hv. apply Hxs in Hv. unfold prim_edge, prim_edge_of.
    rewrite aget_nth_z by lia. cbn [bind].
    destruct (nth_z (pr_parent s) v =? -1); [done |]. cbn [negb].
    by rewrite aget_nth_z by lia. }
  rewrite app_nil_r in Hst.
  assert (Hnt : numVertices tree = numVertices g).
  { rewrite Hnv. rewrite Graph_new_Ok in Htree0 by lia. by injection Htree0 as <-. }
  set (es := omap (prim_edge_of (key s) (pr_parent s)) xs) in *.
  assert (Hes : forall e, In e es -> edge_of g e /\ 0 < child e < numVertices g).
  { intros e He. apply list_elem_of_In, list_elem_of_omap in He as (v & Hv & Hh).
    apply list_elem_of_In, Hxs in Hv. unfold prim_edge_of in Hh.
    destruct (Z.eqb_spec (nth_z (pr_parent s) v) (-1)) as [| Hpv]; [done |].
    injection Hh as <-. simpl. split; [| done]. apply Hok; [lia | done]. }
  assert (Hsub : map child es `sublist_of` xs).
  { apply omap_children. intros v e Hh. unfold prim_edge_of in Hh.
    destruct (_ =? _) in Hh; [done |]. by injection Hh as <-. }
  assert (Hndx : NoDup xs).
  { assert (Inj eq eq (Z.add 1)) by (intros a b Hab; lia).
    unfold xs, upto. apply (NoDup_fmap_2 (Z.add 1)), (NoDup_fmap_2 Z.of_nat), NoDup_seq. }
  assert (Hfa : Forall (edge_of g) (reverse es)).
  { apply Forall_forall. intros e He. rewrite elem_of_reverse in He.
    apply list_elem_of_In in He. by destruct (Hes e He). }
  split; [by apply (stores_subgraph tree g (reverse es)) |].
  exists (reverse es). split; [done |]. split; [done |].
  split; [| split].
  - change (NoDup (child <$> reverse es)). rewrite (fmap_reverse child es).
    rewrite reverse_Permutation. by apply (sublist_NoDup _ xs).
  - intros e He. apply list_elem_of_In in He. rewrite elem_of_reverse in He.
    apply list_elem_of_In in He. by destruct (Hes e He).
  - rewrite length_reverse. apply sublist_length in Hsub.
    rewrite length_map in Hsub. unfold xs, upto in Hsub.
    rewrite !length_map, length_seq in Hsub. fold xs in Hsub. fold es in Hsub. lia.
Qed.

Lemma prim_tree_is_subgraph_witness :
  subgraph triangle_mst triangle /\
  exists es,
    stores triangle_mst es /\ Forall (edge_of triangle) es /\
    NoDup (map child es) /\
    (forall e, In e es -> 0 < child e < numVertices triangle) /\
    Z.of_nat (length es) < numVertices triangle.
Proof.
  apply (prim_tree_is_subgraph 5 triangle triangle_mst); reflexivity.
Defined.

(** ** dijkstra: the tree and the distances *)

(** X8.  Whenever dijkstra returns a tree for a well-formed, symmetric graph
    with non-negative weights and a valid start, and no sum [dist[u] + w] of
    the run leaves the range of int, the tree is a subgraph of the input:
    same vertices, and every node of its lists is a node of the same list of
    the input with the same weight.  It has at most one edge per vertex. *)
Theorem dijkstra_tree_is_subgraph (fuel : nat) (g : Graph) (start : Z) (tree : Graph) :
  well_formed g = true -> nonneg_weights g = true -> symmetric g = true ->
  valid_vertex g start = true ->
  dijkstra_wrap fuel g start = Ok tree -> sums_fit fuel g start ->
  subgraph tree g /\
  exists es,
    stores tree es /\ Forall (edge_of g) es /\
    NoDup (map child es) /\
    Z.of_nat (length es) <= numVertices g.
Proof.
  intros Hwf Hnonneg Hsym Hs Hwrap Hfit.
  pose proof (dijkstra_wrap_checked fuel g start tree Hwrap Hfit) as Hrun.
  pose proof (proj1 (well_formed_spec g) Hwf) as (Hn & _ & _).
  destruct (dijkstra_tree_edges fuel g start tree Hwf Hnonneg Hs Hrun)
    as (s & Hsearch & Hnt & Hst).
  destruct (dijkstra_search_inv g Hwf Hnonneg fuel start s Hs Hsearch)
    as (f & _ & _ & Hprev & _).
  set (xs := upto (numVertices g)) in *.
  set (h := dijkstra_edge_of (dist s) (prev s)) in *.
  assert (Hh : forall v e, h v = Some e -> child e = v).
  { intros v e Hv. unfold h, dijkstra_edge_of in Hv.
    destruct (_ =? _) in Hv; [done |]. by injection Hv as <-. }
  set (es := omap h xs) in *.
  assert (Hes : forall e, In e es -> edge_of g e).
  { intros e He. apply list_elem_of_In, list_elem_of_omap in He as (v & Hv & He).
    apply list_elem_of_In, In_upto in Hv. unfold h, dijkstra_edge_of in He.
    destruct (Z.eqb_spec (nth_z (prev s) v) (-1)) as [| Hpv]; [done |].
    injection He as <-. simpl.
    destruct (Hprev v Hv Hpv) as (_ & _ & w & Hin & Hd).
    by replace (nth_z (dist s) v - nth_z (dist s) (nth_z (prev s) v)) with w by lia. }
  pose proof (omap_children h xs Hh) as Hsub. fold es in Hsub.
  assert (Hfa : Forall (edge_of g) (reverse es)).
  { apply Forall_forall. intros e He. rewrite elem_of_reverse in He.
    apply list_elem_of_In in He. by apply Hes. }
  split; [by apply (stores_subgraph tree g (reverse es)) |].
  exists (reverse es). split; [done |]. split; [done |]. split.
  - change (NoDup (child <$> reverse es)). rewrite (fmap_reverse child es).
    rewrite reverse_Permutation. apply (sublist_NoDup _ xs); [| done].
    unfold xs, upto. apply (NoDup_fmap_2 Z.of_nat), NoDup_seq.
  - rewrite length_reverse. apply sublist_length in Hsub.
    rewrite length_map in Hsub. unfold xs, upto in Hsub.
    rewrite !length_map, length_seq in Hsub. lia.
Qed.

Lemma dijkstra_tree_is_subgraph_witness :
  subgraph triangle_mst triangle /\
  exists es,
    stores triangle_mst es /\ Forall (edge_of triangle) es /\
    NoDup (map child es) /\
    Z.of_nat (length es) <= numVertices triangle.
Proof.
  apply (dijkstra_tree_is_subgraph 6 triangle 0 triangle_mst);
    [reflexivity | reflexivity | reflexivity | reflexivity | by vm_compute | by vm_compute].
Defined.

Section Distances.

Variable g : Graph.
Hypothesis Hwf : well_formed g = true.
Hypothesis Hnonneg : nonneg_weights g = true.
Variable start : Z.
Hypothesis Hstart : 0 <= start < numVertices g.

Lemma walk_valid (b W : Z) : walk g start b W -> 0 <= b < numVertices g.
Proof.
  pose proof (proj1 (well_formed_spec g) Hwf) as (_ & _ & Hadj).
  intros Hw. destruct Hw as [| b c w W Hw Hin]; [done |].
  apply (Hadj b _ Hin).
Qed.

Lemma walk_nonneg (b W : Z) : walk g start b W -> 0 <= W.
Proof.
  induction 1 as [| b c w W Hw IH Hin]; [done |].
  pose proof (nonneg_weights_spec g Hnonneg b _ Hin). simpl in *. lia.
Qed.

Lemma relax_walks (u : Z) (s s' : dijkstra_state) (nb : Neighbor) :
  0 <= u < numVertices g -> In nb (adj g u) ->
  walks_ok g start (dist s) ->
  relax u s nb = Ok s' -> walks_ok g start (dist s').
Proof.
  intros Hu Hnb (Hlen & H0 & Hok) Hrun.
  pose proof (proj1 (well_formed_spec g) Hwf) as (_ & _ & Hadj).
  destruct (Hadj u nb Hnb) as [Hv _].
  pose proof (nonneg_weights_spec g Hnonneg u nb Hnb) as Hw.
  unfold relax in Hrun.
  apply bind_Ok in Hrun as (du & Hdu & Hrun). apply aget_nth_z_inv in Hdu as [_ ->].
  apply bind_Ok in Hrun as (alt & Halt & Hrun). apply int_add_Ok in Halt as [-> Hint].
  apply bind_Ok in Hrun as (dv & Hdv & Hrun). apply aget_nth_z_inv in Hdv as [_ ->].
  destruct (Z.ltb_spec (nth_z (dist s) u + weight nb) (nth_z (dist s) (vertex nb)))
    as [Hlt | _]; [| by injection Hrun as <-].
  apply bind_Ok in Hrun as (dist' & Hd' & Hrun). apply aset_Ok in Hd' as [_ ->].
  apply bind_Ok in Hrun as (prev' & _ & Hrun).
  apply bind_Ok in Hrun as (dv' & _ & Hrun).
  apply bind_Ok in Hrun as (pq & _ & [= <-]). simpl.
  split; [by rewrite length_insert |]. split.
  { rewrite nth_z_insert by lia. destruct (Z.eqb_spec start (vertex nb)) as [E |]; [rewrite <- E in Hlt |]; lia. }
  intros x Hx. rewrite nth_z_insert by lia.
  destruct (Z.eqb_spec x (vertex nb)) as [-> | _]; [| by apply Hok].
  right. destruct (Hok (vertex nb) Hv) as [Hmax | [Hfin _]];
    (split; [lia |]);
    (destruct (Hok u Hu) as [Humax | [_ Hwalk]]; [lia |]);
    apply (walk_step g start u (vertex nb) (weight nb) _ Hwalk); by rewrite neighbor_eta.
Qed.

Lemma relax_all_walks (u : Z) (nbs : list Neighbor) :
  0 <= u < numVertices g -> (forall nb, In nb nbs -> In nb (adj g u)) ->
  forall s s', walks_ok g start (dist s) ->
    foldM (relax u) nbs s = Ok s' -> walks_ok g start (dist s').
Proof.
  intros Hu. induction nbs as [| nb nbs IH]; intros Hnbs s s' Hok Hrun; simpl in Hrun.
  - by injection Hrun as <-.
  - apply bind_Ok in Hrun as (s1 & H1 & Hrun).
    apply (IH ltac:(intros; apply Hnbs; by right) s1 s'); [| done].
    apply (relax_walks u s s1 nb Hu); [apply Hnbs; by left | done | done].
Qed.

Lemma dijkstra_loop_walks (fuel : nat) :
  forall s s', walks_ok g start (dist s) ->
    dijkstra_loop fuel g s = Ok s' ->
    walks_ok g start (dist s') /\ PriorityQueue.isEmpty (dj_pq s') = true.
Proof.
  pose proof (proj1 (well_formed_spec g) Hwf) as (_ & Hlen & _).
  induction fuel as [| fuel IH]; intros s s' Hok Hrun; [done |]. simpl in Hrun.
  destruct (PriorityQueue.isEmpty (dj_pq s)) eqn:Hemp; [by injection Hrun as <- |].
  apply bind_Ok in Hrun as ([u pq] & _ & Hrun).
  apply bind_Ok in Hrun as (nbs & Hget & Hrun).
  apply bind_Ok in Hrun as (s1 & H1 & Hrun).
  apply (getNeighbors_Ok_inv g u nbs Hlen) in Hget as [Hu ->].
  apply (IH s1 s'); [| done].
  by refine (relax_all_walks u (adj g u) Hu ltac:(done) _ s1 _ H1).
Qed.

Lemma dijkstra_search_walks (fuel : nat) (s : dijkstra_state) :
  dijkstra_search fuel g start = Ok s ->
  walks_ok g start (dist s) /\ PriorityQueue.isEmpty (dj_pq s) = true.
Proof.
  pose proof (proj1 (well_formed_spec g) Hwf) as (Hn & _ & _).
  intros Hrun. unfold dijkstra_search, getVertexCount in Hrun.
  rewrite !new_array_Ok in Hrun by lia. cbn [bind] in Hrun.
  rewrite aset_in in Hrun by (rewrite length_replicate; lia). cbn [bind] in Hrun.
  apply bind_Ok in Hrun as (pq0 & _ & Hrun).
  apply bind_Ok in Hrun as (pq1 & _ & Hrun).
  refine (dijkstra_loop_walks fuel _ s _ Hrun). simpl.
  split; [rewrite length_insert, length_replicate; lia |]. split.
  { rewrite nth_z_insert, Z.eqb_refl by (rewrite ?length_replicate; lia). done. }
  intros v Hv. rewrite nth_z_insert by (rewrite ?length_replicate; lia).
  destruct (Z.eqb_spec v start) as [-> | _].
  - right. split; [by unfold INT_MAX |]. apply walk_here.
  - left. by apply nth_z_replicate.
Qed.

End Distances.

Lemma search_distances (fuel : nat) (g : Graph) (start : Z) (s : dijkstra_state) :
  well_formed g = true -> nonneg_weights g = true ->
  valid_vertex g start = true ->
  dijkstra_search fuel g start = Ok s ->
  Z.of_nat (length (dist s)) = numVertices g /\
  nth_z (dist s) start = 0 /\
  (forall v, 0 <= v < numVertices g -> nth_z (dist s) v <= INT_MAX) /\
  (forall v W, walk g start v W -> nth_z (dist s) v <= W) /\
  (forall v, 0 <= v < numVertices g -> nth_z (dist s) v < INT_MAX ->
     walk g start v (nth_z (dist s) v)).
Proof.
  intros Hwf Hnonneg Hs Hrun.
  pose proof (proj1 (valid_vertex_spec g start) Hs) as Hstart.
  pose proof (proj1 (well_formed_spec g) Hwf) as (_ & _ & Hadj).
  destruct (dijkstra_search_walks g Hwf Hnonneg start Hstart fuel s Hrun)
    as [(Hlen & Hstart0 & Hwalks) Hemp].
  destruct (dijkstra_search_inv g Hwf Hnonneg fuel start s Hs Hrun)
    as (f & _ & _ & _ & Hpending).
  assert (Hcont : contents (dj_pq s) = []).
  { unfold PriorityQueue.isEmpty in Hemp. apply Z.eqb_eq in Hemp.
    unfold contents. by rewrite Hemp. }
  assert (Hle : forall v, 0 <= v < numVertices g -> nth_z (dist s) v <= INT_MAX).
  { intros v Hv. destruct (Hwalks v Hv) as [-> | [? _]]; lia. }
  assert (Hrelaxed : forall v, 0 <= v < numVertices g ->
            nth_z (dist s) v < INT_MAX -> relaxed g (dist s) v).
  { intros v Hv Hfin. destruct (Hpending v Hv) as [Hin | [Hr | Hmax]]; [| done | lia].
    rewrite Hcont in Hin. done. }
  assert (Hleast : forall v W, walk g start v W -> nth_z (dist s) v <= W).
  { intros v W Hw. induction Hw as [| b c w W Hw IH Hin]; [done |].
    pose proof (walk_valid g Hwf start Hstart b W Hw) as Hb.
    destruct (Hadj b _ Hin) as [Hc _]. simpl in Hc.
    pose proof (nonneg_weights_spec g Hnonneg b _ Hin) as Hw0. simpl in Hw0.
    destruct (Z.lt_ge_cases (nth_z (dist s) b) INT_MAX) as [Hfin | Hinf].
    - pose proof (Hrelaxed b Hb Hfin _ Hin) as Hr. simpl in Hr. lia.
    - pose proof (Hle c Hc). lia. }
  split; [done |]. split.
  { destruct (Hwalks start Hstart) as [Hmax | [_ Hw]]; [unfold INT_MAX in Hmax; lia |].
    pose proof (walk_nonneg g Hnonneg start _ _ Hw). lia. }
  split; [done |]. split; [done |].
  intros v Hv Hfin. destruct (Hwalks v Hv) as [Hmax | [_ Hw]]; [lia | done].
Qed.

(** X9.  On a well-formed graph with non-negative weights and a valid start,
    whenever the search of dijkstra finishes and no sum [dist[u] + w] of the
    run leaves the range of int, its distance array holds least distances:
    dist[start] is 0; dist[v] is at most the weight of every walk from start
    to v and at most INT_MAX; and a dist[v] below INT_MAX is the weight of
    some walk from start to v. *)
Theorem dijkstra_distances_are_least (fuel : nat) (g : Graph) (start : Z)
    (s : dijkstra_state) :
  well_formed g = true -> nonneg_weights g = true ->
  valid_vertex g start = true ->
  dijkstra_search_wrap fuel g start = Ok s -> search_sums_fit fuel g start ->
  nth_z (dist s) start = 0 /\
  forall v, 0 <= v < numVertices g ->
    aget (dist s) v = Ok (nth_z (dist s) v) /\
    nth_z (dist s) v <= INT_MAX /\
    (forall W, walk g start v W -> nth_z (dist s) v <= W) /\
    (nth_z (dist s) v < INT_MAX -> walk g start v (nth_z (dist s) v)).
Proof.
  intros Hwf Hnonneg Hs Hwrap Hfit.
  pose proof (dijkstra_search_wrap_checked fuel g start s Hwrap Hfit) as Hrun.
  destruct (search_distances fuel g start s Hwf Hnonneg Hs Hrun)
    as (Hlen & H0 & Hle & Hleast & Hwalk).
  split; [done |]. intros v Hv.
  split; [apply aget_nth_z; lia |]. split; [by apply Hle |].
  split; [by apply Hleast | by apply Hwalk].
Qed.

Lemma dijkstra_distances_are_least_witness :
  exists s,
    dijkstra_search_wrap 6 triangle 0 = Ok s /\
    nth_z (dist s) 0 = 0 /\ nth_z (dist s) 2 = 3 /\
    (forall W, walk triangle 0 2 W -> 3 <= W) /\ walk triangle 0 2 3.
Proof.
  destruct (dijkstra_search_wrap 6 triangle 0) as [s | e | f |] eqn:Hrun;
    [| by vm_compute in Hrun ..].
  assert (Hd : nth_z (dist s) 2 = 3).
  { vm_compute in Hrun. injection Hrun as <-. reflexivity. }
  exists s. split; [reflexivity |].
  destruct (dijkstra_distances_are_least 6 triangle 0 s eq_refl eq_refl eq_refl Hrun
              ltac:(by vm_compute))
    as [H0 Hall].
  destruct (Hall 2 ltac:(simpl; lia)) as (_ & _ & Hleast & Hwalk).
  rewrite Hd in Hleast, Hwalk.
  split; [exact H0 |]. split; [exact Hd |].
  split; [exact Hleast | apply Hwalk; reflexivity].
Defined.

(** ** kruskal: the exchange sort *)

Lemma aswap_insert {A : Type} (a : list A) (i j : Z) (x y : A) :
  0 <= i -> 0 <= j ->
  a !! Z.to_nat i = Some x -> a !! Z.to_nat j = Some y ->
  aswap a i j = Ok (<[Z.to_nat j := x]> (<[Z.to_nat i := y]> a)) /\
  forall n : nat, (Z.to_nat i < n)%nat -> (Z.to_nat j < n)%nat ->
    take n (<[Z.to_nat j := x]> (<[Z.to_nat i := y]> a)) ≡ₚ take n a.
Proof.
  intros Hi Hj Hx Hy.
  pose proof (lookup_lt_Some _ _ _ Hx) as Hli. pose proof (lookup_lt_Some _ _ _ Hy) as Hlj.
  split.
  - unfold aswap.
    rewrite (proj2 (aget_Ok a i x)), (proj2 (aget_Ok a j y)) by (split; [lia | done]).
    simpl. rewrite aset_in by lia. simpl.
    by rewrite aset_in by (rewrite length_insert; lia).
  - intros n Hin Hjn. rewrite !take_insert_lt by done.
    apply Permutation_insert_swap; by rewrite lookup_take_lt.
Qed.

Lemma ew_at_lookup (es : list Edge) (k : Z) (e : Edge) :
  es !! Z.to_nat k = Some e -> ew_at es k = ew e.
Proof. intros H. unfold ew_at. by rewrite H. Qed.

Lemma sort_step_ok (i j cnt : Z) (es : list Edge) :
  0 <= i < j -> j < cnt <= Z.of_nat (length es) ->
  exists es',
    sort_step i es j = Ok es' /\ length es' = length es /\
    take (Z.to_nat cnt) es' ≡ₚ take (Z.to_nat cnt) es /\
    (forall k, 0 <= k -> k <> i -> k <> j -> es' !! Z.to_nat k = es !! Z.to_nat k) /\
    ew_at es' i <= ew_at es' j /\
    ((ew_at es' i = ew_at es i /\ ew_at es' j = ew_at es j) \/
     (ew_at es' i = ew_at es j /\ ew_at es' j = ew_at es i)).
Proof.
  intros Hi Hj.
  destruct (lookup_lt_is_Some_2 es (Z.to_nat i)) as [x Hx]; [lia |].
  destruct (lookup_lt_is_Some_2 es (Z.to_nat j)) as [y Hy]; [lia |].
  unfold sort_step.
  rewrite (proj2 (aget_Ok es j y)), (proj2 (aget_Ok es i x)) by (split; [lia | done]).
  cbn [bind]. rewrite (ew_at_lookup es i x Hx), (ew_at_lookup es j y Hy).
  destruct (Z.ltb_spec (ew y) (ew x)) as [Hlt | Hge].
  - destruct (aswap_insert es i j x y ltac:(lia) ltac:(lia) Hx Hy) as [Hsw Hperm].
    rewrite Hsw. eexists. split; [done |]. split; [by rewrite !length_insert |].
    split; [apply Hperm; lia |].
    assert (Hi' : ew_at (<[Z.to_nat j := x]> (<[Z.to_nat i := y]> es)) i = ew y).
    { apply ew_at_lookup. rewrite list_lookup_insert_ne by lia.
      apply list_lookup_insert_eq. lia. }
    assert (Hj' : ew_at (<[Z.to_nat j := x]> (<[Z.to_nat i := y]> es)) j = ew x).
    { apply ew_at_lookup. apply list_lookup_insert_eq. rewrite length_insert. lia. }
    rewrite Hi', Hj'. split; [| split; [lia | by right]].
    intros k Hk Hki Hkj. by rewrite !list_lookup_insert_ne by lia.
  - exists es. rewrite (ew_at_lookup es i x Hx), (ew_at_lookup es j y Hy).
    repeat split; try done. by left.
Qed.

Lemma sort_pass_loop (i cnt : Z) (js : list Z) :
  forall (seen : list Z) (es : list Edge),
    0 <= i -> cnt <= Z.of_nat (length es) ->
    (forall j, In j js -> i < j < cnt) ->
    (forall k, In k seen -> 0 <= k /\ ew_at es i <= ew_at es k) ->
    exists es',
      foldM (sort_step i) js es = Ok es' /\ length es' = length es /\
      take (Z.to_nat cnt) es' ≡ₚ take (Z.to_nat cnt) es /\
      (forall k, 0 <= k -> k < i \/ cnt <= k -> es' !! Z.to_nat k = es !! Z.to_nat k) /\
      (forall k, In k (seen ++ js) -> ew_at es' i <= ew_at es' k) /\
      (forall m, (forall k, i <= k < cnt -> m <= ew_at es k) ->
                 forall k, i <= k < cnt -> m <= ew_at es' k).
Proof.
  induction js as [| j js IH]; intros seen es Hi Hcnt Hjs Hseen.
  - exists es. simpl. rewrite app_nil_r. repeat split; try done. intros k Hk. by apply Hseen.
  - destruct (Hjs j ltac:(by left)) as [Hij Hjc].
    destruct (sort_step_ok i j cnt es ltac:(lia) ltac:(lia))
      as (es1 & H1 & Hlen1 & Hperm1 & Hsame1 & Hle1 & Hcases).
    destruct (IH (seen ++ [j]) es1 Hi ltac:(lia) ltac:(intros; apply Hjs; by right))
      as (es' & Hrun & Hlen' & Hperm' & Hsame' & Hle' & Hlow').
    { intros k Hk. apply in_app_or in Hk as [Hk | [<- | []]]; [| lia].
      destruct (Hseen k Hk) as [Hk0 Hik]. split; [done |].
      destruct (decide (k = i)) as [-> | Hki]; [lia |].
      destruct (decide (k = j)) as [-> | Hkj]; [done |].
      unfold ew_at at 2. rewrite Hsame1 by done. fold (ew_at es k). lia. }
    exists es'. simpl. rewrite H1. cbn [bind].
    split; [done |]. split; [congruence |]. split; [by rewrite Hperm' |].
    split; [| split].
    + intros k Hk Hout. rewrite Hsame' by done. apply Hsame1; lia.
    + intros k Hk. apply Hle'. rewrite <- app_assoc. done.
    + intros m Hm. apply Hlow'. intros k Hk.
      destruct (decide (k = i)) as [-> | Hki]; [destruct Hcases as [[-> _] | [-> _]]; apply Hm; lia |].
      destruct (decide (k = j)) as [-> | Hkj]; [destruct Hcases as [[_ ->] | [_ ->]]; apply Hm; lia |].
      unfold ew_at. rewrite Hsame1 by lia. by apply Hm.
Qed.

Lemma sort_outer_loop (cnt : Z) (m : nat) :
  forall (a : nat) (es : list Edge),
    Z.of_nat a + Z.of_nat m = cnt -> cnt <= Z.of_nat (length es) ->
    sorted_upto cnt (Z.of_nat a) es ->
    exists es',
      foldM (sort_pass cnt) (map Z.of_nat (seq a m)) es = Ok es' /\
      length es' = length es /\
      take (Z.to_nat cnt) es' ≡ₚ take (Z.to_nat cnt) es /\
      (forall k, cnt <= k -> es' !! Z.to_nat k = es !! Z.to_nat k) /\
      sorted_upto cnt cnt es'.
Proof.
  induction m as [| m IH]; intros a es Ham Hcnt Hsorted.
  - exists es. simpl. repeat split; try done. intros k l Hk Hl. apply Hsorted; lia.
  - set (i := Z.of_nat a).
    destruct (sort_pass_loop i cnt (map (Z.add (i + 1)) (upto (cnt - (i + 1)))) [] es)
      as (es1 & H1 & Hlen1 & Hperm1 & Hsame1 & Hle1 & Hlow1); [lia | done | | done |].
    { intros j Hj. apply in_map_iff in Hj as (x & <- & Hx). apply In_upto in Hx. lia. }
    destruct (IH (S a) es1) as (es' & Hrun & Hlen' & Hperm' & Hsame' & Hsorted');
      [lia | lia | |].
    { intros k l Hk Hl. destruct (decide (k = i)) as [-> | Hki].
      - destruct (decide (l = i)) as [-> | Hli]; [done |].
        apply Hle1. simpl. apply in_map_iff. exists (l - (i + 1)).
        split; [lia |]. apply In_upto. lia.
      - assert (Hk' : 0 <= k < i) by lia.
        assert (Hek : ew_at es1 k = ew_at es k) by (unfold ew_at; rewrite Hsame1 by lia; done).
        rewrite Hek. destruct (Z.lt_ge_cases l i) as [Hli | Hli].
        + unfold ew_at at 2. rewrite Hsame1 by lia. by apply Hsorted.
        + apply Hlow1; [| lia]. intros x Hx. apply Hsorted; lia. }
    exists es'. simpl. unfold sort_pass at 1. fold i. rewrite H1. cbn [bind].
    split; [done |]. split; [congruence |]. split; [by rewrite Hperm' |].
    split; [| done]. intros k Hk. rewrite Hsame' by done. apply Hsame1; lia.
Qed.

Lemma sorted_by_index {A : Type} (R : A -> A -> Prop) (l : list A) :
  (forall (i j : nat) a b, (i < j)%nat -> l !! i = Some a -> l !! j = Some b -> R a b) ->
  StronglySorted R l.
Proof.
  induction l as [| x l IH]; intros H; constructor.
  - apply IH. intros i j a b Hij Ha Hb. by apply (H (S i) (S j)); [lia | |].
  - apply List.Forall_forall. intros y Hy. apply list_elem_of_In in Hy.
    apply list_elem_of_lookup_1 in Hy as [j Hj]. by apply (H 0%nat (S j)); [lia | |].
Qed.

(** X10.  The exchange sort of kruskal, run on an edge array whose fill
    count is within the array, never leaves the array: it returns an array
    of the same length whose filled part is a permutation of the gathered
    edges in non-decreasing order of weight, and whose other slots are
    untouched. *)
Theorem sort_edges_sorts (b : edge_buf) :
  0 <= edgeCount b <= Z.of_nat (length (edges b)) ->
  exists es',
    sort_edges b = Ok es' /\ length es' = length (edges b) /\
    take (Z.to_nat (edgeCount b)) es' ≡ₚ gathered b /\
    StronglySorted weight_le (take (Z.to_nat (edgeCount b)) es') /\
    drop (Z.to_nat (edgeCount b)) es' = drop (Z.to_nat (edgeCount b)) (edges b).
Proof.
  intros Hcnt. set (cnt := edgeCount b) in *.
  destruct (sort_outer_loop cnt (Z.to_nat cnt) 0 (edges b))
    as (es' & Hrun & Hlen & Hperm & Hsame & Hsorted); [lia | lia | |].
  { intros k l Hk. lia. }
  exists es'. split; [done |]. split; [done |]. split; [done |]. split.
  - apply sorted_by_index. intros i j x y Hij Hx Hy.
    pose proof (lookup_lt_Some _ _ _ Hy) as Hj. rewrite length_take in Hj.
    rewrite lookup_take_lt in Hx, Hy by lia.
    pose proof (Hsorted (Z.of_nat i) (Z.of_nat j) ltac:(lia) ltac:(lia)) as Hle.
    unfold ew_at in Hle. rewrite !Nat2Z.id, Hx, Hy in Hle. done.
  - apply list_eq. intros k. rewrite !lookup_drop.
    pose proof (Hsame (Z.of_nat (Z.to_nat cnt + k)) ltac:(lia)) as Hk.
    by rewrite Nat2Z.id in Hk.
Qed.

Lemma sort_edges_sorts_witness :
  exists es',
    sort_edges (mkBuf [mkEdge 5 0 2; mkEdge 1 0 1; mkEdge 2 1 2; mkEdge 0 0 0] 3)
      = Ok es' /\
    StronglySorted weight_le (take 3 es') /\ drop 3 es' = [mkEdge 0 0 0].
Proof.
  destruct (sort_edges_sorts
              (mkBuf [mkEdge 5 0 2; mkEdge 1 0 1; mkEdge 2 1 2; mkEdge 0 0 0] 3))
    as (es' & Hrun & _ & _ & Hsorted & Hrest); [simpl; lia |].
  exists es'. split; [exact Hrun |]. split; [exact Hsorted | exact Hrest].
Defined.

(** ** UnionFind: representatives *)

Lemma root_path_det (p : list Z) (i r r' : Z) (k k' : nat) :
  root_path p i r k -> root_path p i r' k' -> r = r' /\ k = k'.
Proof.
  intros H. revert r' k'. induction H as [r Hr Hroot | i r k Hi Hne H IH]; intros r' k' H'.
  - inversion H'; subst; [done | congruence].
  - inversion H' as [| ? ? k0 ? ? H0]; subst; [congruence |].
    destruct (IH _ _ H0) as [-> ->]. done.
Qed.

Lemma root_path_range (p : list Z) (i r : Z) (k : nat) :
  root_path p i r k ->
  0 <= i < Z.of_nat (length p) /\ 0 <= r < Z.of_nat (length p) /\ nth_z p r = r.
Proof. induction 1 as [r Hr Hroot | i r k Hi Hne H IH]; [done | tauto]. Qed.

Lemma path_nodes_in (p : list Z) (i r : Z) (k : nat) :
  root_path p i r k ->
  forall x, In x (path_nodes p i k) -> exists k', (k' <= k)%nat /\ root_path p x r k'.
Proof.
  induction 1 as [r Hr Hroot | i r k Hi Hne H IH]; intros x Hx; simpl in Hx.
  - destruct Hx as [<- | []]. exists 0%nat. split; [lia |]. by constructor.
  - destruct Hx as [<- | Hx].
    + exists (S k). split; [lia |]. by constructor.
    + destruct (IH x Hx) as (k' & Hk' & Hp). exists k'. split; [lia | done].
Qed.

Lemma path_nodes_NoDup (p : list Z) (i r : Z) (k : nat) :
  root_path p i r k -> NoDup (path_nodes p i k).
Proof.
  induction 1 as [r Hr Hroot | i r k Hi Hne H IH]; simpl.
  - apply NoDup_singleton.
  - apply NoDup_cons. split; [| done]. intros Hin. apply list_elem_of_In in Hin.
    destruct (path_nodes_in p _ r k H i Hin) as (k' & Hk' & Hp).
    destruct (root_path_det p i r r k' (S k) Hp ltac:(by constructor)) as [_ Heq]. lia.
Qed.

Lemma length_path_nodes (p : list Z) (i : Z) (k : nat) :
  length (path_nodes p i k) = S k.
Proof. revert i. induction k as [| k IH]; intros i; simpl; [done |]. by rewrite IH. Qed.

(** A path to a root visits no element twice, so it is shorter than the
    array. *)
Lemma root_path_short (p : list Z) (i r : Z) (k : nat) :
  root_path p i r k -> (k < length p)%nat.
Proof.
  intros H.
  pose proof (NoDup_bounded_length (path_nodes p i k) (Z.of_nat (length p)) ltac:(lia)
                (path_nodes_NoDup p i r k H)) as Hb.
  rewrite length_path_nodes in Hb. enough (Z.of_nat (S k) <= Z.of_nat (length p)) by lia.
  apply Hb. intros x Hx. destruct (path_nodes_in p i r k H x Hx) as (k' & _ & Hp).
  by apply root_path_range in Hp as [? _].
Qed.

(** Path compression: pointing [a] at its root changes no representative. *)
Lemma compress_keeps_roots (p : list Z) (a r : Z) (k : nat) :
  root_path p a r k -> a <> r ->
  forall i r' k', root_path p i r' k' ->
    exists k'', root_path (<[Z.to_nat a := r]> p) i r' k''.
Proof.
  intros Ha Hne i r' k' H.
  pose proof (root_path_range _ _ _ _ Ha) as (Har & Hrr & Hroot).
  induction H as [r' Hr' Hroot' | i r' k' Hi Hnei H IH].
  - exists 0%nat. constructor; [by rewrite length_insert |].
    rewrite nth_z_insert by lia. destruct (Z.eqb_spec r' a) as [-> | _]; [| done].
    inversion Ha; subst; congruence.
  - destruct IH as [k'' IH]. destruct (decide (i = a)) as [-> | Hia].
    + destruct (root_path_det p a r r' k (S k') Ha ltac:(by constructor)) as [<- _].
      exists 1%nat. constructor; [by rewrite length_insert | |];
        rewrite nth_z_insert, Z.eqb_refl by lia; [done |].
      constructor; [by rewrite length_insert |].
      rewrite nth_z_insert by lia. destruct (Z.eqb_spec r a); [lia | done].
    + exists (S k''). constructor; [by rewrite length_insert | |];
        rewrite nth_z_insert by lia; destruct (Z.eqb_spec i a); try lia; done.
Qed.

(** Linking the root [x] under the root [y] moves the elements of [x] to
    [y] and leaves every other representative alone. *)
Lemma link_moves_roots (p : list Z) (x y : Z) :
  0 <= x < Z.of_nat (length p) -> 0 <= y < Z.of_nat (length p) ->
  nth_z p x = x -> nth_z p y = y -> x <> y ->
  forall i r k, root_path p i r k ->
    exists k', root_path (<[Z.to_nat x := y]> p) i (if r =? x then y else r) k'.
Proof.
  intros Hx Hy Hrx Hry Hxy i r k H.
  assert (Hyroot : root_path (<[Z.to_nat x := y]> p) y y 0).
  { constructor; [by rewrite length_insert |]. rewrite nth_z_insert by lia.
    destruct (Z.eqb_spec y x); [lia | done]. }
  induction H as [r Hr Hroot | i r k Hi Hne H IH].
  - destruct (Z.eqb_spec r x) as [-> | Hrx'].
    + exists 1%nat. constructor; [by rewrite length_insert | |];
        rewrite nth_z_insert, Z.eqb_refl by lia; [lia | done].
    + exists 0%nat. constructor; [by rewrite length_insert |].
      rewrite nth_z_insert by lia. destruct (Z.eqb_spec r x); [lia | done].
  - destruct IH as [k' IH]. assert (Hix : i <> x) by congruence.
    exists (S k'). constructor; [by rewrite length_insert | |];
      rewrite nth_z_insert by lia; destruct (Z.eqb_spec i x); try lia; done.
Qed.

Lemma find_rec_ok (u : UnionFind.t) (a r : Z) (k : nat) :
  root_path (UnionFind.parent u) a r k ->
  forall fuel : nat, (k < fuel)%nat ->
    exists p',
      UnionFind.find_rec fuel u a
        = Ok (r, UnionFind.mk p' (UnionFind.rank u) (UnionFind.size u)) /\
      length p' = length (UnionFind.parent u) /\
      nth_z p' a = r /\
      forall i r' k', root_path (UnionFind.parent u) i r' k' ->
        exists k'', root_path p' i r' k''.
Proof.
  induction 1 as [r Hr Hroot | i r k Hi Hne H IH]; intros fuel Hfuel;
    (destruct fuel as [| fuel]; [lia |]); simpl.
  - rewrite aget_nth_z by lia. cbn [bind]. rewrite Hroot, Z.eqb_refl. cbn [negb].
    exists (UnionFind.parent u). destruct u. split; [done |]. split; [done |].
    split; [done |]. eauto.
  - rewrite aget_nth_z by lia. cbn [bind].
    destruct (Z.eqb_spec (nth_z (UnionFind.parent u) i) i) as [| _]; [done |]. cbn [negb].
    destruct (IH fuel ltac:(lia)) as (p1 & Hrec & Hlen1 & _ & Hkeep1).
    rewrite Hrec. cbn [bind UnionFind.parent UnionFind.rank UnionFind.size].
    rewrite aset_in by lia. cbn [bind].
    rewrite aget_nth_z by (rewrite length_insert; lia). cbn [bind].
    rewrite nth_z_insert, Z.eqb_refl by lia.
    exists (<[Z.to_nat i := r]> p1). split; [done |].
    split; [by rewrite length_insert |].
    split; [by rewrite nth_z_insert, Z.eqb_refl by lia |].
    intros j r' k' Hj. destruct (Hkeep1 j r' k' Hj) as [k1 Hj1].
    destruct (Hkeep1 i r (S k) ltac:(by constructor)) as [ki Hi1].
    apply (compress_keeps_roots p1 i r ki Hi1) with (k' := k1); [| done].
    apply root_path_range in H as (_ & _ & Hrr). congruence.
Qed.

Lemma rep_det (u : UnionFind.t) (i r r' : Z) : rep u i r -> rep u i r' -> r = r'.
Proof. intros [k H] [k' H']. by destruct (root_path_det _ _ _ _ _ _ H H'). Qed.

Lemma rep_range (u : UnionFind.t) (i r : Z) :
  rep u i r ->
  0 <= i < Z.of_nat (length (UnionFind.parent u)) /\
  0 <= r < Z.of_nat (length (UnionFind.parent u)) /\
  nth_z (UnionFind.parent u) r = r.
Proof. intros [k H]. by apply root_path_range in H. Qed.

Lemma rep_root (u : UnionFind.t) (i r : Z) : rep u i r -> rep u r r.
Proof.
  intros H. apply rep_range in H as (_ & Hr & Hroot). exists 0%nat. by constructor.
Qed.

(** find returns the representative and keeps every representative. *)
Lemma find_spec (bound : Z) (u : UnionFind.t) (a : Z) :
  uf_inv bound u -> 0 <= a < UnionFind.size u ->
  exists r p',
    UnionFind.find u a = Ok (r, UnionFind.mk p' (UnionFind.rank u) (UnionFind.size u)) /\
    rep u a r /\ nth_z p' a = r /\
    uf_inv bound (UnionFind.mk p' (UnionFind.rank u) (UnionFind.size u)) /\
    forall i r', rep u i r' <->
                 rep (UnionFind.mk p' (UnionFind.rank u) (UnionFind.size u)) i r'.
Proof.
  intros (Hsz & Hlp & Hlr & Hreps & Hranks) Ha.
  destruct (Hreps a Ha) as (r & k & Hpath).
  pose proof (root_path_short _ _ _ _ Hpath) as Hk.
  destruct (find_rec_ok u a r k Hpath (S (Z.to_nat (UnionFind.size u))) ltac:(lia))
    as (p' & Hfind & Hlen & Hdirect & Hkeep).
  exists r, p'. split; [done |]. split; [by exists k |]. split; [done |].
  assert (Hfwd : forall i r', rep u i r' ->
            rep (UnionFind.mk p' (UnionFind.rank u) (UnionFind.size u)) i r').
  { intros i r' [k' H']. unfold rep. simpl. by apply (Hkeep i r' k'). }
  split.
  - unfold uf_inv. simpl. split; [done |]. split; [lia |]. split; [done |].
    split; [| done]. intros i Hi. destruct (Hreps i Hi) as [ri Hri]. exists ri. by apply Hfwd.
  - intros i r'. split; [apply Hfwd |]. intros H'.
    pose proof (rep_range _ _ _ H') as (Hi & _). simpl in Hi.
    destruct (Hreps i ltac:(lia)) as [ri Hri].
    by rewrite (rep_det _ _ _ _ H' (Hfwd _ _ Hri)).
Qed.

Lemma same_set_keep (u u' : UnionFind.t) :
  (forall i r, rep u i r <-> rep u' i r) ->
  forall i j, same_set u i j <-> same_set u' i j.
Proof.
  intros H i j. unfold same_set. split; intros (r & Hi & Hj); exists r; split; by apply H.
Qed.

(** X11.  On a UnionFind that satisfies its invariant, find(a) for an
    element in range returns the representative of a: the root that the
    parent links lead to.  It leaves a pointing at that root, changes no
    element's representative, and a second find(a) returns the same root
    and changes nothing.  For an element out of range find reads outside
    its array. *)
Theorem find_returns_representative (bound : Z) (u : UnionFind.t) (a : Z) :
  uf_inv bound u ->
  (0 <= a < UnionFind.size u ->
   exists r u',
     UnionFind.find u a = Ok (r, u') /\ rep u a r /\
     uf_inv bound u' /\
     (forall i r', rep u i r' <-> rep u' i r') /\
     nth_z (UnionFind.parent u') a = r /\
     UnionFind.find u' a = Ok (r, u')) /\
  (~ (0 <= a < UnionFind.size u) -> UnionFind.find u a = Fault OutOfBoundsAccess).
Proof.
  intros Hinv. split.
  - intros Ha.
    destruct (find_spec bound u a Hinv Ha) as (r & p' & Hfind & Hrep & Hdirect & Hinv' & Hkeep).
    set (u' := UnionFind.mk p' (UnionFind.rank u) (UnionFind.size u)) in *.
    exists r, u'. split; [done |]. split; [done |]. split; [done |].
    split; [done |]. split; [done |].
    pose proof (proj1 (Hkeep a r) Hrep) as Hrep'.
    pose proof (rep_range _ _ _ Hrep') as (Har & Hrr & Hroot).
    unfold u' in Har, Hrr, Hroot. simpl in Har, Hrr, Hroot.
    destruct Hinv' as (_ & Hlp' & _). simpl in Hlp'.
    unfold UnionFind.find. cbn [UnionFind.size u'].
    destruct (Z.to_nat (UnionFind.size u)) as [| n] eqn:Hn; [lia |].
    cbn [UnionFind.find_rec UnionFind.parent u'].
    rewrite aget_nth_z by lia. cbn [bind]. rewrite Hdirect.
    destruct (Z.eqb_spec r a) as [-> | Hne]; [done |]. cbn [negb].
    destruct n as [| n]; [lia |]. cbn [UnionFind.find_rec UnionFind.parent].
    rewrite aget_nth_z by lia. cbn [bind]. rewrite Hroot, Z.eqb_refl.
    cbn [negb bind]. unfold u'. cbn [UnionFind.parent UnionFind.rank UnionFind.size].
    rewrite aset_in by lia. cbn [bind].
    rewrite aget_nth_z by (rewrite length_insert; lia). cbn [bind].
    rewrite nth_z_insert, Z.eqb_refl by lia.
    rewrite list_insert_id; [done |].
    destruct (lookup_lt_is_Some_2 p' (Z.to_nat a)) as [x Hx]; [lia |].
    unfold nth_z in Hdirect. rewrite Hx in Hdirect. simpl in Hdirect. by subst.
  - intros Ha. destruct Hinv as (Hsz & Hlp & _).
    unfold UnionFind.find. cbn [UnionFind.find_rec].
    unfold aget, in_bounds. rewrite Hlp.
    destruct (Z.leb_spec 0 a), (Z.ltb_spec a (UnionFind.size u)); try done; lia.
Qed.

Lemma nth_z_In (l : list Z) (i : Z) :
  0 <= i < Z.of_nat (length l) -> In (nth_z l i) l.
Proof.
  intros Hi. destruct (lookup_lt_is_Some_2 l (Z.to_nat i)) as [x Hx]; [lia |].
  unfold nth_z. rewrite Hx. simpl. apply list_elem_of_In. by eapply list_elem_of_lookup_2.
Qed.

Lemma root_at_path (p : list Z) (k : nat) :
  (forall x, In x p -> 0 <= x < Z.of_nat (length p)) ->
  forall i, 0 <= i < Z.of_nat (length p) ->
    nth_z p (root_at p k i) = root_at p k i ->
    exists r k', root_path p i r k'.
Proof.
  intros Hp. induction k as [| k IH]; intros i Hi Hroot; simpl in Hroot.
  - exists i, 0%nat. by constructor.
  - destruct (decide (nth_z p i = i)) as [Heq | Hne].
    + exists i, 0%nat. by constructor.
    + destruct (IH (nth_z p i)) as (r & k' & Hpath); [by apply Hp, nth_z_In | done |].
      exists r, (S k'). by constructor.
Qed.

Lemma uf_ok_inv (bound : Z) (u : UnionFind.t) : uf_ok bound u = true -> uf_inv bound u.
Proof.
  unfold uf_ok. rewrite !andb_true_iff, !forallb_forall, !Z.eqb_eq, Z.leb_le.
  intros (((((Hsz & Hlp) & Hlr) & Hpar) & Hroots) & Hranks).
  assert (Hpar' : forall x, In x (UnionFind.parent u) ->
            0 <= x < Z.of_nat (length (UnionFind.parent u))).
  { intros x Hx. apply Hpar in Hx. apply andb_true_iff in Hx as [Hx1 Hx2].
    apply Z.leb_le in Hx1. apply Z.ltb_lt in Hx2. lia. }
  split; [done |]. split; [done |]. split; [done |]. split.
  - intros i Hi.
    destruct (root_at_path _ (Z.to_nat (UnionFind.size u)) Hpar' i ltac:(lia))
      as (r & k & Hpath).
    + apply Z.eqb_eq. apply Hroots. by apply In_upto.
    + by exists r, k.
  - intros i Hi. pose proof (Hranks _ (nth_z_In (UnionFind.rank u) i ltac:(lia))) as Hr.
    apply andb_true_iff in Hr as [Hr1 Hr2]. apply Z.leb_le in Hr1, Hr2. lia.
Qed.

Lemma find_returns_representative_witness :
  exists u',
    UnionFind.find (UnionFind.mk [1; 2; 2; 3] [0; 1; 2; 0] 4) 0 = Ok (2, u') /\
    UnionFind.parent u' = [2; 2; 2; 3] /\
    UnionFind.find u' 0 = Ok (2, u') /\
    UnionFind.find (UnionFind.mk [1; 2; 2; 3] [0; 1; 2; 0] 4) 4 = Fault OutOfBoundsAccess.
Proof.
  destruct (find_returns_representative 2 (UnionFind.mk [1; 2; 2; 3] [0; 1; 2; 0] 4) 0)
    as [Hin _]; [by apply uf_ok_inv |].
  destruct (find_returns_representative 2 (UnionFind.mk [1; 2; 2; 3] [0; 1; 2; 0] 4) 4)
    as [_ Hout]; [by apply uf_ok_inv |].
  destruct (Hin ltac:(simpl; lia)) as (r & u' & Hfind & _ & _ & _ & _ & Hagain).
  assert (Hr : r = 2 /\ UnionFind.parent u' = [2; 2; 2; 3]).
  { vm_compute in Hfind. injection Hfind as <- <-. done. }
  destruct Hr as [-> Hp]. exists u'. split; [exact Hfind |]. split; [exact Hp |].
  split; [exact Hagain | apply Hout; simpl; lia].
Defined.

(** ** UnionFind: unite *)

(** unite links the root of one argument under the root of the other (or
    does nothing when they share a root): every element whose root was [x]
    gets [y], every other representative stays. *)
Lemma unite_spec (bound : Z) (u : UnionFind.t) (a b : Z) :
  uf_inv bound u -> 0 <= a < UnionFind.size u -> 0 <= b < UnionFind.size u ->
  exists ra rb x y u',
    UnionFind.unite u a b = Ok u' /\
    rep u a ra /\ rep u b rb /\
    ((x = ra /\ y = rb) \/ (x = rb /\ y = ra)) /\
    uf_inv (bound + 1) u' /\ UnionFind.size u' = UnionFind.size u /\
    forall i r, rep u i r -> rep u' i (if r =? x then y else r).
Proof.
  intros Hinv Ha Hb.
  destruct (find_spec bound u a Hinv Ha) as (ra & p1 & Hfind1 & Hra & _ & Hinv1 & Hkeep1).
  destruct (find_spec bound _ b Hinv1 Hb) as (rb & p2 & Hfind2 & Hrb1 & _ & Hinv2 & Hkeep2).
  cbn [UnionFind.rank UnionFind.size] in Hfind2, Hinv2, Hkeep2.
  assert (Hkeep : forall i r,
            rep u i r <-> rep (UnionFind.mk p2 (UnionFind.rank u) (UnionFind.size u)) i r).
  { intros i r. etrans; [apply Hkeep1 | apply Hkeep2]. }
  assert (Hrb : rep u b rb) by by apply Hkeep1.
  pose proof Hinv2 as (Hsz & Hlp & Hlr & Hreps & Hranks).
  cbn [UnionFind.parent UnionFind.rank UnionFind.size] in Hsz, Hlp, Hlr, Hranks.
  pose proof (rep_range _ _ _ (proj1 (Hkeep _ _) Hra)) as (_ & Hrar & Hraroot).
  pose proof (rep_range _ _ _ (proj1 (Hkeep _ _) Hrb)) as (_ & Hrbr & Hrbroot).
  cbn [UnionFind.parent] in Hrar, Hraroot, Hrbr, Hrbroot.
  assert (Hweak : forall v, uf_inv bound v -> uf_inv (bound + 1) v).
  { intros v (? & ? & ? & ? & Hr). repeat (split; [done |]).
    intros i Hi. specialize (Hr i Hi). lia. }
  unfold UnionFind.unite. rewrite Hfind1. cbn [bind]. rewrite Hfind2. cbn [bind].
  destruct (Z.eqb_spec ra rb) as [Heq | Hne]; cbn [negb].
  { exists ra, rb, ra, rb. eexists. split; [done |]. split; [done |]. split; [done |].
    split; [by left |]. split; [by apply Hweak |]. split; [done |].
    intros i r Hr. subst rb. destruct (Z.eqb_spec r ra) as [-> | _]; by apply Hkeep. }
  cbn [UnionFind.parent UnionFind.rank UnionFind.size].
  rewrite !aget_nth_z by lia. cbn [bind].
  assert (Hlink : forall x y p' r',
            ((x = ra /\ y = rb) \/ (x = rb /\ y = ra)) ->
            p' = <[Z.to_nat x := y]> p2 ->
            Z.of_nat (length r') = UnionFind.size u ->
            (forall i, 0 <= i < UnionFind.size u -> 0 <= nth_z r' i <= bound + 1) ->
            exists ra0 rb0 x0 y0 u',
              Ok (UnionFind.mk p' r' (UnionFind.size u)) = Ok u' /\
              rep u a ra0 /\ rep u b rb0 /\
              ((x0 = ra0 /\ y0 = rb0) \/ (x0 = rb0 /\ y0 = ra0)) /\
              uf_inv (bound + 1) u' /\ UnionFind.size u' = UnionFind.size u /\
              forall i r, rep u i r -> rep u' i (if r =? x0 then y0 else r)).
  { intros x y p' r' Hxy -> Hlr' Hranks'.
    assert (Hx : 0 <= x < Z.of_nat (length p2) /\ nth_z p2 x = x)
      by (destruct Hxy as [[-> _] | [-> _]]; done).
    assert (Hy : 0 <= y < Z.of_nat (length p2) /\ nth_z p2 y = y)
      by (destruct Hxy as [[_ ->] | [_ ->]]; done).
    assert (Hxne : x <> y) by (destruct Hxy as [[-> ->] | [-> ->]]; congruence).
    assert (Hmove : forall i r, rep u i r ->
              rep (UnionFind.mk (<[Z.to_nat x := y]> p2) r' (UnionFind.size u)) i
                  (if r =? x then y else r)).
    { intros i r Hr. apply Hkeep in Hr as [k Hr]. unfold rep. simpl.
      apply (link_moves_roots p2 x y) with (k := k); tauto. }
    exists ra, rb, x, y. eexists. split; [done |]. split; [done |]. split; [done |].
    split; [done |]. split; [| split; [done |]; done].
    unfold uf_inv. simpl. rewrite length_insert.
    split; [done |]. split; [done |]. split; [done |]. split; [| done].
    intros i Hi. destruct Hinv as (_ & _ & _ & Hreps0 & _).
    destruct (Hreps0 i Hi) as [r Hr]. eexists. by apply Hmove. }
  destruct (Z.ltb_spec (nth_z (UnionFind.rank u) ra) (nth_z (UnionFind.rank u) rb)).
  { rewrite aset_in by lia. cbn [bind].
    apply (Hlink ra rb); [by left | done | done |].
    intros i Hi. specialize (Hranks i Hi). lia. }
  destruct (Z.gtb_spec (nth_z (UnionFind.rank u) ra) (nth_z (UnionFind.rank u) rb)).
  { rewrite aset_in by lia. cbn [bind].
    apply (Hlink rb ra); [by right | done | done |].
    intros i Hi. specialize (Hranks i Hi). lia. }
  rewrite aset_in by lia. cbn [bind]. rewrite aset_in by lia. cbn [bind].
  apply (Hlink rb ra); [by right | done | by rewrite length_insert |].
  intros i Hi. rewrite nth_z_insert by lia.
  pose proof (Hranks i Hi). pose proof (Hranks ra ltac:(lia)).
  destruct (i =? ra); lia.
Qed.

Lemma same_set_reps (u : UnionFind.t) (i j ri rj : Z) :
  rep u i ri -> rep u j rj -> (same_set u i j <-> ri = rj).
Proof.
  intros Hi Hj. split.
  - intros (r & Hi' & Hj'). rewrite (rep_det _ _ _ _ Hi Hi'). apply (rep_det _ _ _ _ Hj' Hj).
  - intros ->. by exists rj.
Qed.

Lemma same_set_refl (bound : Z) (u : UnionFind.t) (i : Z) :
  uf_inv bound u -> 0 <= i < UnionFind.size u -> same_set u i i.
Proof. intros (_ & _ & _ & Hreps & _) Hi. destruct (Hreps i Hi) as [r Hr]. by exists r. Qed.

Lemma unite_sets (bound : Z) (u : UnionFind.t) (a b : Z) :
  uf_inv bound u -> 0 <= a < UnionFind.size u -> 0 <= b < UnionFind.size u ->
  exists u',
    UnionFind.unite u a b = Ok u' /\
    uf_inv (bound + 1) u' /\ UnionFind.size u' = UnionFind.size u /\
    forall i j, 0 <= i < UnionFind.size u -> 0 <= j < UnionFind.size u ->
      (same_set u' i j <->
       same_set u i j \/ (same_set u i a /\ same_set u j b)
       \/ (same_set u i b /\ same_set u j a)).
Proof.
  intros Hinv Ha Hb.
  destruct (unite_spec bound u a b Hinv Ha Hb)
    as (ra & rb & x & y & u' & Hun & Hra & Hrb & Hxy & Hinv' & Hsz & Hmove).
  exists u'. split; [done |]. split; [done |]. split; [done |].
  intros i j Hi Hj. destruct Hinv as (_ & _ & _ & Hreps & _).
  destruct (Hreps i Hi) as [ri Hri]. destruct (Hreps j Hj) as [rj Hrj].
  rewrite (same_set_reps u' i j _ _ (Hmove i ri Hri) (Hmove j rj Hrj)).
  rewrite (same_set_reps u i j ri rj Hri Hrj).
  rewrite (same_set_reps u i a ri ra Hri Hra), (same_set_reps u j b rj rb Hrj Hrb).
  rewrite (same_set_reps u i b ri rb Hri Hrb), (same_set_reps u j a rj ra Hrj Hra).
  destruct (Z.eqb_spec ri x), (Z.eqb_spec rj x); destruct Hxy as [[-> ->] | [-> ->]];
    subst; intuition congruence.
Qed.

(** X12.  On a UnionFind that satisfies its invariant with ranks up to
    [bound], unite(a, b) for elements in range merges the set of a with the
    set of b and changes nothing else: afterwards two elements share a set
    exactly when they did before or one was with a and the other with b.
    The invariant holds again with ranks up to [bound + 1], so below INT_MAX
    the rank increment does not overflow.  With an argument out of range
    unite reads outside its arrays. *)
Theorem unite_merges_two_sets (bound : Z) (u : UnionFind.t) (a b : Z) :
  uf_inv bound u -> bound < INT_MAX ->
  (0 <= a < UnionFind.size u -> 0 <= b < UnionFind.size u ->
   exists u',
     UnionFind.unite u a b = Ok u' /\
     uf_inv (bound + 1) u' /\ UnionFind.size u' = UnionFind.size u /\
     (forall i, 0 <= i < UnionFind.size u ->
        in_int (nth_z (UnionFind.rank u') i) = true) /\
     forall i j, 0 <= i < UnionFind.size u -> 0 <= j < UnionFind.size u ->
       (same_set u' i j <->
        same_set u i j \/ (same_set u i a /\ same_set u j b)
        \/ (same_set u i b /\ same_set u j a))) /\
  (~ (0 <= a < UnionFind.size u /\ 0 <= b < UnionFind.size u) ->
   UnionFind.unite u a b = Fault OutOfBoundsAccess).
Proof.
  intros Hinv Hbound. split.
  - intros Ha Hb.
    destruct (unite_sets bound u a b Hinv Ha Hb) as (u' & Hun & Hinv' & Hsz & Hsets).
    exists u'. split; [done |]. split; [done |]. split; [done |]. split; [| done].
    intros i Hi. destruct Hinv' as (_ & _ & _ & _ & Hranks).
    specialize (Hranks i ltac:(lia)). apply in_int_spec. unfold INT_MIN, INT_MAX in *. lia.
  - intros Hout. unfold UnionFind.unite.
    assert (Hfault : forall v c, Z.of_nat (length (UnionFind.parent v)) = UnionFind.size v ->
              ~ (0 <= c < UnionFind.size v) ->
              UnionFind.find v c = Fault OutOfBoundsAccess).
    { intros v c Hlp Hc. unfold UnionFind.find. cbn [UnionFind.find_rec].
      unfold aget, in_bounds. rewrite Hlp.
      destruct (Z.leb_spec 0 c), (Z.ltb_spec c (UnionFind.size v)); try done; lia. }
    destruct (decide (0 <= a < UnionFind.size u)) as [Ha | Ha].
    + destruct (find_spec bound u a Hinv Ha) as (ra & p1 & Hfind1 & _ & _ & Hinv1 & _).
      rewrite Hfind1. cbn [bind]. rewrite Hfault; [done | by destruct Hinv1 as (_ & ? & _) |].
      simpl. tauto.
    + rewrite Hfault; [done | by destruct Hinv as (_ & ? & _) | done].
Qed.

Lemma unite_merges_two_sets_witness :
  exists u',
    UnionFind.unite (UnionFind.mk [1; 1; 3; 3] [0; 1; 0; 1] 4) 0 2 = Ok u' /\
    same_set u' 0 2 /\
    UnionFind.unite (UnionFind.mk [1; 1; 3; 3] [0; 1; 0; 1] 4) 0 4
      = Fault OutOfBoundsAccess.
Proof.
  destruct (unite_merges_two_sets 1 (UnionFind.mk [1; 1; 3; 3] [0; 1; 0; 1] 4) 0 2)
    as [Hin _]; [by apply uf_ok_inv | by unfold INT_MAX |].
  destruct (unite_merges_two_sets 1 (UnionFind.mk [1; 1; 3; 3] [0; 1; 0; 1] 4) 0 4)
    as [_ Hout]; [by apply uf_ok_inv | by unfold INT_MAX |].
  destruct (Hin ltac:(simpl; lia) ltac:(simpl; lia)) as (u' & Hun & _ & _ & _ & Hsets).
  exists u'. split; [exact Hun |]. split; [| apply Hout; simpl; lia].
  apply (Hsets 0 2); [simpl; lia | simpl; lia |].
  right. left.
  split; (apply (same_set_refl 1); [by apply uf_ok_inv | simpl; lia]).
Defined.

(** ** UnionFind: a run of unite calls *)

Lemma new_uf_inv (n : Z) :
  0 <= n ->
  exists u,
    UnionFind.new n = Ok u /\ uf_inv 0 u /\ UnionFind.size u = n /\
    forall i, 0 <= i < n -> rep u i i.
Proof.
  intros Hn. unfold UnionFind.new. rewrite !new_array_Ok by done. cbn [bind].
  eexists. split; [done |].
  assert (Hp : forall i, 0 <= i < n ->
            nth_z (imap (fun (i : nat) (_ : Z) => Z.of_nat i) (replicate (Z.to_nat n) 0)) i = i).
  { intros i Hi. unfold nth_z. rewrite list_lookup_imap, lookup_replicate_2 by lia.
    simpl. lia. }
  assert (Hreps : forall i, 0 <= i < n ->
            rep (UnionFind.mk (imap (fun (i : nat) (_ : Z) => Z.of_nat i)
                                 (replicate (Z.to_nat n) 0))
                              (replicate (Z.to_nat n) 0) n) i i).
  { intros i Hi. exists 0%nat. constructor; [| by apply Hp].
    simpl. rewrite length_imap, length_replicate. lia. }
  split; [| split; [done | done]].
  unfold uf_inv. simpl. rewrite length_imap, !length_replicate.
  split; [done |]. split; [lia |]. split; [lia |]. split; [by eauto |].
  intros i Hi. rewrite nth_z_replicate by done. lia.
Qed.

Lemma same_set_sym (u : UnionFind.t) (i j : Z) : same_set u i j -> same_set u j i.
Proof. intros (r & Hi & Hj). by exists r. Qed.

Lemma same_set_trans (u : UnionFind.t) (i j k : Z) :
  same_set u i j -> same_set u j k -> same_set u i k.
Proof.
  intros (r & Hi & Hj) (r' & Hj' & Hk). rewrite (rep_det _ _ _ _ Hj Hj') in Hi. by exists r'.
Qed.

Lemma linked_mono (ps qs : list (Z * Z)) (a b : Z) :
  (forall p, In p ps -> In p qs) -> linked ps a b -> linked qs a b.
Proof.
  intros Hsub. induction 1 as [a | a b Hin | a b _ IH | a b c _ IH1 _ IH2].
  - apply linked_refl.
  - apply linked_pair. by apply Hsub.
  - by apply linked_sym.
  - by apply (linked_trans _ a b c).
Qed.

Lemma linked_valid (n : Z) (ps : list (Z * Z)) (a b : Z) :
  (forall p, In p ps -> pair_ok n p) -> linked ps a b -> (0 <= a < n <-> 0 <= b < n).
Proof.
  intros Hok. induction 1 as [a | a b Hin | a b _ IH | a b c _ IH1 _ IH2]; try tauto.
  destruct (Hok _ Hin) as [Ha Hb]. simpl in *. tauto.
Qed.

(** Merging the sets of [a] and [b] adds the pair (a, b) to the pairs that
    generate the partition. *)
Lemma merge_linked (bound : Z) (u u1 : UnionFind.t) (a b : Z) (ps qs : list (Z * Z)) :
  uf_inv bound u -> uf_inv (bound + 1) u1 -> UnionFind.size u1 = UnionFind.size u ->
  0 <= a < UnionFind.size u -> 0 <= b < UnionFind.size u ->
  (forall p, In p ps -> pair_ok (UnionFind.size u) p) ->
  (forall p, In p qs <-> p = (a, b) \/ In p ps) ->
  (forall i j, 0 <= i < UnionFind.size u -> 0 <= j < UnionFind.size u ->
     (same_set u i j <-> linked ps i j)) ->
  (forall i j, 0 <= i < UnionFind.size u -> 0 <= j < UnionFind.size u ->
     (same_set u1 i j <->
      same_set u i j \/ (same_set u i a /\ same_set u j b)
      \/ (same_set u i b /\ same_set u j a))) ->
  forall i j, 0 <= i < UnionFind.size u -> 0 <= j < UnionFind.size u ->
    (same_set u1 i j <-> linked qs i j).
Proof.
  intros Hinv Hinv1 Hsz1 Ha Hb Hok Hqs Hsets Hsets1 i j Hi Hj.
  assert (Hsub : forall x y, linked ps x y -> linked qs x y).
  { intros x y. apply linked_mono. intros p Hp. apply Hqs. by right. }
  assert (Hab : linked qs a b) by (apply linked_pair, Hqs; by left).
  rewrite Hsets1 by done. split.
  - intros [Hij | [[Hia Hjb] | [Hib Hja]]].
    + apply Hsub. by apply Hsets.
    + apply Hsets in Hia, Hjb; [| done ..].
      apply (linked_trans _ i a); [by apply Hsub |].
      apply (linked_trans _ a b); [done |]. by apply linked_sym, Hsub.
    + apply Hsets in Hib, Hja; [| done ..].
      apply (linked_trans _ i b); [by apply Hsub |].
      apply (linked_trans _ b a); [by apply linked_sym |]. by apply linked_sym, Hsub.
  - intros Hl.
    assert (Hokq : forall p, In p qs -> pair_ok (UnionFind.size u) p).
    { intros p Hp. apply Hqs in Hp as [-> | Hp]; [done | by apply Hok]. }
    assert (Hgoal : forall x y, linked qs x y ->
              0 <= x < UnionFind.size u -> 0 <= y < UnionFind.size u ->
              same_set u1 x y).
    { clear i j Hi Hj Hl. intros x y Hl.
      induction Hl as [x | x y Hin | x y Hl IHl | x y z Hl1 IH1 Hl2 IH2]; intros Hx Hy.
      - apply (same_set_refl (bound + 1)); [done | lia].
      - apply Hsets1; [done | done |]. apply Hqs in Hin as [[= -> ->] | Hin].
        + right. left. split; by apply (same_set_refl bound).
        + left. apply Hsets; [done | done |]. by apply linked_pair.
      - apply same_set_sym. by apply IHl.
      - pose proof (linked_valid _ _ _ _ Hokq Hl1) as Hv.
        apply (same_set_trans u1 x y z); [apply IH1 | apply IH2]; tauto. }
    apply Hsets1; [done | done |]. by apply Hgoal.
Qed.

Lemma unite_all_sets (ps : list (Z * Z)) :
  forall (seen : list (Z * Z)) (bound : Z) (u : UnionFind.t),
    uf_inv bound u ->
    (forall p, In p (seen ++ ps) -> pair_ok (UnionFind.size u) p) ->
    (forall i j, 0 <= i < UnionFind.size u -> 0 <= j < UnionFind.size u ->
       (same_set u i j <-> linked seen i j)) ->
    exists u',
      unite_all u ps = Ok u' /\
      uf_inv (bound + Z.of_nat (length ps)) u' /\ UnionFind.size u' = UnionFind.size u /\
      forall i j, 0 <= i < UnionFind.size u -> 0 <= j < UnionFind.size u ->
        (same_set u' i j <-> linked (seen ++ ps) i j).
Proof.
  induction ps as [| [a b] ps IH]; intros seen bound u Hinv Hok Hsets.
  - exists u. simpl. rewrite app_nil_r, Z.add_0_r. done.
  - destruct (Hok (a, b)) as [Ha Hb]; [apply in_or_app; right; by left |]. simpl in Ha, Hb.
    destruct (unite_sets bound u a b Hinv Ha Hb) as (u1 & Hun & Hinv1 & Hsz1 & Hsets1).
    assert (Hok1 : forall p, In p ((seen ++ [(a, b)]) ++ ps) -> pair_ok (UnionFind.size u1) p).
    { intros p Hp. rewrite Hsz1. apply Hok. by rewrite <- app_assoc in Hp. }
    destruct (IH (seen ++ [(a, b)]) (bound + 1) u1 Hinv1 Hok1)
      as (u' & Hrun & Hinv' & Hsz' & Hsets').
    { rewrite Hsz1.
      apply (merge_linked bound u u1 a b seen); try done.
      - intros p Hp. apply Hok. apply in_or_app. by left.
      - intros p. rewrite in_app_iff. simpl. intuition. }
    exists u'. unfold unite_all in *. cbn [foldM]. rewrite Hun. cbn [bind].
    split; [done |].
    split; [replace (bound + Z.of_nat (length ((a, b) :: ps)))
              with (bound + 1 + Z.of_nat (length ps)) by (simpl; lia); done |].
    split; [lia |]. intros i j Hi Hj.
    rewrite (Hsets' i j) by lia. by rewrite <- app_assoc.
Qed.

Lemma linked_nil (a b : Z) : linked [] a b <-> a = b.
Proof.
  split; [| intros ->; apply linked_refl].
  induction 1 as [a | a b Hin | a b _ IH | a b c _ IH1 _ IH2]; congruence || done.
Qed.

Lemma same_root_spec (bound : Z) (u : UnionFind.t) (a b : Z) :
  uf_inv bound u -> 0 <= a < UnionFind.size u -> 0 <= b < UnionFind.size u ->
  exists t u',
    same_root u a b = Ok (t, u') /\ (t = true <-> same_set u a b) /\
    uf_inv bound u' /\ UnionFind.size u' = UnionFind.size u /\
    forall i r, rep u i r <-> rep u' i r.
Proof.
  intros Hinv Ha Hb.
  destruct (find_spec bound u a Hinv Ha) as (ra & p1 & Hfind1 & Hra & _ & Hinv1 & Hkeep1).
  destruct (find_spec bound _ b Hinv1 Hb) as (rb & p2 & Hfind2 & Hrb1 & _ & Hinv2 & Hkeep2).
  cbn [UnionFind.rank UnionFind.size] in Hfind2, Hinv2, Hkeep2.
  unfold same_root. rewrite Hfind1. cbn [bind]. rewrite Hfind2. cbn [bind].
  eexists _, _. split; [done |].
  split; [| split; [done |]; split; [done |]].
  - rewrite (same_set_reps u a b ra rb Hra ltac:(by apply Hkeep1)). apply Z.eqb_eq.
  - intros i r. etrans; [apply Hkeep1 | apply Hkeep2].
Qed.

(** X13.  A UnionFind of [n >= 0] elements on which unite is called for a
    list of pairs in range answers connectivity: every call returns, and
    afterwards find(a) and find(b) give the same root exactly when a and b
    are related by the least equivalence that contains the pairs.  No rank
    exceeds the number of unite calls. *)
Theorem unions_then_find (n : Z) (ps : list (Z * Z)) :
  0 <= n -> (forall p, In p ps -> pair_ok n p) ->
  exists u0 u,
    UnionFind.new n = Ok u0 /\ unite_all u0 ps = Ok u /\
    uf_inv (Z.of_nat (length ps)) u /\
    forall a b, 0 <= a < n -> 0 <= b < n ->
      exists t u', same_root u a b = Ok (t, u') /\ (t = true <-> linked ps a b).
Proof.
  intros Hn Hok.
  destruct (new_uf_inv n Hn) as (u0 & Hnew & Hinv0 & Hsz0 & Hreps0).
  destruct (unite_all_sets ps [] 0 u0 Hinv0) as (u & Hrun & Hinv & Hsz & Hsets).
  { rewrite Hsz0. done. }
  { rewrite Hsz0. intros i j Hi Hj. rewrite linked_nil.
    rewrite (same_set_reps u0 i j i j) by by apply Hreps0. done. }
  exists u0, u. split; [done |]. split; [done |]. split; [done |].
  intros a b Ha Hb.
  destruct (same_root_spec _ u a b Hinv ltac:(lia) ltac:(lia)) as (t & u' & Hrun' & Ht & _).
  exists t, u'. split; [done |]. rewrite Ht. apply Hsets; lia.
Qed.

Lemma unions_then_find_witness :
  exists u0 u u',
    UnionFind.new 5 = Ok u0 /\ unite_all u0 [(0, 1); (2, 3); (1, 3)] = Ok u /\
    same_root u 0 2 = Ok (true, u').
Proof.
  destruct (unions_then_find 5 [(0, 1); (2, 3); (1, 3)]) as (u0 & u & Hnew & Hrun & _ & Hq);
    [lia | |].
  { intros p [<- | [<- | [<- | []]]]; unfold pair_ok; simpl; lia. }
  destruct (Hq 0 2 ltac:(lia) ltac:(lia)) as (t & u' & Hsame & Ht).
  exists u0, u, u'. split; [exact Hnew |]. split; [exact Hrun |].
  rewrite (proj2 Ht) in Hsame; [exact Hsame |].
  apply (linked_trans _ 0 1); [apply linked_pair; by left |].
  apply (linked_trans _ 1 3); [apply linked_pair; right; right; by left |].
  apply linked_sym, linked_pair. right; by left.
Defined.

(** ** bfs and dfs: discovering a vertex *)

Lemma walk_mono (t t' : Graph) (a b W : Z) :
  (forall x nb, In nb (adj t x) -> In nb (adj t' x)) ->
  walk t a b W -> walk t' a b W.
Proof.
  intros Hsub. induction 1 as [| b c w W _ IH Hin]; [apply walk_here |].
  apply (walk_step t' a b c w W IH). by apply Hsub.
Qed.

Lemma adj_negative (g : Graph) (x : Z) : x < 0 -> adj g x = [].
Proof. intros Hx. unfold adj. by destruct (Z.leb_spec 0 x); [lia |]. Qed.

Lemma tree_of_new (g : Graph) (start : Z) (tree : Graph) :
  0 <= start < numVertices g ->
  Graph_new (numVertices g) = Ok tree -> tree_of g start tree [start] [].
Proof.
  intros Hs Hnew. pose proof (stores_new _ _ Hnew) as Hst.
  rewrite Graph_new_Ok in Hnew by lia. injection Hnew as <-.
  split; [done |]. split; [done |]. split; [by constructor |]. split; [done |].
  split; [by intros v [<- | []] |].
  split; intros v [<- | []]; exists 0; apply walk_here.
Qed.

(** A traversal that finds the unmarked neighbour [nb] of a discovered
    vertex [u] marks it and hangs it under [u] in the tree. *)
Lemma discover (g : Graph) (start u : Z) (nb : Neighbor) (tree tree' : Graph)
    (visited : list bool) (vs : list Z) (es : list (Z * Z * Z)) :
  tree_of g start tree vs es -> marks_of visited vs ->
  In u vs -> In nb (adj g u) ->
  0 <= vertex nb < Z.of_nat (length visited) ->
  addEdge tree u (vertex nb) (weight nb) = Ok tree' ->
  tree_of g start tree' (vs ++ [vertex nb]) ((u, vertex nb, weight nb) :: es) /\
  marks_of (<[Z.to_nat (vertex nb) := true]> visited) (vs ++ [vertex nb]).
Proof.
  intros (Hst & Hn & Hes & Hvs & Hrange & Htree & Hg) Hmarks Hu Hnb Hv Hadd.
  pose proof (stores_apply_op tree tree' es (AddEdge u (vertex nb) (weight nb)) Hst Hadd)
    as Hst'. simpl in Hst'.
  assert (Hn' : numVertices tree' = numVertices tree).
  { unfold addEdge in Hadd. destruct (_ || _) in Hadd; [done |]. by injection Hadd as <-. }
  assert (Hvr : 0 <= vertex nb < numVertices g).
  { pose proof (proj1 (proj2 Hst') u (vertex nb) (weight nb) ltac:(by left)). lia. }
  assert (Hgrow : forall x n, In n (adj tree x) -> In n (adj tree' x)).
  { intros x n Hin. destruct (Z.lt_ge_cases x 0) as [Hx | Hx].
    - by rewrite adj_negative in Hin.
    - rewrite (adj_addEdge tree tree' u (vertex nb) (weight nb) x (proj1 Hst) Hadd) by lia.
      apply in_or_app. right. apply in_or_app. by right. }
  split; [| intros x Hx; destruct (decide (x = vertex nb)) as [-> | Hne]].
  - split; [done |]. split; [lia |]. split.
    { constructor; [| done]. simpl. by rewrite neighbor_eta. }
    split.
    { simpl. rewrite reverse_cons, Hvs. done. }
    split; [| split].
    + intros v Hin. apply in_app_or in Hin as [Hin | [<- | []]]; [by apply Hrange | done].
    + intros v Hin. apply in_app_or in Hin as [Hin | [<- | []]].
      * destruct (Htree v Hin) as [W HW]. exists W. by apply (walk_mono tree).
      * destruct (Htree u Hu) as [W HW]. exists (W + weight nb).
        apply (walk_step tree' start u _ _ W); [by apply (walk_mono tree) |].
        pose proof (Hrange u Hu) as Hur.
        rewrite (adj_addEdge tree tree' u (vertex nb) (weight nb) u (proj1 Hst) Hadd) by lia.
        apply in_or_app. right. rewrite Z.eqb_refl. by left.
    + intros v Hin. apply in_app_or in Hin as [Hin | [<- | []]]; [by apply Hg |].
      destruct (Hg u Hu) as [W HW]. exists (W + weight nb).
      apply (walk_step g start u _ _ W HW). by rewrite neighbor_eta.
  - rewrite list_lookup_insert_eq by lia. split; [| done].
    intros _. apply in_or_app. right. by left.
  - rewrite list_lookup_insert_ne by lia. rewrite (Hmarks x Hx). split.
    + intros Hin. apply in_or_app. by left.
    + intros Hin. apply in_app_or in Hin as [Hin | [<- | []]]; done.
Qed.

(** Once every neighbour of every discovered vertex is discovered, the
    discovered vertices are the reachable ones. *)
Lemma closed_is_reachable (g : Graph) (start : Z) (vs : list Z) :
  In start vs -> closed_under g vs vs -> (forall v, In v vs -> reach g start v) ->
  forall v, reach g start v <-> In v vs.
Proof.
  intros Hs Hclosed Hsound v. split; [| apply Hsound].
  intros [W HW]. induction HW as [| b c w W _ IH Hin]; [done |].
  apply (Hclosed b (mkNeighbor c w) IH Hin).
Qed.

(** ** bfs: the tree spans what can be reached *)

Lemma bfs_visit_tree (g : Graph) (start u : Z) (s s' : bfs_state) (nb : Neighbor)
    (es : list (Z * Z * Z)) :
  tree_of g start (bfs_tree s) (enqueued s) es ->
  marks_of (bfs_visited s) (enqueued s) ->
  In u (enqueued s) -> In nb (adj g u) ->
  bfs_visit u s nb = Ok s' ->
  exists es',
    tree_of g start (bfs_tree s') (enqueued s') es' /\
    marks_of (bfs_visited s') (enqueued s') /\
    In (vertex nb) (enqueued s') /\
    (forall x, In x (enqueued s) -> In x (enqueued s')).
Proof.
  intros Htree Hmarks Hu Hnb Hrun. unfold bfs_visit in Hrun.
  apply bind_Ok in Hrun as (seen & Hseen & Hrun). apply aget_Ok in Hseen as [Hv0 Hseen].
  destruct seen; cbn [negb] in Hrun.
  { injection Hrun as <-. exists es. split; [done |]. split; [done |].
    split; [by apply Hmarks | done]. }
  apply bind_Ok in Hrun as (visited' & Hset & Hrun). apply aset_Ok in Hset as [Hv ->].
  apply bind_Ok in Hrun as (tree' & Hadd & Hrun).
  apply bind_Ok in Hrun as (q' & _ & [= <-]). simpl.
  destruct (discover g start u nb _ tree' _ _ es Htree Hmarks Hu Hnb Hv Hadd)
    as [Htree' Hmarks'].
  eexists. split; [done |]. split; [done |].
  split; [apply in_or_app; right; by left |]. intros x Hx. apply in_or_app. by left.
Qed.

Lemma bfs_neighbors_tree (g : Graph) (start u : Z) (nbs : list Neighbor) :
  (forall nb, In nb nbs -> In nb (adj g u)) ->
  forall (s s' : bfs_state) (es : list (Z * Z * Z)),
    tree_of g start (bfs_tree s) (enqueued s) es ->
    marks_of (bfs_visited s) (enqueued s) ->
    In u (enqueued s) ->
    foldM (bfs_visit u) nbs s = Ok s' ->
    exists es',
      tree_of g start (bfs_tree s') (enqueued s') es' /\
      marks_of (bfs_visited s') (enqueued s') /\
      (forall nb, In nb nbs -> In (vertex nb) (enqueued s')) /\
      (forall x, In x (enqueued s) -> In x (enqueued s')).
Proof.
  induction nbs as [| nb nbs IH]; intros Hnbs s s' es Htree Hmarks Hu Hrun; simpl in Hrun.
  - injection Hrun as <-. exists es. split; [done |]. split; [done |].
    split; [by intros nb [] | done].
  - apply bind_Ok in Hrun as (s1 & H1 & Hrun).
    destruct (bfs_visit_tree g start u s s1 nb es Htree Hmarks Hu
                ltac:(apply Hnbs; by left) H1) as (es1 & Htree1 & Hmarks1 & Hnb1 & Hmono1).
    destruct (IH ltac:(intros; apply Hnbs; by right) s1 s' es1 Htree1 Hmarks1
                ltac:(by apply Hmono1) Hrun) as (es' & Htree' & Hmarks' & Hnbs' & Hmono').
    exists es'. split; [done |]. split; [done |]. split; [| by auto].
    intros nb' [<- | Hin]; [by apply Hmono' | by apply Hnbs'].
Qed.

Lemma bfs_loop_tree (g : Graph) (start : Z) :
  well_formed g = true ->
  forall (fuel : nat) (s s' : bfs_state) (served items : list Z) (es : list (Z * Z * Z)),
    bfs_inv g s served items ->
    tree_of g start (bfs_tree s) (enqueued s) es ->
    marks_of (bfs_visited s) (enqueued s) ->
    closed_under g served (enqueued s) ->
    bfs_loop fuel g s = Ok s' ->
    exists es',
      tree_of g start (bfs_tree s') (enqueued s') es' /\
      marks_of (bfs_visited s') (enqueued s') /\
      closed_under g (enqueued s') (enqueued s') /\
      NoDup (enqueued s').
Proof.
  intros Hwf. pose proof (proj1 (well_formed_spec g) Hwf) as (Hn & Hlen & Hadj).
  induction fuel as [| fuel IH]; intros s s' served items es Hinv Htree Hmarks Hclosed Hrun;
    [done |].
  simpl in Hrun. pose proof Hinv as (Hq & Hcap & Hlog & Hnd & Hvis & Hmarked & Hnt).
  destruct (Queue.isEmpty (bfs_q s)) eqn:Hemp.
  - injection Hrun as <-. apply (isEmpty_repr _ _ Hq) in Hemp. subst items.
    rewrite app_nil_r in Hlog. exists es. rewrite Hlog in *. done.
  - destruct items as [| u items].
    { rewrite (proj2 (isEmpty_repr _ _ Hq) eq_refl) in Hemp. done. }
    destruct (dequeue_repr _ _ _ Hq) as (q' & Hdeq & Hq' & Hcap').
    rewrite Hdeq in Hrun. cbn [bind] in Hrun.
    assert (Hin : In u (enqueued s)).
    { rewrite Hlog. apply in_or_app. right. by left. }
    assert (Hu : 0 <= u < numVertices g) by by apply Hmarked.
    rewrite getNeighbors_Ok in Hrun by done. cbn [bind] in Hrun.
    destruct (bfs_neighbors_ok g u (served ++ [u]) (adj g u) Hu
                ltac:(intros nb Hnb; by apply (Hadj u))
                (mkBfs (bfs_tree s) (bfs_visited s) q' (enqueued s)) items)
      as (s1 & items1 & H1 & Hinv1).
    { unfold bfs_inv. simpl. split; [done |]. split; [congruence |].
      split; [by rewrite Hlog, <- app_assoc |]. done. }
    rewrite H1 in Hrun. cbn [bind] in Hrun.
    destruct (bfs_neighbors_tree g start u (adj g u) ltac:(done)
                (mkBfs (bfs_tree s) (bfs_visited s) q' (enqueued s)) s1 es
                Htree Hmarks Hin H1)
      as (es1 & Htree1 & Hmarks1 & Hnbs1 & Hmono1).
    apply (IH s1 s' (served ++ [u]) items1 es1 Hinv1 Htree1 Hmarks1); [| done].
    intros x nb Hx Hnb. apply in_app_or in Hx as [Hx | [<- | []]].
    + apply Hmono1. simpl. by apply (Hclosed x nb).
    + by apply Hnbs1.
Qed.

(** X14.  For a well-formed, symmetric graph and a valid start, bfs with a
    budget of more than vertexCount rounds returns a tree that spans exactly
    what can be reached from start: the discovered vertices are the
    reachable ones, each found once; the tree is a subgraph of the input
    with one edge per discovered vertex other than start; and a vertex can
    be reached from start in the tree exactly when it can in the graph. *)
Theorem bfs_tree_spans_reachable (fuel : nat) (g : Graph) (start : Z) :
  well_formed g = true -> symmetric g = true -> valid_vertex g start = true ->
  numVertices g < Z.of_nat fuel ->
  exists tree vs es,
    bfs fuel g start = Ok tree /\
    subgraph tree g /\ stores tree es /\
    NoDup vs /\ vs = start :: reverse (map child es) /\
    (forall v, In v vs <-> reach g start v) /\
    (forall v, reach tree start v <-> reach g start v).
Proof.
  intros Hwf Hsym Hs Hfuel.
  pose proof (proj1 (well_formed_spec g) Hwf) as (Hn & Hlen & Hadj).
  pose proof (proj1 (valid_vertex_spec g start) Hs) as Hstart.
  destruct (bfs_run_ok g start fuel Hwf Hs Hfuel) as (s & served & Hrun & Hinv).
  assert (Hprops : exists es,
            tree_of g start (bfs_tree s) (enqueued s) es /\
            closed_under g (enqueued s) (enqueued s) /\ NoDup (enqueued s)).
  { pose proof Hrun as Hrun'. unfold bfs_run, getVertexCount in Hrun'.
    rewrite Graph_new_Ok, new_array_Ok in Hrun' by lia. cbn [bind] in Hrun'.
    destruct (Queue_new_repr (numVertices g)) as (q0 & Hnew & Hq0 & Hcap0); [lia |].
    rewrite Hnew in Hrun'. cbn [bind] in Hrun'.
    rewrite aset_in in Hrun' by (rewrite length_replicate; lia). cbn [bind] in Hrun'.
    destruct (enqueue_repr q0 [] start Hq0) as (q1 & Henq & Hq1 & Hcap1); [simpl; lia |].
    rewrite Henq in Hrun'. cbn [bind] in Hrun'.
    set (s0 := mkBfs (mkGraph (numVertices g) (replicate (Z.to_nat (numVertices g)) []))
                     (<[Z.to_nat start := true]> (replicate (Z.to_nat (numVertices g)) false))
                     q1 [start]) in *.
    assert (Hinv0 : bfs_inv g s0 [] [start]).
    { unfold bfs_inv. simpl. split; [done |]. split; [congruence |]. split; [done |].
      split; [apply NoDup_singleton |].
      split; [rewrite length_insert, length_replicate; lia |]. split; [| done].
      intros v [<- | []]. split; [done |].
      apply list_lookup_insert_eq. rewrite length_replicate. lia. }
    assert (Htree0 : tree_of g start (bfs_tree s0) (enqueued s0) []).
    { simpl. apply tree_of_new; [done |]. by rewrite Graph_new_Ok by lia. }
    assert (Hmarks0 : marks_of (bfs_visited s0) (enqueued s0)).
    { simpl. intros v Hv. destruct (decide (v = start)) as [-> | Hne].
      - rewrite list_lookup_insert_eq by (rewrite length_replicate; lia).
        split; [by left | done].
      - rewrite list_lookup_insert_ne by lia. split; [| by intros [<- | []]].
        intros Hl. apply lookup_replicate in Hl as [? _]. done. }
    assert (Hclosed0 : closed_under g [] (enqueued s0)) by by intros x nb [].
    destruct (bfs_loop_tree g start Hwf fuel s0 s [] [start] []
                Hinv0 Htree0 Hmarks0 Hclosed0 Hrun') as (es & Htree & _ & Hclosed & Hnd).
    by exists es. }
  destruct Hprops as (es & (Hst & Hnt & Hes & Hvs & Hrange & Htree & Hg) & Hclosed & Hnd).
  assert (Hsub : subgraph (bfs_tree s) g) by by apply (stores_subgraph _ g es).
  assert (Hreach : forall v, In v (enqueued s) <-> reach g start v).
  { intros v. symmetry. apply closed_is_reachable; [| done | done].
    rewrite Hvs. by left. }
  exists (bfs_tree s), (enqueued s), es.
  split; [unfold bfs; by rewrite Hrun |].
  split; [done |]. split; [done |]. split; [done |]. split; [done |]. split; [done |].
  intros v. split.
  - intros [W HW]. exists W. apply (walk_mono (bfs_tree s)); [apply Hsub | done].
  - intros Hv. apply Htree. by apply Hreach.
Qed.

Lemma bfs_tree_spans_reachable_witness :
  exists tree vs es,
    bfs 6 fan 0 = Ok tree /\
    subgraph tree fan /\ stores tree es /\
    NoDup vs /\ vs = 0 :: reverse (map child es) /\
    (forall v, In v vs <-> reach fan 0 v) /\
    (forall v, reach tree 0 v <-> reach fan 0 v).
Proof.
  apply (bfs_tree_spans_reachable 6 fan 0); [reflexivity | reflexivity | reflexivity |].
  simpl. lia.
Defined.

(** ** dfs: the tree spans what can be reached *)

Lemma dfs_visit_unfold (fuel : nat) (g : Graph) (u : Z) (s : list bool * Graph) :
  dfs_visit (S fuel) g u s =
  let* visited := aset (fst s) u true in
  let* neighbors := getNeighbors g u in
  foldM (dfs_step (dfs_visit fuel g) u) neighbors (visited, snd s).
Proof. reflexivity. Qed.

Lemma closed_under_mono (g : Graph) (us vs vs' : list Z) :
  (forall x, In x vs -> In x vs') -> closed_under g us vs -> closed_under g us vs'.
Proof. intros Hsub Hc u nb Hu Hnb. apply Hsub. by apply (Hc u nb). Qed.

Section Dfs.

Variable g : Graph.
Hypothesis Hwf : well_formed g = true.
Variable start : Z.

Lemma dfs_loop_ok (fuel : nat) (u : Z) (vs : list Z) (nbs : list Neighbor) :
  dfs_visit_spec g start fuel ->
  numVertices g <= Z.of_nat fuel + Z.of_nat (length vs) + 1 ->
  (forall nb, In nb nbs -> In nb (adj g u)) ->
  forall (visited : list bool) (tree : Graph) (rest : list Z) (es : list (Z * Z * Z)),
    tree_of g start tree (vs ++ u :: rest) es ->
    marks_of visited (vs ++ u :: rest) ->
    Z.of_nat (length visited) = numVertices g ->
    NoDup (vs ++ u :: rest) ->
    closed_under g rest (vs ++ u :: rest) ->
    exists visited' tree' rest' es',
      foldM (dfs_step (dfs_visit fuel g) u) nbs (visited, tree) = Ok (visited', tree') /\
      tree_of g start tree' (vs ++ u :: rest') es' /\
      marks_of visited' (vs ++ u :: rest') /\
      Z.of_nat (length visited') = numVertices g /\
      NoDup (vs ++ u :: rest') /\
      closed_under g rest' (vs ++ u :: rest') /\
      (forall nb, In nb nbs -> In (vertex nb) (vs ++ u :: rest')) /\
      (forall x, In x (vs ++ u :: rest) -> In x (vs ++ u :: rest')).
Proof.
  intros Hrec Hfuel. pose proof (proj1 (well_formed_spec g) Hwf) as (Hn & Hlen & Hadj).
  induction nbs as [| nb nbs IH];
    intros Hnbs visited tree rest es Htree Hmarks Hlv Hnd Hclosed.
  - exists visited, tree, rest, es. simpl. repeat (split; [done |]). done.
  - assert (Hnb : In nb (adj g u)) by (apply Hnbs; by left).
    destruct (Hadj u nb Hnb) as [Hv _].
    assert (Hnbs' : forall nb, In nb nbs -> In nb (adj g u)) by (intros; apply Hnbs; by right).
    assert (Hu : In u (vs ++ u :: rest)) by (apply in_or_app; right; by left).
    cbn [foldM]. unfold dfs_step at 1. cbn [fst snd].
    destruct (lookup_lt_is_Some_2 visited (Z.to_nat (vertex nb))) as [seen Hseen]; [lia |].
    rewrite (proj2 (aget_Ok _ _ seen)) by (split; [lia | done]). cbn [bind].
    destruct seen; cbn [negb].
    + destruct (IH Hnbs' visited tree rest es Htree Hmarks Hlv Hnd Hclosed)
        as (visited' & tree' & rest' & es' & Hrun & Htree' & Hmarks' & Hlv' & Hnd' & Hclosed'
            & Hseen' & Hmono').
      exists visited', tree', rest', es'. repeat (split; [done |]). split; [| done].
      intros nb' [<- | Hin]; [| by apply Hseen'].
      apply Hmono'. apply Hmarks; [lia | done].
    + assert (Hfresh : ~ In (vertex nb) (vs ++ u :: rest)).
      { intros Hin. apply Hmarks in Hin; [congruence | lia]. }
      pose proof Htree as (Hst & Hnt & _ & _ & Hrange & _).
      pose proof (Hrange u Hu) as Hur.
      rewrite addEdge_Ok by lia. cbn [bind].
      destruct (discover g start u nb tree _ visited _ es Htree Hmarks Hu Hnb
                  ltac:(lia) (addEdge_Ok tree u (vertex nb) (weight nb)
                                ltac:(lia) ltac:(lia))) as [Htree1 _].
      assert (Hnd1 : NoDup ((vs ++ u :: rest) ++ [vertex nb])).
      { apply NoDup_app. split; [done |]. split; [| apply NoDup_singleton].
        intros x Hx Hx'. apply list_elem_of_singleton in Hx'. subst.
        by apply list_elem_of_In in Hx. }
      destruct (Hrec (vertex nb) visited _ (vs ++ u :: rest) _ Htree1 Hmarks Hlv Hnd1)
        as (visited2 & tree2 & rest2 & es2 & Hrun2 & Htree2 & Hmarks2 & Hlv2 & Hnd2 & Hclosed2).
      { rewrite length_app. simpl. lia. }
      rewrite Hrun2. cbn [bind].
      assert (Heq : (vs ++ u :: rest) ++ vertex nb :: rest2
                    = vs ++ u :: (rest ++ vertex nb :: rest2)).
      { by rewrite <- app_assoc. }
      rewrite Heq in Htree2, Hmarks2, Hnd2, Hclosed2.
      assert (Hsub : forall x, In x (vs ++ u :: rest) ->
                In x (vs ++ u :: (rest ++ vertex nb :: rest2))).
      { intros x Hx. rewrite <- Heq. apply in_or_app. by left. }
      destruct (IH Hnbs' visited2 tree2 (rest ++ vertex nb :: rest2) es2
                  Htree2 Hmarks2 Hlv2 Hnd2)
        as (visited' & tree' & rest' & es' & Hrun & Htree' & Hmarks' & Hlv' & Hnd' & Hclosed'
            & Hseen' & Hmono').
      { intros x n Hx Hn'. apply in_app_or in Hx as [Hx | Hx].
        - apply Hsub. by apply (Hclosed x n).
        - by apply (Hclosed2 x n). }
      exists visited', tree', rest', es'. repeat (split; [done |]). split.
      * intros nb' [<- | Hin]; [| by apply Hseen'].
        apply Hmono'. apply in_or_app. right. right. apply in_or_app. right. by left.
      * intros x Hx. by apply Hmono', Hsub.
Qed.

Lemma dfs_visit_ok (fuel : nat) : dfs_visit_spec g start fuel.
Proof.
  pose proof (proj1 (well_formed_spec g) Hwf) as (Hn & Hlen & Hadj).
  induction fuel as [| fuel IH]; intros v visited tree vs es Htree Hmarks Hlv Hnd Hfuel.
  - exfalso. pose proof Htree as (_ & _ & _ & _ & Hrange & _).
    pose proof (NoDup_bounded_length _ (numVertices g) ltac:(lia) Hnd Hrange) as Hb.
    rewrite length_app in Hb. simpl in Hb. lia.
  - pose proof Htree as (_ & _ & _ & _ & Hrange & _).
    assert (Hv : 0 <= v < numVertices g).
    { apply Hrange. apply in_or_app. right. by left. }
    rewrite dfs_visit_unfold. cbn [fst snd].
    rewrite aset_in by lia. cbn [bind]. rewrite getNeighbors_Ok by done. cbn [bind].
    destruct (dfs_loop_ok fuel v vs (adj g v) IH ltac:(lia) ltac:(done)
                (<[Z.to_nat v := true]> visited) tree [] es)
      as (visited' & tree' & rest' & es' & Hrun & Htree' & Hmarks' & Hlv' & Hnd' & Hclosed'
          & Hseen' & _); [done | | by rewrite length_insert | done | by intros x nb [] |].
    { intros x Hx. destruct (decide (x = v)) as [-> | Hne].
      - rewrite list_lookup_insert_eq by lia. split; [| done].
        intros _. apply in_or_app. right. by left.
      - rewrite list_lookup_insert_ne by lia. rewrite (Hmarks x Hx). split.
        + intros Hin. apply in_or_app. by left.
        + intros Hin. apply in_app_or in Hin as [Hin | [<- | []]]; done. }
    exists visited', tree', rest', es'. repeat (split; [done |]).
    intros x nb [<- | Hx] Hnb; [by apply Hseen' | by apply (Hclosed' x nb)].
Qed.

End Dfs.

(** X15.  For a well-formed, symmetric graph and a valid start, dfs with a
    budget of at least vertexCount nested calls returns a tree that spans
    exactly what can be reached from start: the discovered vertices are the
    reachable ones, each found once; the tree is a subgraph of the input
    with one edge per discovered vertex other than start; and a vertex can
    be reached from start in the tree exactly when it can in the graph. *)
Theorem dfs_tree_spans_reachable (fuel : nat) (g : Graph) (start : Z) :
  well_formed g = true -> symmetric g = true -> valid_vertex g start = true ->
  numVertices g <= Z.of_nat fuel ->
  exists tree vs es,
    dfs fuel g start = Ok tree /\
    subgraph tree g /\ stores tree es /\
    NoDup vs /\ vs = start :: reverse (map child es) /\
    (forall v, In v vs <-> reach g start v) /\
    (forall v, reach tree start v <-> reach g start v).
Proof.
  intros Hwf Hsym Hs Hfuel.
  pose proof (proj1 (well_formed_spec g) Hwf) as (Hn & Hlen & Hadj).
  pose proof (proj1 (valid_vertex_spec g start) Hs) as Hstart.
  destruct (dfs_visit_ok g Hwf start fuel start
              (replicate (Z.to_nat (numVertices g)) false)
              (mkGraph (numVertices g) (replicate (Z.to_nat (numVertices g)) [])) [] [])
    as (visited' & tree & rest & es & Hrun & Htree & _ & _ & Hnd & Hclosed).
  { apply tree_of_new; [done |]. by rewrite Graph_new_Ok by lia. }
  { intros v Hv. split; [| done]. intros Hl. apply lookup_replicate in Hl as [? _]. done. }
  { rewrite length_replicate. lia. }
  { apply NoDup_singleton. }
  { simpl. lia. }
  simpl in Htree, Hnd, Hclosed.
  pose proof Htree as (Hst & Hnt & Hes & Hvs & Hrange & Htr & Hg).
  assert (Hsub : subgraph tree g) by by apply (stores_subgraph _ g es).
  assert (Hreach : forall v, In v (start :: rest) <-> reach g start v).
  { intros v. symmetry. apply closed_is_reachable; [by left | done | done]. }
  exists tree, (start :: rest), es. split.
  { unfold dfs, getVertexCount. rewrite Graph_new_Ok, new_array_Ok by lia. cbn [bind].
    by rewrite Hrun. }
  split; [done |]. split; [done |]. split; [done |]. split; [done |]. split; [done |].
  intros v. split.
  - intros [W HW]. exists W. apply (walk_mono tree); [apply Hsub | done].
  - intros Hv. apply Htr. by apply Hreach.
Qed.

Lemma dfs_tree_spans_reachable_witness :
  exists tree vs es,
    dfs 5 fan 0 = Ok tree /\
    subgraph tree fan /\ stores tree es /\
    NoDup vs /\ vs = 0 :: reverse (map child es) /\
    (forall v, In v vs <-> reach fan 0 v) /\
    (forall v, reach tree 0 v <-> reach fan 0 v).
Proof.
  apply (dfs_tree_spans_reachable 5 fan 0); [reflexivity | reflexivity | reflexivity |].
  simpl. lia.
Defined.

(** ** kruskal: the result is a spanning forest *)

Lemma uf_inv_mono (b b' : Z) (u : UnionFind.t) : b <= b' -> uf_inv b u -> uf_inv b' u.
Proof.
  intros Hb (? & ? & ? & ? & Hr). repeat (split; [done |]).
  intros i Hi. specialize (Hr i Hi). lia.
Qed.

Lemma same_set_valid (bound : Z) (u : UnionFind.t) (i j : Z) :
  uf_inv bound u -> same_set u i j ->
  0 <= i < UnionFind.size u /\ 0 <= j < UnionFind.size u.
Proof.
  intros (_ & Hlp & _) (r & Hi & Hj).
  apply rep_range in Hi as [Hi _]. apply rep_range in Hj as [Hj _]. lia.
Qed.

Lemma kruskal_step_ok (n : Z) (es seen : list Edge) (tree : Graph) (uf : UnionFind.t)
    (tes : list (Z * Z * Z)) (i : Z) (e : Edge) :
  kruskal_inv n seen tree uf tes ->
  0 <= i -> es !! Z.to_nat i = Some e -> 0 <= eu e < n -> 0 <= ev e < n ->
  exists tree' uf' tes',
    kruskal_step es (tree, uf) i = Ok (tree', uf') /\
    kruskal_inv n (seen ++ [e]) tree' uf' tes'.
Proof.
  intros (Hst & Hnt & Hinv & Hsz & Hsets & Hsub & Hseen & Hforest & Hgreedy) Hi He Hu Hv.
  unfold kruskal_step. rewrite (proj2 (aget_Ok es i e)) by done. cbn [bind fst snd].
  destruct (find_spec _ uf (eu e) Hinv ltac:(lia))
    as (ru & p1 & Hfind1 & Hru & _ & Hinv1 & Hkeep1).
  destruct (find_spec _ _ (ev e) Hinv1 ltac:(simpl; lia))
    as (rv & p2 & Hfind2 & Hrv1 & _ & Hinv2 & Hkeep2).
  cbn [UnionFind.rank UnionFind.size] in Hfind2, Hinv2, Hkeep2.
  rewrite Hfind1. cbn [bind]. rewrite Hfind2. cbn [bind].
  set (uf2 := UnionFind.mk p2 (UnionFind.rank uf) (UnionFind.size uf)) in *.
  assert (Hkeep : forall x r, rep uf x r <-> rep uf2 x r).
  { intros x r. etrans; [apply Hkeep1 | apply Hkeep2]. }
  pose proof (same_set_keep uf uf2 Hkeep) as Hsame.
  assert (Hrv : rep uf (ev e) rv) by by apply Hkeep1.
  assert (Hlen : Z.of_nat (length (seen ++ [e])) = Z.of_nat (length seen) + 1).
  { rewrite length_app. simpl. lia. }
  destruct (Z.eqb_spec ru rv) as [Heq | Hne]; cbn [negb].
  - exists tree, uf2, tes. split; [done |].
    split; [done |]. split; [done |].
    split; [apply (uf_inv_mono (Z.of_nat (length seen))); [lia | done] |].
    split; [done |]. split.
    { intros x y Hx Hy. rewrite <- Hsame. by apply Hsets. }
    split.
    { intros t Ht. destruct (Hsub t Ht) as (e' & He' & ->). exists e'.
      split; [apply in_or_app; by left | done]. }
    assert (Hone : same_set uf (eu e) (ev e)) by (apply (same_set_reps uf _ _ ru rv); done).
    split; [| split; [done |]].
    { intros e' He'. apply Hsame.
      apply in_app_or in He' as [He' | [<- | []]]; [by apply Hseen | done]. }
    apply greedy_skip; [done |]. apply Hsets; [lia | lia | done].
  - rewrite addEdge_Ok by lia. cbn [bind].
    pose proof (stores_apply_op tree _ tes (AddEdge (eu e) (ev e) (ew e)) Hst
                  (addEdge_Ok tree (eu e) (ev e) (ew e) ltac:(lia) ltac:(lia))) as Hst'.
    simpl in Hst'.
    destruct (unite_sets _ uf2 (eu e) (ev e) Hinv2 ltac:(simpl; lia) ltac:(simpl; lia))
      as (u3 & Hun & Hinv3 & Hsz3 & Hsets3).
    rewrite Hun. cbn [bind]. simpl in Hsz3, Hsets3. rewrite Hsz in Hsets3.
    eexists _, u3, _. split; [done |].
    split; [exact Hst' |]. split; [done |].
    split; [by rewrite Hlen |]. split; [lia |]. split.
    { rewrite <- Hsz.
      apply (merge_linked (Z.of_nat (length seen)) uf2 u3 (eu e) (ev e) (map ends tes));
        simpl; rewrite ?Hsz; try done; try lia.
      - intros p Hp. apply in_map_iff in Hp as ([[a b] w] & <- & Hin).
        destruct (proj1 (proj2 Hst) a b w Hin). unfold pair_ok. simpl. lia.
      - intros p. simpl. intuition.
      - intros x y Hx Hy. rewrite <- Hsame. by apply Hsets. }
    split.
    { intros t [<- | Ht].
      - exists e. split; [apply in_or_app; right; by left | done].
      - destruct (Hsub t Ht) as (e' & He' & ->). exists e'.
        split; [apply in_or_app; by left | done]. }
    split.
    { intros e' He'. apply in_app_or in He' as [He' | [<- | []]].
      - pose proof (Hseen e' He') as Hs.
        destruct (same_set_valid _ uf _ _ Hinv Hs) as [Hx Hy].
        apply Hsets3; [lia | lia |]. left. by apply Hsame.
      - apply Hsets3; [lia | lia |]. right. left.
        split; apply (same_set_refl _ uf2 _ Hinv2); simpl; lia. }
    assert (Hnew : ~ linked (map ends tes) (eu e) (ev e)).
    { intros Hl. apply Hsets in Hl; [| lia | lia].
      apply (same_set_reps uf _ _ ru rv) in Hl; done. }
    split; [by constructor | by apply greedy_pick].
Qed.

Lemma kruskal_loop_ok (n : Z) (es : list Edge) (idx : list Z) :
  (forall i, In i idx ->
     0 <= i /\ exists e, es !! Z.to_nat i = Some e /\ 0 <= eu e < n /\ 0 <= ev e < n) ->
  forall (seen : list Edge) (tree : Graph) (uf : UnionFind.t) (tes : list (Z * Z * Z)),
    kruskal_inv n seen tree uf tes ->
    exists tree' uf' tes',
      foldM (kruskal_step es) idx (tree, uf) = Ok (tree', uf') /\
      kruskal_inv n (seen ++ omap (fun i => es !! Z.to_nat i) idx) tree' uf' tes'.
Proof.
  induction idx as [| i idx IH]; intros Hidx seen tree uf tes Hinv.
  - exists tree, uf, tes. simpl. by rewrite app_nil_r.
  - destruct (Hidx i ltac:(by left)) as (Hi & e & He & Hu & Hv).
    destruct (kruskal_step_ok n es seen tree uf tes i e Hinv Hi He Hu Hv)
      as (tree1 & uf1 & tes1 & H1 & Hinv1).
    destruct (IH ltac:(intros; apply Hidx; by right) _ tree1 uf1 tes1 Hinv1)
      as (tree' & uf' & tes' & Hrun & Hinv').
    exists tree', uf', tes'. cbn [foldM]. rewrite H1. cbn [bind]. split; [done |].
    simpl. rewrite He. by rewrite <- app_assoc in Hinv'.
Qed.

Lemma omap_lookup_upto {A : Type} (l : list A) (k : nat) :
  (k <= length l)%nat ->
  omap (fun i => l !! Z.to_nat i) (map Z.of_nat (seq 0 k)) = take k l.
Proof.
  intros Hk. induction k as [| k IH]; [done |].
  rewrite seq_S, map_app, omap_app, IH by lia. simpl. rewrite Nat2Z.id.
  destruct (lookup_lt_is_Some_2 l k) as [x Hx]; [lia |].
  rewrite Hx. by rewrite (take_S_r l k x).
Qed.

Lemma reach_trans (g : Graph) (a b c : Z) : reach g a b -> reach g b c -> reach g a c.
Proof.
  intros [W1 H1] [W2 H2]. induction H2 as [| c d w W2 _ IH Hin]; [by exists W1 |].
  destruct IH as [W IH]. exists (W + w). by apply (walk_step g a c d w W).
Qed.

Lemma reach_edge (g : Graph) (b c w : Z) : In (mkNeighbor c w) (adj g b) -> reach g b c.
Proof. intros Hin. exists (0 + w). apply (walk_step g b b c w 0); [apply walk_here | done]. Qed.

Lemma stores_entry_inv (t : Graph) (es : list (Z * Z * Z)) (b : Z) (nb : Neighbor) :
  stores t es -> In nb (adj t b) ->
  In (b, vertex nb, weight nb) es \/ In (vertex nb, b, weight nb) es.
Proof.
  intros (_ & Hends & Hadj) Hin. destruct (Z.lt_ge_cases b 0) as [Hb | Hb].
  { by rewrite adj_negative in Hin. }
  rewrite Hadj in Hin by lia. apply in_flat_map in Hin as ([[x y] w] & He & Hin).
  unfold entries_of in Hin. apply in_app_or in Hin as [Hin | Hin].
  - destruct (Z.eqb_spec b y) as [-> |]; [| done]. destruct Hin as [<- | []]. by right.
  - destruct (Z.eqb_spec b x) as [-> |]; [| done]. destruct Hin as [<- | []]. by left.
Qed.

Lemma reach_sym_stores (t : Graph) (es : list (Z * Z * Z)) (a b : Z) :
  stores t es -> reach t a b -> reach t b a.
Proof.
  intros Hst [W H]. induction H as [| b c w W _ IH Hin]; [exists 0; apply walk_here |].
  apply (reach_trans t c b a); [| done].
  apply (reach_edge t c b w).
  destruct (stores_entry_inv t es b _ Hst Hin) as [He | He]; simpl in He;
    by destruct (stores_entry t es _ _ _ Hst He).
Qed.

Lemma linked_reach (t : Graph) (es : list (Z * Z * Z)) (a b : Z) :
  stores t es -> linked (map ends es) a b -> reach t a b.
Proof.
  intros Hst. induction 1 as [a | a b Hin | a b _ IH | a b c _ IH1 _ IH2].
  - exists 0. apply walk_here.
  - apply in_map_iff in Hin as ([[x y] w] & [= <- <-] & Hin).
    apply (reach_edge t x y w). by destruct (stores_entry t es _ _ _ Hst Hin).
  - by apply (reach_sym_stores t es).
  - by apply (reach_trans t a b c).
Qed.

Lemma In_scan (g : Graph) (e : Edge) :
  In e (scan g) <->
  exists u nb, 0 <= u < numVertices g /\ In nb (adj g u) /\ u < vertex nb /\
               e = mkEdge (weight nb) u (vertex nb).
Proof.
  unfold scan, scan_vertex. rewrite in_flat_map. split.
  - intros (u & Hu & He). apply In_upto in Hu. apply in_map_iff in He as (nb & <- & Hnb).
    apply List.filter_In in Hnb as [Hnb Hlt]. apply Z.ltb_lt in Hlt. by exists u, nb.
  - intros (u & nb & Hu & Hnb & Hlt & ->). exists u. split; [by apply In_upto |].
    apply in_map_iff. exists nb. split; [done |]. apply List.filter_In.
    split; [done | by apply Z.ltb_lt].
Qed.

Lemma scan_edge_of (g : Graph) (e : Edge) :
  well_formed g = true -> In e (scan g) ->
  0 <= eu e < numVertices g /\ 0 <= ev e < numVertices g /\
  edge_of g (edge_triple e) /\ in_int (ew e) = true.
Proof.
  intros Hwf He. pose proof (proj1 (well_formed_spec g) Hwf) as (_ & _ & Hadj).
  apply In_scan in He as (u & nb & Hu & Hnb & Hlt & ->). simpl.
  destruct (Hadj u nb Hnb) as [Hv Hw]. by rewrite neighbor_eta.
Qed.

(** kruskal on a graph whose node pairs fit the edge array: it returns, and
    its last loop has handled the gathered edges in order of weight. *)
Lemma kruskal_run (g : Graph) :
  well_formed g = true -> Z.of_nat (length (scan g)) <= MAX_EDGES ->
  exists tree uf tes seen,
    kruskal g = Ok tree /\ kruskal_inv (numVertices g) seen tree uf tes /\
    seen ≡ₚ scan g /\ StronglySorted weight_le seen.
Proof.
  intros Hwf Hroom.
  pose proof (proj1 (well_formed_spec g) Hwf) as (Hn & Hlen & Hadj).
  destruct (collect_edges_scan g Hlen Hroom) as (b & Hcol & Hcnt & Hgath).
  set (cnt := edgeCount b) in *.
  assert (Hfit : cnt <= Z.of_nat (length (edges b))).
  { pose proof (f_equal length Hgath) as Hl. unfold gathered in Hl.
    rewrite length_take in Hl. fold cnt in Hl. lia. }
  destruct (sort_outer_loop cnt (Z.to_nat cnt) 0 (edges b))
    as (es & Hsort & Hles & Hperm & _ & Hsorted); [lia | lia | intros k l Hk; lia |].
  unfold gathered in Hgath. fold cnt in Hgath. rewrite Hgath in Hperm.
  destruct (new_uf_inv (numVertices g) ltac:(lia)) as (uf0 & Hnew & Hinv0 & Hsz0 & Hreps0).
  destruct (kruskal_loop_ok (numVertices g) es (upto cnt)) with
    (seen := @nil Edge) (tree := mkGraph (numVertices g) (replicate (Z.to_nat (numVertices g)) []))
    (uf := uf0) (tes := @nil (Z * Z * Z)) as (tree & uf & tes & Hrun & Hinv).
  { intros i Hi. apply In_upto in Hi. split; [lia |].
    destruct (lookup_lt_is_Some_2 es (Z.to_nat i)) as [e He]; [lia |].
    exists e. split; [done |].
    destruct (scan_edge_of g e Hwf) as (? & ? & _); [| done].
    apply (Permutation_in _ Hperm).
    apply list_elem_of_In. apply (list_elem_of_lookup_2 _ (Z.to_nat i)).
    rewrite lookup_take_lt by lia. done. }
  { split; [apply (stores_new (numVertices g)); by rewrite Graph_new_Ok by lia |].
    split; [done |]. split; [done |]. split; [done |]. split.
    { intros i j Hi Hj. simpl. rewrite linked_nil.
      by rewrite (same_set_reps uf0 i j i j) by by apply Hreps0. }
    split; [by intros e [] |]. split; [by intros e [] |]. split; constructor. }
  simpl in Hinv. unfold upto in Hinv. rewrite omap_lookup_upto in Hinv by lia.
  exists tree, uf, tes, (take (Z.to_nat cnt) es).
  split.
  { unfold kruskal, getVertexCount. rewrite Graph_new_Ok by lia. cbn [bind].
    rewrite Hnew. cbn [bind]. rewrite Hcol. cbn [bind].
    unfold sort_edges. fold cnt. unfold upto at 1. rewrite Hsort. cbn [bind].
    fold cnt. by rewrite Hrun. }
  split; [done |]. split; [done |].
  apply sorted_by_index. intros i j x y Hij Hx Hy.
  pose proof (lookup_lt_Some _ _ _ Hy) as Hj. rewrite length_take in Hj.
  rewrite lookup_take_lt in Hx, Hy by lia.
  pose proof (Hsorted (Z.of_nat i) (Z.of_nat j) ltac:(lia) ltac:(lia)) as Hle.
  unfold ew_at in Hle. rewrite !Nat2Z.id, Hx, Hy in Hle. done.
Qed.

(** The forest of kruskal joins whatever the graph joins. *)
Lemma kruskal_joins (g : Graph) (seen : list Edge) (tree : Graph) (uf : UnionFind.t)
    (tes : list (Z * Z * Z)) :
  well_formed g = true -> symmetric g = true ->
  kruskal_inv (numVertices g) seen tree uf tes -> seen ≡ₚ scan g ->
  forall a b, reach g a b -> linked (map ends tes) a b.
Proof.
  intros Hwf Hsym (Hst & Hnt & Hinv & Hsz & Hsets & Hsub & Hseen & Hforest & _) Hperm a b [W HW].
  pose proof (proj1 (well_formed_spec g) Hwf) as (Hn & Hlen & Hadj).
  induction HW as [| c d w W _ IH Hin]; [apply linked_refl |].
  apply (linked_trans _ a c d); [done |].
  destruct (Hadj c _ Hin) as [Hd _]. simpl in Hd.
  assert (Hc : 0 <= c < numVertices g).
  { destruct (Z.lt_ge_cases c 0) as [Hc | Hc]; [by rewrite adj_negative in Hin |].
    unfold adj in Hin. destruct (Z.leb_spec 0 c); [| lia].
    destruct (adjacencyList g !! Z.to_nat c) eqn:E; [| done].
    apply lookup_lt_Some in E. lia. }
  destruct (Z.lt_trichotomy c d) as [Hlt | [-> | Hgt]].
  - apply Hsets; [done | done |].
    apply (Hseen (mkEdge w c d)). apply (Permutation_in _ (Permutation_sym Hperm)).
    apply In_scan. by exists c, (mkNeighbor d w).
  - apply linked_refl.
  - apply linked_sym. apply Hsets; [done | done |].
    apply (Hseen (mkEdge w d c)). apply (Permutation_in _ (Permutation_sym Hperm)).
    apply In_scan. exists d, (mkNeighbor c w).
    split; [done |]. split; [by apply symmetric_In | done].
Qed.

(** X16.  For a well-formed, symmetric graph with at most 500 node pairs to
    gather, kruskal returns, with no exception and no access outside its
    arrays, a spanning forest of the input: the tree is a subgraph of the
    input, none of its edges closes a cycle with the edges added before it,
    and two vertices are joined by a path in the tree exactly when they are
    in the input. *)
Theorem kruskal_spanning_forest (g : Graph) :
  well_formed g = true -> symmetric g = true ->
  Z.of_nat (length (scan g)) <= MAX_EDGES ->
  exists tree tes,
    kruskal g = Ok tree /\
    subgraph tree g /\ stores tree tes /\ forest tes /\
    (forall a b, reach tree a b <-> reach g a b).
Proof.
  intros Hwf Hsym Hroom.
  pose proof (proj1 (well_formed_spec g) Hwf) as (Hn & Hlen & Hadj).
  destruct (kruskal_run g Hwf Hroom) as (tree & uf & tes & seen & Hrun & Hinv & Hperm & _).
  pose proof Hinv as Hkr.
  destruct Hinv as (Hst & Hnt & Hinv & Hsz & Hsets & Hsub & Hseen & Hforest & _).
  assert (Hscan : forall e, In e seen -> edge_of g (edge_triple e)).
  { intros e He. by destruct (scan_edge_of g e Hwf (Permutation_in _ Hperm He)) as (_ & _ & ? & _). }
  assert (Hes : Forall (edge_of g) tes).
  { apply Forall_forall. intros t Ht. apply list_elem_of_In in Ht.
    destruct (Hsub t Ht) as (e' & He' & ->). by apply Hscan. }
  assert (Hsg : subgraph tree g) by by apply (stores_subgraph tree g tes).
  exists tree, tes. split; [done |].
  split; [done |]. split; [done |]. split; [done |].
  intros a c. split.
  - intros [W HW]. exists W. apply (walk_mono tree); [apply Hsg | done].
  - intros Hr. apply (linked_reach tree tes); [done |].
    by apply (kruskal_joins g seen tree uf tes).
Qed.

Lemma kruskal_spanning_forest_witness :
  exists tree tes,
    kruskal fan = Ok tree /\
    subgraph tree fan /\ stores tree tes /\ forest tes /\
    (forall a b, reach tree a b <-> reach fan a b).
Proof. apply (kruskal_spanning_forest fan); [reflexivity | reflexivity | by vm_compute]. Defined.

(** ** kruskal: more edges than the array holds *)

Lemma collect_neighbors_overflow (u : Z) (nbs : list Neighbor) :
  forall b : edge_buf,
    Z.of_nat (length (edges b)) = MAX_EDGES -> 0 <= edgeCount b <= MAX_EDGES ->
    MAX_EDGES < edgeCount b
                + Z.of_nat (length (List.filter (fun nb => u <? vertex nb) nbs)) ->
    foldM (collect_neighbor u) nbs b = Fault OutOfBoundsAccess.
Proof.
  induction nbs as [| nb nbs IH]; intros b Hlen Hcnt Hover; simpl in *; [lia |].
  unfold collect_neighbor at 1. destruct (u <? vertex nb) eqn:Hlt; simpl in *.
  - destruct (decide (edgeCount b = MAX_EDGES)) as [Hfull | Hroom].
    + by rewrite aset_out by lia.
    + rewrite aset_in by lia. cbn [bind]. apply IH; simpl; [by rewrite length_insert | lia | lia].
  - by apply IH.
Qed.

Lemma collect_vertices_overflow (g : Graph) (us : list Z) :
  Z.of_nat (length (adjacencyList g)) = numVertices g ->
  (forall u, In u us -> 0 <= u < numVertices g) ->
  forall b : edge_buf,
    Z.of_nat (length (edges b)) = MAX_EDGES -> 0 <= edgeCount b <= MAX_EDGES ->
    MAX_EDGES < edgeCount b + Z.of_nat (length (flat_map (scan_vertex g) us)) ->
    foldM (collect_vertex g) us b = Fault OutOfBoundsAccess.
Proof.
  intros Hadj. induction us as [| u us IH]; intros Hus b Hlen Hcnt Hover; simpl in *; [lia |].
  rewrite length_app in Hover. unfold collect_vertex at 1.
  rewrite getNeighbors_Ok by (try done; apply Hus; by left). cbn [bind].
  assert (Hk : length (scan_vertex g u)
               = length (List.filter (fun nb => u <? vertex nb) (adj g u))).
  { unfold scan_vertex. by rewrite length_map. }
  destruct (Z.lt_ge_cases MAX_EDGES (edgeCount b + Z.of_nat (length (scan_vertex g u))))
    as [Hnow | Hlater].
  - rewrite collect_neighbors_overflow; [done | done | done | lia].
  - destruct (collect_neighbors_ok u (adj g u) b Hlen ltac:(lia))
      as (b' & Hrun & Hlen' & Hcnt' & _).
    { simpl. rewrite length_map. lia. }
    rewrite Hrun. cbn [bind]. simpl in Hcnt'. rewrite length_map in Hcnt'.
    apply IH; [intros; apply Hus; by right | done | lia | lia].
Qed.

(** X17.  kruskal keeps the gathered edges in an array of 500 slots and does
    not check the count: on a well-formed graph whose lists hold more than
    500 nodes (u, v) with u < v, the gathering loop writes past the end of
    the array. *)
Theorem kruskal_overflows_edge_array (g : Graph) :
  well_formed g = true ->
  MAX_EDGES < Z.of_nat (length (scan g)) ->
  collect_edges g = Fault OutOfBoundsAccess /\ kruskal g = Fault OutOfBoundsAccess.
Proof.
  intros Hwf Hover. pose proof (proj1 (well_formed_spec g) Hwf) as (Hn & Hlen & _).
  assert (Hcol : collect_edges g = Fault OutOfBoundsAccess).
  { unfold collect_edges, getVertexCount. rewrite new_array_Ok by done. cbn [bind].
    apply collect_vertices_overflow; simpl; try done.
    intros u Hu. by apply In_upto. }
  split; [done |].
  unfold kruskal, getVertexCount. rewrite Graph_new_Ok by lia. cbn [bind].
  destruct (new_uf_inv (numVertices g) ltac:(lia)) as (uf0 & Hnew & _).
  rewrite Hnew. cbn [bind]. by rewrite Hcol.
Qed.

Lemma kruskal_overflows_edge_array_witness :
  kruskal (mkGraph 2 [replicate 501 (mkNeighbor 1 1); replicate 501 (mkNeighbor 0 1)])
  = Fault OutOfBoundsAccess.
Proof.
  apply (kruskal_overflows_edge_array
           (mkGraph 2 [replicate 501 (mkNeighbor 1 1); replicate 501 (mkNeighbor 0 1)]));
    by vm_compute.
Defined.

(** ** dijkstra: the tree holds a lightest path to every vertex it reaches *)

Lemma chain_mono (d pv : list Z) (start f f' v : Z) :
  f <= f' -> chain d pv start f v -> chain d pv start f' v.
Proof.
  intros Hf. induction 1 as [| v Hv Hp Hpr Hd _ IH]; [apply chain_start |].
  apply chain_step; try done. lia.
Qed.

(** Writing the distance and predecessor of a vertex that is not final
    keeps the links of every other vertex. *)
Lemma chain_update (d pv : list Z) (start f v alt u x : Z) :
  Z.of_nat (length pv) = Z.of_nat (length d) ->
  0 <= v < Z.of_nat (length d) -> f < nth_z d v ->
  chain d pv start f x -> x <> v ->
  chain (<[Z.to_nat v := alt]> d) (<[Z.to_nat v := u]> pv) start f x.
Proof.
  intros Hlen Hv Hfree. induction 1 as [| x Hx Hp Hpr Hd _ IH]; intros Hne;
    [apply chain_start |].
  assert (Hpv : nth_z pv x <> v) by (intros Heq; rewrite Heq in Hd; lia).
  assert (Hpx : nth_z (<[Z.to_nat v := u]> pv) x = nth_z pv x).
  { rewrite nth_z_insert by lia. by destruct (Z.eqb_spec x v). }
  apply chain_step; rewrite ?length_insert, ?Hpx; try done.
  - rewrite nth_z_insert by lia. by destruct (Z.eqb_spec (nth_z pv x) v).
  - by apply IH.
Qed.

Section Chains.

Variable g : Graph.
Hypothesis Hwf : well_formed g = true.
Hypothesis Hnonneg : nonneg_weights g = true.
Variable start : Z.

Lemma relax_step_chain (f u : Z) (s s' : dijkstra_state) (nb : Neighbor) :
  Z.of_nat (length (dist s)) = numVertices g ->
  Z.of_nat (length (prev s)) = numVertices g ->
  0 <= u < numVertices g -> In nb (adj g u) ->
  nth_z (dist s) u = f -> chains_ok g start f s ->
  relax u s nb = Ok s' ->
  Z.of_nat (length (dist s')) = numVertices g /\
  Z.of_nat (length (prev s')) = numVertices g /\
  nth_z (dist s') u = f /\ chains_ok g start f s'.
Proof.
  intros Hld Hlp Hu Hnb Hdu Hch Hrun.
  pose proof (proj1 (well_formed_spec g) Hwf) as (_ & _ & Hadj).
  destruct (Hadj u nb Hnb) as [Hv _].
  pose proof (nonneg_weights_spec g Hnonneg u nb Hnb) as Hw.
  unfold relax in Hrun.
  apply bind_Ok in Hrun as (du & Hx & Hrun). apply aget_nth_z_inv in Hx as [_ ->].
  rewrite Hdu in Hrun.
  apply bind_Ok in Hrun as (alt & Halt & Hrun). apply int_add_Ok in Halt as [-> _].
  apply bind_Ok in Hrun as (dv & Hx & Hrun). apply aget_nth_z_inv in Hx as [_ ->].
  destruct (Z.ltb_spec (f + weight nb) (nth_z (dist s) (vertex nb))) as [Hlt | _];
    [| by injection Hrun as <-].
  apply bind_Ok in Hrun as (dist' & Hx & Hrun). apply aset_Ok in Hx as [_ ->].
  apply bind_Ok in Hrun as (prev' & Hx & Hrun). apply aset_Ok in Hx as [_ ->].
  apply bind_Ok in Hrun as (dv' & _ & Hrun).
  apply bind_Ok in Hrun as (pq & _ & [= <-]). simpl.
  set (v := vertex nb) in *. set (alt := f + weight nb) in *.
  assert (Hvu : v <> u) by (intros Heq; rewrite Heq in Hlt; lia).
  destruct (Hch v Hv) as [Hvmax _]. destruct (Hch u Hu) as [_ Huch].
  rewrite !length_insert. split; [done |]. split; [done |].
  split; [rewrite nth_z_insert by lia; by destruct (Z.eqb_spec u v) |].
  intros x Hx. destruct (Hch x Hx) as [Hxmax Hxch]. cbn [dist prev].
  rewrite nth_z_insert by lia. destruct (Z.eqb_spec x v) as [-> | Hne].
  - split; [lia |]. intros _. apply chain_step; rewrite ?length_insert.
    + lia.
    + rewrite nth_z_insert, Z.eqb_refl by lia. lia.
    + rewrite nth_z_insert, Z.eqb_refl by lia. lia.
    + rewrite (nth_z_insert (prev s)), Z.eqb_refl by lia.
      rewrite nth_z_insert by lia. destruct (Z.eqb_spec u v); [done | lia].
    + rewrite nth_z_insert, Z.eqb_refl by lia.
      apply chain_update; [lia | lia | lia | apply Huch; lia | done].
  - split; [done |]. intros Hfin.
    apply chain_update; [lia | lia | lia | by apply Hxch | done].
Qed.

Lemma relax_loop_chain (f u : Z) (nbs : list Neighbor) :
  0 <= u < numVertices g -> (forall nb, In nb nbs -> In nb (adj g u)) ->
  forall s s',
    Z.of_nat (length (dist s)) = numVertices g ->
    Z.of_nat (length (prev s)) = numVertices g ->
    nth_z (dist s) u = f -> chains_ok g start f s ->
    foldM (relax u) nbs s = Ok s' -> chains_ok g start f s'.
Proof.
  intros Hu. induction nbs as [| nb nbs IH]; intros Hnbs s s' Hld Hlp Hdu Hch Hrun;
    simpl in Hrun.
  - by injection Hrun as <-.
  - apply bind_Ok in Hrun as (s1 & H1 & Hrun).
    destruct (relax_step_chain f u s s1 nb Hld Hlp Hu ltac:(apply Hnbs; by left) Hdu Hch H1)
      as (Hld1 & Hlp1 & Hdu1 & Hch1).
    by apply (IH ltac:(intros; apply Hnbs; by right) s1 s').
Qed.

(** One round of the loop of dijkstra: the invariant holds again with the
    extracted priority as floor, and either the entry carried the current
    distance of its vertex or the round changed nothing. *)
Lemma dijkstra_round_inv (s s1 : dijkstra_state) (f u : Z) (pq' : PriorityQueue.t) :
  dj_inv g s f ->
  PriorityQueue.extractMin (dj_pq s) = Ok (u, pq') ->
  foldM (relax u) (adj g u) (mkDijkstra (dist s) (prev s) pq') = Ok s1 ->
  exists p,
    f <= p /\ 0 <= u < numVertices g /\ dj_inv g s1 p /\
    (nth_z (dist s) u = p \/ s1 = mkDijkstra (dist s) (prev s) pq').
Proof.
  intros Hinv Hext Hfold.
  pose proof (proj1 (well_formed_spec g) Hwf) as (Hn & Hlen & Hadj).
  destruct Hinv as (Hshape & Hentries & Hprev & Hpending).
  pose proof Hshape as (Hld & Hlp & Hpq).
  destruct (extractMin_Ok_inv _ _ _ Hpq Hext) as (e & Hval & Hpq' & Hcont & Hmin).
  assert (He : In e (contents (dj_pq s))).
  { apply (Permutation_in _ (Permutation_sym Hcont)). by left. }
  destruct (Hentries e He) as (Hu & Hp & Hdu). rewrite Hval in Hu, Hdu.
  set (p := PriorityQueue.priority e) in *.
  set (s0 := mkDijkstra (dist s) (prev s) pq') in *.
  assert (Hshape0 : shape_ok g s0) by done.
  assert (Hentries0 : entries_ok g s0 p).
  { intros x Hx.
    assert (Hx' : In x (contents (dj_pq s))).
    { apply (Permutation_in _ (Permutation_sym Hcont)). by right. }
    destruct (Hentries x Hx') as (H1 & H2 & H3).
    split; [done |]. split; [| done]. split; [by apply Hmin | lia]. }
  assert (Hprev0 : prev_ok g s0 p).
  { intros v Hv Hpv. destruct (Hprev v Hv Hpv) as (H1 & H2 & H3).
    split; [done |]. split; [simpl; lia | done]. }
  assert (Hpending0 : forall v, 0 <= v < numVertices g -> v <> u ->
                        pending_or_relaxed g s0 v).
  { intros v Hv Hvu. destruct (Hpending v Hv) as [Hin | Hrest]; [| by right].
    left. apply (Permutation_in _ Hcont) in Hin as [Heq | Hin]; [| done].
    rewrite Heq in Hval. simpl in Hval. congruence. }
  exists p. split; [lia |]. split; [done |].
  destruct (decide (nth_z (dist s) u = p)) as [Hfresh | Hstale].
  - split; [| by left].
    pose proof (relax_loop g Hwf Hnonneg p u (adj g u) Hu ltac:(auto) s0 s1 []
                  ltac:(by repeat (split; [done |])) Hfold)
      as (Hshape1 & Hentries1 & Hprev1 & Hdu1 & Hpending1 & Hseen1).
    split; [done |]. split; [done |]. split; [done |].
    intros v Hv. destruct (decide (v = u)) as [-> | Hvu]; [| by apply Hpending1].
    right. left. intros nb Hnb. rewrite Hdu1. apply Hseen1.
    apply in_or_app. left. by apply in_rev in Hnb.
  - assert (Hrel : relaxed g (dist s) u).
    { destruct (Hpending u Hu) as [Hin | [Hrel | Hinf]]; [| done | lia].
      specialize (Hmin _ Hin). simpl in Hmin. fold p in Hmin. lia. }
    assert (s1 = s0) as ->.
    { apply (relax_loop_stale g u (adj g u) s0 s1); auto. }
    split; [| by right].
    split; [done |]. split; [done |]. split; [done |].
    intros v Hv. destruct (decide (v = u)) as [-> | Hvu]; [| by apply Hpending0].
    right. by left.
Qed.

Lemma dijkstra_loop_chain (fuel : nat) :
  forall (s s' : dijkstra_state) (f : Z),
    dj_inv g s f -> chains_ok g start f s ->
    dijkstra_loop fuel g s = Ok s' ->
    exists f', dj_inv g s' f' /\ chains_ok g start f' s'.
Proof.
  pose proof (proj1 (well_formed_spec g) Hwf) as (Hn & Hlen & Hadj).
  induction fuel as [| fuel IH]; intros s s' f Hinv Hch Hrun; simpl in Hrun; [done |].
  destruct (PriorityQueue.isEmpty (dj_pq s)); [injection Hrun as <-; eauto |].
  apply bind_Ok in Hrun as ([u pq'] & Hext & Hrun).
  apply bind_Ok in Hrun as (nbs & Hnbs & Hrun).
  apply bind_Ok in Hrun as (s1 & Hfold & Hrun).
  apply (getNeighbors_Ok_inv g u nbs Hlen) in Hnbs as [_ ->].
  destruct (dijkstra_round_inv s s1 f u pq' Hinv Hext Hfold)
    as (p & Hfp & Hu & Hinv1 & Hcase).
  apply (IH s1 s' p Hinv1); [| done].
  assert (Hch0 : chains_ok g start p (mkDijkstra (dist s) (prev s) pq')).
  { intros v Hv. destruct (Hch v Hv) as [Hmax Hc]. split; [done |].
    intros Hfin. apply (chain_mono _ _ _ f); [done | by apply Hc]. }
  destruct Hcase as [Hfresh | ->]; [| done].
  destruct Hinv as ((Hld & Hlp & _) & _).
  by apply (relax_loop_chain p u (adj g u) Hu ltac:(done)
              (mkDijkstra (dist s) (prev s) pq') s1).
Qed.

Lemma dijkstra_search_chain (fuel : nat) (s : dijkstra_state) :
  valid_vertex g start = true ->
  dijkstra_search fuel g start = Ok s ->
  exists f, dj_inv g s f /\ chains_ok g start f s.
Proof.
  intros Hs Hrun. pose proof (proj1 (valid_vertex_spec g start) Hs) as Hstart.
  pose proof (proj1 (well_formed_spec g) Hwf) as (Hn & Hlen & Hadj).
  unfold dijkstra_search, getVertexCount in Hrun.
  rewrite !new_array_Ok in Hrun by lia. cbn [bind] in Hrun.
  rewrite aset_in in Hrun by (rewrite length_replicate; lia). cbn [bind] in Hrun.
  apply bind_Ok in Hrun as (pq0 & Hnew & Hrun).
  apply bind_Ok in Hrun as (pq1 & Hins & Hrun).
  pose proof (new_inv _ _ Hnew) as Hpq0.
  destruct (insert_Ok_inv _ _ _ _ Hpq0 Hins) as [Hpq1 Hcont].
  assert (Hc0 : contents pq0 = []).
  { unfold PriorityQueue.new in Hnew. destruct (numVertices g <=? 0); [done |].
    rewrite new_array_Ok in Hnew by lia. by injection Hnew as <-. }
  rewrite Hc0 in Hcont.
  assert (Hd : forall v, 0 <= v ->
            nth_z (<[Z.to_nat start := 0]> (replicate (Z.to_nat (numVertices g)) INT_MAX)) v
            = if v =? start then 0 else
                nth_z (replicate (Z.to_nat (numVertices g)) INT_MAX) v).
  { intros v Hv. apply nth_z_insert; [rewrite length_replicate |]; lia. }
  refine (dijkstra_loop_chain fuel _ s 0 _ _ Hrun).
  - split; [| split; [| split]].
    + unfold shape_ok. simpl. rewrite length_insert, !length_replicate.
      split; [lia |]. split; [lia | done].
    + intros e He. simpl in He. apply (Permutation_in _ Hcont) in He as [<- | []].
      simpl. rewrite Hd, Z.eqb_refl by lia. unfold INT_MAX. lia.
    + intros v Hv Hpv. simpl in Hpv. rewrite nth_z_replicate in Hpv by done. done.
    + intros v Hv. unfold pending_or_relaxed. simpl. rewrite Hd by lia.
      destruct (Z.eqb_spec v start) as [-> | Hne].
      * left. apply (Permutation_in _ (Permutation_sym Hcont)). by left.
      * right. right. by apply nth_z_replicate.
  - intros v Hv. cbn [dist prev]. rewrite Hd by lia.
    destruct (Z.eqb_spec v start) as [-> | Hne].
    + split; [by unfold INT_MAX |]. intros _. apply chain_start.
    + rewrite nth_z_replicate by done. split; [lia | lia].
Qed.

End Chains.

Lemma chain_walk (g tree : Graph) (start f : Z) (s : dijkstra_state) :
  Z.of_nat (length (dist s)) = numVertices g ->
  nth_z (dist s) start = 0 ->
  stores tree (reverse (omap (dijkstra_edge_of (dist s) (prev s)) (upto (numVertices g)))) ->
  forall v, chain (dist s) (prev s) start f v -> walk tree start v (nth_z (dist s) v).
Proof.
  intros Hld H0 Hst v Hch. induction Hch as [| v Hv Hp Hpr Hd _ IH].
  - rewrite H0. apply walk_here.
  - replace (nth_z (dist s) v)
      with (nth_z (dist s) (nth_z (prev s) v)
            + (nth_z (dist s) v - nth_z (dist s) (nth_z (prev s) v))) by lia.
    apply (walk_step tree start (nth_z (prev s) v) v _ _ IH).
    refine (proj1 (stores_entry tree _ _ _ _ Hst _)).
    apply list_elem_of_In. rewrite elem_of_reverse. apply list_elem_of_omap.
    exists v. split; [apply list_elem_of_In, In_upto; lia |].
    unfold dijkstra_edge_of. by destruct (Z.eqb_spec (nth_z (prev s) v) (-1)).
Qed.

(** X18.  Whenever dijkstra returns a tree for a well-formed graph with
    non-negative weights and a valid start, and no sum [dist[u] + w] of the
    run leaves the range of int, the tree holds a lightest path to every
    vertex it reaches: for each walk of the graph from start to v that weighs
    less than INT_MAX, the tree has a walk from start to v that weighs no
    more. *)
Theorem dijkstra_tree_holds_lightest_paths (fuel : nat) (g : Graph) (start : Z)
    (tree : Graph) :
  well_formed g = true -> nonneg_weights g = true ->
  valid_vertex g start = true ->
  dijkstra_wrap fuel g start = Ok tree -> sums_fit fuel g start ->
  forall v W, walk g start v W -> W < INT_MAX ->
    exists W', W' <= W /\ walk tree start v W'.
Proof.
  intros Hwf Hnonneg Hs Hwrap Hfit v W Hwalk Hfin.
  pose proof (dijkstra_wrap_checked fuel g start tree Hwrap Hfit) as Hrun.
  pose proof (proj1 (valid_vertex_spec g start) Hs) as Hstart.
  destruct (dijkstra_tree_edges fuel g start tree Hwf Hnonneg Hs Hrun)
    as (s & Hsearch & Hnt & Hst).
  destruct (search_distances fuel g start s Hwf Hnonneg Hs Hsearch)
    as (Hld & H0 & Hle & Hleast & _).
  destruct (dijkstra_search_chain g Hwf Hnonneg start fuel s Hs Hsearch) as (f & _ & Hch).
  pose proof (walk_valid g Hwf start Hstart v W Hwalk) as Hv.
  pose proof (Hleast v W Hwalk) as Hdv.
  exists (nth_z (dist s) v). split; [done |].
  apply (chain_walk g tree start f s Hld H0 Hst). apply Hch; [done | lia].
Qed.

Lemma dijkstra_tree_holds_lightest_paths_witness :
  exists tree W',
    dijkstra_wrap 6 triangle 0 = Ok tree /\ W' <= 5 /\ walk tree 0 2 W'.
Proof.
  exists triangle_mst.
  destruct (dijkstra_tree_holds_lightest_paths 6 triangle 0 triangle_mst
              eq_refl eq_refl eq_refl eq_refl ltac:(by vm_compute) 2 (0 + 5))
    as (W' & Hle & Hw).
  - apply (walk_step triangle 0 0 2 5 0); [apply walk_here | simpl; tauto].
  - by unfold INT_MAX.
  - exists W'. split; [reflexivity |]. split; [lia | exact Hw].
Defined.

(** ** prim: the tree reaches what vertex 0 reaches *)

Lemma marked_insert (m : list bool) (u x : Z) :
  0 <= u < Z.of_nat (length m) -> 0 <= x ->
  (marked (<[Z.to_nat u := true]> m) x <-> x = u \/ marked m x).
Proof.
  intros Hu Hx. unfold marked. destruct (decide (x = u)) as [-> | Hne].
  - rewrite list_lookup_insert_eq by lia. tauto.
  - rewrite list_lookup_insert_ne by lia. tauto.
Qed.

Lemma pchain_marks_mono (m m' : list bool) (pr : list Z) (v : Z) :
  (forall x, marked m x -> marked m' x) -> pchain m pr v -> pchain m' pr v.
Proof.
  intros Hsub. induction 1 as [| v Hv Hp Hpr Hm _ IH]; [apply pchain_root |].
  apply pchain_step; auto.
Qed.

(** Writing the parent of a vertex outside the tree keeps the links of
    every other vertex. *)
Lemma pchain_update (m : list bool) (pr : list Z) (v u x : Z) :
  0 <= v < Z.of_nat (length pr) -> ~ marked m v ->
  pchain m pr x -> x <> v -> pchain m (<[Z.to_nat v := u]> pr) x.
Proof.
  intros Hv Hfree. induction 1 as [| x Hx Hp Hpr Hm _ IH]; intros Hne;
    [apply pchain_root |].
  assert (Hpv : nth_z pr x <> v) by (intros Heq; by rewrite Heq in Hm).
  assert (Hpx : nth_z (<[Z.to_nat v := u]> pr) x = nth_z pr x).
  { rewrite nth_z_insert by lia. by destruct (Z.eqb_spec x v). }
  apply pchain_step; rewrite ?length_insert, ?Hpx; try done. by apply IH.
Qed.

Section Prim.

Variable g : Graph.
Hypothesis Hwf : well_formed g = true.

Lemma prim_relax_step (u : Z) (s s' : prim_state) (nb : Neighbor) (seen : list Neighbor) :
  In nb (adj g u) ->
  prim_relax_inv g s u seen ->
  prim_relax u s nb = Ok s' ->
  prim_relax_inv g s' u (nb :: seen).
Proof.
  intros Hnb (Hcore & Hu & Hmu & Hothers & Hseen) Hrun.
  pose proof (proj1 (well_formed_spec g) Hwf) as (_ & _ & Hadj).
  destruct (Hadj u nb Hnb) as [Hv _].
  pose proof Hcore as (Hlm & Hlk & Hlp & Hpq & Hentries & Hkey0 & Hverts).
  unfold prim_relax in Hrun.
  apply bind_Ok in Hrun as (inv & Hinv & Hrun). apply aget_Ok in Hinv as [_ Hinv].
  destruct inv; cbn [negb] in Hrun.
  { injection Hrun as <-. repeat (split; [done |]).
    intros nb' [<- | Hin]; [by left | by apply Hseen]. }
  apply bind_Ok in Hrun as (kv & Hkv & Hrun). apply aget_nth_z_inv in Hkv as [_ ->].
  destruct (Z.ltb_spec (weight nb) (nth_z (key s) (vertex nb))) as [Hlt | Hge].
  2:{ injection Hrun as <-. repeat (split; [done |]).
      intros nb' [<- | Hin]; [by right | by apply Hseen]. }
  apply bind_Ok in Hrun as (key' & Hx & Hrun). apply aset_Ok in Hx as [_ ->].
  apply bind_Ok in Hrun as (parent' & Hx & Hrun). apply aset_Ok in Hx as [_ ->].
  apply bind_Ok in Hrun as (kv' & Hx & Hrun). apply aget_nth_z_inv in Hx as [_ ->].
  rewrite nth_z_insert, Z.eqb_refl in Hrun by lia.
  apply bind_Ok in Hrun as (pq & Hins & [= <-]).
  apply insert_Ok_inv in Hins as [Hpq' Hcont]; [| done].
  set (v := vertex nb) in *. set (w := weight nb) in *.
  assert (Hfree : ~ marked (inMST s) v) by (unfold marked; congruence).
  assert (Hvu : v <> u) by (intros Heq; by rewrite Heq in Hfree).
  destruct (Hverts v Hv) as (Hvmax & _ & _).
  assert (Hkey : forall x, 0 <= x ->
            nth_z (<[Z.to_nat v := w]> (key s)) x = if x =? v then w else nth_z (key s) x).
  { intros x Hx. apply nth_z_insert; lia. }
  assert (Hdown : forall x,
            nth_z (<[Z.to_nat v := w]> (key s)) x <= nth_z (key s) x).
  { apply nth_z_insert_le; lia. }
  assert (Hsettled : forall n0, settled s n0 ->
            settled (mkPrim (inMST s) (<[Z.to_nat v := w]> (key s))
                            (<[Z.to_nat v := u]> (pr_parent s)) pq) n0).
  { intros n0 [Hm | Hk]; [by left |]. right. simpl.
    etrans; [by apply Hdown | done]. }
  split; [| split; [done |]; split; [done |]; split].
  - unfold prim_core. simpl. rewrite !length_insert.
    split; [done |]. split; [done |]. split; [done |]. split; [done |]. split.
    { intros e He. apply (Permutation_in _ Hcont) in He as [<- | He]; simpl.
      - split; [done |]. rewrite Hkey, Z.eqb_refl by lia. lia.
      - destruct (Hentries e He) as [Hr Hk]. split; [done |].
        pose proof (Hdown (PriorityQueue.value e)). lia. }
    split; [pose proof (Hdown 0); lia |].
    intros x Hx. destruct (Hverts x Hx) as (Hxmax & Hxm & Hxk).
    split; [pose proof (Hdown x); lia |].
    split; [intros Hm; pose proof (Hdown x); specialize (Hxm Hm); lia |].
    rewrite Hkey by lia. destruct (Z.eqb_spec x v) as [-> | Hne].
    + intros _. split.
      * right. exists (PriorityQueue.mkElement v w).
        split; [apply (Permutation_in _ (Permutation_sym Hcont)); by left | done].
      * apply pchain_step; rewrite ?length_insert; try lia.
        -- rewrite nth_z_insert, Z.eqb_refl by lia. lia.
        -- rewrite nth_z_insert, Z.eqb_refl by lia. lia.
        -- by rewrite nth_z_insert, Z.eqb_refl by lia.
        -- rewrite nth_z_insert, Z.eqb_refl by lia.
           apply pchain_update; [lia | done | | done].
           destruct (Hverts u Hu) as (_ & Hum & Huk). by apply Huk, Hum.
    + intros Hfin. destruct (Hxk Hfin) as [Hwait Hch]. split.
      * destruct Hwait as [Hm | (e & He & Hval)]; [by left |].
        right. exists e. split; [| done].
        apply (Permutation_in _ (Permutation_sym Hcont)). by right.
      * apply pchain_update; [lia | done | done | done].
  - intros u' n0 Hu' Hm' Hne Hn0. apply Hsettled. by apply (Hothers u').
  - intros n0 [<- | Hin].
    + right. simpl. fold v. rewrite Hkey, Z.eqb_refl by lia. done.
    + apply Hsettled. by apply Hseen.
Qed.

Lemma prim_relax_loop (u : Z) (nbs : list Neighbor) :
  (forall nb, In nb nbs -> In nb (adj g u)) ->
  forall (s s' : prim_state) (seen : list Neighbor),
    prim_relax_inv g s u seen ->
    foldM (prim_relax u) nbs s = Ok s' ->
    prim_relax_inv g s' u (rev nbs ++ seen).
Proof.
  induction nbs as [| nb nbs IH]; intros Hnbs s s' seen Hinv Hrun; simpl in *.
  - by injection Hrun as <-.
  - apply bind_Ok in Hrun as (s1 & H1 & Hrun).
    rewrite <- app_assoc. simpl.
    apply (IH ltac:(intros; apply Hnbs; by right) s1 s' (nb :: seen)); [| done].
    apply (prim_relax_step u s s1 nb seen); auto.
Qed.

Lemma prim_mark_inv (s : prim_state) (u : Z) (pq' : PriorityQueue.t) :
  prim_inv g s -> PriorityQueue.extractMin (pr_pq s) = Ok (u, pq') ->
  0 <= u < numVertices g ->
  prim_relax_inv g (mkPrim (<[Z.to_nat u := true]> (inMST s)) (key s) (pr_parent s) pq') u [].
Proof.
  intros Hinv Hext Hu.
  pose proof (proj1 (well_formed_spec g) Hwf) as (Hn & Hlen & Hadj).
  destruct Hinv as (Hcore & Hclosed).
  pose proof Hcore as (Hlm & Hlk & Hlp & Hpq & Hentries & Hkey0 & Hverts).
  destruct (extractMin_Ok_inv _ _ _ Hpq Hext) as (e & Hval & Hpq' & Hcont & _).
  assert (He : In e (contents (pr_pq s))).
  { apply (Permutation_in _ (Permutation_sym Hcont)). by left. }
  destruct (Hentries e He) as [_ Hku]. rewrite Hval in Hku.
  assert (Hmarks : forall x, 0 <= x ->
            (marked (<[Z.to_nat u := true]> (inMST s)) x <-> x = u \/ marked (inMST s) x)).
  { intros x Hx. apply marked_insert; lia. }
  assert (Hsettled : forall n0, settled s n0 ->
            0 <= vertex n0 ->
            settled (mkPrim (<[Z.to_nat u := true]> (inMST s)) (key s) (pr_parent s) pq') n0).
  { intros n0 [Hm | Hk] Hn0; [left | by right]. simpl. apply Hmarks; [done | by right]. }
  split; [| split; [done |]; split; [apply Hmarks; [lia | by left] |]; split].
  - unfold prim_core. simpl. rewrite length_insert.
    split; [done |]. split; [done |]. split; [done |]. split; [done |]. split.
    { intros x Hx. apply Hentries.
      apply (Permutation_in _ (Permutation_sym Hcont)). by right. }
    split; [done |].
    intros x Hx. destruct (Hverts x Hx) as (Hxmax & Hxm & Hxk).
    split; [done |]. split.
    { intros Hm. apply Hmarks in Hm as [-> | Hm]; [done | by apply Hxm | lia]. }
    intros Hfin. destruct (Hxk Hfin) as [Hwait Hch]. split.
    + destruct Hwait as [Hm | (e' & He' & Hval')];
        [left; apply Hmarks; [lia | by right] |].
      apply (Permutation_in _ Hcont) in He' as [<- | He'].
      * left. apply Hmarks; [lia |]. left. congruence.
      * right. by exists e'.
    + apply (pchain_marks_mono (inMST s)); [| done].
      intros y Hy. destruct (Z.lt_ge_cases y 0) as [Hneg | Hpos].
      * unfold marked in *. replace (Z.to_nat y) with (Z.to_nat 0) in * by lia.
        apply (Hmarks 0); [lia | by right].
      * apply Hmarks; [done | by right].
  - intros u' n0 Hu' Hm' Hne Hn0. apply Hmarks in Hm' as [-> | Hm']; [done | | lia].
    apply Hsettled; [by apply (Hclosed u') |]. destruct (Hadj u' n0 Hn0). lia.
  - by intros n0 [].
Qed.

Lemma prim_loop_inv (fuel : nat) :
  forall (s s' : prim_state),
    prim_inv g s -> prim_loop fuel g s = Ok s' ->
    prim_inv g s' /\ PriorityQueue.isEmpty (pr_pq s') = true.
Proof.
  pose proof (proj1 (well_formed_spec g) Hwf) as (Hn & Hlen & Hadj).
  induction fuel as [| fuel IH]; intros s s' Hinv Hrun; simpl in Hrun; [done |].
  destruct (PriorityQueue.isEmpty (pr_pq s)) eqn:Hemp; [by injection Hrun as <- |].
  apply bind_Ok in Hrun as ([u pq'] & Hext & Hrun).
  apply bind_Ok in Hrun as (m' & Hset & Hrun). apply aset_Ok in Hset as [Hum ->].
  apply bind_Ok in Hrun as (nbs & Hnbs & Hrun).
  apply bind_Ok in Hrun as (s1 & Hfold & Hrun).
  apply (getNeighbors_Ok_inv g u nbs Hlen) in Hnbs as [Hu ->].
  apply (IH s1 s'); [| done].
  pose proof (prim_mark_inv s u pq' Hinv Hext Hu) as Hmark.
  destruct (prim_relax_loop u (adj g u) ltac:(done) _ s1 [] Hmark Hfold)
    as (Hcore1 & _ & Hmu1 & Hothers1 & Hseen1).
  split; [done |]. intros u' n0 Hu' Hm' Hn0.
  destruct (decide (u' = u)) as [-> | Hne]; [| by apply (Hothers1 u')].
  apply Hseen1. apply in_or_app. left. by apply in_rev in Hn0.
Qed.

End Prim.

Lemma light_weights_spec (g : Graph) :
  light_weights g = true -> forall u nb, In nb (adj g u) -> weight nb < INT_MAX.
Proof.
  unfold light_weights. rewrite forallb_forall. intros H u nb Hin.
  unfold adj in Hin. destruct (0 <=? u); [| done].
  destruct (adjacencyList g !! Z.to_nat u) as [l |] eqn:Hl; [| done]. simpl in Hin.
  assert (Hf : forallb (fun nb => weight nb <? INT_MAX) l = true).
  { apply H. apply list_elem_of_In. eapply list_elem_of_lookup_2; eauto. }
  rewrite forallb_forall in Hf. specialize (Hf nb Hin). by apply Z.ltb_lt.
Qed.

(** What a finished run of prim leaves: the loop invariant with an empty
    queue, and a tree that stores one edge per vertex with a parent. *)
Lemma prim_init_inv (g : Graph) (pq1 : PriorityQueue.t) :
  0 < numVertices g -> pq_inv pq1 = true ->
  contents pq1 ≡ₚ [PriorityQueue.mkElement 0 0] ->
  prim_inv g
    (mkPrim (replicate (Z.to_nat (numVertices g)) false)
            (<[Z.to_nat 0 := 0]> (replicate (Z.to_nat (numVertices g)) INT_MAX))
            (replicate (Z.to_nat (numVertices g)) (-1)) pq1).
Proof.
  intros Hn Hpq1 Hcont.
  assert (Hk : forall v, 0 <= v ->
            nth_z (<[Z.to_nat 0 := 0]> (replicate (Z.to_nat (numVertices g)) INT_MAX)) v
            = if v =? 0 then 0 else
                nth_z (replicate (Z.to_nat (numVertices g)) INT_MAX) v).
  { intros v Hv. apply nth_z_insert; [rewrite length_replicate |]; lia. }
  assert (Hnone : forall v, ~ marked (replicate (Z.to_nat (numVertices g)) false) v).
  { intros v Hm. unfold marked in Hm. apply lookup_replicate in Hm as [? _]. done. }
  split; [| intros u nb _ Hm; by apply Hnone in Hm].
  unfold prim_core. simpl. rewrite length_insert, !length_replicate.
  split; [lia |]. split; [lia |]. split; [lia |]. split; [done |]. split.
  { intros e He. apply (Permutation_in _ Hcont) in He as [<- | []]. simpl.
    split; [lia |]. rewrite Hk, Z.eqb_refl by lia. by unfold INT_MAX. }
  split; [rewrite Hk, Z.eqb_refl by lia; by unfold INT_MAX |].
  intros v Hv. rewrite Hk by lia. destruct (Z.eqb_spec v 0) as [-> | Hne].
  - split; [by unfold INT_MAX |]. split; [by unfold INT_MAX |]. intros _. split.
    + right. exists (PriorityQueue.mkElement 0 0).
      split; [apply (Permutation_in _ (Permutation_sym Hcont)); by left | done].
    + apply pchain_root.
  - rewrite nth_z_replicate by done. split; [lia |].
    split; [intros Hm; by apply Hnone in Hm | lia].
Qed.

(** prim up to its loop: the arrays and the queue that the loop starts
    from, and the tree that the last loop builds from what it leaves. *)
Lemma prim_start (fuel : nat) (g tree : Graph) :
  well_formed g = true -> prim fuel g = Ok tree ->
  exists s0 s,
    prim_inv g s0 /\
    inMST s0 = replicate (Z.to_nat (numVertices g)) false /\
    key s0 = <[Z.to_nat 0 := 0]> (replicate (Z.to_nat (numVertices g)) INT_MAX) /\
    pr_parent s0 = replicate (Z.to_nat (numVertices g)) (-1) /\
    contents (pr_pq s0) ≡ₚ [PriorityQueue.mkElement 0 0] /\
    prim_loop fuel g s0 = Ok s /\ 0 < numVertices g /\
    numVertices tree = numVertices g /\
    stores tree (reverse (omap (prim_edge_of (key s) (pr_parent s))
                               (map (Z.add 1) (upto (numVertices g - 1))))).
Proof.
  intros Hwf Hrun. pose proof (proj1 (well_formed_spec g) Hwf) as (Hn & Hlen & Hadj).
  unfold prim, getVertexCount in Hrun.
  rewrite Graph_new_Ok, !new_array_Ok in Hrun by lia. cbn [bind] in Hrun.
  apply bind_Ok in Hrun as (key1 & Hkey1 & Hrun).
  apply aset_Ok in Hkey1 as [H0 ->]. rewrite length_replicate in H0.
  apply bind_Ok in Hrun as (pq0 & Hnew & Hrun).
  apply bind_Ok in Hrun as (pq1 & Hins & Hrun).
  apply bind_Ok in Hrun as (s & Hloop & Hrun).
  pose proof (new_inv _ _ Hnew) as Hpq0.
  destruct (insert_Ok_inv _ _ _ _ Hpq0 Hins) as [Hpq1 Hcont].
  assert (Hc0 : contents pq0 = []).
  { unfold PriorityQueue.new in Hnew. destruct (numVertices g <=? 0); [done |].
    rewrite new_array_Ok in Hnew by lia. by injection Hnew as <-. }
  rewrite Hc0 in Hcont.
  pose proof (prim_init_inv g pq1 ltac:(lia) Hpq1 Hcont) as Hinit.
  destruct (prim_loop_inv g Hwf fuel _ s Hinit Hloop) as [Hinv Hemp].
  pose proof Hinv as ((_ & Hlk & Hlp & _) & _).
  set (xs := map (Z.add 1) (upto (numVertices g - 1))) in *.
  destruct (foldM_edges (prim_edge (key s) (pr_parent s))
              (prim_edge_of (key s) (pr_parent s)) xs)
    with (t := mkGraph (numVertices g) (replicate (Z.to_nat (numVertices g)) []))
         (es := @nil (Z * Z * Z)) (t' := tree) as [Hst Hnv]; [| | done |].
  { intros t v Hv. unfold xs in Hv. apply in_map_iff in Hv as (i & <- & Hi).
    apply In_upto in Hi. unfold prim_edge, prim_edge_of.
    rewrite aget_nth_z by lia. cbn [bind].
    destruct (nth_z (pr_parent s) (1 + i) =? -1); [done |]. cbn [negb].
    by rewrite aget_nth_z by lia. }
  { apply (stores_new (numVertices g)). by rewrite Graph_new_Ok by lia. }
  rewrite app_nil_r in Hst. eexists _, s. split; [exact Hinit |].
  split; [reflexivity |]. split; [reflexivity |]. split; [reflexivity |].
  split; [exact Hcont |]. split; [done |]. split; [lia |]. split; [done | done].
Qed.

Lemma prim_run (fuel : nat) (g tree : Graph) :
  well_formed g = true -> prim fuel g = Ok tree ->
  exists s,
    prim_inv g s /\ contents (pr_pq s) = [] /\ 0 < numVertices g /\
    numVertices tree = numVertices g /\
    stores tree (reverse (omap (prim_edge_of (key s) (pr_parent s))
                               (map (Z.add 1) (upto (numVertices g - 1))))).
Proof.
  intros Hwf Hrun.
  destruct (prim_start fuel g tree Hwf Hrun)
    as (s0 & s & Hinit & _ & _ & _ & _ & Hloop & Hpos & Hnt & Hst).
  destruct (prim_loop_inv g Hwf fuel s0 s Hinit Hloop) as [Hinv Hemp].
  exists s. split; [done |]. split; [| done].
  unfold PriorityQueue.isEmpty in Hemp. apply Z.eqb_eq in Hemp.
  unfold contents. by rewrite Hemp.
Qed.

(** X19.  Whenever prim returns a tree for a well-formed graph that stores no
    weight INT_MAX, the tree reaches everything that vertex 0 reaches in the
    graph: every vertex joined to vertex 0 by a path of the graph is joined
    to it by a path of the tree. *)
Theorem prim_tree_reaches_component (fuel : nat) (g tree : Graph) :
  well_formed g = true -> light_weights g = true ->
  prim fuel g = Ok tree ->
  forall v, reach g 0 v -> reach tree 0 v.
Proof.
  intros Hwf Hlight Hrun v Hreach.
  pose proof (proj1 (well_formed_spec g) Hwf) as (Hn & Hlen & Hadj).
  destruct (prim_run fuel g tree Hwf Hrun) as (s & Hinv & Hcont & Hpos & Hnt & Hst).
  destruct Hinv as ((Hlm & Hlk & Hlp & _ & _ & Hkey0 & Hverts) & Hclosed).
  assert (Hin : forall x, 0 <= x < numVertices g -> nth_z (key s) x < INT_MAX ->
            marked (inMST s) x).
  { intros x Hx Hfin. destruct (Hverts x Hx) as (_ & _ & Hk).
    destruct (Hk Hfin) as [[Hm | (e & He & _)] _]; [done |]. by rewrite Hcont in He. }
  assert (Hall : 0 <= v < numVertices g /\ marked (inMST s) v).
  { destruct Hreach as [W HW]. induction HW as [| b c w W _ IH Hnb].
    - split; [lia |]. apply Hin; [lia | done].
    - destruct IH as [Hb Hmb]. destruct (Hadj b _ Hnb) as [Hc _]. simpl in Hc.
      split; [done |].
      destruct (Hclosed b _ Hb Hmb Hnb) as [Hm | Hk]; [done |]. simpl in Hk.
      apply Hin; [done |].
      pose proof (light_weights_spec g Hlight b _ Hnb) as Hw. simpl in Hw. lia. }
  destruct Hall as [Hv Hmv]. destruct (Hverts v Hv) as (_ & Hfin & Hk).
  destruct (Hk (Hfin Hmv)) as [_ Hch]. clear Hreach Hmv Hfin Hk Hv.
  induction Hch as [| v Hv Hp Hpr Hm _ IH]; [exists 0; apply walk_here |].
  destruct (decide (v = 0)) as [-> | Hv0]; [exists 0; apply walk_here |].
  apply (reach_trans tree 0 (nth_z (pr_parent s) v) v); [done |].
  apply (reach_edge tree _ _ (nth_z (key s) v)).
  refine (proj1 (stores_entry tree _ _ _ _ Hst _)).
  apply list_elem_of_In. rewrite elem_of_reverse. apply list_elem_of_omap.
  exists v. split.
  - apply list_elem_of_In, in_map_iff. exists (v - 1). split; [lia |]. apply In_upto. lia.
  - unfold prim_edge_of. by destruct (Z.eqb_spec (nth_z (pr_parent s) v) (-1)).
Qed.

Lemma prim_tree_reaches_component_witness :
  exists tree, prim 5 triangle = Ok tree /\ reach tree 0 2.
Proof.
  exists triangle_mst. split; [reflexivity |].
  apply (prim_tree_reaches_component 5 triangle triangle_mst);
    [reflexivity | reflexivity | reflexivity |].
  exists (0 + 5). apply (walk_step triangle 0 0 2 5 0); [apply walk_here | simpl; tauto].
Defined.

(** ** bfs: the tree holds a shortest path to every vertex it reaches *)

Lemma path_mono (t t' : Graph) (a b : Z) (k : nat) :
  (forall x nb, In nb (adj t x) -> In nb (adj t' x)) ->
  path t a b k -> path t' a b k.
Proof.
  intros Hsub. induction 1 as [| b c w k _ IH Hin]; [apply path_here |].
  apply (path_step t' a b c w k IH). by apply Hsub.
Qed.

Lemma sorted_snoc {A : Type} (R : A -> A -> Prop) (l : list A) (x : A) :
  StronglySorted R l -> (forall y, In y l -> R y x) -> StronglySorted R (l ++ [x]).
Proof.
  induction 1 as [| a l Hl IH Ha]; intros Hx; simpl.
  - constructor; [constructor | constructor].
  - constructor; [apply IH; intros; apply Hx; by right |].
    apply List.Forall_app. split; [done |]. constructor; [| constructor]. apply Hx. by left.
Qed.

Lemma sorted_ext {A : Type} (R R' : A -> A -> Prop) (l : list A) :
  (forall a b, In a l -> In b l -> R a b -> R' a b) ->
  StronglySorted R l -> StronglySorted R' l.
Proof.
  intros Hext Hs. induction Hs as [| a l Hl IH Ha]; constructor.
  - apply IH. intros x y Hx Hy. apply Hext; by right.
  - rewrite List.Forall_forall in Ha |- *. intros y Hy.
    apply Hext; [by left | by right | by apply Ha].
Qed.

Lemma bfs_visit_levels (g : Graph) (start u : Z) (s s' : bfs_state) (nb : Neighbor)
    (es : list (Z * Z * Z)) (items : list Z) (lv : Z -> nat) :
  tree_of g start (bfs_tree s) (enqueued s) es ->
  marks_of (bfs_visited s) (enqueued s) ->
  In u (enqueued s) -> In nb (adj g u) ->
  levels_ok (bfs_tree s) start (enqueued s) items lv u ->
  bfs_visit u s nb = Ok s' ->
  exists lv' added,
    enqueued s' = enqueued s ++ added /\
    levels_ok (bfs_tree s') start (enqueued s') (items ++ added) lv' u /\
    (forall x, In x (enqueued s) -> lv' x = lv x).
Proof.
  intros Htree Hmarks Hu Hnb (Hl0 & Hpaths & Hbound & Hitems & Hsorted) Hrun.
  unfold bfs_visit in Hrun.
  apply bind_Ok in Hrun as (seen & Hseen & Hrun). apply aget_Ok in Hseen as [Hv0 Hseen].
  destruct seen; cbn [negb] in Hrun.
  { injection Hrun as <-. exists lv, []. rewrite !app_nil_r. done. }
  apply bind_Ok in Hrun as (visited' & Hset & Hrun). apply aset_Ok in Hset as [Hv ->].
  apply bind_Ok in Hrun as (tree' & Hadd & Hrun).
  apply bind_Ok in Hrun as (q' & _ & [= <-]). simpl.
  set (v := vertex nb) in *.
  assert (Hfresh : ~ In v (enqueued s)).
  { intros Hin. apply Hmarks in Hin; [congruence | done]. }
  pose proof Htree as (Hst & _ & _ & Hvs & Hrange & _).
  assert (Hstart : In start (enqueued s)) by (rewrite Hvs; by left).
  assert (Hgrow : forall x n, In n (adj (bfs_tree s) x) -> In n (adj tree' x)).
  { intros x n Hin. destruct (Z.lt_ge_cases x 0) as [Hx | Hx].
    - by rewrite adj_negative in Hin.
    - rewrite (adj_addEdge _ tree' u v (weight nb) x (proj1 Hst) Hadd) by lia.
      apply in_or_app. right. apply in_or_app. by right. }
  set (lv' := fun x => if x =? v then S (lv u) else lv x).
  assert (Hold : forall x, In x (enqueued s) -> lv' x = lv x).
  { intros x Hx. unfold lv'. destruct (Z.eqb_spec x v) as [-> |]; done. }
  assert (Hnew : lv' v = S (lv u)) by (unfold lv'; by rewrite Z.eqb_refl).
  exists lv', [v]. split; [done |]. split; [| done].
  split; [by rewrite Hold |]. split; [| split; [| split]].
  - intros x Hx. apply in_app_or in Hx as [Hx | [<- | []]].
    + rewrite Hold by done. apply (path_mono (bfs_tree s)); [done | by apply Hpaths].
    + rewrite Hnew. apply (path_step tree' start u v (weight nb)).
      * apply (path_mono (bfs_tree s)); [done | by apply Hpaths].
      * pose proof (Hrange u Hu) as Hur.
        rewrite (adj_addEdge _ tree' u v (weight nb) u (proj1 Hst) Hadd) by lia.
        apply in_or_app. right. rewrite Z.eqb_refl. left. unfold v. by rewrite neighbor_eta.
  - intros x Hx. rewrite (Hold u Hu).
    apply in_app_or in Hx as [Hx | [<- | []]]; [rewrite Hold by done; by apply Hbound |].
    rewrite Hnew. lia.
  - intros x Hx. rewrite (Hold u Hu). apply in_app_or in Hx as [Hx | [<- | []]].
    + destruct (Hitems x Hx) as [Hin Hle]. split; [apply in_or_app; by left |].
      by rewrite Hold.
    + split; [apply in_or_app; right; by left |]. rewrite Hnew. lia.
  - apply sorted_snoc.
    + apply (sorted_ext (fun a b => (lv a <= lv b)%nat)); [| done].
      intros a b Ha Hb Hab. rewrite !Hold by by apply Hitems. done.
    + intros y Hy. destruct (Hitems y Hy) as [Hin _]. rewrite Hnew, Hold by done.
      specialize (Hbound y Hin). lia.
Qed.

Lemma bfs_neighbors_levels (g : Graph) (start u : Z) (nbs : list Neighbor) :
  (forall nb, In nb nbs -> In nb (adj g u)) ->
  forall (s s' : bfs_state) (es : list (Z * Z * Z)) (items : list Z) (lv : Z -> nat),
    tree_of g start (bfs_tree s) (enqueued s) es ->
    marks_of (bfs_visited s) (enqueued s) ->
    In u (enqueued s) ->
    levels_ok (bfs_tree s) start (enqueued s) items lv u ->
    foldM (bfs_visit u) nbs s = Ok s' ->
    exists lv' added,
      enqueued s' = enqueued s ++ added /\
      levels_ok (bfs_tree s') start (enqueued s') (items ++ added) lv' u /\
      (forall x, In x (enqueued s) -> lv' x = lv x).
Proof.
  induction nbs as [| nb nbs IH]; intros Hnbs s s' es items lv Htree Hmarks Hu Hlv Hrun;
    simpl in Hrun.
  - injection Hrun as <-. exists lv, []. rewrite !app_nil_r. done.
  - apply bind_Ok in Hrun as (s1 & H1 & Hrun).
    assert (Hnb : In nb (adj g u)) by (apply Hnbs; by left).
    destruct (bfs_visit_tree g start u s s1 nb es Htree Hmarks Hu Hnb H1)
      as (es1 & Htree1 & Hmarks1 & _ & Hmono1).
    destruct (bfs_visit_levels g start u s s1 nb es items lv Htree Hmarks Hu Hnb Hlv H1)
      as (lv1 & added1 & Henq1 & Hlv1 & Hold1).
    destruct (IH ltac:(intros; apply Hnbs; by right) s1 s' es1 (items ++ added1) lv1
                Htree1 Hmarks1 ltac:(by apply Hmono1) Hlv1 Hrun)
      as (lv' & added & Henq & Hlv' & Hold).
    exists lv', (added1 ++ added). rewrite Henq, Henq1, <- !app_assoc in *.
    split; [done |]. split; [done |].
    intros x Hx. rewrite Hold by (apply in_or_app; by left). by apply Hold1.
Qed.

Lemma bfs_loop_levels (g : Graph) (start : Z) :
  well_formed g = true ->
  forall (fuel : nat) (s s' : bfs_state) (served items : list Z) (es : list (Z * Z * Z))
         (lv : Z -> nat),
    bfs_inv g s served items ->
    tree_of g start (bfs_tree s) (enqueued s) es ->
    marks_of (bfs_visited s) (enqueued s) ->
    front_ok (bfs_tree s) start (enqueued s) items lv ->
    level_closed g served (enqueued s) lv ->
    bfs_loop fuel g s = Ok s' ->
    exists lv',
      lv' start = 0%nat /\ In start (enqueued s') /\
      (forall v, In v (enqueued s') -> path (bfs_tree s') start v (lv' v)) /\
      level_closed g (enqueued s') (enqueued s') lv'.
Proof.
  intros Hwf. pose proof (proj1 (well_formed_spec g) Hwf) as (Hn & Hlen & Hadj).
  induction fuel as [| fuel IH];
    intros s s' served items es lv Hinv Htree Hmarks Hfront Hclosed Hrun; [done |].
  simpl in Hrun. pose proof Hinv as (Hq & Hcap & Hlog & Hnd & Hvis & Hmarked & Hnt).
  destruct Hfront as (Hl0 & Hpaths & Hbound & Hsub & Hsorted).
  destruct (Queue.isEmpty (bfs_q s)) eqn:Hemp.
  - injection Hrun as <-. apply (isEmpty_repr _ _ Hq) in Hemp. subst items.
    rewrite app_nil_r in Hlog. exists lv. split; [done |].
    split; [destruct Htree as (_ & _ & _ & -> & _); by left |].
    split; [done |]. by rewrite Hlog in *.
  - destruct items as [| u items].
    { rewrite (proj2 (isEmpty_repr _ _ Hq) eq_refl) in Hemp. done. }
    destruct (dequeue_repr _ _ _ Hq) as (q' & Hdeq & Hq' & Hcap').
    rewrite Hdeq in Hrun. cbn [bind] in Hrun.
    assert (Hin : In u (enqueued s)).
    { rewrite Hlog. apply in_or_app. right. by left. }
    assert (Hu : 0 <= u < numVertices g) by by apply Hmarked.
    rewrite getNeighbors_Ok in Hrun by done. cbn [bind] in Hrun.
    set (s0 := mkBfs (bfs_tree s) (bfs_visited s) q' (enqueued s)) in *.
    destruct (bfs_neighbors_ok g u (served ++ [u]) (adj g u) Hu
                ltac:(intros nb Hnb; by apply (Hadj u)) s0 items)
      as (s1 & items1 & H1 & Hinv1).
    { unfold bfs_inv. simpl. split; [done |]. split; [congruence |].
      split; [by rewrite Hlog, <- app_assoc |]. done. }
    rewrite H1 in Hrun. cbn [bind] in Hrun.
    destruct (bfs_neighbors_tree g start u (adj g u) ltac:(done) s0 s1 es
                Htree Hmarks Hin H1) as (es1 & Htree1 & Hmarks1 & Hnbs1 & Hmono1).
    apply StronglySorted_inv in Hsorted as [Hsorted Hhead].
    rewrite List.Forall_forall in Hhead.
    destruct (bfs_neighbors_levels g start u (adj g u) ltac:(done) s0 s1 es items lv
                Htree Hmarks Hin) as (lv1 & added & Henq & Hlv1 & Hold); [| done |].
    { split; [done |]. split; [done |].
      split; [intros x Hx; apply Hbound; [done | by left] |].
      split; [| done]. intros x Hx. split; [apply Hsub; by right | by apply Hhead]. }
    assert (Hitems1 : items1 = items ++ added).
    { destruct Hinv1 as (_ & _ & Hlog1 & _). rewrite Henq in Hlog1. simpl in Hlog1.
      rewrite Hlog, <- !app_assoc in Hlog1. simpl in Hlog1.
      apply app_inv_head in Hlog1. by injection Hlog1 as <-. }
    rewrite <- Hitems1 in Hlv1.
    destruct Hlv1 as (Hl01 & Hpaths1 & Hbound1 & Hitems1' & Hsorted1).
    apply (IH s1 s' (served ++ [u]) items1 es1 lv1 Hinv1 Htree1 Hmarks1); [| | done].
    + split; [done |]. split; [done |]. split; [| split; [| done]].
      * intros x u' Hx Hu'. specialize (Hbound1 x Hx).
        destruct (Hitems1' u' Hu') as [_ Hle]. lia.
      * intros x Hx. by apply Hitems1'.
    + intros x nb Hx Hnb. apply in_app_or in Hx as [Hx | [<- | []]].
      * destruct (Hclosed x nb Hx Hnb) as [Hv Hle]. simpl in Hv.
        split; [by apply Hmono1 |].
        rewrite !Hold; [done | | done].
        simpl. rewrite Hlog. apply in_or_app. by left.
      * split; [by apply Hnbs1 |]. apply Hbound1. by apply Hnbs1.
Qed.

(** X20.  For a well-formed graph and a valid start, bfs with a budget of
    more than vertexCount rounds returns a tree that holds a shortest path
    to every vertex it reaches: for each path of the graph from start to v,
    the tree has a path from start to v with no more edges. *)
Theorem bfs_tree_holds_shortest_paths (fuel : nat) (g : Graph) (start : Z) :
  well_formed g = true -> valid_vertex g start = true ->
  numVertices g < Z.of_nat fuel ->
  exists tree,
    bfs fuel g start = Ok tree /\
    forall v k, path g start v k -> exists k', (k' <= k)%nat /\ path tree start v k'.
Proof.
  intros Hwf Hs Hfuel.
  pose proof (proj1 (well_formed_spec g) Hwf) as (Hn & Hlen & Hadj).
  pose proof (proj1 (valid_vertex_spec g start) Hs) as Hstart.
  destruct (bfs_run_ok g start fuel Hwf Hs Hfuel) as (s & served & Hrun & Hinv).
  exists (bfs_tree s). split; [unfold bfs; by rewrite Hrun |].
  pose proof Hrun as Hrun'. unfold bfs_run, getVertexCount in Hrun'.
  rewrite Graph_new_Ok, new_array_Ok in Hrun' by lia. cbn [bind] in Hrun'.
  destruct (Queue_new_repr (numVertices g)) as (q0 & Hnew & Hq0 & Hcap0); [lia |].
  rewrite Hnew in Hrun'. cbn [bind] in Hrun'.
  rewrite aset_in in Hrun' by (rewrite length_replicate; lia). cbn [bind] in Hrun'.
  destruct (enqueue_repr q0 [] start Hq0) as (q1 & Henq & Hq1 & Hcap1); [simpl; lia |].
  rewrite Henq in Hrun'. cbn [bind] in Hrun'.
  set (s0 := mkBfs (mkGraph (numVertices g) (replicate (Z.to_nat (numVertices g)) []))
                   (<[Z.to_nat start := true]> (replicate (Z.to_nat (numVertices g)) false))
                   q1 [start]) in *.
  assert (Hinv0 : bfs_inv g s0 [] [start]).
  { unfold bfs_inv. simpl. split; [done |]. split; [congruence |]. split; [done |].
    split; [apply NoDup_singleton |].
    split; [rewrite length_insert, length_replicate; lia |]. split; [| done].
    intros v [<- | []]. split; [done |].
    apply list_lookup_insert_eq. rewrite length_replicate. lia. }
  assert (Htree0 : tree_of g start (bfs_tree s0) (enqueued s0) []).
  { simpl. apply tree_of_new; [done |]. by rewrite Graph_new_Ok by lia. }
  assert (Hmarks0 : marks_of (bfs_visited s0) (enqueued s0)).
  { simpl. intros v Hv. destruct (decide (v = start)) as [-> | Hne].
    - rewrite list_lookup_insert_eq by (rewrite length_replicate; lia).
      split; [by left | done].
    - rewrite list_lookup_insert_ne by lia. split; [| by intros [<- | []]].
      intros Hl. apply lookup_replicate in Hl as [? _]. done. }
  destruct (bfs_loop_levels g start Hwf fuel s0 s [] [start] [] (fun _ => 0%nat)
              Hinv0 Htree0 Hmarks0) as (lv & Hl0 & Hin0 & Hpaths & Hclosed); [| | done |].
  { split; [done |]. split; [intros v [<- | []]; apply path_here |].
    split; [intros; lia |]. split; [done |].
    constructor; [constructor | constructor]. }
  { by intros x nb []. }
  intros v k Hpath.
  assert (Hv : In v (enqueued s) /\ (lv v <= k)%nat).
  { induction Hpath as [| b c w k _ IH Hnb]; [split; [done | lia] |].
    destruct IH as [Hb Hle]. destruct (Hclosed b _ Hb Hnb) as [Hc Hlc]. simpl in Hc, Hlc.
    split; [done | lia]. }
  destruct Hv as [Hv Hle]. exists (lv v). split; [done | by apply Hpaths].
Qed.

Lemma bfs_tree_holds_shortest_paths_witness :
  exists tree,
    bfs 6 fan 0 = Ok tree /\
    forall v k, path fan 0 v k -> exists k', (k' <= k)%nat /\ path tree 0 v k'.
Proof.
  apply (bfs_tree_holds_shortest_paths 6 fan 0); [reflexivity | reflexivity |].
  simpl. lia.
Defined.

(** ** kruskal: the order of the two finds *)

(** X21.  The test [uf.find(u) != uf.find(v)] of kruskal does not depend on
    which operand C++ evaluates first: on a UnionFind that satisfies its
    invariant both orders return, give the same answer, and leave every
    element with the same representative. *)
Theorem find_order_is_irrelevant (bound : Z) (u : UnionFind.t) (a b : Z) :
  uf_inv bound u -> 0 <= a < UnionFind.size u -> 0 <= b < UnionFind.size u ->
  exists t u1 u2,
    same_root u a b = Ok (t, u1) /\ same_root u b a = Ok (t, u2) /\
    (t = true <-> same_set u a b) /\
    (forall i r, rep u1 i r <-> rep u2 i r).
Proof.
  intros Hinv Ha Hb.
  destruct (same_root_spec bound u a b Hinv Ha Hb) as (t & u1 & H1 & Ht & _ & _ & Hk1).
  destruct (same_root_spec bound u b a Hinv Hb Ha) as (t' & u2 & H2 & Ht' & _ & _ & Hk2).
  assert (t = t') as <-.
  { destruct t, t'; try done.
    - destruct Ht as [Ht _], Ht' as [_ Ht']. symmetry. apply Ht'.
      by apply same_set_sym, Ht.
    - destruct Ht as [_ Ht], Ht' as [Ht' _]. apply Ht.
      by apply same_set_sym, Ht'. }
  exists t, u1, u2. split; [done |]. split; [done |]. split; [done |].
  intros i r. by rewrite <- Hk1, <- Hk2.
Qed.

Lemma find_order_is_irrelevant_witness :
  exists t u1 u2,
    same_root (UnionFind.mk [1; 2; 2; 3] [0; 1; 2; 0] 4) 0 3 = Ok (t, u1) /\
    same_root (UnionFind.mk [1; 2; 2; 3] [0; 1; 2; 0] 4) 3 0 = Ok (t, u2).
Proof.
  destruct (find_order_is_irrelevant 2 (UnionFind.mk [1; 2; 2; 3] [0; 1; 2; 0] 4) 0 3)
    as (t & u1 & u2 & H1 & H2 & _); [by apply uf_ok_inv | simpl; lia | simpl; lia |].
  by exists t, u1, u2.
Defined.

(** ** UnionFind: counting the sets *)

Lemma In_roots (bound : Z) (u : UnionFind.t) (i : Z) :
  uf_inv bound u -> (In i (roots u) <-> 0 <= i < UnionFind.size u /\ rep u i i).
Proof.
  intros (Hsz & Hlp & _). unfold roots. rewrite List.filter_In, In_upto, Z.eqb_eq. split.
  - intros [Hi Hroot]. split; [done |]. exists 0%nat. constructor; [lia | done].
  - intros [Hi [k Hk]]. split; [done |]. by destruct (root_path_range _ _ _ _ Hk) as (_ & _ & ?).
Qed.

Lemma NoDup_upto (n : Z) : NoDup (upto n).
Proof.
  unfold upto. assert (Inj eq eq Z.of_nat) by (intros a b Hab; lia).
  apply (NoDup_fmap_2 Z.of_nat), NoDup_seq.
Qed.

Lemma NoDup_roots (u : UnionFind.t) : NoDup (roots u).
Proof. apply NoDup_ListNoDup, List.NoDup_filter, NoDup_ListNoDup, NoDup_upto. Qed.

(** A merge of two different sets removes one root. *)
Lemma unite_roots (bound : Z) (u : UnionFind.t) (a b : Z) :
  uf_inv bound u -> 0 <= a < UnionFind.size u -> 0 <= b < UnionFind.size u ->
  ~ same_set u a b ->
  exists u', UnionFind.unite u a b = Ok u' /\ S (length (roots u')) = length (roots u).
Proof.
  intros Hinv Ha Hb Hdiff.
  destruct (unite_spec bound u a b Hinv Ha Hb)
    as (ra & rb & x & y & u' & Hun & Hra & Hrb & Hxy & Hinv' & Hsz & Hmove).
  exists u'. split; [done |].
  assert (Hne : ra <> rb) by (intros ->; apply Hdiff; by exists rb).
  assert (Hx : rep u x x /\ rep u y y /\ x <> y).
  { destruct Hxy as [[-> ->] | [-> ->]];
      (split; [by eapply rep_root | split; [by eapply rep_root | done]]). }
  destruct Hx as (Hx & Hy & Hxy').
  assert (Hout : ~ In x (roots u')).
  { intros Hin. apply (In_roots _ u' x Hinv') in Hin as [_ Hr].
    pose proof (Hmove x x Hx) as Hr'. rewrite Z.eqb_refl in Hr'.
    apply Hxy'. apply (rep_det _ _ _ _ Hr Hr'). }
  assert (Hiff : forall i, In i (roots u) <-> i = x \/ In i (roots u')).
  { intros i. rewrite (In_roots _ u i Hinv), (In_roots _ u' i Hinv'), Hsz. split.
    - intros [Hi Hr]. destruct (decide (i = x)) as [-> | Hix]; [by left | right].
      split; [done |]. pose proof (Hmove i i Hr) as Hr'. by destruct (Z.eqb_spec i x).
    - intros [-> | [Hi Hr']].
      + split; [| done]. destruct (rep_range _ _ _ Hx) as [Hr _].
        destruct Hinv as (_ & Hlp & _). lia.
      + split; [done |]. destruct Hinv as (_ & _ & _ & Hreps & _).
        destruct (Hreps i Hi) as [r Hr]. pose proof (Hmove i r Hr) as Hr''.
        pose proof (rep_det _ _ _ _ Hr'' Hr') as E.
        destruct (Z.eqb_spec r x); subst; [exact Hy | by eapply rep_root]. }
  assert (Hperm : roots u ≡ₚ x :: roots u').
  { apply NoDup_Permutation; [apply NoDup_roots | |].
    - apply NoDup_cons. split; [by rewrite list_elem_of_In | apply NoDup_roots].
    - intros i. rewrite elem_of_cons, !list_elem_of_In. apply Hiff. }
  by rewrite Hperm.
Qed.

Lemma root_at_root (p : list Z) (K : nat) (r : Z) : nth_z p r = r -> root_at p K r = r.
Proof. intros Hr. induction K as [| K IH]; [done |]. simpl. by rewrite Hr. Qed.

Lemma root_at_reaches (p : list Z) (i r : Z) (k : nat) :
  root_path p i r k -> forall K, (k <= K)%nat -> root_at p K i = r.
Proof.
  induction 1 as [r Hr Hroot | i r k Hi Hne H IH]; intros K HK.
  - by apply root_at_root.
  - destruct K as [| K]; [lia |]. simpl. apply IH. lia.
Qed.

Lemma root_of_rep (bound : Z) (u : UnionFind.t) (i r : Z) :
  uf_inv bound u -> rep u i r -> root_of u i = r.
Proof.
  intros (_ & Hlp & _) [k Hk]. apply (root_at_reaches _ _ _ k); [done |].
  pose proof (root_path_short _ _ _ _ Hk). lia.
Qed.

(** ** kruskal: the size of a forest *)

Lemma linked_sub (ps qs : list (Z * Z)) (a b : Z) :
  (forall p, In p ps -> linked qs (fst p) (snd p)) -> linked ps a b -> linked qs a b.
Proof.
  intros Hsub. induction 1 as [a | a b Hin | a b _ IH | a b c _ IH1 _ IH2].
  - apply linked_refl.
  - apply (Hsub _ Hin).
  - by apply linked_sym.
  - by apply (linked_trans _ a b c).
Qed.

(** A forest of [k] edges on [n] vertices leaves [n - k] components: a
    UnionFind that merged its edges has that many roots. *)
Lemma forest_sets (n : Z) (es : list (Z * Z * Z)) :
  0 <= n -> ends_ok n es -> forest es ->
  exists u,
    uf_inv (Z.of_nat (length es)) u /\ UnionFind.size u = n /\
    (forall i j, 0 <= i < n -> 0 <= j < n ->
       (same_set u i j <-> linked (map ends es) i j)) /\
    (length (roots u) + length es = Z.to_nat n)%nat.
Proof.
  intros Hn Hok Hforest. induction Hforest as [| a b w es Hforest IH Hnew].
  - destruct (new_uf_inv n Hn) as (u & _ & Hinv & Hsz & Hreps).
    exists u. split; [done |]. split; [done |]. split.
    { intros i j Hi Hj. simpl. rewrite linked_nil.
      by rewrite (same_set_reps u i j i j) by by apply Hreps. }
    simpl. rewrite Nat.add_0_r.
    assert (Hperm : roots u ≡ₚ upto n).
    { apply NoDup_Permutation; [apply NoDup_roots | apply NoDup_upto |].
      intros i. rewrite !list_elem_of_In, (In_roots _ u i Hinv), In_upto, Hsz.
      split; [tauto |]. intros Hi. split; [done | by apply Hreps]. }
    rewrite Hperm. unfold upto. by rewrite length_map, length_seq.
  - assert (Hok' : ends_ok n es) by (intros e He; apply Hok; by right).
    destruct (IH Hok') as (u & Hinv & Hsz & Hsets & Hcount).
    destruct (Hok (a, b, w) ltac:(by left)) as [Ha Hb]. simpl in Ha, Hb.
    assert (Hdiff : ~ same_set u a b) by (intros Hs; apply Hnew; by apply Hsets).
    destruct (unite_roots _ u a b Hinv ltac:(lia) ltac:(lia) Hdiff) as (u' & Hun & Hroots).
    destruct (unite_sets _ u a b Hinv ltac:(lia) ltac:(lia))
      as (u'' & Hun' & Hinv' & Hsz' & Hsets').
    rewrite Hun in Hun'. injection Hun' as <-.
    exists u'. split.
    { apply (uf_inv_mono (Z.of_nat (length es) + 1)); [simpl length; lia | done]. }
    split; [lia |]. split; [| simpl length; lia].
    rewrite <- Hsz.
    apply (merge_linked (Z.of_nat (length es)) u u' a b (map ends es));
      rewrite ?Hsz; try done; try lia.
    + intros p Hp. apply in_map_iff in Hp as (e & <- & Hin). by apply Hok'.
    + intros p. simpl. intuition.
    + by rewrite Hsz in Hsets'.
Qed.

(** Of two forests on the same vertices, the one whose edges stay inside the
    components of the other has no more edges. *)
Lemma forest_size_le (n : Z) (A B : list (Z * Z * Z)) :
  0 <= n -> ends_ok n A -> ends_ok n B -> forest A -> forest B ->
  (forall e, In e B -> linked (map ends A) (fst (ends e)) (snd (ends e))) ->
  (length B <= length A)%nat.
Proof.
  intros Hn HokA HokB HfA HfB Hsub.
  destruct (forest_sets n A Hn HokA HfA) as (uA & HinvA & HszA & HsetsA & HcountA).
  destruct (forest_sets n B Hn HokB HfB) as (uB & HinvB & HszB & HsetsB & HcountB).
  assert (Hin : forall a b, linked (map ends B) a b -> linked (map ends A) a b).
  { intros a b. apply linked_sub. intros p Hp.
    apply in_map_iff in Hp as (e & <- & He). by apply Hsub. }
  assert (Hrep : forall i, 0 <= i < n -> rep uB i (root_of uB i)).
  { intros i Hi. destruct HinvB as (? & ? & ? & Hreps & ?).
    destruct (Hreps i ltac:(lia)) as [r Hr].
    by rewrite (root_of_rep _ uB i r) by (done || by repeat split). }
  assert (Hle : (length (root_of uB <$> roots uA) <= length (roots uB))%nat).
  { apply List.NoDup_incl_length.
    - apply NoDup_ListNoDup, NoDup_fmap_2_strong; [| apply NoDup_roots].
      intros x y Hx Hy Hxy. rewrite list_elem_of_In in Hx, Hy.
      apply (In_roots _ uA x HinvA) in Hx as [Hx Hrx].
      apply (In_roots _ uA y HinvA) in Hy as [Hy Hry].
      rewrite HszA in Hx, Hy.
      apply (same_set_reps uA x y x y Hrx Hry). apply HsetsA; [done | done |].
      apply Hin, HsetsB; [done | done |].
      exists (root_of uB x). split; [by apply Hrep | rewrite Hxy; by apply Hrep].
    - intros r Hr. apply in_map_iff in Hr as (x & <- & Hx).
      apply (In_roots _ uA x HinvA) in Hx as [Hx _]. rewrite HszA in Hx.
      apply (In_roots _ uB _ HinvB). pose proof (Hrep x Hx) as Hr.
      split; [| by eapply rep_root].
      destruct (rep_range _ _ _ Hr) as (_ & Hrange & _).
      destruct HinvB as (_ & Hlp & _). lia. }
  rewrite length_fmap in Hle. lia.
Qed.

(** ** kruskal: weights, layer by layer *)

Lemma light_total_nil (L : Z) (K : nat) : light_total L K [] = 0.
Proof. induction K as [| K IH]; [done |]. simpl. lia. Qed.

Lemma light_total_cons (L : Z) (K : nat) (x : Z * Z * Z) (es : list (Z * Z * Z)) :
  L <= snd x ->
  light_total L K (x :: es) = light_total L K es + Z.max 0 (L + Z.of_nat K - snd x).
Proof.
  intros Hx. induction K as [| K IH]; [simpl; lia |].
  cbn [light_total]. rewrite IH. unfold lighter at 1. cbn [List.filter].
  fold (lighter (L + Z.of_nat K) es).
  destruct (Z.leb_spec (snd x) (L + Z.of_nat K)); simpl length; lia.
Qed.

Lemma weight_sum_layers (L : Z) (K : nat) (es : list (Z * Z * Z)) :
  (forall e, In e es -> L <= snd e <= L + Z.of_nat K) ->
  weight_sum es = Z.of_nat (length es) * (L + Z.of_nat K) - light_total L K es.
Proof.
  induction es as [| x es IH]; intros Hes.
  - rewrite light_total_nil. simpl. lia.
  - pose proof (Hes x ltac:(by left)) as Hx.
    rewrite light_total_cons by lia. cbn [weight_sum fold_right].
    fold (weight_sum es). rewrite IH by (intros e He; apply Hes; by right).
    simpl length. lia.
Qed.

Lemma light_total_le (L : Z) (K : nat) (A B : list (Z * Z * Z)) :
  (forall w, (length (lighter w B) <= length (lighter w A))%nat) ->
  light_total L K B <= light_total L K A.
Proof.
  intros Hle. induction K as [| K IH]; [done |]. simpl.
  pose proof (Hle (L + Z.of_nat K)). lia.
Qed.

(** Of two lists with the same number of edges, the one that has at least as
    many edges below every weight is not heavier. *)
Lemma lighter_sums (L M : Z) (A B : list (Z * Z * Z)) :
  (forall e, In e A -> L <= snd e <= M) -> (forall e, In e B -> L <= snd e <= M) ->
  length A = length B ->
  (forall w, (length (lighter w B) <= length (lighter w A))%nat) ->
  weight_sum A <= weight_sum B.
Proof.
  intros HA HB Hlen Hle.
  destruct (Z.le_gt_cases L M) as [HLM | HLM].
  - rewrite (weight_sum_layers L (Z.to_nat (M - L)) A), (weight_sum_layers L (Z.to_nat (M - L)) B).
    + pose proof (light_total_le L (Z.to_nat (M - L)) A B Hle). rewrite Hlen. lia.
    + intros e He. specialize (HB e He). lia.
    + intros e He. specialize (HA e He). lia.
  - destruct A as [| x A]; [| specialize (HA x ltac:(by left)); lia].
    destruct B as [| y B]; [done | done].
Qed.

(** ** kruskal: the lightest spanning forest *)

Lemma In_lighter (w : Z) (es : list (Z * Z * Z)) (e : Z * Z * Z) :
  In e (lighter w es) <-> In e es /\ snd e <= w.
Proof. unfold lighter. by rewrite List.filter_In, Z.leb_le. Qed.

Lemma forest_lighter (w : Z) (es : list (Z * Z * Z)) : forest es -> forest (lighter w es).
Proof.
  induction 1 as [| a b x es Hforest IH Hnew]; [constructor |].
  unfold lighter. cbn [List.filter snd]. fold (lighter w es).
  destruct (x <=? w); [| done]. constructor; [done |].
  intros Hl. apply Hnew. revert Hl. apply linked_mono.
  intros p Hp. apply in_map_iff in Hp as (e & <- & He). apply in_map.
  by apply In_lighter in He as [He _].
Qed.

Lemma forest_ends_differ (es : list (Z * Z * Z)) (a b w : Z) :
  forest es -> In (a, b, w) es -> a <> b.
Proof.
  induction 1 as [| a' b' w' es Hforest IH Hnew]; [done |].
  intros [[= -> -> ->] | Hin]; [| by apply IH].
  intros ->. apply Hnew, linked_refl.
Qed.

Lemma sorted_snoc_inv {A : Type} (R : A -> A -> Prop) (l : list A) (x : A) :
  StronglySorted R (l ++ [x]) -> StronglySorted R l /\ forall y, In y l -> R y x.
Proof.
  induction l as [| z l IH]; simpl; intros Hs; [split; [constructor | done] |].
  apply StronglySorted_inv in Hs as [Hs Hz]. destruct (IH Hs) as [Hl Hx].
  rewrite List.Forall_forall in Hz. split.
  - constructor; [done |]. apply List.Forall_forall. intros y Hy. apply Hz, in_or_app. by left.
  - intros y [<- | Hy]; [| by apply Hx]. apply Hz, in_or_app. right. by left.
Qed.

Lemma greedy_chosen (seen : list Edge) (tes : list (Z * Z * Z)) :
  greedy seen tes -> forall t, In t tes -> exists e, In e seen /\ t = edge_triple e.
Proof.
  induction 1 as [| seen tes e _ IH _ | seen tes e _ IH _]; intros t Ht; [done | |].
  - destruct (IH t Ht) as (e' & He' & ->). exists e'. split; [apply in_or_app; by left | done].
  - destruct Ht as [<- | Ht].
    + exists e. split; [apply in_or_app; right; by left | done].
    + destruct (IH t Ht) as (e' & He' & ->). exists e'.
      split; [apply in_or_app; by left | done].
Qed.

(** When kruskal handles the edges in order of weight, the ends of every
    handled edge are joined by chosen edges that are no heavier. *)
Lemma greedy_light (seen : list Edge) (tes : list (Z * Z * Z)) :
  greedy seen tes -> StronglySorted weight_le seen ->
  forall f, In f seen -> linked (map ends (lighter (ew f) tes)) (eu f) (ev f).
Proof.
  induction 1 as [| seen tes e Hg IH Hl | seen tes e Hg IH Hnew]; intros Hsorted f Hf; [done | |].
  - apply sorted_snoc_inv in Hsorted as [Hsorted Hlast].
    apply in_app_or in Hf as [Hf | [<- | []]]; [by apply IH |].
    revert Hl. apply linked_mono. intros p Hp.
    apply in_map_iff in Hp as (t & <- & Ht). apply in_map, In_lighter. split; [done |].
    destruct (greedy_chosen _ _ Hg t Ht) as (e' & He' & ->). simpl. by apply Hlast.
  - apply sorted_snoc_inv in Hsorted as [Hsorted Hlast].
    apply in_app_or in Hf as [Hf | [<- | []]].
    + generalize (IH Hsorted f Hf). apply linked_mono. intros p Hp.
      apply in_map_iff in Hp as (t & <- & Ht). apply in_map.
      apply In_lighter in Ht as [Ht Hw]. apply In_lighter. split; [by right | done].
    + apply linked_pair. apply (in_map ends _ (edge_triple e)).
      apply In_lighter. split; [by left | simpl; lia].
Qed.

(** kruskal returns a spanning forest of the least weight. *)
Lemma kruskal_lightest (g : Graph) :
  well_formed g = true -> symmetric g = true ->
  Z.of_nat (length (scan g)) <= MAX_EDGES ->
  exists tree tes,
    kruskal g = Ok tree /\ stores tree tes /\
    forest tes /\ Forall (edge_of g) tes /\
    (forall a b, reach g a b -> linked (map ends tes) a b) /\
    forall F : list (Z * Z * Z),
      forest F -> Forall (edge_of g) F ->
      (forall a b, reach g a b -> linked (map ends F) a b) ->
      weight_sum tes <= weight_sum F.
Proof.
  intros Hwf Hsym Hroom.
  pose proof (proj1 (well_formed_spec g) Hwf) as (Hn & Hlen & Hadj).
  destruct (kruskal_run g Hwf Hroom)
    as (tree & uf & tes & seen & Hrun & Hinv & Hperm & Hsorted).
  pose proof Hinv as Hkr.
  destruct Hinv as (Hst & Hnt & Hinv & Hsz & Hsets & Hsub & Hseen & Hforest & Hgreedy).
  assert (Hseen' : forall e, In e seen ->
            0 <= eu e < numVertices g /\ 0 <= ev e < numVertices g /\
            edge_of g (edge_triple e) /\ in_int (ew e) = true).
  { intros e He. apply (scan_edge_of g e Hwf), (Permutation_in _ Hperm He). }
  exists tree, tes. split; [done |]. split; [done |]. split; [done |]. split.
  { apply List.Forall_forall. intros t Ht. destruct (Hsub t Ht) as (e & He & ->).
    by destruct (Hseen' e He) as (_ & _ & ? & _). }
  split; [by apply (kruskal_joins g seen tree uf tes) |].
  intros F HF Hedges Hspan. rewrite List.Forall_forall in Hedges.
  set (n := numVertices g) in *.
  assert (HokT : ends_ok n tes).
  { intros t Ht. destruct (Hsub t Ht) as (e & He & ->).
    destruct (Hseen' e He) as (? & ? & _). by split. }
  assert (HF' : forall a b w, In (a, b, w) F ->
            0 <= a < n /\ 0 <= b < n /\ in_int w = true).
  { intros a b w Hin. pose proof (Hedges _ Hin) as He. simpl in He.
    destruct (Hadj a _ He) as [Hb Hw]. simpl in Hb, Hw. split; [| done].
    destruct (Z.lt_ge_cases a 0) as [Ha | Ha]; [by rewrite adj_negative in He |].
    unfold adj in He. destruct (Z.leb_spec 0 a); [| lia].
    destruct (adjacencyList g !! Z.to_nat a) eqn:E; [| done].
    apply lookup_lt_Some in E. lia. }
  assert (HokF : ends_ok n F).
  { intros [[a b] w] Hin. destruct (HF' a b w Hin) as (? & ? & _). by split. }
  assert (Hlight : forall f w, In f F -> snd f <= w ->
            linked (map ends (lighter w tes)) (fst (ends f)) (snd (ends f))).
  { intros [[a b] x] w Hin Hw. simpl in Hw |- *.
    destruct (HF' a b x Hin) as (Ha & Hb & _).
    pose proof (forest_ends_differ F a b x HF Hin) as Hab.
    assert (Hup : forall e, In e seen -> ew e = x ->
              linked (map ends (lighter w tes)) (eu e) (ev e)).
    { intros e He Hx. generalize (greedy_light seen tes Hgreedy Hsorted e He).
      apply linked_mono. intros p Hp. apply in_map_iff in Hp as (t & <- & Ht).
      apply in_map. apply In_lighter in Ht as [Ht Hle]. apply In_lighter.
      split; [done | lia]. }
    destruct (Z.lt_trichotomy a b) as [Hlt | [-> | Hgt]]; [| done |].
    - apply (Hup (mkEdge x a b)); [| done].
      apply (Permutation_in _ (Permutation_sym Hperm)), In_scan.
      exists a, (mkNeighbor b x). split; [done |]. split; [by apply (Hedges _ Hin) | done].
    - apply linked_sym. apply (Hup (mkEdge x b a)); [| done].
      apply (Permutation_in _ (Permutation_sym Hperm)), In_scan.
      exists b, (mkNeighbor a x). split; [done |].
      split; [apply symmetric_In; [done | done | by apply (Hedges _ Hin)] | done]. }
  apply (lighter_sums INT_MIN INT_MAX).
  - intros t Ht. destruct (Hsub t Ht) as (e & He & ->).
    destruct (Hseen' e He) as (_ & _ & _ & Hw). by apply in_int_spec in Hw.
  - intros [[a b] w] Hin. destruct (HF' a b w Hin) as (_ & _ & Hw). by apply in_int_spec in Hw.
  - apply Nat.le_antisymm.
    + apply (forest_size_le n F tes); try done; [lia |].
      intros t Ht. destruct (Hsub t Ht) as (e & He & ->). simpl. apply Hspan.
      destruct (Hseen' e He) as (_ & _ & Hedge & _). by apply (reach_edge g _ _ (ew e)).
    + apply (forest_size_le n tes F); try done; [lia |].
      intros f Hf. generalize (Hlight f (snd f) Hf ltac:(lia)). apply linked_mono.
      intros p Hp. apply in_map_iff in Hp as (t & <- & Ht). apply in_map.
      by apply In_lighter in Ht as [Ht _].
  - intros w. apply (forest_size_le n (lighter w tes) (lighter w F)).
    + lia.
    + intros t Ht. apply In_lighter in Ht as [Ht _]. by apply HokT.
    + intros t Ht. apply In_lighter in Ht as [Ht _]. by apply HokF.
    + by apply forest_lighter.
    + by apply forest_lighter.
    + intros f Hf. apply In_lighter in Hf as [Hf Hw]. by apply Hlight.
Qed.

(** X22.  For a well-formed, symmetric graph with at most 500 node pairs to
    gather, the forest that kruskal returns is a lightest one: no list of
    edges of the input that closes no cycle and joins whatever the input
    joins has a smaller total weight. *)
Theorem kruskal_forest_is_lightest (g : Graph) :
  well_formed g = true -> symmetric g = true ->
  Z.of_nat (length (scan g)) <= MAX_EDGES ->
  exists tree tes,
    kruskal g = Ok tree /\ stores tree tes /\
    forall F : list (Z * Z * Z),
      forest F -> Forall (edge_of g) F ->
      (forall a b, reach g a b -> linked (map ends F) a b) ->
      weight_sum tes <= weight_sum F.
Proof.
  intros Hwf Hsym Hroom.
  destruct (kruskal_lightest g Hwf Hsym Hroom)
    as (tree & tes & Hrun & Hst & _ & _ & _ & Hleast).
  exists tree, tes. split; [exact Hrun |]. split; [exact Hst | exact Hleast].
Qed.

Lemma kruskal_forest_is_lightest_witness :
  exists tree tes,
    kruskal fan = Ok tree /\ stores tree tes /\
    forall F : list (Z * Z * Z),
      forest F -> Forall (edge_of fan) F ->
      (forall a b, reach fan a b -> linked (map ends F) a b) ->
      weight_sum tes <= weight_sum F.
Proof. apply (kruskal_forest_is_lightest fan); [reflexivity | reflexivity | by vm_compute]. Defined.

(** ** prim: the lightest spanning tree *)

Lemma tree_edges_ext (s s' : prim_state) (order : list Z) :
  (forall v, In v order ->
     nth_z (key s') v = nth_z (key s) v /\
     nth_z (pr_parent s') v = nth_z (pr_parent s) v) ->
  tree_edges s' order = tree_edges s order.
Proof.
  unfold tree_edges. induction order as [| v order IH]; intros Hsame; [done |].
  csimpl. destruct (Hsame v ltac:(by left)) as [Hk Hp].
  rewrite IH by (intros x Hx; apply Hsame; by right).
  unfold prim_edge_of. by rewrite Hk, Hp.
Qed.

Lemma In_tree_edges (s : prim_state) (order : list Z) (a b w : Z) :
  In (a, b, w) (tree_edges s order) <->
  In b order /\ nth_z (pr_parent s) b <> -1 /\
  a = nth_z (pr_parent s) b /\ w = nth_z (key s) b.
Proof.
  unfold tree_edges. rewrite <- list_elem_of_In, list_elem_of_omap. split.
  - intros (v & Hv & Hh). apply list_elem_of_In in Hv. unfold prim_edge_of in Hh.
    destruct (nth_z (pr_parent s) v =? -1) eqn:Hne; [done |]. apply Z.eqb_neq in Hne.
    by injection Hh as <- <- <-.
  - intros (Hb & Hne & -> & ->). exists b. split; [by apply list_elem_of_In |].
    unfold prim_edge_of. by destruct (Z.eqb_spec (nth_z (pr_parent s) b) (-1)).
Qed.

(** A vertex that no pair mentions is joined to itself only. *)
Lemma linked_fresh (ps : list (Z * Z)) (u a b : Z) :
  (forall p, In p ps -> fst p <> u /\ snd p <> u) ->
  linked ps a b -> (a = u <-> b = u).
Proof.
  intros Hfresh. induction 1 as [a | a b Hin | a b _ IH | a b c _ IH1 _ IH2]; try tauto.
  destruct (Hfresh _ Hin) as [Ha Hb]. simpl in *. tauto.
Qed.

Section PrimWeight.

Variable g : Graph.
Hypothesis Hwf : well_formed g = true.
Hypothesis Hsym : symmetric g = true.
Hypothesis Hlight : light_weights g = true.

Lemma mst_relax_step (u : Z) (s s' : prim_state) (nb : Neighbor) (seen : list Neighbor)
    (order : list Z) :
  In nb (adj g u) ->
  prim_relax_inv g s u seen -> prim_mst_inv g s order ->
  prim_relax u s nb = Ok s' ->
  prim_mst_inv g s' order.
Proof.
  intros Hnb (Hcore & Hu & Hmu & _ & _) Hmst Hrun.
  pose proof Hrun as Hrun0.
  pose proof (proj1 (well_formed_spec g) Hwf) as (_ & _ & Hadj).
  destruct (Hadj u nb Hnb) as [Hv _].
  pose proof Hcore as (Hlm & Hlk & Hlp & Hpq & Hentries & Hkey0 & Hverts).
  pose proof Hmst as (Harr & Hnd & Hord & Hzero & Hq1 & Hq2 & Hpar & Hfor & Hbot).
  unfold prim_relax in Hrun.
  apply bind_Ok in Hrun as (inv & Hinv & Hrun). apply aget_Ok in Hinv as [_ Hinv].
  destruct inv; cbn [negb] in Hrun; [by injection Hrun as <- |].
  apply bind_Ok in Hrun as (kv & Hkv & Hrun). apply aget_nth_z_inv in Hkv as [_ ->].
  destruct (Z.ltb_spec (weight nb) (nth_z (key s) (vertex nb))) as [Hlt | Hge];
    [| by injection Hrun as <-].
  apply bind_Ok in Hrun as (key' & Hx & Hrun). apply aset_Ok in Hx as [_ ->].
  apply bind_Ok in Hrun as (parent' & Hx & Hrun). apply aset_Ok in Hx as [_ ->].
  apply bind_Ok in Hrun as (kv' & Hx & Hrun). apply aget_nth_z_inv in Hx as [_ ->].
  rewrite nth_z_insert, Z.eqb_refl in Hrun by lia.
  apply bind_Ok in Hrun as (pq & Hins & [= <-]).
  apply insert_Ok_inv in Hins as [Hpq' Hcont]; [| done].
  set (v := vertex nb) in *. set (w := weight nb) in *.
  assert (Hfree : ~ marked (inMST s) v) by (unfold marked; congruence).
  destruct (Hverts v Hv) as (Hvmax & _ & _).
  assert (Hkey : forall x, 0 <= x ->
            nth_z (<[Z.to_nat v := w]> (key s)) x = if x =? v then w else nth_z (key s) x).
  { intros x Hx. apply nth_z_insert; lia. }
  assert (Hparent : forall x, 0 <= x ->
            nth_z (<[Z.to_nat v := u]> (pr_parent s)) x
            = if x =? v then u else nth_z (pr_parent s) x).
  { intros x Hx. apply nth_z_insert; lia. }
  assert (Hdown : forall x,
            nth_z (<[Z.to_nat v := w]> (key s)) x <= nth_z (key s) x).
  { apply nth_z_insert_le; lia. }
  assert (Hedges : tree_edges (mkPrim (inMST s) (<[Z.to_nat v := w]> (key s))
                                 (<[Z.to_nat v := u]> (pr_parent s)) pq) order
                   = tree_edges s order).
  { apply tree_edges_ext. intros x Hx. apply Hord in Hx as [Hx Hmx]. simpl.
    rewrite Hkey, Hparent by lia.
    destruct (Z.eqb_spec x v) as [-> | Hne]; [done | done]. }
  split; [by apply (prim_relax_arrays g u s _ nb) |].
  split; [done |]. split; [done |]. split; [done |]. split.
  { intros e He. apply (Permutation_in _ Hcont) in He as [<- | He]; simpl.
    - rewrite Hkey, Z.eqb_refl by lia. lia.
    - etrans; [apply Hdown | by apply Hq1]. }
  split.
  { intros x Hx Hmx. simpl. rewrite Hkey by lia. intros Hfin.
    apply (Permutation_in _ (Permutation_sym Hcont)).
    destruct (Z.eqb_spec x v) as [-> | Hne]; [by left | right]. by apply Hq2. }
  split.
  { intros x Hx. simpl. rewrite Hparent by lia.
    destruct (Z.eqb_spec x v) as [-> | Hne].
    - intros _. split; [| rewrite Hkey, Z.eqb_refl by lia; lia].
      intros ->. apply Hfree. apply (Hord 0), (Hzero u), Hord. done.
    - intros Hp. destruct (Hpar x Hx Hp) as [Hx0 Hfin]. split; [done |].
      pose proof (Hdown x). lia. }
  split; [by rewrite Hedges |].
  intros w0 a b x Ha Hma Hab Hx. rewrite Hedges. cbn [inMST] in Hma |- *.
  by apply (Hbot w0 a b x).
Qed.

Lemma mst_relax_loop (u : Z) (order : list Z) (nbs : list Neighbor) :
  (forall nb, In nb nbs -> In nb (adj g u)) ->
  forall (s s' : prim_state) (seen : list Neighbor),
    prim_relax_inv g s u seen -> prim_mst_inv g s order ->
    foldM (prim_relax u) nbs s = Ok s' ->
    prim_mst_inv g s' order.
Proof.
  induction nbs as [| nb nbs IH]; intros Hnbs s s' seen Hinv Hmst Hrun; simpl in *.
  - by injection Hrun as <-.
  - apply bind_Ok in Hrun as (s1 & H1 & Hrun).
    apply (IH ltac:(intros; apply Hnbs; by right) s1 s' (nb :: seen)); [| | done].
    + apply (prim_relax_step g Hwf u s s1 nb seen); auto.
    + apply (mst_relax_step u s s1 nb seen); auto.
Qed.
Lemma tree_edges_marks (s : prim_state) (m : list bool) (q : PriorityQueue.t)
    (order : list Z) :
  tree_edges (mkPrim m (key s) (pr_parent s) q) order = tree_edges s order.
Proof. done. Qed.

Lemma marked_dec (m : list bool) (v : Z) : marked m v \/ ~ marked m v.
Proof. unfold marked. destruct (m !! Z.to_nat v) as [[|] |]; [by left | by right | by right]. Qed.

(** The ends of the tree edges are in the tree. *)
Lemma tree_edges_marked (s : prim_state) (order : list Z) (a b w : Z) :
  prim_core g s -> prim_mst_inv g s order ->
  In (a, b, w) (tree_edges s order) ->
  In a order /\ In b order.
Proof.
  intros Hcore Hmst Hin.
  pose proof Hcore as (Hlm & Hlk & Hlp & Hpq & Hentries & Hkey0 & Hverts).
  pose proof Hmst as (Harr & Hnd & Hord & Hzero & Hq1 & Hq2 & Hpar & Hfor & Hbot).
  apply In_tree_edges in Hin as (Hb & Hne & -> & ->). split; [| done].
  pose proof (proj1 (Hord b) Hb) as [Hvb Hmb].
  destruct (Hverts b Hvb) as (_ & Hfin & Hch). destruct (Hch (Hfin Hmb)) as [_ Hchain].
  destruct (Hpar b Hvb Hne) as [Hb0 _].
  inversion Hchain as [| v Hv Hp Hrange Hm _]; [done |]. subst v.
  apply Hord. split; [lia | done].
Qed.

(** One turn of the [while] loop up to the marking of the vertex taken
    from the queue. *)
Lemma mst_mark (s : prim_state) (u : Z) (pq' : PriorityQueue.t) (order : list Z) :
  prim_inv g s -> prim_mst_inv g s order ->
  PriorityQueue.extractMin (pr_pq s) = Ok (u, pq') -> 0 <= u < numVertices g ->
  exists order',
    prim_mst_inv g (mkPrim (<[Z.to_nat u := true]> (inMST s)) (key s) (pr_parent s) pq')
                 order'.
Proof.
  intros (Hcore & Hclosed) Hmst Hext Hu.
  pose proof (proj1 (well_formed_spec g) Hwf) as (Hn & Hlen & Hadj).
  pose proof Hcore as (Hlm & Hlk & Hlp & Hpq & Hentries & Hkey0 & Hverts).
  pose proof Hmst as (Harr & Hnd & Hord & Hzero & Hq1 & Hq2 & Hpar & Hfor & Hbot).
  destruct (extractMin_Ok_inv _ _ _ Hpq Hext) as (e & Hval & Hpq' & Hcont & Hmin).
  assert (He : In e (contents (pr_pq s))).
  { apply (Permutation_in _ (Permutation_sym Hcont)). by left. }
  assert (Hmarks : forall x, 0 <= x ->
            (marked (<[Z.to_nat u := true]> (inMST s)) x <-> x = u \/ marked (inMST s) x)).
  { intros x Hx. apply marked_insert; lia. }
  assert (HQ1 : forall e', In e' (contents pq') ->
            nth_z (key s) (PriorityQueue.value e') <= PriorityQueue.priority e').
  { intros e' He'. apply Hq1, (Permutation_in _ (Permutation_sym Hcont)). by right. }
  assert (HQ2 : forall v, 0 <= v < numVertices g ->
            ~ marked (<[Z.to_nat u := true]> (inMST s)) v -> nth_z (key s) v < INT_MAX ->
            In (PriorityQueue.mkElement v (nth_z (key s) v)) (contents pq')).
  { intros v Hv Hfree Hfin. rewrite Hmarks in Hfree by lia.
    pose proof (Hq2 v Hv ltac:(tauto) Hfin) as Hin.
    apply (Permutation_in _ Hcont) in Hin as [Heq | Hin]; [| done].
    rewrite Heq in Hval. simpl in Hval. tauto. }
  destruct (marked_dec (inMST s) u) as [Hmu | Hfree].
  { (* a vertex that is in the tree already *)
    assert (Hsame : forall x, 0 <= x ->
              (marked (<[Z.to_nat u := true]> (inMST s)) x <-> marked (inMST s) x)).
    { intros x Hx. rewrite Hmarks by done. split; [intros [-> | ?]; done | by right]. }
    exists order. split; [exact Harr |]. split; [done |]. split.
    { intros v. rewrite (Hord v). simpl. split; intros [Hv Hm]; (split; [done |]);
        by apply Hsame; [lia |]. }
    split; [done |]. split; [done |]. split; [done |]. split; [done |].
    rewrite tree_edges_marks. split; [done |].
    intros w a b x Ha Hma Hab Hx. rewrite tree_edges_marks. cbn [inMST] in Hma |- *.
    apply Hsame in Hma; [| lia]. destruct (Hadj a _ Hab) as [Hb _]. simpl in Hb.
    destruct (Hbot w a b x Ha Hma Hab Hx) as [[Hmb Hl] | Hl]; [left | by right].
    split; [apply Hsame; [lia | done] | done]. }
  assert (Hnew : ~ In u order) by (intros Hin; by apply Hord in Hin as [_ ?]).
  assert (Hold : forall x, 0 <= x -> marked (inMST s) x ->
            marked (<[Z.to_nat u := true]> (inMST s)) x).
  { intros x Hx Hm. apply Hmarks; [done | by right]. }
  assert (Hmem : forall v, In v (u :: order) <->
            0 <= v < numVertices g /\ marked (<[Z.to_nat u := true]> (inMST s)) v).
  { intros v. simpl. rewrite (Hord v). split.
    - intros [<- | [Hv Hm]]; (split; [done |]); (apply Hmarks; [lia |]); [by left | by right].
    - intros [Hv Hm]. apply Hmarks in Hm as [-> | Hm]; [by left | by right | lia]. }
  assert (Hfin : nth_z (key s) u < INT_MAX).
  { destruct (Hentries e He) as [_ Hk]. by rewrite Hval in Hk. }
  destruct (Hverts u Hu) as (_ & _ & Hch). destruct (Hch Hfin) as [_ Hchain].
  destruct (decide (u = 0)) as [-> | Hu0].
  { (* the first turn: vertex 0 *)
    assert (Hp0 : nth_z (pr_parent s) 0 = -1).
    { destruct (decide (nth_z (pr_parent s) 0 = -1)) as [| Hne]; [done |].
      by destruct (Hpar 0 Hu Hne). }
    assert (Hempty : order = []).
    { destruct order as [| v0 order0]; [done |]. exfalso. apply Hnew.
      apply (Hzero v0). by left. }
    subst order. exists [0]. split; [exact Harr |].
    split; [apply NoDup_singleton |]. split; [done |].
    split; [intros v _; by left |]. split; [done |]. split; [done |]. split; [done |].
    assert (Hnone : tree_edges s [0] = []).
    { unfold tree_edges. csimpl. unfold prim_edge_of. by rewrite Hp0. }
    rewrite tree_edges_marks, Hnone. split; [constructor |].
    intros w a b x Ha Hma Hab Hx. right. cbn [inMST] in Hma. simpl hd.
    apply Hmarks in Hma as [-> | Hma]; [apply linked_refl | | lia].
    exfalso. apply (proj2 (Hord a)). done. }
  (* a new vertex, with its tree edge *)
  inversion Hchain as [| v Hv Hp Hrange Hmp _]; [done |]. subst v.
  set (p := nth_z (pr_parent s) u) in *. set (k := nth_z (key s) u) in *.
  assert (Hpv : 0 <= p < numVertices g) by lia.
  assert (Hedge : In (mkNeighbor u k) (adj g p)).
  { destruct Harr as (_ & _ & Hok). by apply Hok. }
  assert (Hcross : forall a b x, 0 <= a < numVertices g -> marked (inMST s) a ->
            In (mkNeighbor b x) (adj g a) -> ~ marked (inMST s) b -> k <= x).
  { intros a b x Ha Hma Hab Hmb.
    destruct (Hclosed a _ Ha Hma Hab) as [Hm | Hk]; [done |]. simpl in Hk.
    destruct (Hadj a _ Hab) as [Hb _]. simpl in Hb.
    pose proof (light_weights_spec g Hlight a _ Hab) as Hx. simpl in Hx.
    pose proof (Hmin _ (Hq2 b Hb Hmb ltac:(lia))) as Hle. simpl in Hle.
    pose proof (Hq1 e He) as Hke. rewrite Hval in Hke. fold k in Hke. lia. }
  assert (Htree : tree_edges s (u :: order) = (p, u, k) :: tree_edges s order).
  { unfold tree_edges. csimpl. unfold prim_edge_of at 1. fold p k.
    by destruct (Z.eqb_spec p (-1)). }
  exists (u :: order). split; [exact Harr |].
  split; [apply NoDup_cons; by rewrite list_elem_of_In |]. split; [done |]. split.
  { intros v _. right. apply (Hzero p), Hord. done. }
  split; [done |]. split; [done |]. split; [done |].
  rewrite tree_edges_marks, Htree. split.
  { constructor; [done |]. intros Hl.
    apply (linked_fresh _ u) in Hl.
    - apply Hfree. destruct Hl as [_ Hl]. by rewrite (Hl eq_refl) in Hmp.
    - intros q Hq. apply in_map_iff in Hq as ([[a b] w] & <- & Hin). simpl.
      destruct (tree_edges_marked s order a b w Hcore Hmst Hin) as [Ha Hb].
      split; intros ->; done. }
  intros w a b x Ha Hma Hab Hx. rewrite tree_edges_marks, Htree.
  cbn [inMST] in Hma |- *. simpl hd.
  destruct (Hadj a _ Hab) as [Hb _]. simpl in Hb.
  assert (Hmono : forall c d,
            linked (map ends (lighter w (tree_edges s order))) c d ->
            linked (map ends (lighter w ((p, u, k) :: tree_edges s order))) c d).
  { intros c d. apply linked_mono. intros q Hq.
    apply in_map_iff in Hq as (t & <- & Ht). apply in_map.
    apply In_lighter in Ht as [Ht Hw]. apply In_lighter. split; [by right | done]. }
  apply Hmarks in Hma as [-> | Hma]; [right; apply linked_refl | | lia].
  destruct (Hbot w a b x Ha Hma Hab Hx) as [[Hmb Hl] | Hl].
  { left. split; [apply Hold; [lia | done] | by apply Hmono]. }
  destruct (Z.le_gt_cases k w) as [Hkw | Hkw].
  - right. destruct (Hbot w p u k Hpv Hmp Hedge Hkw) as [[Hmu _] | Hpl]; [done |].
    apply (linked_trans _ a (hd 0 order) u); [by apply Hmono |].
    apply (linked_trans _ (hd 0 order) p u); [by apply linked_sym, Hmono |].
    apply linked_pair. apply (in_map ends _ (p, u, k)). apply In_lighter.
    split; [by left | done].
  - destruct (marked_dec (inMST s) b) as [Hmb | Hmb];
      [| pose proof (Hcross a b x Ha Hma Hab Hmb); lia].
    left. split; [apply Hold; [lia | done] |]. apply Hmono.
    assert (Hba : In (mkNeighbor a x) (adj g b)) by by apply symmetric_In.
    destruct (Hbot w b a x Hb Hmb Hba Hx) as [[_ Hl'] | Hl']; [by apply linked_sym |].
    apply (linked_trans _ a (hd 0 order) b); [done | by apply linked_sym].
Qed.
Lemma mst_loop (fuel : nat) :
  forall (s s' : prim_state) (order : list Z),
    prim_inv g s -> prim_mst_inv g s order -> prim_loop fuel g s = Ok s' ->
    exists order', prim_mst_inv g s' order'.
Proof.
  pose proof (proj1 (well_formed_spec g) Hwf) as (Hn & Hlen & Hadj).
  induction fuel as [| fuel IH]; intros s s' order Hinv Hmst Hrun; simpl in Hrun; [done |].
  destruct (PriorityQueue.isEmpty (pr_pq s)) eqn:Hemp;
    [injection Hrun as <-; by exists order |].
  apply bind_Ok in Hrun as ([u pq'] & Hext & Hrun).
  apply bind_Ok in Hrun as (m' & Hset & Hrun). apply aset_Ok in Hset as [Hum ->].
  apply bind_Ok in Hrun as (nbs & Hnbs & Hrun).
  apply bind_Ok in Hrun as (s1 & Hfold & Hrun).
  apply (getNeighbors_Ok_inv g u nbs Hlen) in Hnbs as [Hu ->].
  pose proof (prim_mark_inv g Hwf s u pq' Hinv Hext Hu) as Hmark.
  destruct (mst_mark s u pq' order Hinv Hmst Hext Hu) as [order1 Hmst1].
  apply (IH s1 s' order1); [| | done].
  - destruct (prim_relax_loop g Hwf u (adj g u) ltac:(done) _ s1 [] Hmark Hfold)
      as (Hcore1 & _ & Hmu1 & Hothers1 & Hseen1).
    split; [done |]. intros u' n0 Hu' Hm' Hn0.
    destruct (decide (u' = u)) as [-> | Hne]; [| by apply (Hothers1 u')].
    apply Hseen1. apply in_or_app. left. by apply in_rev in Hn0.
  - by apply (mst_relax_loop u order1 (adj g u) ltac:(done) _ s1 [] Hmark).
Qed.

End PrimWeight.

Lemma mst_start (g : Graph) (s0 : prim_state) :
  0 < numVertices g -> prim_inv g s0 ->
  inMST s0 = replicate (Z.to_nat (numVertices g)) false ->
  key s0 = <[Z.to_nat 0 := 0]> (replicate (Z.to_nat (numVertices g)) INT_MAX) ->
  pr_parent s0 = replicate (Z.to_nat (numVertices g)) (-1) ->
  contents (pr_pq s0) ≡ₚ [PriorityQueue.mkElement 0 0] ->
  prim_mst_inv g s0 [].
Proof.
  intros Hpos ((Hlm & Hlk & Hlp & _) & _) Hm Hk Hp Hcont.
  assert (Hnone : forall v, ~ marked (inMST s0) v).
  { intros v Hv. unfold marked in Hv. rewrite Hm in Hv.
    apply lookup_replicate in Hv as [? _]. done. }
  assert (Hkey : forall v, 0 <= v < numVertices g ->
            nth_z (key s0) v = if v =? 0 then 0 else INT_MAX).
  { intros v Hv. rewrite Hk, nth_z_insert by (rewrite ?length_replicate; lia).
    destruct (v =? 0); [done |]. by rewrite nth_z_replicate. }
  assert (Hpar : forall v, 0 <= v < numVertices g -> nth_z (pr_parent s0) v = -1).
  { intros v Hv. rewrite Hp. by rewrite nth_z_replicate. }
  split; [split; [done |]; split; [done |]; intros v Hv Hne; by rewrite Hpar in Hne |].
  split; [constructor |]. split.
  { intros v. split; [done |]. intros [_ Hv]. by apply Hnone in Hv. }
  split; [done |]. split.
  { intros e He. apply (Permutation_in _ Hcont) in He as [<- | []]. simpl.
    by rewrite Hkey by lia. }
  split.
  { intros v Hv _ Hfin. rewrite Hkey in Hfin |- * by done.
    destruct (Z.eqb_spec v 0) as [-> | Hne]; [| lia].
    apply (Permutation_in _ (Permutation_sym Hcont)). by left. }
  split; [intros v Hv Hne; by rewrite Hpar in Hne |].
  split; [constructor |].
  intros w a b x _ Hma. by apply Hnone in Hma.
Qed.

Lemma NoDup_tree_edges (s : prim_state) (l : list Z) : NoDup l -> NoDup (tree_edges s l).
Proof.
  induction 1 as [| v l Hv Hnd IH]; [constructor |].
  unfold tree_edges. csimpl. fold (tree_edges s l).
  destruct (prim_edge_of (key s) (pr_parent s) v) as [[[a b] w] |] eqn:E; [| done].
  apply NoDup_cons. split; [| done]. rewrite list_elem_of_In. intros Hin.
  apply In_tree_edges in Hin as (Hb & _). unfold prim_edge_of in E.
  destruct (_ =? _) in E; [done |]. injection E as _ <- _. by apply list_elem_of_In in Hb.
Qed.

Lemma weight_sum_perm (l l' : list (Z * Z * Z)) : l ≡ₚ l' -> weight_sum l = weight_sum l'.
Proof.
  induction 1 as [| x l l' _ IH | x y l | l l' l'' _ IH1 _ IH2]; simpl in *; lia.
Qed.

Lemma edge_of_range (g : Graph) (a b w : Z) :
  well_formed g = true -> edge_of g (a, b, w) ->
  0 <= a < numVertices g /\ 0 <= b < numVertices g /\ INT_MIN <= w <= INT_MAX.
Proof.
  intros Hwf He. pose proof (proj1 (well_formed_spec g) Hwf) as (Hn & Hlen & Hadj).
  simpl in He. destruct (Hadj a _ He) as [Hb Hw]. simpl in Hb, Hw.
  apply in_int_spec in Hw. split; [| done].
  destruct (Z.lt_ge_cases a 0) as [Ha | Ha]; [by rewrite adj_negative in He |].
  unfold adj in He. destruct (Z.leb_spec 0 a); [| lia].
  destruct (adjacencyList g !! Z.to_nat a) eqn:E; [| done].
  apply lookup_lt_Some in E. lia.
Qed.

(** When the queue of prim is empty, the tree holds what vertex 0 can
    reach. *)
Lemma prim_marks_component (g : Graph) (s : prim_state) :
  well_formed g = true -> light_weights g = true -> 0 < numVertices g ->
  prim_inv g s -> contents (pr_pq s) = [] ->
  forall v, reach g 0 v -> 0 <= v < numVertices g /\ marked (inMST s) v.
Proof.
  intros Hwf Hlight Hpos Hinv Hcont v Hreach.
  pose proof (proj1 (well_formed_spec g) Hwf) as (Hn & Hlen & Hadj).
  destruct Hinv as ((Hlm & Hlk & Hlp & _ & _ & Hkey0 & Hverts) & Hclosed).
  assert (Hin : forall x, 0 <= x < numVertices g -> nth_z (key s) x < INT_MAX ->
            marked (inMST s) x).
  { intros x Hx Hfin. destruct (Hverts x Hx) as (_ & _ & Hk).
    destruct (Hk Hfin) as [[Hm | (e & He & _)] _]; [done |]. by rewrite Hcont in He. }
  destruct Hreach as [W HW]. induction HW as [| b c w W _ IH Hnb].
  - split; [lia |]. apply Hin; [lia | done].
  - destruct IH as [Hb Hmb]. destruct (Hadj b _ Hnb) as [Hc _]. simpl in Hc.
    split; [done |].
    destruct (Hclosed b _ Hb Hmb Hnb) as [Hm | Hk]; [done |]. simpl in Hk.
    apply Hin; [done |].
    pose proof (light_weights_spec g Hlight b _ Hnb) as Hw. simpl in Hw. lia.
Qed.

Lemma pchain_reach (g : Graph) (s : prim_state) (v : Z) :
  prim_arrays_ok g s -> pchain (inMST s) (pr_parent s) v -> reach g 0 v.
Proof.
  intros (_ & Hlp & Hok). induction 1 as [| v Hv Hp Hrange Hm _ IH]; [exists 0; apply walk_here |].
  apply (reach_trans g 0 (nth_z (pr_parent s) v) v); [done |].
  apply (reach_edge g _ _ (nth_z (key s) v)). apply Hok; [lia | done].
Qed.

(** prim returns a lightest spanning tree of what vertex 0 can reach; [T]
    are its edges in the order in which they entered the tree. *)
Lemma prim_lightest (fuel : nat) (g tree : Graph) :
  well_formed g = true -> symmetric g = true -> light_weights g = true ->
  prim fuel g = Ok tree ->
  exists tes T,
    stores tree tes /\ tes ≡ₚ T /\
    forest T /\ Forall (edge_of g) T /\
    (forall e, In e T -> reach g 0 (fst (ends e))) /\
    (forall v, reach g 0 v -> linked (map ends T) 0 v) /\
    forall F : list (Z * Z * Z),
      forest F -> Forall (edge_of g) F ->
      (forall e, In e F -> reach g 0 (fst (ends e))) ->
      (forall v, reach g 0 v -> linked (map ends F) 0 v) ->
      weight_sum tes <= weight_sum F.
Proof.
  intros Hwf Hsym Hlight Hrun.
  pose proof (proj1 (well_formed_spec g) Hwf) as (Hn & Hlen & Hadj).
  destruct (prim_start fuel g tree Hwf Hrun)
    as (s0 & s & Hinit & Hm0 & Hk0 & Hp0 & Hc0 & Hloop & Hpos & Hnt & Hst).
  destruct (prim_loop_inv g Hwf fuel s0 s Hinit Hloop) as [Hinv Hemp].
  assert (Hcont : contents (pr_pq s) = []).
  { unfold PriorityQueue.isEmpty in Hemp. apply Z.eqb_eq in Hemp.
    unfold contents. by rewrite Hemp. }
  destruct (mst_loop g Hwf Hsym Hlight fuel s0 s [] Hinit
              (mst_start g s0 Hpos Hinit Hm0 Hk0 Hp0 Hc0) Hloop) as [order Hmst].
  pose proof Hinv as (Hcore & Hclosed).
  pose proof Hcore as (Hlm & Hlk & Hlp & Hpq & Hentries & Hkey0 & Hverts).
  pose proof Hmst as (Harr & Hnd & Hord & Hzero & Hq1 & Hq2 & Hpar & Hfor & Hbot).
  pose proof (prim_marks_component g s Hwf Hlight Hpos Hinv Hcont) as Hcomp.
  set (n := numVertices g) in *.
  set (xs := map (Z.add 1) (upto (n - 1))) in *.
  fold (tree_edges s xs) in Hst.
  assert (Hperm : reverse (tree_edges s xs) ≡ₚ tree_edges s order).
  { rewrite reverse_Permutation.
    apply NoDup_Permutation.
    - apply NoDup_tree_edges. assert (Inj eq eq (Z.add 1)) by (intros a b Hab; lia).
      apply (NoDup_fmap_2 (Z.add 1)), NoDup_upto.
    - by apply NoDup_tree_edges.
    - intros [[a b] w]. rewrite !list_elem_of_In, !In_tree_edges.
      assert (Hxs : In b xs <-> 0 < b < n).
      { unfold xs. rewrite in_map_iff. split.
        - intros (i & <- & Hi). apply In_upto in Hi. lia.
        - intros Hb. exists (b - 1). split; [lia |]. apply In_upto. lia. }
      rewrite Hxs, (Hord b). split.
      + intros (Hb & Hne & Ha & Hw). split; [| done]. split; [lia |].
        destruct (Hpar b ltac:(lia) Hne) as [_ Hfin].
        destruct (Hverts b ltac:(lia)) as (_ & _ & Hk).
        destruct (Hk Hfin) as [[Hm | (e & He & _)] _]; [done |]. by rewrite Hcont in He.
      + intros ((Hb & Hm) & Hne & Ha & Hw). split; [| done].
        destruct (Hpar b Hb Hne) as [Hb0 _]. lia. }
  set (T := tree_edges s order) in *.
  assert (HT : forall a b w, In (a, b, w) T ->
            (0 <= a < n /\ marked (inMST s) a) /\ (0 <= b < n /\ marked (inMST s) b) /\
            edge_of g (a, b, w)).
  { intros a b w Ht.
    destruct (tree_edges_marked g s order a b w Hcore Hmst Ht) as [Ha Hb].
    apply Hord in Ha, Hb. split; [done |]. split; [done |].
    apply In_tree_edges in Ht as (_ & Hne & -> & ->). simpl.
    destruct Harr as (_ & _ & Hok). apply Hok; [tauto | done]. }
  assert (Hback : forall v, 0 <= v < n -> marked (inMST s) v -> reach g 0 v).
  { intros v Hv Hm. apply (pchain_reach g s v Harr).
    destruct (Hverts v Hv) as (_ & Hfin & Hk). by destruct (Hk (Hfin Hm)). }
  assert (HokT : ends_ok n T).
  { intros [[a b] w] Ht. destruct (HT a b w Ht) as ([? _] & [? _] & _). by split. }
  assert (Hlink : forall v, pchain (inMST s) (pr_parent s) v ->
            0 <= v < n -> marked (inMST s) v -> linked (map ends T) 0 v).
  { induction 1 as [| v Hv Hp Hrange Hm _ IH]; intros Hvn Hmv; [apply linked_refl |].
    apply (linked_trans _ 0 (nth_z (pr_parent s) v) v); [apply IH; [lia | done] |].
    apply linked_pair. apply (in_map ends _ (nth_z (pr_parent s) v, v, nth_z (key s) v)).
    apply In_tree_edges. split; [by apply Hord | done]. }
  exists (reverse (tree_edges s xs)), T. split; [done |]. split; [done |].
  split; [done |]. split.
  { apply List.Forall_forall. intros [[a b] w] Ht. by destruct (HT a b w Ht) as (_ & _ & ?). }
  split.
  { intros [[a b] w] Ht. destruct (HT a b w Ht) as ([Ha Hma] & _). by apply Hback. }
  split.
  { intros v Hv. destruct (Hcomp v Hv) as [Hvn Hmv]. apply Hlink; [| done | done].
    destruct (Hverts v Hvn) as (_ & Hfin & Hk). by destruct (Hk (Hfin Hmv)). }
  intros F HF Hedges Hin Hspan. rewrite List.Forall_forall in Hedges.
  rewrite (weight_sum_perm _ _ Hperm).
  assert (HokF : ends_ok n F).
  { intros [[a b] w] Hf. destruct (edge_of_range g a b w Hwf (Hedges _ Hf)) as (? & ? & _).
    by split. }
  assert (Hmid : forall f w, In f F -> snd f <= w ->
            linked (map ends (lighter w T)) (fst (ends f)) (snd (ends f))).
  { intros [[a b] x] w Hf Hx. pose proof (Hedges _ Hf) as Hab. simpl in Hab, Hx |- *.
    destruct (Hcomp a (Hin _ Hf)) as [Ha Hma].
    assert (Hrb : reach g 0 b).
    { apply (reach_trans g 0 a b); [exact (Hin _ Hf) | by apply (reach_edge g a b x)]. }
    destruct (Hcomp b Hrb) as [Hb Hmb].
    destruct (Hbot w a b x Ha Hma Hab Hx) as [[_ Hl] | Hl]; [done |].
    assert (Hba : In (mkNeighbor a x) (adj g b)) by by apply symmetric_In.
    destruct (Hbot w b a x Hb Hmb Hba Hx) as [[_ Hl'] | Hl']; [by apply linked_sym |].
    apply (linked_trans _ a (hd 0 order) b); [done | by apply linked_sym]. }
  apply (lighter_sums INT_MIN INT_MAX).
  - intros [[a b] w] Ht. destruct (HT a b w Ht) as (_ & _ & He).
    by destruct (edge_of_range g a b w Hwf He) as (_ & _ & ?).
  - intros [[a b] w] Hf.
    by destruct (edge_of_range g a b w Hwf (Hedges _ Hf)) as (_ & _ & ?).
  - apply Nat.le_antisymm.
    + apply (forest_size_le n F T); try done; [lia |].
      intros [[a b] w] Ht. destruct (HT a b w Ht) as ([Ha Hma] & [Hb Hmb] & _). simpl.
      apply (linked_trans _ a 0 b); [apply linked_sym |]; apply Hspan; by apply Hback.
    + apply (forest_size_le n T F); try done; [lia |].
      intros f Hf. generalize (Hmid f (snd f) Hf ltac:(lia)). apply linked_mono.
      intros p Hp. apply in_map_iff in Hp as (t & <- & Ht). apply in_map.
      by apply In_lighter in Ht as [Ht _].
  - intros w. apply (forest_size_le n (lighter w T) (lighter w F)).
    + lia.
    + intros t Ht. apply In_lighter in Ht as [Ht _]. by apply HokT.
    + intros t Ht. apply In_lighter in Ht as [Ht _]. by apply HokF.
    + by apply forest_lighter.
    + by apply forest_lighter.
    + intros f Hf. apply In_lighter in Hf as [Hf Hw]. by apply Hmid.
Qed.

(** X23.  When prim returns a tree for a well-formed, symmetric graph that
    stores no weight INT_MAX, the tree is a lightest spanning tree of what
    vertex 0 can reach: no cycle-free list of edges of the input that joins
    vertex 0 to every vertex it can reach, and lies among those vertices,
    has a smaller total weight. *)
Theorem prim_tree_is_lightest (fuel : nat) (g tree : Graph) :
  well_formed g = true -> symmetric g = true -> light_weights g = true ->
  prim fuel g = Ok tree ->
  exists tes,
    stores tree tes /\
    forall F : list (Z * Z * Z),
      forest F -> Forall (edge_of g) F ->
      (forall e, In e F -> reach g 0 (fst (ends e))) ->
      (forall v, reach g 0 v -> linked (map ends F) 0 v) ->
      weight_sum tes <= weight_sum F.
Proof.
  intros Hwf Hsym Hlight Hrun.
  destruct (prim_lightest fuel g tree Hwf Hsym Hlight Hrun)
    as (tes & T & Hst & _ & _ & _ & _ & _ & Hleast).
  exists tes. split; [exact Hst | exact Hleast].
Qed.

Lemma prim_tree_is_lightest_witness :
  exists tes,
    stores triangle_mst tes /\
    forall F : list (Z * Z * Z),
      forest F -> Forall (edge_of triangle) F ->
      (forall e, In e F -> reach triangle 0 (fst (ends e))) ->
      (forall v, reach triangle 0 v -> linked (map ends F) 0 v) ->
      weight_sum tes <= weight_sum F.
Proof.
  apply (prim_tree_is_lightest 5 triangle triangle_mst); reflexivity.
Defined.

(** ** prim and kruskal on a connected graph *)

(** X24.  On a well-formed, symmetric, connected graph that stores no weight
    INT_MAX and has at most 500 node pairs to gather, whenever prim returns
    a tree, kruskal returns one too, and the two trees have the same total
    weight. *)
Theorem prim_kruskal_same_weight (fuel : nat) (g t1 : Graph) :
  well_formed g = true -> symmetric g = true -> light_weights g = true ->
  (forall v, 0 <= v < numVertices g -> reach g 0 v) ->
  Z.of_nat (length (scan g)) <= MAX_EDGES ->
  prim fuel g = Ok t1 ->
  exists t2 tes1 tes2,
    kruskal g = Ok t2 /\ stores t1 tes1 /\ stores t2 tes2 /\
    weight_sum tes1 = weight_sum tes2.
Proof.
  intros Hwf Hsym Hlight Hconn Hroom Hrun.
  destruct (prim_lightest fuel g t1 Hwf Hsym Hlight Hrun)
    as (tes1 & T & Hst1 & Hperm & HforT & HedT & HinT & HspT & Hleast1).
  destruct (kruskal_lightest g Hwf Hsym Hroom)
    as (t2 & tes2 & Hrun2 & Hst2 & Hfor2 & Hed2 & Hsp2 & Hleast2).
  exists t2, tes1, tes2. split; [done |]. split; [done |]. split; [done |].
  apply Z.le_antisymm.
  - apply Hleast1; [done | done | | by intros v; apply Hsp2].
    intros [[a b] w] He. rewrite List.Forall_forall in Hed2.
    destruct (edge_of_range g a b w Hwf (Hed2 _ He)) as (Ha & _). by apply Hconn.
  - rewrite (weight_sum_perm _ _ Hperm). apply Hleast2; [done | done |].
    intros a b [W HW]. induction HW as [| c d w W _ IH Hin]; [apply linked_refl |].
    apply (linked_trans _ a c d); [done |].
    destruct (edge_of_range g c d w Hwf Hin) as (Hc & Hd & _).
    apply (linked_trans _ c 0 d); [apply linked_sym |]; apply HspT; by apply Hconn.
Qed.

Lemma prim_kruskal_same_weight_witness :
  exists t2 tes1 tes2,
    kruskal triangle = Ok t2 /\ stores triangle_mst tes1 /\ stores t2 tes2 /\
    weight_sum tes1 = weight_sum tes2.
Proof.
  apply (prim_kruskal_same_weight 5 triangle triangle_mst);
    [reflexivity | reflexivity | reflexivity | | by vm_compute | reflexivity].
  intros v Hv. simpl in Hv.
  assert (Hcases : v = 0 \/ v = 1 \/ v = 2) by lia.
  destruct Hcases as [-> | [-> | ->]].
  - exists 0. apply walk_here.
  - exists (0 + 1). apply (walk_step triangle 0 0 1 1 0); [apply walk_here | simpl; tauto].
  - exists (0 + 5). apply (walk_step triangle 0 0 2 5 0); [apply walk_here | simpl; tauto].
Defined.

(** ** prim: the loop ends *)

Lemma pending_nonneg (g : Graph) (m : list bool) : 0 <= pending g m.
Proof.
  unfold pending. induction (upto (numVertices g)) as [| u l IH]; simpl; [done |].
  destruct (m !! Z.to_nat u) as [[|] |]; lia.
Qed.

Lemma pending_marked (g : Graph) (m : list bool) (u : Z) :
  marked m u -> pending g (<[Z.to_nat u := true]> m) = pending g m.
Proof. intros Hm. by rewrite list_insert_id. Qed.

Lemma pending_unmarked (g : Graph) (m : list bool) (u : Z) :
  0 <= u < numVertices g -> 0 <= u < Z.of_nat (length m) -> ~ marked m u ->
  pending g (<[Z.to_nat u := true]> m) = pending g m - Z.of_nat (length (adj g u)).
Proof.
  intros Hu Hlen Hfree. unfold pending.
  assert (Hin : In u (upto (numVertices g))) by by apply In_upto.
  assert (Hpos : forall x, In x (upto (numVertices g)) -> 0 <= x).
  { intros x Hx. apply In_upto in Hx. lia. }
  pose proof (NoDup_upto (numVertices g)) as Hnd.
  set (F := fun (m0 : list bool) (l : list Z) =>
              fold_right
                (fun u0 acc =>
                   match m0 !! Z.to_nat u0 with
                   | Some true => 0
                   | _ => Z.of_nat (length (adj g u0))
                   end + acc) 0 l).
  change (F (<[Z.to_nat u := true]> m) (upto (numVertices g))
          = F m (upto (numVertices g)) - Z.of_nat (length (adj g u))).
  assert (Hout : forall l, (forall x, In x l -> 0 <= x) -> ~ In u l ->
            F (<[Z.to_nat u := true]> m) l = F m l).
  { induction l as [| x l IH]; intros Hl Hx; [done |]. simpl.
    rewrite list_lookup_insert_ne.
    - rewrite IH; [done | intros y Hy; apply Hl; by right | intros Hy; apply Hx; by right].
    - intros Heq. apply Hx. left. specialize (Hl x ltac:(by left)). lia. }
  revert Hin Hpos Hnd. generalize (upto (numVertices g)).
  induction l as [| x l IH]; intros Hin Hpos Hnd; [done |].
  apply NoDup_cons in Hnd as [Hx Hnd]. rewrite list_elem_of_In in Hx. simpl.
  destruct Hin as [-> | Hin].
  - rewrite Hout by (done || intros y Hy; apply Hpos; by right).
    rewrite list_lookup_insert_eq by lia.
    unfold marked in Hfree. destruct (m !! Z.to_nat u) as [[|] |]; [done | lia | lia].
  - rewrite IH by (done || intros y Hy; apply Hpos; by right).
    rewrite list_lookup_insert_ne; [lia |].
    intros Heq. apply Hx. specialize (Hpos x ltac:(by left)).
    replace x with u by lia. done.
Qed.

Lemma pending_none (g : Graph) :
  Z.of_nat (length (adjacencyList g)) = numVertices g ->
  pending g (replicate (Z.to_nat (numVertices g)) false) = total_entries g.
Proof.
  intros Hlen. unfold pending, total_entries, upto. rewrite <- Hlen, Nat2Z.id.
  assert (Hgen : forall (l pre : list (list Neighbor)) (m : list bool),
            (forall i b, m !! i = Some b -> b = false) ->
            fold_right
              (fun u acc =>
                 match m !! Z.to_nat u with
                 | Some true => 0
                 | _ => Z.of_nat (length (if 0 <=? u
                                          then default [] ((pre ++ l) !! Z.to_nat u)
                                          else []))
                 end + acc)
              0 (map Z.of_nat (seq (length pre) (length l)))
            = Z.of_nat (length (concat l))).
  { induction l as [| x l IH]; intros pre m Hm; [done |]. simpl.
    rewrite Nat2Z.id. destruct (Z.leb_spec 0 (Z.of_nat (length pre))); [| lia].
    rewrite lookup_app_r, Nat.sub_diag by lia. simpl.
    specialize (IH (pre ++ [x]) m Hm). rewrite length_app, Nat.add_1_r in IH.
    rewrite <- app_assoc in IH. simpl in IH. rewrite IH, length_app.
    destruct (m !! length pre) as [[|] |] eqn:E; [by apply Hm in E | lia | lia]. }
  apply (Hgen (adjacencyList g) [] (replicate (length (adjacencyList g)) false)).
  intros i b Hb. by apply lookup_replicate in Hb as [-> _].
Qed.

Section PrimTurns.

Variable g : Graph.
Hypothesis Hwf : well_formed g = true.

(** One step of the [for] loop: it goes through, with at most one entry
    more in the queue and nothing changed for a neighbour that needs no
    update, or the queue is full. *)
Lemma prim_relax_progress (u : Z) (s : prim_state) (nb : Neighbor) (seen : list Neighbor) :
  In nb (adj g u) -> prim_relax_inv g s u seen ->
  (exists s',
     prim_relax u s nb = Ok s' /\ inMST s' = inMST s /\
     PriorityQueue.size (pr_pq s') <= PriorityQueue.size (pr_pq s) + 1 /\
     (settled s nb -> s' = s)) \/
  prim_relax u s nb = Throw PQIsFull.
Proof.
  intros Hnb (Hcore & Hu & Hmu & _ & _).
  pose proof (proj1 (well_formed_spec g) Hwf) as (_ & _ & Hadj).
  destruct (Hadj u nb Hnb) as [Hv _].
  pose proof Hcore as (Hlm & Hlk & Hlp & Hpq & _).
  unfold prim_relax.
  destruct (lookup_lt_is_Some_2 (inMST s) (Z.to_nat (vertex nb))) as [b Hb]; [lia |].
  rewrite (proj2 (aget_Ok (inMST s) (vertex nb) b)) by (split; [lia | done]). cbn [bind].
  destruct b; cbn [negb]; [left; exists s; repeat split; (done || lia) |].
  rewrite aget_nth_z by lia. cbn [bind].
  destruct (Z.ltb_spec (weight nb) (nth_z (key s) (vertex nb))) as [Hlt | Hge];
    [| left; exists s; repeat split; (done || lia)].
  rewrite !aset_in by lia. cbn [bind].
  rewrite aget_nth_z by (rewrite length_insert; lia). cbn [bind].
  destruct (Z.eq_dec (PriorityQueue.size (pr_pq s)) (PriorityQueue.capacity (pr_pq s)))
    as [Hfull | Hroom].
  { right. by rewrite insert_full. }
  pose proof (proj1 (pq_inv_spec _) Hpq) as (Hsz & _).
  destruct (insert_ok (pr_pq s) (vertex nb)
              (nth_z (<[Z.to_nat (vertex nb) := weight nb]> (key s)) (vertex nb))
              Hpq ltac:(lia)) as (q' & Hins & _ & Hsz' & _).
  rewrite Hins. cbn [bind]. left. eexists. split; [done |]. simpl.
  split; [done |]. split; [lia |].
  intros [Hm | Hk]; [unfold marked in Hm; congruence | lia].
Qed.

Lemma prim_relax_all_progress (u : Z) (nbs : list Neighbor) :
  (forall nb, In nb nbs -> In nb (adj g u)) ->
  forall (s : prim_state) (seen : list Neighbor),
    prim_relax_inv g s u seen ->
    (exists s',
       foldM (prim_relax u) nbs s = Ok s' /\ inMST s' = inMST s /\
       PriorityQueue.size (pr_pq s')
         <= PriorityQueue.size (pr_pq s) + Z.of_nat (length nbs) /\
       ((forall nb, In nb nbs -> settled s nb) -> s' = s)) \/
    foldM (prim_relax u) nbs s = Throw PQIsFull.
Proof.
  induction nbs as [| nb nbs IH]; intros Hnbs s seen Hinv.
  { left. exists s. simpl. repeat split; (done || lia). }
  cbn [foldM].
  destruct (prim_relax_progress u s nb seen (Hnbs nb ltac:(by left)) Hinv)
    as [(s1 & H1 & Hm1 & Hs1 & Hsame1) | Hthrow]; [| right; by rewrite Hthrow].
  rewrite H1. cbn [bind].
  pose proof (prim_relax_step g Hwf u s s1 nb seen (Hnbs nb ltac:(by left)) Hinv H1) as Hinv1.
  destruct (IH ltac:(intros; apply Hnbs; by right) s1 (nb :: seen) Hinv1)
    as [(s' & Hrun & Hm' & Hs' & Hsame') | Hthrow]; [| by right].
  left. exists s'. split; [done |]. split; [congruence |].
  split; [simpl length; lia |].
  intros Hall. rewrite (Hsame1 (Hall nb ltac:(by left))) in Hsame'.
  apply Hsame'. intros nb' Hnb'. apply Hall. by right.
Qed.

(** The [while] loop ends within [prim_work] turns. *)
Lemma prim_loop_progress (fuel : nat) :
  forall s : prim_state,
    prim_inv g s -> prim_work g s < Z.of_nat fuel ->
    (exists s', prim_loop fuel g s = Ok s') \/ prim_loop fuel g s = Throw PQIsFull.
Proof.
  pose proof (proj1 (well_formed_spec g) Hwf) as (Hn & Hlen & Hadj).
  induction fuel as [| fuel IH]; intros s Hinv Hwork.
  { destruct Hinv as ((_ & _ & _ & Hpq & _) & _).
    pose proof (proj1 (pq_inv_spec _) Hpq) as (Hsz & _).
    pose proof (pending_nonneg g (inMST s)). unfold prim_work in Hwork. lia. }
  cbn [prim_loop].
  destruct (PriorityQueue.isEmpty (pr_pq s)) eqn:Hemp; [left; by exists s |].
  pose proof Hinv as (Hcore & Hclosed).
  pose proof Hcore as (Hlm & Hlk & Hlp & Hpq & Hentries & _).
  pose proof (proj1 (pq_inv_spec _) Hpq) as (Hsz & _).
  unfold PriorityQueue.isEmpty in Hemp. apply Z.eqb_neq in Hemp.
  destruct (extractMin_ok (pr_pq s) Hpq ltac:(lia))
    as (e & q' & Hext & Hpq' & Hsz' & _ & Hcont & _).
  assert (Hu : 0 <= PriorityQueue.value e < numVertices g).
  { apply Hentries, (Permutation_in _ (Permutation_sym Hcont)). by left. }
  set (u := PriorityQueue.value e) in *.
  rewrite Hext. cbn [bind]. rewrite aset_in by lia. cbn [bind].
  rewrite getNeighbors_Ok by done. cbn [bind].
  pose proof (prim_mark_inv g Hwf s u q' Hinv Hext Hu) as Hmark.
  destruct (prim_relax_all_progress u (adj g u) ltac:(done) _ [] Hmark)
    as [(s1 & Hfold & Hm1 & Hs1 & Hsame) | Hthrow]; [| right; by rewrite Hthrow].
  rewrite Hfold. cbn [bind]. apply IH.
  - destruct (prim_relax_loop g Hwf u (adj g u) ltac:(done) _ s1 [] Hmark Hfold)
      as (Hcore1 & _ & Hmu1 & Hothers1 & Hseen1).
    split; [done |]. intros u' n0 Hu' Hm' Hn0.
    destruct (decide (u' = u)) as [-> | Hne]; [| by apply (Hothers1 u')].
    apply Hseen1. apply in_or_app. left. by apply in_rev in Hn0.
  - unfold prim_work in *. rewrite Hm1. cbn [inMST pr_pq] in Hs1 |- *.
    destruct (marked_dec (inMST s) u) as [Hmu | Hfree].
    + rewrite pending_marked by done.
      rewrite Hsame; [cbn [pr_pq]; lia |].
      intros nb Hnb. destruct (Hclosed u nb Hu Hmu Hnb) as [Hm | Hk]; [left | by right].
      simpl. destruct (Hadj u nb Hnb) as [Hv _].
      apply marked_insert; [lia | lia | by right].
    + rewrite pending_unmarked by (done || lia). lia.
Qed.

(** The last loop of prim goes through. *)
Lemma prim_edges_progress (s : prim_state) (xs : list Z) :
  prim_arrays_ok g s ->
  (forall v, In v xs -> 0 <= v < numVertices g) ->
  forall t : Graph, numVertices t = numVertices g ->
    exists t', foldM (prim_edge (key s) (pr_parent s)) xs t = Ok t'.
Proof.
  intros (Hlk & Hlp & Hok). induction xs as [| v xs IH]; intros Hxs t Ht.
  { by exists t. }
  cbn [foldM]. pose proof (Hxs v ltac:(by left)) as Hv.
  unfold prim_edge. rewrite aget_nth_z by lia. cbn [bind].
  destruct (Z.eqb_spec (nth_z (pr_parent s) v) (-1)) as [Heq | Hne]; cbn [negb bind].
  { apply IH; [intros x Hx; apply Hxs; by right | done]. }
  rewrite aget_nth_z by lia. cbn [bind].
  destruct (edge_of_range g (nth_z (pr_parent s) v) v (nth_z (key s) v) Hwf (Hok v Hv Hne))
    as (Hp & _).
  rewrite addEdge_Ok by lia. cbn [bind].
  apply IH; [intros x Hx; apply Hxs; by right | done].
Qed.

End PrimTurns.

(** X25.  On a well-formed graph with at least one vertex, prim never reads
    or writes outside its arrays and its [while] loop stops after at most as
    many turns as the graph has list nodes, plus one: prim returns a tree, or
    it throws because its priority queue is full. *)
Theorem prim_returns_or_queue_full (fuel : nat) (g : Graph) :
  well_formed g = true -> 0 < numVertices g ->
  total_entries g + 1 < Z.of_nat fuel ->
  (exists tree, prim fuel g = Ok tree) \/ prim fuel g = Throw PQIsFull.
Proof.
  intros Hwf Hpos Hfuel.
  pose proof (proj1 (well_formed_spec g) Hwf) as (Hn & Hlen & Hadj).
  unfold prim, getVertexCount.
  rewrite Graph_new_Ok, !new_array_Ok by lia. cbn [bind].
  rewrite aset_in by (rewrite length_replicate; lia). cbn [bind].
  destruct (PriorityQueue.new (numVertices g)) as [pq0 | | |] eqn:Hnew;
    unfold PriorityQueue.new in Hnew;
    (destruct (Z.leb_spec (numVertices g) 0); [lia |]);
    rewrite new_array_Ok in Hnew by lia; try done.
  injection Hnew as <-. cbn [bind].
  set (pq0 := PriorityQueue.mk _ _ _).
  assert (Hpq0 : pq_inv pq0 = true).
  { apply (new_inv (numVertices g)). unfold PriorityQueue.new.
    destruct (Z.leb_spec (numVertices g) 0); [lia |]. by rewrite new_array_Ok by lia. }
  destruct (insert_ok pq0 0 0 Hpq0 ltac:(simpl; lia))
    as (pq1 & Hins & Hpq1 & Hsz1 & _ & Hcont).
  rewrite Hins. cbn [bind]. simpl in Hsz1, Hcont.
  pose proof (prim_init_inv g pq1 Hpos Hpq1 Hcont) as Hinit.
  destruct (prim_loop_progress g Hwf fuel _ Hinit) as [(s & Hloop) | Hthrow];
    [| | right; by rewrite Hthrow].
  { unfold prim_work. cbn [pr_pq inMST]. rewrite pending_none by done. lia. }
  rewrite Hloop. cbn [bind]. left.
  assert (Harr0 : prim_arrays_ok g
            (mkPrim (replicate (Z.to_nat (numVertices g)) false)
                    (<[Z.to_nat 0 := 0]> (replicate (Z.to_nat (numVertices g)) INT_MAX))
                    (replicate (Z.to_nat (numVertices g)) (-1)) pq1)).
  { unfold prim_arrays_ok. simpl. rewrite length_insert, !length_replicate.
    split; [lia |]. split; [lia |]. intros v Hv Hpv.
    by rewrite nth_z_replicate in Hpv. }
  pose proof (prim_loop_arrays g Hlen fuel _ s Harr0 Hloop) as Harr.
  apply (prim_edges_progress g Hwf s); [done | | done].
  intros v Hv. apply in_map_iff in Hv as (i & <- & Hi). apply In_upto in Hi. lia.
Qed.

Lemma prim_returns_or_queue_full_witness :
  (exists tree, prim 8 triangle = Ok tree) \/ prim 8 triangle = Throw PQIsFull.
Proof.
  apply (prim_returns_or_queue_full 8 triangle); [reflexivity | reflexivity | by vm_compute].
Defined.

(** ** dijkstra: the loop ends *)

Section DijkstraTurns.

Variable g : Graph.
Hypothesis Hwf : well_formed g = true.
Hypothesis Hnonneg : nonneg_weights g = true.

(** One step of the relaxation loop at a vertex taken with its current
    distance: it goes through, with at most one entry more in the queue, or
    the queue is full, or the sum of distance and weight overflows. *)
Lemma relax_progress (f u : Z) (s : dijkstra_state) (nb : Neighbor)
    (seen : list Neighbor) (m : list bool) :
  0 <= u < numVertices g -> In nb (adj g u) ->
  relax_inv g s f u seen -> dj_done g s f u m ->
  (exists s',
     relax u s nb = Ok s' /\ dj_done g s' f u m /\
     PriorityQueue.size (dj_pq s') <= PriorityQueue.size (dj_pq s) + 1 /\
     in_int (f + weight nb) = true) \/
  relax u s nb = Throw PQIsFull \/ relax u s nb = Fault SignedOverflow.
Proof.
  intros Hu Hnb (Hshape & Hentries & Hprev & Hdu & Hpending & Hseen) (Hlm & Hdone & Hwait).
  pose proof (proj1 (well_formed_spec g) Hwf) as (Hn & Hlen & Hadj).
  destruct (Hadj u nb Hnb) as [Hv _].
  pose proof (nonneg_weights_spec g Hnonneg u nb Hnb) as Hw.
  pose proof Hshape as (Hld & Hlp & Hpq).
  unfold relax. rewrite aget_nth_z by lia. cbn [bind]. rewrite Hdu.
  unfold int_add. destruct (in_int (f + weight nb)) eqn:Hsum; [| right; by right].
  cbn [bind]. rewrite aget_nth_z by lia. cbn [bind].
  destruct (Z.ltb_spec (f + weight nb) (nth_z (dist s) (vertex nb))) as [Hlt | Hge].
  2:{ left. exists s. split; [done |]. split; [done |]. split; [lia | done]. }
  rewrite !aset_in by lia. cbn [bind].
  rewrite aget_nth_z by (rewrite length_insert; lia). cbn [bind].
  rewrite nth_z_insert, Z.eqb_refl by lia.
  destruct (Z.eq_dec (PriorityQueue.size (dj_pq s)) (PriorityQueue.capacity (dj_pq s)))
    as [Hfull | Hroom].
  { right. left. by rewrite insert_full. }
  pose proof (proj1 (pq_inv_spec _) Hpq) as (Hsz & _).
  destruct (insert_ok (dj_pq s) (vertex nb) (f + weight nb) Hpq ltac:(lia))
    as (q' & Hins & _ & Hsz' & _ & Hcont).
  rewrite Hins. cbn [bind]. left. eexists. split; [done |].
  set (alt := f + weight nb) in *. set (v := vertex nb) in *.
  assert (Hmono : forall j, nth_z (<[Z.to_nat v := alt]> (dist s)) j <= nth_z (dist s) j).
  { apply nth_z_insert_le; lia. }
  assert (Hdist : forall j, 0 <= j -> j <> v ->
            nth_z (<[Z.to_nat v := alt]> (dist s)) j = nth_z (dist s) j).
  { intros j Hj Hne. rewrite nth_z_insert by lia.
    destruct (Z.eqb_spec j v); [done | done]. }
  assert (Hdv : nth_z (<[Z.to_nat v := alt]> (dist s)) v = alt).
  { rewrite nth_z_insert by lia. by rewrite Z.eqb_refl. }
  split; [| split; [simpl; lia | done]].
  unfold dj_done. simpl. split; [done |]. split.
  - intros x Hx Hmx. destruct (Hdone x Hx Hmx) as (Hrel & Hle & Hov).
    assert (Hxv : x <> v) by (intros ->; lia).
    rewrite Hdist by lia. split; [| split; [done | done]].
    intros nb' Hnb'. rewrite (Hdist x) by lia. etrans; [apply Hmono | by apply Hrel].
  - intros x Hx Hxu Hfree Hfin. apply (Permutation_in _ (Permutation_sym Hcont)).
    destruct (decide (x = v)) as [-> | Hne].
    + left. by rewrite Hdv.
    + right. rewrite Hdist in Hfin |- * by lia. by apply Hwait.
Qed.

Lemma relax_all_progress (f u : Z) (m : list bool) (nbs : list Neighbor) :
  0 <= u < numVertices g -> (forall nb, In nb nbs -> In nb (adj g u)) ->
  forall (s : dijkstra_state) (seen : list Neighbor),
    relax_inv g s f u seen -> dj_done g s f u m ->
    (exists s',
       foldM (relax u) nbs s = Ok s' /\ dj_done g s' f u m /\
       PriorityQueue.size (dj_pq s')
         <= PriorityQueue.size (dj_pq s) + Z.of_nat (length nbs) /\
       forall nb, In nb nbs -> in_int (f + weight nb) = true) \/
    foldM (relax u) nbs s = Throw PQIsFull \/
    foldM (relax u) nbs s = Fault SignedOverflow.
Proof.
  intros Hu. induction nbs as [| nb nbs IH]; intros Hnbs s seen Hinv Hdone.
  { left. exists s. simpl. split; [done |]. split; [done |]. split; [lia | done]. }
  cbn [foldM].
  destruct (relax_progress f u s nb seen m Hu (Hnbs nb ltac:(by left)) Hinv Hdone)
    as [(s1 & H1 & Hdone1 & Hs1 & Hov1) | [Hthrow | Hfault]];
    [| right; left; by rewrite Hthrow | right; right; by rewrite Hfault].
  rewrite H1. cbn [bind].
  pose proof (relax_step g Hwf Hnonneg f u s s1 nb seen Hu (Hnbs nb ltac:(by left)) Hinv H1)
    as Hinv1.
  destruct (IH ltac:(intros; apply Hnbs; by right) s1 (nb :: seen) Hinv1 Hdone1)
    as [(s' & Hrun & Hdone' & Hs' & Hov') | Hfail]; [| by right].
  left. exists s'. split; [done |]. split; [done |].
  split; [simpl length; lia |].
  intros nb' [<- | Hnb']; [done | by apply Hov'].
Qed.

(** Relaxing from a vertex that is done changes nothing. *)
Lemma relax_all_stale (u : Z) (nbs : list Neighbor) (s : dijkstra_state) :
  0 <= u < numVertices g -> Z.of_nat (length (dist s)) = numVertices g ->
  relaxed g (dist s) u ->
  (forall nb, In nb (adj g u) -> in_int (nth_z (dist s) u + weight nb) = true) ->
  (forall nb, In nb nbs -> In nb (adj g u)) ->
  foldM (relax u) nbs s = Ok s.
Proof.
  intros Hu Hld Hrel Hov.
  pose proof (proj1 (well_formed_spec g) Hwf) as (Hn & Hlen & Hadj).
  induction nbs as [| nb nbs IH]; intros Hnbs; [done |].
  cbn [foldM]. pose proof (Hnbs nb ltac:(by left)) as Hnb.
  destruct (Hadj u nb Hnb) as [Hv _].
  unfold relax at 1. rewrite aget_nth_z by lia. cbn [bind].
  unfold int_add. rewrite (Hov nb Hnb). cbn [bind].
  rewrite aget_nth_z by lia. cbn [bind].
  specialize (Hrel nb Hnb).
  destruct (Z.ltb_spec (nth_z (dist s) u + weight nb) (nth_z (dist s) (vertex nb)));
    [lia |].
  cbn [bind]. apply IH. intros; apply Hnbs; by right.
Qed.

(** One turn of the [while] loop: it goes through and leaves less work, or
    the queue is full, or a sum overflows. *)
Lemma dijkstra_turn (s : dijkstra_state) (f : Z) (m : list bool) :
  dj_inv g s f -> dj_done g s f (-1) m ->
  PriorityQueue.isEmpty (dj_pq s) = false ->
  exists u pq',
    PriorityQueue.extractMin (dj_pq s) = Ok (u, pq') /\
    getNeighbors g u = Ok (adj g u) /\
    ((exists s1 p m',
        foldM (relax u) (adj g u) (mkDijkstra (dist s) (prev s) pq') = Ok s1 /\
        dj_inv g s1 p /\ dj_done g s1 p (-1) m' /\ dj_work g s1 m' < dj_work g s m) \/
     foldM (relax u) (adj g u) (mkDijkstra (dist s) (prev s) pq') = Throw PQIsFull \/
     foldM (relax u) (adj g u) (mkDijkstra (dist s) (prev s) pq') = Fault SignedOverflow).
Proof.
  intros (Hshape & Hentries & Hprev & Hpending) (Hlm & Hdone & Hwait) Hemp.
  pose proof (proj1 (well_formed_spec g) Hwf) as (Hn & Hlen & Hadj).
  pose proof Hshape as (Hld & Hlp & Hpq).
  pose proof (proj1 (pq_inv_spec _) Hpq) as (Hsz & _).
  unfold PriorityQueue.isEmpty in Hemp. apply Z.eqb_neq in Hemp.
  destruct (extractMin_ok (dj_pq s) Hpq ltac:(lia))
    as (e & q' & Hext & Hpq' & Hsz' & _ & Hcont & Hmin).
  assert (He : In e (contents (dj_pq s))).
  { apply (Permutation_in _ (Permutation_sym Hcont)). by left. }
  destruct (Hentries e He) as (Hu & Hp & Hdu).
  set (u := PriorityQueue.value e) in *. set (p := PriorityQueue.priority e) in *.
  exists u, q'. split; [done |]. split; [by apply getNeighbors_Ok |].
  set (s0 := mkDijkstra (dist s) (prev s) q') in *.
  assert (Hshape0 : shape_ok g s0) by done.
  assert (Hentries0 : entries_ok g s0 p).
  { intros x Hx.
    assert (Hx' : In x (contents (dj_pq s))).
    { apply (Permutation_in _ (Permutation_sym Hcont)). by right. }
    destruct (Hentries x Hx') as (H1 & H2 & H3).
    split; [done |]. split; [| done]. split; [by apply Hmin | lia]. }
  assert (Hprev0 : prev_ok g s0 p).
  { intros v Hv Hpv. destruct (Hprev v Hv Hpv) as (H1 & H2 & H3).
    split; [done |]. split; [simpl; lia | done]. }
  assert (Hpending0 : forall v, 0 <= v < numVertices g -> v <> u ->
                        pending_or_relaxed g s0 v).
  { intros v Hv Hvu. destruct (Hpending v Hv) as [Hin | Hrest]; [| by right].
    left. apply (Permutation_in _ Hcont) in Hin as [Heq | Hin]; [| done].
    unfold u in Hvu. rewrite Heq in Hvu. done. }
  assert (Hwait0 : forall v, 0 <= v < numVertices g -> v <> u -> ~ marked m v ->
            nth_z (dist s) v < INT_MAX ->
            In (PriorityQueue.mkElement v (nth_z (dist s) v)) (contents q')).
  { intros v Hv Hvu Hfree Hfin.
    pose proof (Hwait v Hv ltac:(lia) Hfree Hfin) as Hin.
    apply (Permutation_in _ Hcont) in Hin as [Heq | Hin]; [| done].
    unfold u in Hvu. rewrite Heq in Hvu. done. }
  assert (Hdone0 : forall v, 0 <= v < numVertices g -> marked m v ->
            relaxed g (dist s) v /\ nth_z (dist s) v <= p /\
            forall nb, In nb (adj g v) -> in_int (nth_z (dist s) v + weight nb) = true).
  { intros v Hv Hmv. destruct (Hdone v Hv Hmv) as (Hrel & Hle & Hov).
    split; [done |]. split; [lia | done]. }
  destruct (marked_dec m u) as [Hmu | Hfree].
  - (* an entry of a vertex that is done *)
    destruct (Hdone u Hu Hmu) as (Hrel & Hle & Hov).
    left. exists s0, p, m. split; [by apply relax_all_stale |].
    split; [| split].
    + split; [done |]. split; [done |]. split; [done |].
      intros v Hv. destruct (decide (v = u)) as [-> | Hvu]; [| by apply Hpending0].
      right. by left.
    + split; [done |]. split; [done |].
      intros v Hv _ Hfv Hfin. apply Hwait0; [done | | done | done].
      intros ->. done.
    + unfold dj_work. simpl. lia.
  - (* the entry carries the current distance of u *)
    assert (Hfresh : nth_z (dist s) u = p).
    { destruct (Z.eq_dec (nth_z (dist s) u) INT_MAX) as [Hinf | Hfin]; [lia |].
      pose proof (Hmin _ (Hwait u Hu ltac:(lia) Hfree ltac:(lia))) as Hle.
      simpl in Hle. fold p in Hle. lia. }
    assert (Hrinv : relax_inv g s0 p u []) by by repeat (split; [done |]).
    assert (Hd0 : dj_done g s0 p u m) by by repeat (split; [done |]).
    destruct (relax_all_progress p u m (adj g u) Hu ltac:(done) s0 [] Hrinv Hd0)
      as [(s1 & Hfold & (_ & Hdone1 & Hwait1) & Hs1 & Hov1) | Hfail]; [| by right].
    pose proof (relax_loop g Hwf Hnonneg p u (adj g u) Hu ltac:(done) s0 s1 [] Hrinv Hfold)
      as (Hshape1 & Hentries1 & Hprev1 & Hdu1 & Hpending1 & Hseen1).
    assert (Hrel1 : relaxed g (dist s1) u).
    { intros nb Hnb. rewrite Hdu1. apply Hseen1.
      apply in_or_app. left. by apply in_rev in Hnb. }
    assert (Hmarks : forall x, 0 <= x ->
              (marked (<[Z.to_nat u := true]> m) x <-> x = u \/ marked m x)).
    { intros x Hx. apply marked_insert; lia. }
    left. exists s1, p, (<[Z.to_nat u := true]> m). split; [done |].
    split; [| split].
    + split; [done |]. split; [done |]. split; [done |].
      intros v Hv. destruct (decide (v = u)) as [-> | Hvu]; [| by apply Hpending1].
      right. by left.
    + split; [by rewrite length_insert |]. split.
      * intros v Hv Hmv. apply Hmarks in Hmv as [-> | Hmv]; [| by apply Hdone1 | lia].
        split; [done |]. split; [lia |].
        intros nb Hnb. rewrite Hdu1. by apply Hov1.
      * intros v Hv _ Hfv Hfin.
        assert (Hvu : v <> u) by (intros ->; apply Hfv, Hmarks; [lia | by left]).
        apply Hwait1; [done | done | | done].
        intros Hmv. apply Hfv, Hmarks; [lia | by right].
    + unfold dj_work. rewrite pending_unmarked by (done || lia).
      simpl in Hs1. lia.
Qed.

Lemma dijkstra_loop_progress (fuel : nat) :
  forall (s : dijkstra_state) (f : Z) (m : list bool),
    dj_inv g s f -> dj_done g s f (-1) m -> dj_work g s m < Z.of_nat fuel ->
    (exists s' f', dijkstra_loop fuel g s = Ok s' /\ dj_inv g s' f') \/
    dijkstra_loop fuel g s = Throw PQIsFull \/
    dijkstra_loop fuel g s = Fault SignedOverflow.
Proof.
  induction fuel as [| fuel IH]; intros s f m Hinv Hdone Hwork.
  { destruct Hinv as ((_ & _ & Hpq) & _).
    pose proof (proj1 (pq_inv_spec _) Hpq) as (Hsz & _).
    pose proof (pending_nonneg g m). unfold dj_work in Hwork. lia. }
  cbn [dijkstra_loop].
  destruct (PriorityQueue.isEmpty (dj_pq s)) eqn:Hemp; [left; by exists s, f |].
  destruct (dijkstra_turn s f m Hinv Hdone Hemp)
    as (u & pq' & Hext & Hnbs & [(s1 & p & m' & Hfold & Hinv1 & Hdone1 & Hless) | Hfail]).
  - rewrite Hext. cbn [bind]. rewrite Hnbs. cbn [bind]. rewrite Hfold. cbn [bind].
    apply (IH s1 p m'); [done | done | lia].
  - rewrite Hext. cbn [bind]. rewrite Hnbs. cbn [bind].
    right. destruct Hfail as [-> | ->]; [by left | by right].
Qed.

(** The last loop of dijkstra goes through. *)
Lemma dijkstra_edges_progress (s : dijkstra_state) (f : Z) (xs : list Z) :
  dj_inv g s f -> (forall v, In v xs -> 0 <= v < numVertices g) ->
  forall t : Graph, numVertices t = numVertices g ->
    exists t', foldM (dijkstra_edge (dist s) (prev s)) xs t = Ok t'.
Proof.
  intros ((Hld & Hlp & _) & _ & Hprev & _).
  pose proof (proj1 (well_formed_spec g) Hwf) as (Hn & Hlen & Hadj).
  induction xs as [| v xs IH]; intros Hxs t Ht.
  { by exists t. }
  cbn [foldM]. pose proof (Hxs v ltac:(by left)) as Hv.
  unfold dijkstra_edge. rewrite aget_nth_z by lia. cbn [bind].
  destruct (Z.eqb_spec (nth_z (prev s) v) (-1)) as [Heq | Hne]; cbn [negb bind].
  { apply IH; [intros x Hx; apply Hxs; by right | done]. }
  destruct (Hprev v Hv Hne) as (Hp & _ & w & Hedge & Hsum).
  destruct (Hadj _ _ Hedge) as [_ Hw]. simpl in Hw.
  rewrite !aget_nth_z by lia. cbn [bind].
  unfold int_sub. replace (nth_z (dist s) v - nth_z (dist s) (nth_z (prev s) v)) with w by lia.
  rewrite Hw. cbn [bind]. rewrite addEdge_Ok by lia. cbn [bind].
  apply IH; [intros x Hx; apply Hxs; by right | done].
Qed.

End DijkstraTurns.

(** X26.  On a well-formed graph with non-negative weights and a valid
    start, dijkstra never reads or writes outside its arrays and its [while]
    loop stops after at most as many turns as the graph has list nodes, plus
    one: dijkstra returns a tree, or it throws because its priority queue is
    full, or a sum [dist[u] + w] overflows. *)
Theorem dijkstra_returns_or_fails (fuel : nat) (g : Graph) (start : Z) :
  well_formed g = true -> nonneg_weights g = true -> valid_vertex g start = true ->
  total_entries g + 1 < Z.of_nat fuel ->
  (exists tree, dijkstra fuel g start = Ok tree) \/
  dijkstra fuel g start = Throw PQIsFull \/
  dijkstra fuel g start = Fault SignedOverflow.
Proof.
  intros Hwf Hnonneg Hs Hfuel. apply valid_vertex_spec in Hs.
  pose proof (proj1 (well_formed_spec g) Hwf) as (Hn & Hlen & Hadj).
  unfold dijkstra, getVertexCount. rewrite Graph_new_Ok by lia. cbn [bind].
  unfold dijkstra_search, getVertexCount.
  rewrite !new_array_Ok by lia. cbn [bind].
  rewrite aset_in by (rewrite length_replicate; lia). cbn [bind].
  destruct (PriorityQueue.new (numVertices g)) as [pq0 | | |] eqn:Hnew;
    unfold PriorityQueue.new in Hnew;
    (destruct (Z.leb_spec (numVertices g) 0); [lia |]);
    rewrite new_array_Ok in Hnew by lia; try done.
  injection Hnew as <-. cbn [bind].
  set (pq0 := PriorityQueue.mk _ _ _).
  assert (Hpq0 : pq_inv pq0 = true).
  { apply (new_inv (numVertices g)). unfold PriorityQueue.new.
    destruct (Z.leb_spec (numVertices g) 0); [lia |]. by rewrite new_array_Ok by lia. }
  destruct (insert_ok pq0 start 0 Hpq0 ltac:(simpl; lia))
    as (pq1 & Hins & Hpq1 & Hsz1 & _ & Hcont).
  rewrite Hins. cbn [bind]. simpl in Hsz1, Hcont.
  set (s0 := mkDijkstra _ _ pq1).
  assert (Hd : forall v, 0 <= v ->
            nth_z (<[Z.to_nat start := 0]> (replicate (Z.to_nat (numVertices g)) INT_MAX)) v
            = if v =? start then 0 else
                nth_z (replicate (Z.to_nat (numVertices g)) INT_MAX) v).
  { intros v Hv. apply nth_z_insert; [rewrite length_replicate |]; lia. }
  assert (Hnone : forall v, ~ marked (replicate (Z.to_nat (numVertices g)) false) v).
  { intros v Hm. unfold marked in Hm. apply lookup_replicate in Hm as [? _]. done. }
  assert (Hinit : dj_inv g s0 0).
  { split; [| split; [| split]].
    - unfold shape_ok. simpl. rewrite length_insert, !length_replicate.
      split; [lia |]. split; [lia | done].
    - intros e He. simpl in He. apply (Permutation_in _ Hcont) in He as [<- | []].
      simpl. rewrite Hd, Z.eqb_refl by lia. unfold INT_MAX. lia.
    - intros v Hv Hpv. simpl in Hpv. rewrite nth_z_replicate in Hpv by done. done.
    - intros v Hv. unfold pending_or_relaxed. simpl. rewrite Hd by lia.
      destruct (Z.eqb_spec v start) as [-> | Hne].
      + left. apply (Permutation_in _ (Permutation_sym Hcont)). by left.
      + right. right. by apply nth_z_replicate. }
  assert (Hdone : dj_done g s0 0 (-1) (replicate (Z.to_nat (numVertices g)) false)).
  { split; [rewrite length_replicate; lia |].
    split; [intros v _ Hm; by apply Hnone in Hm |].
    intros v Hv _ _. simpl. rewrite Hd by lia.
    destruct (Z.eqb_spec v start) as [-> | Hne].
    - intros _. apply (Permutation_in _ (Permutation_sym Hcont)). by left.
    - rewrite nth_z_replicate by done. lia. }
  destruct (dijkstra_loop_progress g Hwf Hnonneg fuel s0 0 _ Hinit Hdone)
    as [(s & f & Hloop & Hinv) | [Hthrow | Hfault]];
    [| | right; left; by rewrite Hthrow | right; right; by rewrite Hfault].
  { unfold dj_work. simpl. rewrite pending_none by done. lia. }
  rewrite Hloop. cbn [bind]. left.
  apply (dijkstra_edges_progress g Hwf s f); [done | | done].
  intros v Hv. by apply In_upto in Hv.
Qed.

Lemma dijkstra_returns_or_fails_witness :
  (exists tree, dijkstra 8 triangle 0 = Ok tree) \/
  dijkstra 8 triangle 0 = Throw PQIsFull \/
  dijkstra 8 triangle 0 = Fault SignedOverflow.
Proof.
  apply (dijkstra_returns_or_fails 8 triangle 0);
    [reflexivity | reflexivity | reflexivity | by vm_compute].
Defined.
